(** * Memory-operation optimizer of the C2 ideal graph (opto/memnode.cpp)

    A shallow embedding of the parts of [memnode.cpp] that deal with
    store-to-load forwarding ([MemNode::find_previous_store],
    [MemNode::can_see_stored_value], [LoadNode::Identity], the [Value] of
    byte, short and char loads), sparse memory merges ([MergeMemNode]),
    initialization barriers ([InitializeNode], with
    [InitializeNode::coalesce_subword_stores] and
    [AllocateNode::maybe_set_complete]), the adjacent-store merger
    ([MergePrimitiveStores]), the simplifications of stores
    ([StoreNode::Ideal_masked_input], [StoreNode::Ideal_sign_extended_input],
    the folding of back-to-back stores in [StoreNode::Ideal]) and value
    numbering of stores ([StoreNode::hash], [StoreNode::cmp]).

    The ideal graph is an arena: a finite map from node index ([Node::_idx])
    to the node's opcode, input edges and attributes.  A [Node*] is a node
    index, a nullable [Node*] is an [option].  Code of the compiler that is
    not part of [memnode.cpp] (type lattice, alias classifier, address
    decomposition, dominance, the GVN driver, the matcher) is a parameter
    of the development, collected in the class [PhaseValues] and in the
    smaller classes next to the code that asks for them. *)

From Stdlib Require Import ZArith Lia Bool.
From stdpp Require Import base numbers option list gmap.

Local Open Scope Z_scope.

(** ** The ideal graph *)

Module IR.

(** Opcodes ([opto/classes.hpp]); only those memnode.cpp tells apart. *)
Inductive opcode :=
  | Op_Con            (* the TOP constant, Compile::top() *)
  | Op_ConI | Op_ConL | Op_ConP | Op_ConN | Op_ConF | Op_ConD
  | Op_AddP | Op_CastPP | Op_CheckCastPP
  | Op_ConvL2I | Op_RShiftI | Op_RShiftL | Op_URShiftI | Op_URShiftL | Op_AndI
  | Op_Proj | Op_Parm | Op_IfTrue | Op_IfFalse
  | Op_Start | Op_Root | Op_Region | Op_Phi | Op_If | Op_RangeCheck
  | Op_Allocate | Op_AllocateArray | Op_Initialize
  | Op_CallStaticJava | Op_CallLeaf | Op_ArrayCopy | Op_ClearArray
  | Op_MemBarAcquire | Op_MemBarAcquireLock | Op_LoadFence
  | Op_MemBarRelease | Op_StoreFence | Op_MemBarReleaseLock
  | Op_MemBarStoreStore | Op_StoreStoreFence
  | Op_MemBarCPUOrder | Op_MemBarVolatile
  | Op_MergeMem
  | Op_LoadB | Op_LoadUB | Op_LoadS | Op_LoadUS | Op_LoadI | Op_LoadL
  | Op_LoadF | Op_LoadD | Op_LoadP | Op_LoadN | Op_LoadKlass | Op_LoadNKlass
  | Op_LoadVector
  | Op_StoreB | Op_StoreC | Op_StoreI | Op_StoreL
  | Op_StoreF | Op_StoreD | Op_StoreP | Op_StoreN | Op_StoreNKlass
  | Op_StoreVector
  | Op_Node.          (* any other node *)

#[global] Instance opcode_eq_dec : EqDecision opcode.
Proof. solve_decision. Defined.

(** [BasicType] ([utilities/globalDefinitions.hpp]). *)
Inductive BasicType :=
  | T_BOOLEAN | T_CHAR | T_FLOAT | T_DOUBLE | T_BYTE | T_SHORT | T_INT
  | T_LONG | T_OBJECT | T_ARRAY | T_VOID | T_ADDRESS | T_NARROWOOP
  | T_METADATA | T_NARROWKLASS.

#[global] Instance BasicType_eq_dec : EqDecision BasicType.
Proof. solve_decision. Defined.

(** The part of the type lattice ([opto/type.hpp]) that memnode.cpp asks
    about: integer ranges, and pointer types with their [base()] tag. The
    widening bits of integer types are left out. *)
Inductive ptr_base :=
  | AnyPtr | RawPtr | OopPtr | InstPtr | AryPtr
  | MetadataPtr | KlassPtr | InstKlassPtr | AryKlassPtr.

#[global] Instance ptr_base_eq_dec : EqDecision ptr_base.
Proof. solve_decision. Defined.

Record TypePtr := mkTypePtr {
  ptr_base_of : ptr_base;
  ptr_offset : Z;
  instance_id : Z;
  is_ptr_to_boxed_value : bool;
  is_stable : bool;
  ptr_empty : bool;
}.

#[global] Instance TypePtr_eq_dec : EqDecision TypePtr.
Proof. solve_decision. Defined.

Inductive Type_ :=
  | Type_TOP | Type_BOTTOM | Type_CONTROL | Type_MEMORY | Type_ABIO
  | TypeInt (lo hi : Z)
  | TypeLong (lo hi : Z)
  | TypeF | TypeD | TypeVect | TypeNarrowOop
  | TypePtr_ (p : TypePtr).

#[global] Instance Type_eq_dec : EqDecision Type_.
Proof. solve_decision. Defined.

(** [TypeOopPtr::is_known_instance], [is_known_instance_field]. *)
Definition is_known_instance (p : TypePtr) : bool := 0 <? instance_id p.
Definition is_known_instance_field (p : TypePtr) : bool :=
  is_known_instance p && (0 <=? ptr_offset p).

Definition isa_ptr (t : Type_) : option TypePtr :=
  match t with TypePtr_ p => Some p | _ => None end.

Definition isa_oopptr (t : Type_) : option TypePtr :=
  match t with
  | TypePtr_ p =>
      match ptr_base_of p with
      | OopPtr | InstPtr | AryPtr => Some p
      | _ => None
      end
  | _ => None
  end.

Definition isa_instptr (t : Type_) : option TypePtr :=
  match t with
  | TypePtr_ p => if decide (ptr_base_of p = InstPtr) then Some p else None
  | _ => None
  end.

Definition isa_vect (t : Type_) : bool :=
  match t with TypeVect => true | _ => false end.

(** [TypeInt::make(con)]: the singleton range. *)
Definition TypeInt_make (con : Z) : Type_ := TypeInt con con.

(** [TypeInt::BYTE], [TypeInt::UBYTE]. *)
Definition TypeInt_BYTE : Type_ := TypeInt (-128) 127.
Definition TypeInt_UBYTE : Type_ := TypeInt 0 255.

(** [t1->higher_equal(t2)]: [t1] is at least as precise as [t2].  On
    integer ranges this is inclusion; TOP is above and BOTTOM below
    everything; other types are only compared for equality. *)
Definition higher_equal (t1 t2 : Type_) : bool :=
  match t1, t2 with
  | Type_TOP, _ => true
  | _, Type_BOTTOM => true
  | TypeInt l1 h1, TypeInt l2 h2 => (l2 <=? l1) && (h1 <=? h2)
  | TypeLong l1 h1, TypeLong l2 h2 => (l2 <=? l1) && (h1 <=? h2)
  | _, _ => bool_decide (t1 = t2)
  end.

(** [LoadNode::ControlDependency] ([opto/memnode.hpp]). *)
Inductive ControlDependency := Pinned | UnknownControl | DependsOnlyOnTest.

#[global] Instance ControlDependency_eq_dec : EqDecision ControlDependency.
Proof. solve_decision. Defined.

(** A node: opcode, required input edges [in(0..req())] (a null edge is
    [None]), def-use edges [raw_out(0..outcnt())], and the attributes that
    subclasses keep in fields: [_con] of a constant or projection,
    [bottom_type()], [_control_dependency] of a load, [_is_complete] of an
    initialization barrier. *)
Record Node := mkNode {
  Opcode : opcode;
  ins : list (option nat);
  outs : list nat;
  con : Z;
  bottom_type : Type_;
  control_dependency : ControlDependency;
  is_complete_flag : bool;
}.

(** Edge indices: [MemNode::{Control,Memory,Address,ValueIn}],
    [TypeFunc::{Control,I_O,Memory,FramePtr,ReturnAdr,Parms}],
    [Compile::AliasIdx{Top,Bot,Raw}], [InitializeNode::{RawAddress,RawStores}],
    [AddPNode::{Base,Address,Offset}], [ArrayCopyNode::{Src,Dest}]. *)
Definition MemNode_Control : nat := 0.
Definition MemNode_Memory : nat := 1.
Definition MemNode_Address : nat := 2.
Definition MemNode_ValueIn : nat := 3.
Definition TypeFunc_Control : nat := 0.
Definition TypeFunc_Memory : nat := 2.
Definition TypeFunc_Parms : nat := 5.
Definition AliasIdxTop : nat := 1.
Definition AliasIdxBot : nat := 2.
Definition AliasIdxRaw : nat := 3.
Definition RawAddress : nat := 5.
Definition RawStores : nat := 6.
Definition AddPNode_Base : nat := 1.
Definition AddPNode_Address : nat := 2.
Definition AddPNode_Offset : nat := 3.
Definition ArrayCopyNode_Src : nat := 5.
Definition ArrayCopyNode_Dest : nat := 7.

(** Sizes and sentinels ([globalDefinitions.hpp], [type.hpp], [node.hpp]). *)
Definition BytesPerInt : Z := 4.
Definition BytesPerLong : Z := 8.
Definition OffsetBot : Z := -2000000001.
Definition OffsetTop : Z := -2000000000.
Definition NO_HASH : Z := 0.
Definition max_intptr : Z := 2 ^ 63 - 1.

(** Class tests ([Node::is_Store()] and friends walk the class-id bits;
    subclasses answer for their superclasses: an [Initialize] is a [MemBar],
    an [Allocate] or [ArrayCopy] is a [Call], a [Parm] is a [Proj]). *)
Definition opc_is_Store (o : opcode) : bool :=
  match o with
  | Op_StoreB | Op_StoreC | Op_StoreI | Op_StoreL | Op_StoreF | Op_StoreD
  | Op_StoreP | Op_StoreN | Op_StoreNKlass | Op_StoreVector => true
  | _ => false
  end.

Definition opc_is_Load (o : opcode) : bool :=
  match o with
  | Op_LoadB | Op_LoadUB | Op_LoadS | Op_LoadUS | Op_LoadI | Op_LoadL
  | Op_LoadF | Op_LoadD | Op_LoadP | Op_LoadN | Op_LoadKlass | Op_LoadNKlass
  | Op_LoadVector => true
  | _ => false
  end.

Definition opc_is_Proj (o : opcode) : bool :=
  match o with
  | Op_Proj | Op_Parm | Op_IfTrue | Op_IfFalse => true
  | _ => false
  end.

Definition opc_is_Con (o : opcode) : bool :=
  match o with
  | Op_Con | Op_ConI | Op_ConL | Op_ConP | Op_ConN | Op_ConF | Op_ConD => true
  | _ => false
  end.

Definition opc_is_Allocate (o : opcode) : bool :=
  match o with Op_Allocate | Op_AllocateArray => true | _ => false end.

Definition opc_is_MemBar (o : opcode) : bool :=
  match o with
  | Op_Initialize
  | Op_MemBarAcquire | Op_MemBarAcquireLock | Op_LoadFence
  | Op_MemBarRelease | Op_StoreFence | Op_MemBarReleaseLock
  | Op_MemBarStoreStore | Op_StoreStoreFence
  | Op_MemBarCPUOrder | Op_MemBarVolatile => true
  | _ => false
  end.

Definition opc_is_Call (o : opcode) : bool :=
  match o with
  | Op_Allocate | Op_AllocateArray | Op_CallStaticJava | Op_CallLeaf
  | Op_ArrayCopy => true
  | _ => false
  end.

Section Graph.
Context (g : gmap nat Node).

(** [n->Opcode()]; a dangling index has none. *)
Definition opcode_of (n : nat) : option opcode := Opcode <$> g !! n.

(** [n->is_X()] for a node [n], by a test on its opcode. *)
Definition node_is (p : opcode → bool) (n : nat) : bool :=
  match g !! n with Some nd => p (Opcode nd) | None => false end.

Definition is_Store := node_is opc_is_Store.
Definition is_Load := node_is opc_is_Load.
Definition is_Mem := node_is (λ o, opc_is_Store o || opc_is_Load o).
Definition is_Proj := node_is opc_is_Proj.
Definition is_Con := node_is opc_is_Con.
Definition is_Allocate := node_is opc_is_Allocate.
Definition is_MemBar := node_is opc_is_MemBar.
Definition is_Call := node_is opc_is_Call.
Definition is_Initialize := node_is (λ o, bool_decide (o = Op_Initialize)).
Definition is_MergeMem := node_is (λ o, bool_decide (o = Op_MergeMem)).
Definition is_ClearArray := node_is (λ o, bool_decide (o = Op_ClearArray)).
Definition is_ArrayCopy := node_is (λ o, bool_decide (o = Op_ArrayCopy)).
Definition is_AddP := node_is (λ o, bool_decide (o = Op_AddP)).
Definition is_Phi := node_is (λ o, bool_decide (o = Op_Phi)).
Definition is_ConI := node_is (λ o, bool_decide (o = Op_ConI)).
Definition is_StoreVector := node_is (λ o, bool_decide (o = Op_StoreVector)).
Definition has_opcode (o : opcode) := node_is (λ o', bool_decide (o' = o)).

(** The same tests through a nullable pointer: the source dereferences,
    the model answers [false] for null. *)
Definition opt_is (p : nat → bool) (n : option nat) : bool :=
  match n with Some m => p m | None => false end.

(** [n->in(i)]; null for a null edge, and (where the source would assert
    [i < _max]) for an index beyond the edge array. *)
Definition in_ (n i : nat) : option nat :=
  match g !! n with Some nd => mjoin (ins nd !! i) | None => None end.

(** [n->req()]. *)
Definition req (n : nat) : nat :=
  match g !! n with Some nd => length (ins nd) | None => 0%nat end.

(** [n->outcnt()], [n->raw_out(i)]. *)
Definition outcnt (n : nat) : nat :=
  match g !! n with Some nd => length (outs nd) | None => 0%nat end.
Definition raw_out (n i : nat) : option nat :=
  match g !! n with Some nd => outs nd !! i | None => None end.

(** [n->get_int()], the constant of a [ConI]; [n->bottom_type()]. *)
Definition get_int (n : nat) : Z :=
  match g !! n with Some nd => con nd | None => 0 end.
Definition bottom_type_of (n : nat) : Type_ :=
  match g !! n with Some nd => bottom_type nd | None => Type_TOP end.

(** [LoadNode::has_pinned_control_dependency()] ([memnode.hpp]). *)
Definition has_pinned_control_dependency (n : nat) : bool :=
  match g !! n with
  | Some nd => bool_decide (control_dependency nd = Pinned)
  | None => false
  end.
End Graph.

(** [MemNode::store_Opcode()] ([memnode.hpp]): the store that matches a
    load; a store answers with its own opcode. *)
Definition store_Opcode (o : opcode) : opcode :=
  match o with
  | Op_LoadB | Op_LoadUB => Op_StoreB
  | Op_LoadS | Op_LoadUS => Op_StoreC
  | Op_LoadI => Op_StoreI
  | Op_LoadL => Op_StoreL
  | Op_LoadF => Op_StoreF
  | Op_LoadD => Op_StoreD
  | Op_LoadP | Op_LoadKlass => Op_StoreP
  | Op_LoadN => Op_StoreN
  | Op_LoadNKlass => Op_StoreNKlass
  | Op_LoadVector => Op_StoreVector
  | o => o
  end.

(** [MemNode::value_basic_type()] ([memnode.hpp], [vectornode.hpp]); vector
    accesses answer [T_VOID]. *)
Definition value_basic_type (o : opcode) : BasicType :=
  match o with
  | Op_LoadB | Op_StoreB => T_BYTE
  | Op_LoadUB => T_BOOLEAN
  | Op_LoadS => T_SHORT
  | Op_LoadUS | Op_StoreC => T_CHAR
  | Op_LoadI | Op_StoreI => T_INT
  | Op_LoadL | Op_StoreL => T_LONG
  | Op_LoadF | Op_StoreF => T_FLOAT
  | Op_LoadD | Op_StoreD => T_DOUBLE
  | Op_LoadP | Op_LoadKlass | Op_StoreP => T_ADDRESS
  | Op_LoadN | Op_StoreN => T_NARROWOOP
  | Op_LoadNKlass | Op_StoreNKlass => T_NARROWKLASS
  | _ => T_VOID
  end.

(** [type2aelembytes]. *)
Definition type2aelembytes (bt : BasicType) : Z :=
  match bt with
  | T_BOOLEAN | T_BYTE => 1
  | T_CHAR | T_SHORT => 2
  | T_INT | T_FLOAT | T_NARROWOOP | T_NARROWKLASS => 4
  | T_LONG | T_DOUBLE | T_OBJECT | T_ARRAY | T_ADDRESS | T_METADATA => 8
  | T_VOID => 0
  end.

(** [jint] arithmetic: values are kept in the signed 32-bit range by
    wrapping; [<<] wraps, [>>] is the arithmetic shift. *)
Definition jint_wrap (z : Z) : Z := (z + 2 ^ 31) mod 2 ^ 32 - 2 ^ 31.
Definition jint_shl (x s : Z) : Z := jint_wrap (Z.shiftl x s).
Definition jint_sar (x s : Z) : Z := Z.shiftr x s.
Definition is_jint (z : Z) : Prop := - 2 ^ 31 <= z < 2 ^ 31.

End IR.

Export IR.

(** ** Collaborators of memnode.cpp *)

(** VM flags and build macros the code consults. *)
Class VMFlags := {
  MaxVectorSize : Z;
  ReduceBulkZeroing : bool;
  FoldStableValues : bool;
  TrackedInitializationLimit : Z;
  HeapWordSize : Z;
  VM_LITTLE_ENDIAN : bool;
  (* Matcher::match_rule_supported for ReverseBytesS, ReverseBytesI and
     ReverseBytesL together *)
  ReverseBytes_supported : bool;
}.

(** [Compile::AliasType]: [index()], whether [field()] is there and not
    volatile, [is_rewritable()]. *)
Record AliasType := mkAliasType {
  at_index : nat;
  at_field_non_volatile : bool;
  at_is_rewritable : bool;
}.

(** What memnode.cpp asks of the rest of the compiler, for one graph. *)
Class PhaseValues := {
  (* Compile::top(), also MergeMemNode::empty_memory() *)
  C_top : nat;
  (* phase->type(n) *)
  phase_type : nat → Type_;
  (* AddPNode::Ideal_base_and_offset(ptr, phase, offset): the base and the
     offset it stores through its reference parameter *)
  Ideal_base_and_offset : option nat → option nat * Z;
  (* AllocateNode::Ideal_allocation(ptr) *)
  Ideal_allocation : option nat → option nat;
  (* AllocateNode::minimum_header_size() *)
  minimum_header_size : nat → Z;
  (* InitializeNode::allocation() *)
  allocation : nat → option nat;
  (* MemNode::all_controls_dominate(dom, sub); its walk rests on
     Node::dominates and Node::find_exact_control *)
  all_controls_dominate : option nat → option nat → bool;
  (* Compile::get_alias_index(adr_type) *)
  get_alias_index : option Type_ → nat;
  (* length_in_bytes() of a vector access *)
  vect_length_in_bytes : nat → Z;
  (* BarrierSetC2::step_over_gc_barrier *)
  step_over_gc_barrier : option nat → option nat;
  (* ArrayCopyNode: is_clonebasic(); is_arraycopy_validated() ||
     is_copyof_validated() || is_copyofrange_validated(); modifies(lo, hi,
     phase, must_modify) *)
  is_clonebasic : nat → bool;
  is_validated : nat → bool;
  modifies : nat → Z → Z → bool → bool;
  (* of phase->type(src)->isa_aryptr(): the array header size, the element
     size and the low end of the array length *)
  isa_aryptr_layout : nat → option (Z * Z * Z);
  (* CallNode::may_modify(addr_t, phase) *)
  Call_may_modify : nat → TypePtr → bool;
  (* ArrayCopyNode::may_modify(addr_t, membar, phase, ac) *)
  ArrayCopy_may_modify : TypePtr → nat → bool;
  (* ClearArrayNode::step_through(&mem, instance_id, phase): its result and
     the memory state it leaves in mem *)
  ClearArray_step_through : nat → Z → bool * option nat;
  (* phase->zerocon(bt) *)
  zerocon : BasicType → nat;
  (* Compile::alias_type(tp) *)
  alias_type : TypePtr → AliasType;
  (* vect_type() of a vector access, as the identity of the type *)
  vect_type : nat → nat;
  (* Compile::eliminate_boxing() *)
  eliminate_boxing : bool;
  (* Node::eqv_uncast(n, keep_deps = true) *)
  eqv_uncast : nat → nat → bool;
  (* CallStaticJavaNode::is_boxing_method() *)
  is_boxing_method : nat → bool;
  (* PhiNode::is_same_inst_field(tp, mem_idx, id, index, offset) *)
  is_same_inst_field : nat → Type_ → nat → Z → nat → Z → bool;
  (* LoadNode::Value past its forwarding test: the folds by address type,
     by the initial memory state and by the mark word *)
  LoadNode_Value_by_address : nat → Type_;
}.

(** ** MemNode: the forwarding walk *)

Module Mem.

Section WithGraph.
Context `{!VMFlags, !PhaseValues} (g : gmap nat Node).

(** [MemNode::memory_size()] ([memnode.hpp], [vectornode.hpp]). *)
Definition memory_size (n : nat) : Z :=
  match opcode_of g n with
  | Some Op_LoadVector | Some Op_StoreVector => vect_length_in_bytes n
  | Some o => type2aelembytes (value_basic_type o)
  | None => 0
  end.

(** [MemNode::calculate_adr_type] and [MemNode::adr_type]. *)
Definition calculate_adr_type (t : Type_) : option Type_ :=
  if decide (t = Type_TOP) then None
  else match isa_ptr t with
       | None => Some Type_BOTTOM
       | Some tp => Some (TypePtr_ tp)
       end.

Definition adr_type (this : nat) : option Type_ :=
  match in_ g this MemNode_Address with
  | None => None
  | Some adr => calculate_adr_type (bottom_type_of g adr)
  end.

(** [MemNode::check_if_adr_maybe_raw]. *)
Definition check_if_adr_maybe_raw (adr : option nat) : bool :=
  match adr with
  | Some a =>
      match isa_ptr (bottom_type_of g a) with
      | Some p => bool_decide (ptr_base_of p = RawPtr)
                  || bool_decide (ptr_base_of p = AnyPtr)
      | None => false
      end
  | None => false
  end.

(** [MemNode::detect_ptr_independence]. *)
Definition detect_ptr_independence (p1 a1 p2 a2 : option nat) : bool :=
  match a1, a2 with
  | None, None =>
      negb (bool_decide (p1 = p2)) && opt_is (is_Con g) p1 && opt_is (is_Con g) p2
  | Some _, Some _ => negb (bool_decide (a1 = a2))
  | Some _, None => all_controls_dominate p2 a1
  | None, Some _ => all_controls_dominate p1 a2
  end.

(** [MergeMemNode::base_memory], [is_empty_memory], [memory_at]. *)
Definition base_memory (mm : nat) : option nat := in_ g mm AliasIdxBot.

Definition is_empty_memory (n : option nat) : bool := bool_decide (n = Some C_top).

Definition memory_at (mm : nat) (alias_idx : nat) : option nat :=
  let n := if bool_decide (alias_idx < req g mm)%nat
           then in_ g mm alias_idx else Some C_top in
  if is_empty_memory n then base_memory mm else n.

(** [InitializeNode::memory]. *)
Definition InitializeNode_memory (init alias_idx : nat) : option nat :=
  let mem := in_ g init TypeFunc_Memory in
  match mem with
  | Some m => if is_MergeMem g m then memory_at m alias_idx else mem
  | None => None
  end.

(** A control projection of an [ArrayCopy]: the [ArrayCopy] behind [c]
    when [c->is_Proj() && c->in(0)->is_ArrayCopy()]. *)
Definition proj_of_ArrayCopy (c : option nat) : option nat :=
  match c with
  | Some c' =>
      if is_Proj g c' && opt_is (is_ArrayCopy g) (in_ g c' 0)
      then in_ g c' 0 else None
  | None => None
  end.

(** [MemNode::find_array_copy_clone]. *)
Definition find_array_copy_clone (ld_alloc : option nat) (mem : nat) : option nat :=
  match in_ g mem 0 with
  | Some mb =>
      if is_Proj g mem
         && (has_opcode g Op_MemBarStoreStore mb || has_opcode g Op_MemBarCPUOrder mb)
      then
        match ld_alloc with
        | Some _ =>
            let ac :=
              match proj_of_ArrayCopy (in_ g mb 0) with
              | Some a => Some a
              | None => proj_of_ArrayCopy (step_over_gc_barrier (in_ g mb 0))
              end in
            match ac with
            | Some a =>
                if is_clonebasic a then
                  let alloc := Ideal_allocation (in_ g a ArrayCopyNode_Dest) in
                  if bool_decide (alloc ≠ None) && bool_decide (alloc = ld_alloc)
                  then Some a else None
                else None
            | None => None
            end
        | None => None
        end
      else None
  | None => None
  end.

(** [LoadNode::find_previous_arraycopy]: the array copy found, and the
    memory state left in the reference parameter [mem]. *)
Definition find_previous_arraycopy (this : nat) (ld_alloc : option nat)
    (mem : nat) (can_see_stored_value : bool) : option nat * option nat :=
  match find_array_copy_clone ld_alloc mem with
  | Some ac =>
      match in_ g this MemNode_Address, in_ g ac ArrayCopyNode_Src with
      | Some ld_addp, Some src =>
          match isa_aryptr_layout src with
          | Some (header, elemsize, size_lo) =>
              if is_AddP g ld_addp then
                match in_ g ld_addp AddPNode_Offset with
                | Some ld_offs =>
                    match phase_type ld_offs with
                    | TypeLong lo hi =>
                        if (header <=? lo) && (hi <? size_lo * elemsize + header)
                        then (Some ac, Some mem) else (None, Some mem)
                    | _ => (None, Some mem)
                    end
                | None => (None, Some mem)
                end
              else (None, Some mem)
          | None => (None, Some mem)
          end
      | _, _ => (None, Some mem)
      end
  | None =>
      match in_ g mem 0 with
      | Some ac =>
          if is_Proj g mem && is_ArrayCopy g ac && is_validated ac then
            match in_ g this MemNode_Address with
            | Some ld_addp =>
                if is_AddP g ld_addp then
                  let ld_base := in_ g ld_addp AddPNode_Address in
                  let dest := in_ g ac ArrayCopyNode_Dest in
                  if bool_decide (dest = ld_base) then
                    match in_ g ld_addp AddPNode_Offset with
                    | Some ld_offs =>
                        match phase_type ld_offs with
                        | TypeLong lo hi =>
                            let ld_size_in_bytes := memory_size this in
                            let offset_hi := Z.min (hi + ld_size_in_bytes - 1) max_intptr in
                            if modifies ac lo offset_hi can_see_stored_value
                            then (Some ac, Some mem)
                            else if negb can_see_stored_value
                            then (Some ac, in_ g ac TypeFunc_Memory)
                            else (None, Some mem)
                        | _ => (None, Some mem)
                        end
                    | None => (None, Some mem)
                    end
                  else (None, Some mem)
                else (None, Some mem)
            | None => (None, Some mem)
            end
          else (None, Some mem)
      | None => (None, Some mem)
      end
  end.

(** One trip of the loop of [MemNode::find_previous_store]: the walk
    advances to an earlier memory state ([continue]), returns a node, or
    bails out ([break]). *)
Inductive walk_step :=
  | Advance (mem : option nat)
  | Found (mem : nat)
  | Bail.

(** What the walk knows about the access before the loop starts. *)
Record access := mkAccess {
  acc_base : option nat;
  acc_offset : Z;
  acc_alloc : option nat;
  acc_maybe_raw : bool;
  acc_addr_t : option TypePtr;
  acc_size : Z;
}.

Definition access_of (this : nat) : access :=
  let adr := in_ g this MemNode_Address in
  let '(base, offset) := Ideal_base_and_offset adr in
  {| acc_base := base;
     acc_offset := offset;
     acc_alloc := Ideal_allocation base;
     acc_maybe_raw := check_if_adr_maybe_raw adr;
     acc_addr_t := adr ≫= λ a, isa_oopptr (bottom_type_of g a);
     acc_size := memory_size this |}.

(** The store branch of the loop body. *)
Definition store_step (a : access) (mem : nat) : walk_step :=
  let st_adr := in_ g mem MemNode_Address in
  let '(st_base, st_offset) := Ideal_base_and_offset st_adr in
  match st_base with
  | None => Bail
  | Some _ =>
      if (acc_maybe_raw a || check_if_adr_maybe_raw st_adr)
         && negb (bool_decide (st_base = acc_base a))
      then Bail
      else
        let MAX_STORE := Z.max BytesPerLong MaxVectorSize in
        if negb (st_offset =? acc_offset a) && negb (st_offset =? OffsetBot)
           && ((acc_offset a + acc_size a <=? st_offset)
               || (st_offset <=? acc_offset a - MAX_STORE)
               || (st_offset <=? acc_offset a - memory_size mem))
        then Advance (in_ g mem MemNode_Memory)
        else if negb (bool_decide (st_base = acc_base a))
                && detect_ptr_independence (acc_base a) (acc_alloc a)
                     st_base (Ideal_allocation st_base)
        then Advance (in_ g mem MemNode_Memory)
        else if bool_decide (st_base = acc_base a) && (st_offset =? acc_offset a)
        then Found mem
        else Bail
  end.

(** The branch for the memory projection of an [Initialize]. *)
Definition initialize_step (this : nat) (a : access) (mem st_init : nat) : walk_step :=
  let st_alloc := allocation st_init in
  match st_alloc with
  | None => Bail
  | Some sa =>
      let known_identical := bool_decide (acc_alloc a = st_alloc) in
      let known_independent :=
        if bool_decide (acc_alloc a = st_alloc) then false
        else if bool_decide (acc_alloc a ≠ None) then true
        else all_controls_dominate (Some this) st_alloc in
      if known_independent then
        let alias_idx := get_alias_index (adr_type this) in
        if bool_decide (alias_idx = AliasIdxRaw)
        then Advance (in_ g sa TypeFunc_Memory)
        else Advance (InitializeNode_memory st_init alias_idx)
      else if known_identical then Found mem
      else Bail
  end.

(** The branch for a known-instance field: calls, barriers, array clears
    and memory merges that cannot touch the field are stepped over. *)
Definition known_instance_step (this : nat) (addr_t : TypePtr) (mem : nat) : walk_step :=
  if is_Proj g mem && opt_is (is_Call g) (in_ g mem 0) then
    match in_ g mem 0 with
    | Some call =>
        if negb (Call_may_modify call addr_t)
        then Advance (in_ g call TypeFunc_Memory)
        else Bail
    | None => Bail
    end
  else if is_Proj g mem && opt_is (is_MemBar g) (in_ g mem 0) then
    match in_ g mem 0 with
    | Some mb =>
        if ArrayCopy_may_modify addr_t mb then Bail
        else Advance (in_ g mb TypeFunc_Memory)
    | None => Bail
    end
  else if is_ClearArray g mem then
    let '(stepped, mem') := ClearArray_step_through mem (instance_id addr_t) in
    if stepped then Advance mem' else Found mem
  else if is_MergeMem g mem then
    Advance (memory_at mem (get_alias_index (adr_type this)))
  else Bail.

(** The loop body. *)
Definition find_previous_store_body (this : nat) (a : access) (mem : nat) : walk_step :=
  if is_Store g mem then store_step a mem
  else if is_Proj g mem && opt_is (is_Initialize g) (in_ g mem 0) then
    match in_ g mem 0 with
    | Some st_init => initialize_step this a mem st_init
    | None => Bail
    end
  else
    match find_previous_arraycopy this (acc_alloc a) mem false with
    | (Some _, mem') =>
        if bool_decide (mem' ≠ Some mem) then Advance mem' else Found mem
    | (None, _) =>
        match acc_addr_t a with
        | Some addr_t =>
            if is_known_instance_field addr_t
            then known_instance_step this addr_t mem
            else Bail
        | None => Bail
        end
    end.

(** The loop [for (;;) { if (--cnt < 0) break; ... }].  The source loop
    has no bound of its own, so the model runs on [fuel]: [None] means the
    fuel ran out before the loop left.  The result carries the final value
    of [cnt] next to the node returned ([None] for [nullptr]).  A null
    memory edge, which the source would dereference, bails out. *)
Fixpoint find_previous_store_loop (fuel : nat) (this : nat) (a : access)
    (cnt : Z) (mem : option nat) : option (Z * option nat) :=
  match fuel with
  | O => None
  | S fuel' =>
      let cnt := cnt - 1 in
      if cnt <? 0 then Some (cnt, None)
      else
        match mem with
        | None => Some (cnt, None)
        | Some m =>
            match find_previous_store_body this a m with
            | Advance mem' => find_previous_store_loop fuel' this a cnt mem'
            | Found r => Some (cnt, Some r)
            | Bail => Some (cnt, None)
            end
        end
  end.

(** [MemNode::find_previous_store]. *)
Definition find_previous_store (fuel : nat) (this : nat) : option (option nat) :=
  let a := access_of this in
  if acc_offset a =? OffsetBot then Some None
  else snd <$> find_previous_store_loop fuel this a 50 (in_ g this MemNode_Memory).

(** The memory states the loop body is run on, in order (the nodes the
    walk examines). *)
Fixpoint examined (fuel : nat) (this : nat) (a : access)
    (cnt : Z) (mem : option nat) : list nat :=
  match fuel with
  | O => []
  | S fuel' =>
      let cnt := cnt - 1 in
      if cnt <? 0 then []
      else
        match mem with
        | None => []
        | Some m =>
            m :: match find_previous_store_body this a m with
                 | Advance mem' => examined fuel' this a cnt mem'
                 | _ => []
                 end
        end
  end.

(** *** InitializeNode: looking up captured stores *)

(** [InitializeNode::is_complete()]. *)
Definition is_complete (init : nat) : bool :=
  match g !! init with Some nd => is_complete_flag nd | None => false end.

(** [InitializeNode::zero_memory()] ([memnode.hpp]): the raw memory edge
    coming directly from the allocation. *)
Definition zero_memory (init : nat) : option nat :=
  InitializeNode_memory init AliasIdxRaw.

(** [InitializeNode::get_store_offset]. *)
Definition get_store_offset (st : option nat) : Z :=
  match st with
  | Some s =>
      if negb (is_Store g s) then -1
      else
        let '(base, offset) := Ideal_base_and_offset (in_ g s MemNode_Address) in
        match base with
        | None => -1
        | Some _ => if offset <? 0 then -1 else offset
        end
  | None => -1
  end.

(** The raw-store edges [in(RawStores) .. in(req()-1)] of an [Initialize]. *)
Definition raw_stores (init : nat) : list (option nat) :=
  match g !! init with Some nd => drop RawStores (ins nd) | None => [] end.

(** The scan of [InitializeNode::captured_store_insertion_point] from
    edge [i] on, over the edges [sts] that are left; [FAIL] is 0. *)
Fixpoint insertion_point_scan (zmem : option nat) (start size_in_bytes : Z)
    (i : nat) (sts : list (option nat)) : Z :=
  match sts with
  | [] => - Z.of_nat i
  | st :: rest =>
      let MAX_STORE := Z.max BytesPerLong MaxVectorSize in
      let st_off := get_store_offset st in
      if st_off <? 0 then
        if negb (bool_decide (st = zmem)) then 0
        else insertion_point_scan zmem start size_in_bytes (S i) rest
      else if start <? st_off then
        if st_off <? start + size_in_bytes then 0 else - Z.of_nat i
      else if st_off <? start then
        if negb (size_in_bytes =? 0)
           && (start <? st_off + MAX_STORE)
           && (start <? st_off + from_option memory_size 0 st)
        then 0
        else insertion_point_scan zmem start size_in_bytes (S i) rest
      else
        if negb (size_in_bytes =? 0)
           && negb (from_option memory_size 0 st =? size_in_bytes)
        then 0
        else Z.of_nat i
  end.

(** [InitializeNode::captured_store_insertion_point]; the source asserts
    that the allocation is present, the model fails the request without it. *)
Definition captured_store_insertion_point (init : nat) (start size_in_bytes : Z) : Z :=
  if is_complete init then 0
  else
    match allocation init with
    | None => 0
    | Some alloc =>
        if start <? minimum_header_size alloc then 0
        else if TrackedInitializationLimit * HeapWordSize <=? start then 0
        else insertion_point_scan (zero_memory init) start size_in_bytes
               RawStores (raw_stores init)
    end.

(** [InitializeNode::find_captured_store]. *)
Definition find_captured_store (init : nat) (start size_in_bytes : Z) : option nat :=
  let i := captured_store_insertion_point init start size_in_bytes in
  if i =? 0 then None
  else if i <? 0 then zero_memory init
  else in_ g init (Z.to_nat i).

(** [InitializeNode::stores_are_sane]: ascending store offsets, none below
    the header, none overlapping its predecessor. *)
Fixpoint sane_scan (last_off : Z) (sts : list (option nat)) : bool :=
  match sts with
  | [] => true
  | st :: rest =>
      let st_off := get_store_offset st in
      if st_off <? 0 then sane_scan last_off rest
      else if st_off <? last_off then false
      else sane_scan (st_off + from_option memory_size 0 st) rest
  end.

Definition stores_are_sane (init : nat) : bool :=
  if is_complete init then true
  else
    match allocation init with
    | None => true
    | Some alloc => sane_scan (minimum_header_size alloc) (raw_stores init)
    end.

(** *** Seeing the stored value *)

(** [skip_through_membars] (static). *)
Definition skip_through_membars (atp : option AliasType) (tp : option TypePtr) : bool :=
  match atp with
  | Some a =>
      if bool_decide (AliasIdxRaw ≤ at_index a)%nat then
        let non_volatile := at_field_non_volatile a in
        let is_stable_ary :=
          FoldStableValues
          && match tp with
             | Some t => bool_decide (ptr_base_of t = AryPtr) && is_stable t
             | None => false
             end in
        (eliminate_boxing && non_volatile) || is_stable_ary
      else false
  | None => false
  end.

(** The barriers the first loop of [can_see_stored_value] steps through. *)
Definition skippable_membar (is_final_mem : bool) (opc : opcode) : bool :=
  (is_final_mem
   && (bool_decide (opc = Op_MemBarAcquire)
       || bool_decide (opc = Op_MemBarAcquireLock)
       || bool_decide (opc = Op_LoadFence)))
  || bool_decide (opc = Op_MemBarRelease)
  || bool_decide (opc = Op_StoreFence)
  || bool_decide (opc = Op_MemBarReleaseLock)
  || bool_decide (opc = Op_MemBarStoreStore)
  || bool_decide (opc = Op_StoreStoreFence).

(** The loop [while (current->is_Proj())] of [can_see_stored_value]; it
    yields [result].  The loop runs on fuel, [None] when it runs out. *)
Fixpoint skip_membars (fuel : nat) (alias_idx : nat) (is_final_mem : bool)
    (current : nat) : option (option nat) :=
  match fuel with
  | O => None
  | S fuel' =>
      if is_Proj g current then
        match in_ g current 0 ≫= opcode_of g with
        | Some opc =>
            if skippable_membar is_final_mem opc then
              match in_ g current 0 ≫= λ mb, in_ g mb TypeFunc_Memory with
              | Some mem =>
                  if is_MergeMem g mem then
                    let new_st := memory_at mem alias_idx in
                    if bool_decide (new_st = base_memory mem) then
                      match new_st with
                      | Some c => skip_membars fuel' alias_idx is_final_mem c
                      | None => Some None
                      end
                    else Some new_st
                  else Some None
              | None => Some None
              end
            else Some None
        | None => Some None
        end
      else Some None
  end.

(** The value a boxed load takes from the argument of the boxing call. *)
Definition boxed_value_of_call (this : nat) (ld_adr : nat) (tp : option TypePtr) : option nat :=
  if is_Load g this && is_AddP g ld_adr
     && match tp with Some t => is_ptr_to_boxed_value t | None => false end
  then
    match step_over_gc_barrier (fst (Ideal_base_and_offset (Some ld_adr))) with
    | Some base =>
        match in_ g base 0 with
        | Some call =>
            if is_Proj g base
               && bool_decide (get_int g base = Z.of_nat TypeFunc_Parms)
               && has_opcode g Op_CallStaticJava call
               && is_boxing_method call
            then in_ g call TypeFunc_Parms
            else None
        | None => None
        end
    | None => None
    end
  else None.

(** One trip of the loop [for (int trip = 0; trip <= 1; trip++)]: the
    value seen, or the captured store to look at in one more trip. *)
Inductive trip_result :=
  | Return (value : option nat)
  | Continue (st : nat).

Definition can_see_trip (this ld_adr : nat) (ld_base : option nat) (ld_off : Z)
    (ld_alloc : option nat) (tp : option TypePtr) (st : nat) : trip_result :=
  if is_Store g st then
    let st_adr := in_ g st MemNode_Address in
    let '(st_base, st_off) := Ideal_base_and_offset st_adr in
    if negb (bool_decide (st_adr = Some ld_adr))
       && match ld_base, st_base with
          | Some lb, Some sb =>
              negb (eqv_uncast lb sb) || negb (ld_off =? st_off)
              || (ld_off =? OffsetBot)
          | _, _ => true
          end
    then Return None
    else if negb (bool_decide
                    (store_Opcode <$> opcode_of g this = opcode_of g st))
    then Return None
    else if is_StoreVector g st
            && negb (bool_decide (vect_type st = vect_type this))
    then Return None
    else Return (in_ g st MemNode_ValueIn)
  else
    let zero :=
      match in_ g st 0 with
      | Some a =>
          if is_Proj g st && is_Allocate g a
             && bool_decide (Some a = ld_alloc)
             && (minimum_header_size a <=? ld_off)
          then
            match opcode_of g this with
            | Some o =>
                if negb (bool_decide (value_basic_type o = T_VOID))
                   && (ReduceBulkZeroing
                       || bool_decide
                            (in_ g this MemNode_Memory
                               ≫= find_array_copy_clone ld_alloc = None))
                then Some (zerocon (value_basic_type o))
                else None
            | None => None
            end
          else None
      | None => None
      end in
    match zero with
    | Some z => Return (Some z)
    | None =>
        let captured :=
          match in_ g st 0 with
          | Some init =>
              if is_Proj g st && is_Initialize g init
                 && bool_decide (allocation init ≠ None)
                 && bool_decide (allocation init = ld_alloc)
              then Some (find_captured_store init ld_off (memory_size this))
              else None
          | None => None
          end in
        match captured with
        | Some (Some st') => Continue st'
        | _ => Return (boxed_value_of_call this ld_adr tp)
        end
    end.

(** [MemNode::can_see_stored_value]; [None] when the barrier loop runs
    out of fuel, [Some None] for [nullptr]. *)
Definition can_see_stored_value (fuel : nat) (this st : nat) : option (option nat) :=
  match in_ g this MemNode_Address with
  | None => Some None
  | Some ld_adr =>
      let '(ld_base, ld_off) := Ideal_base_and_offset (Some ld_adr) in
      let ld_alloc := Ideal_allocation ld_base in
      let tp := isa_instptr (phase_type ld_adr) in
      let atp := alias_type <$> tp in
      st0 ← (if skip_through_membars atp tp then
               match atp with
               | Some a =>
                   r ← skip_membars fuel (at_index a) (negb (at_is_rewritable a)) st;
                   Some (default st r)
               | None => Some st
               end
             else Some st);
      match can_see_trip this ld_adr ld_base ld_off ld_alloc tp st0 with
      | Return v => Some v
      | Continue st1 =>
          match can_see_trip this ld_adr ld_base ld_off ld_alloc tp st1 with
          | Return v => Some v
          | Continue _ => Some None
          end
      end
  end.

(** *** Loads *)

(** [LoadNode::is_instance_field_load_with_local_phi]. *)
Definition is_instance_field_load_with_local_phi (this : nat) (ctrl : option nat) : bool :=
  match in_ g this MemNode_Memory, in_ g this MemNode_Address with
  | Some mem, Some adr =>
      is_Phi g mem && bool_decide (in_ g mem 0 = ctrl) && is_AddP g adr
      && match isa_oopptr (bottom_type_of g adr) with
         | Some t_oop =>
             (is_ptr_to_boxed_value t_oop || is_known_instance_field t_oop)
             && negb (ptr_offset t_oop =? OffsetBot)
             && negb (ptr_offset t_oop =? OffsetTop)
         | None => false
         end
  | _, _ => false
  end.

(** [LoadNode::Identity]; [None] only when [can_see_stored_value] runs out
    of fuel. *)
Definition LoadNode_Identity (fuel : nat) (this : nat) : option nat :=
  match in_ g this MemNode_Memory with
  | None => Some this
  | Some mem =>
      v ← can_see_stored_value fuel this mem;
      match v with
      | Some value =>
          if (memory_size this <? BytesPerInt)
             && negb (higher_equal (phase_type value) (phase_type this))
          then Some this
          else if negb (has_pinned_control_dependency g this) || is_Con g value
          then Some value
          else Some this
      | None =>
          if has_pinned_control_dependency g this then Some this
          else
            let region := in_ g mem 0 in
            if is_instance_field_load_with_local_phi this region then
              match in_ g this MemNode_Address ≫= λ a, isa_oopptr (bottom_type_of g a),
                    region with
              | Some addr_t, Some r =>
                  let this_index := get_alias_index (Some (TypePtr_ addr_t)) in
                  let this_offset := ptr_offset addr_t in
                  let boxed := negb (is_known_instance addr_t)
                               && is_ptr_to_boxed_value addr_t in
                  let base := fst (Ideal_base_and_offset (in_ g this MemNode_Address)) in
                  if boxed && bool_decide (base = None) then Some this
                  else
                    let this_iid :=
                      if boxed then from_option Z.of_nat 0 base
                      else instance_id addr_t in
                    let this_type := bottom_type_of g this in
                    match
                      List.find
                        (λ phi, is_Phi g phi && negb (bool_decide (phi = mem))
                                && is_same_inst_field phi this_type mem this_iid
                                     this_index this_offset)
                        (match g !! r with Some nd => outs nd | None => [] end)
                    with
                    | Some phi => Some phi
                    | None => Some this
                    end
              | _, _ => Some this
              end
            else Some this
      end
  end.

(** [LoadNode::Value]: dead inputs give TOP, a constant seen through
    [can_see_stored_value] gives its type, and the rest of the function is
    the collaborator [LoadNode_Value_by_address]. *)
Definition LoadNode_Value (fuel : nat) (this : nat) : option Type_ :=
  match in_ g this MemNode_Memory, in_ g this MemNode_Address with
  | Some mem, Some adr =>
      if bool_decide (phase_type mem = Type_TOP) then Some Type_TOP
      else
        match isa_ptr (phase_type adr) with
        | None => Some Type_TOP
        | Some tp =>
            if ptr_empty tp then Some Type_TOP
            else
              v ← can_see_stored_value fuel this mem;
              match v with
              | Some value =>
                  if is_Con g value then Some (bottom_type_of g value)
                  else Some (LoadNode_Value_by_address this)
              | None => Some (LoadNode_Value_by_address this)
              end
        end
  | _, _ => Some Type_TOP
  end.

(** [LoadBNode::Value]. *)
Definition LoadBNode_Value (fuel : nat) (this : nat) : option Type_ :=
  match in_ g this MemNode_Memory with
  | None => LoadNode_Value fuel this
  | Some mem =>
      v ← can_see_stored_value fuel this mem;
      match v with
      | Some value =>
          if is_Con g value
             && negb (higher_equal (bottom_type_of g value) (bottom_type_of g this))
          then
            let con := get_int g value in
            Some (TypeInt_make (jint_sar (jint_shl con 24) 24))
          else LoadNode_Value fuel this
      | None => LoadNode_Value fuel this
      end
  end.

(** [LoadUBNode::Value]. *)
Definition LoadUBNode_Value (fuel : nat) (this : nat) : option Type_ :=
  match in_ g this MemNode_Memory with
  | None => LoadNode_Value fuel this
  | Some mem =>
      v ← can_see_stored_value fuel this mem;
      match v with
      | Some value =>
          if is_Con g value
             && negb (higher_equal (bottom_type_of g value) (bottom_type_of g this))
          then
            let con := get_int g value in
            Some (TypeInt_make (Z.land con 255))
          else LoadNode_Value fuel this
      | None => LoadNode_Value fuel this
      end
  end.

(** *** Stores and value numbering *)

(** [StoreNode::hash]: stores are not hashed. *)
Definition StoreNode_hash (this : nat) : Z := NO_HASH.

(** [StoreNode::cmp]: [&n == this]. *)
Definition StoreNode_cmp (this n : nat) : bool := bool_decide (n = this).

End WithGraph.
End Mem.

(** ** Editing the graph *)

Module Edit.

(** [Node::set_req], [Node::add_req], [Node::ins_req] on the input edges of
    node [n].  The def-use edges are not kept up to date: no function
    modelled below reads them after an edit.  Where the source asserts
    [i < req()], an index out of range leaves the node as it is. *)
Definition with_ins (nd : Node) (l : list (option nat)) : Node :=
  mkNode (Opcode nd) l (outs nd) (con nd) (bottom_type nd)
         (control_dependency nd) (is_complete_flag nd).

Definition ins_of (g : gmap nat Node) (n : nat) : list (option nat) :=
  match g !! n with Some nd => ins nd | None => [] end.

Definition set_ins (g : gmap nat Node) (n : nat) (l : list (option nat)) : gmap nat Node :=
  match g !! n with Some nd => <[n := with_ins nd l]> g | None => g end.

Definition set_req (g : gmap nat Node) (n i : nat) (x : option nat) : gmap nat Node :=
  set_ins g n (<[i := x]> (ins_of g n)).

Definition add_req (g : gmap nat Node) (n : nat) (x : option nat) : gmap nat Node :=
  set_ins g n (ins_of g n ++ [x]).

Definition ins_req (g : gmap nat Node) (n i : nat) (x : option nat) : gmap nat Node :=
  set_ins g n (take i (ins_of g n) ++ x :: drop i (ins_of g n)).

(** [add_req] repeated until [req()] reaches [new_len]. *)
Definition grow_to (g : gmap nat Node) (n new_len : nat) (x : option nat) : gmap nat Node :=
  set_ins g n (ins_of g n ++ replicate (new_len - length (ins_of g n)) x).

End Edit.

(** ** MergeMemNode *)

(** The GVN driver: [phase->transform(n)] may rewrite the graph and
    returns the node that stands for [n] afterwards. *)
Class GVN := {
  transform : gmap nat Node → nat → gmap nat Node * option nat;
}.

Module MergeMem.
Import Edit.

Section WithPhase.
Context `{!VMFlags, !PhaseValues, !GVN}.

Definition empty_memory : option nat := Some C_top.

(** [MergeMemNode::set_memory_at]. *)
Definition set_memory_at (g : gmap nat Node) (this alias_idx : nat) (n : option nat)
    : gmap nat Node :=
  let n := if bool_decide (n = Mem.base_memory g this) then empty_memory else n in
  let need_req := S alias_idx in
  if bool_decide (req g this < need_req)%nat then
    if bool_decide (n = empty_memory) then g
    else set_req (grow_to g this need_req empty_memory) this alias_idx n
  else set_req g this alias_idx n.

(** The slices [AliasIdxRaw .. req()-1] of a merge. *)
Definition slices (g : gmap nat Node) (this : nat) : list nat :=
  seq AliasIdxRaw (req g this - AliasIdxRaw).

(** [MergeMemNode::set_base_memory]. *)
Definition set_base_memory (g : gmap nat Node) (this : nat) (new_base : option nat)
    : gmap nat Node :=
  let g1 := set_req g this AliasIdxBot new_base in
  if bool_decide (new_base ≠ empty_memory) then
    foldl (λ g' i, if bool_decide (in_ g' this i = new_base)
                   then set_req g' this i empty_memory else g')
          g1 (slices g1 this)
  else g1.

(** The downward scan of [MergeMemNode::grow_to_match]: from [i] (about to
    be decremented) while [--i >= req()], the first slice of [other] that
    is not empty gives the new length. *)
Fixpoint support_end (g : gmap nat Node) (other my_req : nat) (i : nat) : option nat :=
  match i with
  | O => None
  | S i' =>
      if bool_decide (i' < my_req)%nat then None
      else if bool_decide (in_ g other i' ≠ empty_memory) then Some (S i')
      else support_end g other my_req i'
  end.

(** [MergeMemNode::grow_to_match]. *)
Definition grow_to_match (g : gmap nat Node) (this other : nat) : gmap nat Node :=
  match support_end g other (req g this) (req g other) with
  | Some new_len => grow_to g this new_len empty_memory
  | None => g
  end.

(** [MergeMemNode::verify_sparse]. *)
Definition verify_sparse (g : gmap nat Node) (this : nat) : bool :=
  let base_mem := Mem.base_memory g this in
  if Mem.is_empty_memory base_mem then true
  else forallb (λ i, negb (bool_decide (in_ g this i = base_mem))) (slices g this).

(** [MergeMemNode::Identity]. *)
Definition Identity (g : gmap nat Node) (this : nat) : option nat :=
  let base_mem := Mem.base_memory g this in
  if bool_decide (base_mem ≠ empty_memory)
     && existsb (λ i, bool_decide (in_ g this i ≠ empty_memory)
                      && bool_decide (in_ g this i ≠ base_mem))
                (slices g this)
  then Some this
  else base_mem.

(** The body of the loop over the slices in [MergeMemNode::Ideal], for
    slice [i]; the state is the graph and the progress flag.  The model of
    [set_req_X] is [set_req]: what the iterative GVN does to the old input
    (worklist, removal when dead) is left out. *)
Definition Ideal_slice (this : nat) (old_base new_base : option nat)
    (st : gmap nat Node * bool) (i : nat) : gmap nat Node * bool :=
  let '(g, progress) := st in
  let old_in := in_ g this i in
  let old_mem := if bool_decide (old_in = empty_memory) then old_base else old_in in
  let old_mmem :=
    match old_mem with
    | Some m => if is_MergeMem g m then Some m else None
    | None => None
    end in
  let new_mem :=
    match old_mmem with
    | Some m =>
        if bool_decide (m = this) then
          if bool_decide (new_base = Some this) || bool_decide (new_base = empty_memory)
          then empty_memory else new_base
        else Mem.memory_at g m i
    | None => old_mem
    end in
  let new_in := if bool_decide (new_mem = new_base) then empty_memory else new_mem in
  if bool_decide (new_in ≠ old_in)
  then (set_req g this i new_in, true)
  else (g, progress).

(** [MergeMemNode::Ideal], first part: chained MergeMems are removed from
    the base and from each slice, one level at a time.  The result is the
    graph and the progress flag after [set_req_X(Compile::AliasIdxBot,
    new_base, phase)].  (The caller has checked that the base is not the
    empty memory.) *)
Definition Ideal_flatten (g : gmap nat Node) (this : nat) : gmap nat Node * bool :=
  let old_base := Mem.base_memory g this in
  let old_mbase :=
    match old_base with
    | Some b => if is_MergeMem g b then Some b else None
    | None => None
    end in
  let new_base :=
    match old_mbase with
    | Some b => Mem.base_memory g b
    | None => old_base
    end in
  let g := match old_mbase with
           | Some b => grow_to_match g this b
           | None => g
           end in
  let '(g, progress) :=
    foldl (Ideal_slice this old_base new_base) (g, false) (slices g this) in
  if bool_decide (new_base ≠ old_base)
  then (set_req g this AliasIdxBot new_base, true)
  else (g, progress).

(** Second part: a self cycle through the base marks the memory path
    dead; cycles through a MergeMem base are rolled up by transforming the
    base, and a dead base is propagated. *)
Definition Ideal_cycles (g : gmap nat Node) (this : nat) : gmap nat Node :=
  let g := if bool_decide (Mem.base_memory g this = Some this)
           then set_req g this AliasIdxBot empty_memory else g in
  match Mem.base_memory g this with
  | Some new_mbase =>
      if is_MergeMem g new_mbase then
        let '(g', m) := transform g new_mbase in
        match m with
        | Some m' =>
            if bool_decide (m' = C_top)
               || (is_MergeMem g' m'
                   && bool_decide (Mem.base_memory g' m' = empty_memory))
            then set_req g' this AliasIdxBot empty_memory
            else g'
        | None => g'
        end
      else g
  | None => g
  end.

(** Third part: a dead memory path is progress; its slices are cut
    during parsing ([!can_reshape]). *)
Definition Ideal_dead_path (g : gmap nat Node) (this : nat) (can_reshape progress : bool)
    : gmap nat Node * bool :=
  if bool_decide (Mem.base_memory g this = empty_memory) then
    (if can_reshape then g
     else foldl (λ g' i, if bool_decide (in_ g' this i ≠ empty_memory)
                         then set_req g' this i empty_memory else g')
                g (slices g this),
     true)
  else (g, progress).

(** [MergeMemNode::Ideal]: the graph afterwards and whether progress is
    reported ([true] for [this], [false] for [nullptr]).  The last step of
    the source, which only pushes a Phi on the worklist, has no effect
    here. *)
Definition Ideal (g : gmap nat Node) (this : nat) (can_reshape : bool)
    : gmap nat Node * bool :=
  if bool_decide (Mem.base_memory g this = empty_memory) then (g, false)
  else
    let '(g, progress) := Ideal_flatten g this in
    let g := Ideal_cycles g this in
    Ideal_dead_path g this can_reshape progress.

(** A merge without chained merges: neither its base nor any slice that
    is not empty is a MergeMem. *)
Definition flat (g : gmap nat Node) (this : nat) : Prop :=
  (∀ b, Mem.base_memory g this = Some b → is_MergeMem g b = false)
  ∧ (∀ i b, (AliasIdxRaw ≤ i)%nat → in_ g this i = Some b → b ≠ C_top →
            is_MergeMem g b = false).

End WithPhase.
End MergeMem.

(** ** InitializeNode: capturing stores *)

Module Initialize.
Import Edit.

Section WithPhase.
Context `{!VMFlags, !PhaseValues}.

(** [InitializeNode::capture_store].  [new_st] stands for the node that
    [phase->transform] returns for the raw clone of [st] (the clone itself,
    a store it was folded into, or the memory state it vanished into); it
    is taken to be in the arena already.  The result is the graph with the
    new edge of [init] and the node returned ([None] for [nullptr]). *)
Definition capture_store (g : gmap nat Node) (init st : nat) (start : Z)
    (new_st : nat) : gmap nat Node * option nat :=
  if start <? 0 then (g, None)
  else
    let size_in_bytes := Mem.memory_size g st in
    let i := Mem.captured_store_insertion_point g init start size_in_bytes in
    if i =? 0 then (g, None)
    else
      let '(g1, i1) :=
        if 0 <? i then
          (set_req g init (Z.to_nat i) (Some C_top), Z.to_nat i)
        else
          let i' := Z.to_nat (- i) in
          let prev_mem := Mem.zero_memory g init in
          if bool_decide (RawStores < i')%nat
             && bool_decide (in_ g init (i' - 1) = prev_mem)
          then (set_req g init (i' - 1) (Some C_top), (i' - 1)%nat)
          else (ins_req g init i' (Some C_top), i') in
      (set_req g1 init i1 (Some new_st), Some new_st).

(** [InitializeNode::set_complete]. *)
Definition set_complete (g : gmap nat Node) (init : nat) : gmap nat Node :=
  match g !! init with
  | Some nd =>
      <[init := mkNode (Opcode nd) (ins nd) (outs nd) (con nd) (bottom_type nd)
                       (control_dependency nd) true]> g
  | None => g
  end.

(** The value of [last_off] when the loop of [stores_are_sane] leaves. *)
Fixpoint sane_last_off (g : gmap nat Node) (last_off : Z) (sts : list (option nat)) : Z :=
  match sts with
  | [] => last_off
  | st :: rest =>
      let st_off := Mem.get_store_offset g st in
      if st_off <? 0 then sane_last_off g last_off rest
      else sane_last_off g (st_off + from_option (Mem.memory_size g) 0 st) rest
  end.

(** The captured stores lie at or above the minimum header size of the
    allocation and below the tracked-initialization limit.  (An edge whose
    [get_store_offset] is negative is no captured store: it is the zero
    memory or dead.) *)
Definition stores_in_range (g : gmap nat Node) (init : nat) : Prop :=
  match allocation init with
  | Some alloc =>
      Forall (λ st, let st_off := Mem.get_store_offset g st in
                    0 ≤ st_off →
                    minimum_header_size alloc ≤ st_off
                    < TrackedInitializationLimit * HeapWordSize)
             (Mem.raw_stores g init)
  | None => True
  end.

(** The captured stores are no wider than [MAX_STORE] (asserted by the
    scan of [captured_store_insertion_point]). *)
Definition stores_within_MAX_STORE (g : gmap nat Node) (init : nat) : Prop :=
  Forall (λ st, 0 ≤ Mem.get_store_offset g st →
                0 ≤ from_option (Mem.memory_size g) 0 st
                ≤ Z.max BytesPerLong MaxVectorSize)
         (Mem.raw_stores g init).

(** Each captured store begins at or after the end of every captured
    store before it. *)
Definition stores_ordered (g : gmap nat Node) (init : nat) : Prop :=
  ∀ (i j : nat) a b,
    (i < j)%nat →
    Mem.raw_stores g init !! i = Some a →
    Mem.raw_stores g init !! j = Some b →
    0 ≤ Mem.get_store_offset g a →
    0 ≤ Mem.get_store_offset g b →
    Mem.get_store_offset g a + from_option (Mem.memory_size g) 0 a
    ≤ Mem.get_store_offset g b.

End WithPhase.
End Initialize.

(** ** MergePrimitiveStores *)

Module MergeStores.

(** What the merger asks of [MemPointer] and of the control-flow nodes. *)
Class Pointers := {
  (* MemPointer(def).is_adjacent_to_and_before(MemPointer(use)) *)
  is_adjacent_to_and_before : nat → nat → bool;
  (* ProjNode::other_if_proj() *)
  other_if_proj : nat → option nat;
  (* ProjNode::is_uncommon_trap_proj(Reason_range_check) *)
  is_uncommon_trap_proj : nat → option nat;
}.

Inductive ValueOrder := Unknown | Const | Platform | Reverse | NotAdjacent.

#[global] Instance ValueOrder_eq_dec : EqDecision ValueOrder.
Proof. solve_decision. Defined.

Inductive CFGStatus := SuccessNoRangeCheck | SuccessWithRangeCheck | Failure.

#[global] Instance CFGStatus_eq_dec : EqDecision CFGStatus.
Proof. solve_decision. Defined.

(** [MergePrimitiveStores::Status]. *)
Record Status := mkStatus {
  found_store : option nat;
  found_range_check : bool;
}.

Definition make_failure : Status := mkStatus None false.

Definition Status_make (found : option nat) (cfg_status : CFGStatus) : Status :=
  if decide (cfg_status = Failure) then make_failure
  else mkStatus found (bool_decide (cfg_status = SuccessWithRangeCheck)).

(** The value the merged store writes: a new long constant, or the common
    base of the shifted inputs under the conversions the merger adds. *)
Inductive merged_value :=
  | longcon (c : Z)
  | base_value (n : nat)
  | ConvL2I (v : merged_value)
  | ReverseBytesL (v : merged_value)
  | ReverseBytesI (v : merged_value)
  | ReverseBytesS (v : merged_value).

(** The store [StoreNode::make] builds in [make_merged_store]. *)
Record merged_store := mkMergedStore {
  ms_ctrl : option nat;
  ms_mem : option nat;
  ms_adr : option nat;
  ms_value : merged_value;
  ms_memory_size : Z;
  ms_merged : list nat;
}.

(** [round_down_power_of_2] ([utilities/powerOfTwo.hpp]). *)
Definition round_down_power_of_2 (n : nat) : nat := (2 ^ Nat.log2 n)%nat.

(** [jlong] wrap-around. *)
Definition jlong_wrap (z : Z) : Z := (z + 2 ^ 63) mod 2 ^ 64 - 2 ^ 63.

Section WithGraph.
Context `{!VMFlags, !PhaseValues, !Pointers} (g : gmap nat Node).

(** [MergePrimitiveStores::is_compatible_store], for the merger of [_store]. *)
Definition is_compatible_store (_store : nat) (other_store : option nat) : bool :=
  match other_store with
  | Some o => bool_decide (opcode_of g _store = opcode_of g o)
  | None => false
  end.

(** [MergePrimitiveStores::is_con_RShift]: [base_out] and [shift_out] when
    the pattern is found. *)
Definition is_con_RShift (n : nat) : option (option nat * Z) :=
  let n := if has_opcode g Op_ConvL2I n then in_ g n 1 else Some n in
  match n with
  | Some n =>
      if (has_opcode g Op_RShiftI n || has_opcode g Op_RShiftL n
          || has_opcode g Op_URShiftI n || has_opcode g Op_URShiftL n)
         && opt_is (is_ConI g) (in_ g n 2)
      then
        let shift_out := from_option (get_int g) 0 (in_ g n 2) in
        if 0 <=? shift_out then Some (in_ g n 1, shift_out) else None
      else
        match phase_type n with
        | TypeInt _ _ | TypeLong _ _ => Some (Some n, 0)
        | _ => None
        end
  | None => None
  end.

(** [MergePrimitiveStores::find_adjacent_input_value_order]. *)
Definition find_adjacent_input_value_order (n1 n2 : nat) (memory_size : Z) : ValueOrder :=
  if is_ConI g n1 && is_ConI g n2 then Const
  else
    match is_con_RShift n2 with
    | None => NotAdjacent
    | Some (base_n2, shift_n2) =>
        match is_con_RShift n1 with
        | None => NotAdjacent
        | Some (base_n1, shift_n1) =>
            let bits_per_store := memory_size * 8 in
            if negb (bool_decide (base_n1 = base_n2))
               || negb (Z.abs (shift_n1 - shift_n2) =? bits_per_store)
               || negb (Z.rem shift_n1 bits_per_store =? 0)
            then NotAdjacent
            else if VM_LITTLE_ENDIAN
            then (if shift_n1 <? shift_n2 then Platform else Reverse)
            else (if shift_n2 <? shift_n1 then Platform else Reverse)
        end
    end.

(** [MergePrimitiveStores::is_adjacent_input_pair], with the merger's
    [_value_order]. *)
Definition is_adjacent_input_pair (_value_order : ValueOrder) (n1 n2 : nat)
    (memory_size : Z) : bool :=
  let input_value_order := find_adjacent_input_value_order n1 n2 memory_size in
  match input_value_order with
  | NotAdjacent => false
  | Reverse =>
      if negb (memory_size =? 1) || negb ReverseBytes_supported then false
      else if decide (_value_order = Unknown) then true
      else bool_decide (_value_order = input_value_order)
  | Const | Platform =>
      if decide (_value_order = Unknown) then true
      else bool_decide (_value_order = input_value_order)
  | Unknown => false
  end.

(** [MergePrimitiveStores::is_adjacent_pair]. *)
Definition is_adjacent_pair (_value_order : ValueOrder) (use_store def_store : nat) : bool :=
  match in_ g def_store MemNode_ValueIn, in_ g use_store MemNode_ValueIn with
  | Some dv, Some uv =>
      if negb (is_adjacent_input_pair _value_order dv uv (Mem.memory_size g def_store))
      then false
      else is_adjacent_to_and_before def_store use_store
  | _, _ => false
  end.

(** [MergePrimitiveStores::cfg_status_for_pair]. *)
Definition cfg_status_for_pair (use_store def_store : nat) : CFGStatus :=
  match in_ g use_store MemNode_Control, in_ g def_store MemNode_Control with
  | Some ctrl_use, Some ctrl_def =>
      if bool_decide (ctrl_use = ctrl_def) then
        if bool_decide (1 < outcnt g def_store)%nat then Failure
        else SuccessNoRangeCheck
      else if negb (bool_decide (outcnt g def_store = 2%nat)) then Failure
      else
        let use_store_out_idx :=
          if bool_decide (raw_out g def_store 0 = Some use_store) then 0%nat else 1%nat in
        match raw_out g def_store (1 - use_store_out_idx) with
        | Some mm =>
            if negb (is_MergeMem g mm) || negb (bool_decide (outcnt g mm = 1%nat))
            then Failure
            else if negb (has_opcode g Op_IfTrue ctrl_use || has_opcode g Op_IfFalse ctrl_use)
                    || negb (opt_is (has_opcode g Op_RangeCheck) (in_ g ctrl_use 0))
                    || negb (bool_decide
                               (from_option (outcnt g) 0%nat (in_ g ctrl_use 0) = 2%nat))
            then Failure
            else
              let trap := other_if_proj ctrl_use ≫= is_uncommon_trap_proj in
              if negb (bool_decide (trap = raw_out g mm 0))
                 || negb (bool_decide
                            (in_ g ctrl_use 0 ≫= (λ rc, in_ g rc 0) = Some ctrl_def))
              then Failure
              else SuccessWithRangeCheck
        | None => Failure
        end
  | _, _ => Failure
  end.

(** [MergePrimitiveStores::find_use_store] (its unidirectional search; the
    symmetry check is an assertion). *)
Definition find_use_store (_store def_store : nat) : Status :=
  match List.find (λ u, is_Store g u && is_compatible_store _store (Some u))
                  (match g !! def_store with Some nd => outs nd | None => [] end) with
  | Some use_store => Status_make (Some use_store) (cfg_status_for_pair use_store def_store)
  | None => make_failure
  end.

(** [MergePrimitiveStores::find_def_store]. *)
Definition find_def_store (_store use_store : nat) : Status :=
  let def_store :=
    match in_ g use_store MemNode_Memory with
    | Some d => if is_Store g d then Some d else None
    | None => None
    end in
  match def_store with
  | Some d =>
      if is_compatible_store _store def_store
      then Status_make def_store (cfg_status_for_pair use_store d)
      else make_failure
  | None => make_failure
  end.

(** [MergePrimitiveStores::find_adjacent_use_store]. *)
Definition find_adjacent_use_store (_store : nat) (_value_order : ValueOrder)
    (def_store : nat) : Status :=
  let status_use := find_use_store _store def_store in
  match found_store status_use with
  | Some use_store =>
      if negb (is_adjacent_pair _value_order use_store def_store)
      then make_failure else status_use
  | None => status_use
  end.

(** [MergePrimitiveStores::find_adjacent_def_store]. *)
Definition find_adjacent_def_store (_store : nat) (_value_order : ValueOrder)
    (use_store : nat) : Status :=
  let status_def := find_def_store _store use_store in
  match found_store status_def with
  | Some def_store =>
      if negb (is_adjacent_pair _value_order use_store def_store)
      then make_failure else status_def
  | None => status_def
  end.

(** The loop of [collect_merge_list] that walks up the chain of adjacent
    def stores: [room] is what is left of [merge_list_max_size], which the
    loop condition [merge_list.size() < merge_list_max_size] checks. *)
Fixpoint collect_defs (_store : nat) (_value_order : ValueOrder) (room : nat)
    (current : nat) : list nat :=
  match room with
  | O => []
  | S room' =>
      let status := find_adjacent_def_store _store _value_order current in
      match found_store status with
      | Some d =>
          d :: (if found_range_check status then []
                else collect_defs _store _value_order room' d)
      | None => []
      end
  end.

(** The stores [collect_merge_list] finds before it truncates. *)
Definition collected_group (_store : nat) (_value_order : ValueOrder) : list nat :=
  let merge_list_max_size := Z.to_nat (8 `quot` Mem.memory_size g _store) in
  _store :: collect_defs _store _value_order (merge_list_max_size - 1) _store.

(** [MergePrimitiveStores::collect_merge_list]. *)
Definition collect_merge_list (_store : nat) (_value_order : ValueOrder) : list nat :=
  let merge_list := collected_group _store _value_order in
  let pow2size := round_down_power_of_2 (length merge_list) in
  take pow2size merge_list.

(** [MergePrimitiveStores::make_merged_input_value]. *)
Definition make_merged_input_value (_store : nat) (_value_order : ValueOrder)
    (merge_list : list nat) : option merged_value :=
  let new_memory_size := Mem.memory_size g _store * Z.of_nat (length merge_list) in
  let first := last merge_list in
  let merged_input_value : option (merged_value * bool) :=
    if opt_is (has_opcode g Op_ConI) (in_ g _store MemNode_ValueIn) then
      let bits_per_store := Mem.memory_size g _store * 8 in
      let mask := jlong_wrap (Z.shiftl 1 bits_per_store) - 1 in
      let con_of (st : nat) := from_option (get_int g) 0 (in_ g st MemNode_ValueIn) in
      let con :=
        if VM_LITTLE_ENDIAN then
          foldl (λ con st,
                   Z.lor (jlong_wrap (Z.shiftl con bits_per_store))
                         (Z.land mask (con_of st)))
                0 merge_list
        else
          fst (foldl (λ '(con, i) st,
                        (Z.lor con
                           (jlong_wrap (Z.shiftl (Z.land mask (con_of st))
                                          (i * bits_per_store))),
                         i + 1))
                     (0, 0) merge_list) in
      Some (longcon con, true)
    else
      let hi0 := in_ g _store MemNode_ValueIn in
      let lo0 := first ≫= λ f, in_ g f MemNode_ValueIn in
      let '(hi1, lo1) := if VM_LITTLE_ENDIAN then (hi0, lo0) else (lo0, hi0) in
      let '(hi, lo) := if decide (_value_order = Reverse) then (lo1, hi1) else (hi1, lo1) in
      match hi ≫= is_con_RShift, lo with
      | Some (hi_base, _), Some lo =>
          let merged :=
            if negb (bool_decide (Some lo = hi_base)) && has_opcode g Op_ConvL2I lo
            then in_ g lo 1 else Some lo in
          if bool_decide (merged ≠ hi_base) then None
          else
            match merged with
            | Some m => Some (base_value m,
                             match phase_type m with TypeLong _ _ => true | _ => false end)
            | None => None
            end
      | _, _ => None
      end in
  match merged_input_value with
  | None => None
  | Some (v, is_long) =>
      let v := if is_long && (new_memory_size <=? 4) then ConvL2I v else v in
      if decide (_value_order = Reverse) then
        if new_memory_size =? 8 then Some (ReverseBytesL v)
        else if new_memory_size =? 4 then Some (ReverseBytesI v)
        else Some (ReverseBytesS v)
      else Some v
  end.

(** [MergePrimitiveStores::make_merged_store]. *)
Definition make_merged_store (_store : nat) (merge_list : list nat)
    (merged_input_value : merged_value) : merged_store :=
  let first_store := last merge_list in
  {| ms_ctrl := in_ g _store MemNode_Control;
     ms_mem := first_store ≫= λ f, in_ g f MemNode_Memory;
     ms_adr := first_store ≫= λ f, in_ g f MemNode_Address;
     ms_value := merged_input_value;
     ms_memory_size := Mem.memory_size g _store * Z.of_nat (length merge_list);
     ms_merged := merge_list |}.

(** [MergePrimitiveStores::run]; the merger starts with [_value_order]
    [Unknown]. *)
Definition run (_store : nat) : option merged_store :=
  if negb (has_opcode g Op_StoreB _store || has_opcode g Op_StoreC _store
           || has_opcode g Op_StoreI _store)
  then None
  else
    let status_use := find_adjacent_use_store _store Unknown _store in
    if bool_decide (found_store status_use ≠ None) then None
    else
      let status_def := find_adjacent_def_store _store Unknown _store in
      match found_store status_def,
            found_store status_def ≫= (λ d, in_ g d MemNode_ValueIn),
            in_ g _store MemNode_ValueIn with
      | Some def_store, Some dv, Some sv =>
          let _value_order :=
            find_adjacent_input_value_order dv sv (Mem.memory_size g _store) in
          let merge_list := collect_merge_list _store _value_order in
          match make_merged_input_value _store _value_order merge_list with
          | None => None
          | Some merged_input_value =>
              Some (make_merged_store _store merge_list merged_input_value)
          end
      | _, _, _ => None
      end.

End WithGraph.
End MergeStores.

(** ** Value numbering of stores *)

Module ValueNumbering.

(** Modelled from the spec: the value-numbering table ([NodeHash], in
    phaseX.cpp) is not part of the sources.  As the comments of
    [StoreNode::hash] and [StoreNode::cmp] have it, a node whose [hash()]
    is [NO_HASH] is not commoned; otherwise a table entry [k] stands for
    [n] when opcode and inputs agree and [cmp] of [n] accepts [k]. *)
Definition hash_find_insert (g : gmap nat Node) (hash : nat → Z)
    (cmp : nat → nat → bool) (table : list nat) (n : nat) : option nat :=
  if hash n =? NO_HASH then None
  else List.find (λ k, bool_decide (opcode_of g k = opcode_of g n)
                       && bool_decide (Edit.ins_of g k = Edit.ins_of g n)
                       && cmp n k) table.

End ValueNumbering.

(** ** What the forwarding walk establishes *)

Module MemSpec.
Import Mem.

Section WithGraph.
Context `{!VMFlags, !PhaseValues} (g : gmap nat Node).

(** The address of the store [st] has the base of the access [a]. *)
Definition same_base (a : access) (st : nat) : Prop :=
  fst (Ideal_base_and_offset (in_ g st MemNode_Address)) = acc_base a.

(** The store [st] writes exactly where [a] accesses: its address
    decomposes into the same base and the same constant offset. *)
Definition exact_match (a : access) (st : nat) : Prop :=
  Ideal_base_and_offset (in_ g st MemNode_Address) = (acc_base a, acc_offset a)
  ∧ acc_base a ≠ None.

(** The bytes [st] writes and the bytes [a] accesses, taken as constant
    offset ranges, do not overlap. *)
Definition ranges_disjoint (a : access) (st : nat) : Prop :=
  let st_offset := snd (Ideal_base_and_offset (in_ g st MemNode_Address)) in
  st_offset ≠ OffsetBot
  ∧ (acc_offset a + acc_size a ≤ st_offset
     ∨ st_offset + memory_size g st ≤ acc_offset a).

(** The base of the access [a] and the base of the store [st] cannot be
    the same object: they are two distinct allocations; or neither is an
    allocation and they are two distinct constants; or one is an
    allocation and all controls of the other dominate that allocation (the
    other is a value that was there before the object was allocated). *)
Definition bases_independent (a : access) (st : nat) : Prop :=
  let st_base := fst (Ideal_base_and_offset (in_ g st MemNode_Address)) in
  let st_alloc := Ideal_allocation st_base in
  (∃ a1 a2, acc_alloc a = Some a1 ∧ st_alloc = Some a2 ∧ a1 ≠ a2)
  ∨ (acc_alloc a = None ∧ st_alloc = None ∧ st_base ≠ acc_base a
     ∧ opt_is (is_Con g) (acc_base a) = true ∧ opt_is (is_Con g) st_base = true)
  ∨ (acc_alloc a ≠ None ∧ st_alloc = None
     ∧ all_controls_dominate st_base (acc_alloc a) = true)
  ∨ (acc_alloc a = None ∧ st_alloc ≠ None
     ∧ all_controls_dominate (acc_base a) st_alloc = true).

(** What the walk has proven of a store it steps over: disjoint offset
    ranges, at the same base when either address may be raw; or different
    bases that cannot be the same object. *)
Definition skip_justified (a : access) (st : nat) : Prop :=
  let st_adr := in_ g st MemNode_Address in
  (ranges_disjoint a st
   ∧ (acc_maybe_raw a || check_if_adr_maybe_raw g st_adr = true → same_base a st))
  ∨ (¬ same_base a st ∧ bases_independent a st).

(** The justification in the words of the specification: disjoint
    constant offset ranges at the same base, or distinct allocations as
    bases. *)
Definition skip_justified_as_specified (a : access) (st : nat) : Prop :=
  let st_base := fst (Ideal_base_and_offset (in_ g st MemNode_Address)) in
  (same_base a st ∧ ranges_disjoint a st)
  ∨ (acc_alloc a ≠ None ∧ Ideal_allocation st_base ≠ None
     ∧ acc_alloc a ≠ Ideal_allocation st_base).

End WithGraph.
End MemSpec.

(** ** Example graphs *)

Module Examples.

(** Flags of a product build on a little-endian 64-bit machine. *)
Definition flags : VMFlags :=
  {| MaxVectorSize := 64;
     ReduceBulkZeroing := true;
     FoldStableValues := true;
     TrackedInitializationLimit := 50;
     HeapWordSize := 8;
     VM_LITTLE_ENDIAN := true;
     ReverseBytes_supported := true |}.

(** Collaborators for a graph without allocations, calls or array copies:
    [addr] decomposes addresses, [ty] types the nodes; node 0 is TOP. *)
Definition phase (addr : option nat → option nat * Z) (alloc : option nat → option nat)
    (init_alloc : nat → option nat) (ty : nat → Type_) : PhaseValues :=
  {| C_top := 0%nat;
     phase_type := ty;
     Ideal_base_and_offset := addr;
     Ideal_allocation := alloc;
     minimum_header_size := λ _, 16;
     allocation := init_alloc;
     all_controls_dominate := λ _ _, false;
     get_alias_index := λ _, 4%nat;
     vect_length_in_bytes := λ _, 16;
     step_over_gc_barrier := λ n, n;
     is_clonebasic := λ _, false;
     is_validated := λ _, false;
     modifies := λ _ _ _ _, true;
     isa_aryptr_layout := λ _, None;
     Call_may_modify := λ _ _, true;
     ArrayCopy_may_modify := λ _ _, true;
     ClearArray_step_through := λ n _, (false, Some n);
     zerocon := λ _, 1%nat;
     alias_type := λ _, mkAliasType 4 false true;
     vect_type := λ _, 0%nat;
     eliminate_boxing := false;
     eqv_uncast := λ a b, bool_decide (a = b);
     is_boxing_method := λ _, false;
     is_same_inst_field := λ _ _ _ _ _ _, false;
     LoadNode_Value_by_address := λ _, Type_BOTTOM |}.

(** A node with the attributes that matter for most kinds. *)
Definition node (o : opcode) (inputs : list (option nat)) (c : Z) (t : Type_) : Node :=
  mkNode o inputs [] c t DependsOnlyOnTest false.

Definition oop (off : Z) : Type_ :=
  TypePtr_ (mkTypePtr InstPtr off 0 false false false).

Definition raw (off : Z) : Type_ :=
  TypePtr_ (mkTypePtr RawPtr off 0 false false false).

(** Two objects [A] (node 2) and [B] (node 3), neither an allocation nor a
    constant.  The load 10 reads the int at [A+16]; its memory state is the
    store 8 to [B+24], which follows the store 7 to [A+16].  The store 11
    is its own memory input, and the load 12 reads [A+16] behind it. *)
Definition g_walk : gmap nat Node :=
  list_to_map
    [ (0%nat, node Op_Con [None] 0 Type_TOP);
      (1%nat, node Op_ConI [None] 0 (TypeInt 0 0));
      (2%nat, node Op_Parm [None] 0 (oop 0));
      (3%nat, node Op_Parm [None] 0 (oop 0));
      (4%nat, node Op_AddP [None; Some 2; Some 2; None]%nat 0 (oop 16));
      (5%nat, node Op_AddP [None; Some 3; Some 3; None]%nat 0 (oop 24));
      (6%nat, node Op_ConI [None] 5 (TypeInt 5 5));
      (7%nat, node Op_StoreI [None; Some 9; Some 4; Some 6]%nat 0 Type_MEMORY);
      (8%nat, node Op_StoreI [None; Some 7; Some 5; Some 6]%nat 0 Type_MEMORY);
      (9%nat, node Op_Parm [None] 0 Type_MEMORY);
      (10%nat, node Op_LoadI [None; Some 8; Some 4]%nat 0 (TypeInt (-2147483648) 2147483647));
      (11%nat, node Op_StoreI [None; Some 11; Some 5; Some 6]%nat 0 Type_MEMORY);
      (12%nat, node Op_LoadI [None; Some 11; Some 4]%nat 0 (TypeInt (-2147483648) 2147483647)) ].

Definition addr_walk (adr : option nat) : option nat * Z :=
  match adr with
  | Some 4%nat => (Some 2%nat, 16)
  | Some 5%nat => (Some 3%nat, 24)
  | _ => (None, OffsetBot)
  end.

Definition phase_walk : PhaseValues :=
  phase addr_walk (λ _, None) (λ _, None) (bottom_type_of g_walk).

(** An object [A] (node 2) and a fresh allocation (node 20) with its
    memory projection 21 and its raw address 22.
    - The store 7 writes the constant 5 to the int at [A+16]; the pinned
      load 13 reads it back.
    - The store 15 writes the int constant 0x1234 to the byte at [A+16];
      the loads 16 (signed) and 17 (unsigned) read the byte back.
    - The vector load 24 and the int load 25 read offset 16 of the fresh
      object from its zero memory. *)
Definition pinned (n : Node) : Node :=
  mkNode (Opcode n) (ins n) (outs n) (con n) (bottom_type n) Pinned false.

Definition g_load : gmap nat Node :=
  list_to_map
    [ (0%nat, node Op_Con [None] 0 Type_TOP);
      (1%nat, node Op_ConI [None] 0 (TypeInt 0 0));
      (2%nat, node Op_Parm [None] 0 (oop 0));
      (4%nat, node Op_AddP [None; Some 2; Some 2; None]%nat 0 (oop 16));
      (6%nat, node Op_ConI [None] 5 (TypeInt 5 5));
      (7%nat, node Op_StoreI [None; Some 9; Some 4; Some 6]%nat 0 Type_MEMORY);
      (9%nat, node Op_Parm [None] 0 Type_MEMORY);
      (13%nat, pinned (node Op_LoadI [None; Some 7; Some 4]%nat 0
                         (TypeInt (-2147483648) 2147483647)));
      (14%nat, node Op_ConI [None] 4660 (TypeInt 4660 4660));
      (15%nat, node Op_StoreB [None; Some 9; Some 4; Some 14]%nat 0 Type_MEMORY);
      (16%nat, node Op_LoadB [None; Some 15; Some 4]%nat 0 TypeInt_BYTE);
      (17%nat, node Op_LoadUB [None; Some 15; Some 4]%nat 0 TypeInt_UBYTE);
      (20%nat, node Op_Allocate [None] 0 Type_BOTTOM);
      (21%nat, node Op_Proj [Some 20%nat] 2 Type_MEMORY);
      (22%nat, node Op_Proj [Some 20%nat] 5 (raw 0));
      (23%nat, node Op_AddP [None; None; Some 22; None]%nat 0 (raw 16));
      (24%nat, node Op_LoadVector [None; Some 21; Some 23]%nat 0 TypeVect);
      (25%nat, node Op_LoadI [None; Some 21; Some 23]%nat 0
                 (TypeInt (-2147483648) 2147483647)) ].

Definition addr_load (adr : option nat) : option nat * Z :=
  match adr with
  | Some 4%nat => (Some 2%nat, 16)
  | Some 23%nat => (Some 22%nat, 16)
  | _ => (None, OffsetBot)
  end.

Definition alloc_load (base : option nat) : option nat :=
  match base with
  | Some 22%nat => Some 20%nat
  | _ => None
  end.

Definition phase_load : PhaseValues :=
  phase addr_load alloc_load (λ _, None) (bottom_type_of g_load).

(** Memory merges over the memory states 13 ([X]), 14 ([A]) and 15 ([B]).
    The merge 10 has the merge 11 as its base, whose base is the merge 12
    over [X].  The merge 20 over [X] has one slice [A] and one slice that
    repeats the base. *)
Definition g_merge : gmap nat Node :=
  list_to_map
    [ (0%nat, node Op_Con [None] 0 Type_TOP);
      (10%nat, node Op_MergeMem [None; Some 0; Some 11; Some 0]%nat 0 Type_MEMORY);
      (11%nat, node Op_MergeMem [None; Some 0; Some 12; Some 14]%nat 0 Type_MEMORY);
      (12%nat, node Op_MergeMem [None; Some 0; Some 13; Some 15]%nat 0 Type_MEMORY);
      (13%nat, node Op_Parm [None] 0 Type_MEMORY);
      (14%nat, node Op_Parm [None] 0 Type_MEMORY);
      (15%nat, node Op_Parm [None] 0 Type_MEMORY);
      (20%nat, node Op_MergeMem [None; Some 0; Some 13; Some 14; Some 13]%nat 0 Type_MEMORY) ].

Definition phase_merge : PhaseValues :=
  phase (λ _, (None, OffsetBot)) (λ _, None) (λ _, None) (bottom_type_of g_merge).

(** A driver that finds nothing to do: it returns the node it is given. *)
Definition gvn_idle : GVN := {| transform := λ g n, (g, Some n) |}.

(** The allocation 20 with its memory projection 21, its raw address 22
    and its initialization barrier 30, which has captured the stores 33
    (an int at offset 16) and 34 (an int at offset 24).  The store 36 is
    the raw clone of a store of an int to offset 20. *)
Definition g_init : gmap nat Node :=
  list_to_map
    [ (0%nat, node Op_Con [None] 0 Type_TOP);
      (6%nat, node Op_ConI [None] 5 (TypeInt 5 5));
      (20%nat, node Op_Allocate [None] 0 Type_BOTTOM);
      (21%nat, node Op_Proj [Some 20%nat] 2 Type_MEMORY);
      (22%nat, node Op_Proj [Some 20%nat] 5 (raw 0));
      (23%nat, node Op_AddP [None; None; Some 22; None]%nat 0 (raw 16));
      (24%nat, node Op_AddP [None; None; Some 22; None]%nat 0 (raw 24));
      (25%nat, node Op_AddP [None; None; Some 22; None]%nat 0 (raw 20));
      (30%nat, node Op_Initialize
                 [None; None; Some 21; None; None; Some 22; Some 33; Some 34]%nat
                 0 Type_BOTTOM);
      (33%nat, node Op_StoreI [None; Some 21; Some 23; Some 6]%nat 0 Type_MEMORY);
      (34%nat, node Op_StoreI [None; Some 21; Some 24; Some 6]%nat 0 Type_MEMORY);
      (36%nat, node Op_StoreI [None; Some 21; Some 25; Some 6]%nat 0 Type_MEMORY) ].

Definition addr_init (adr : option nat) : option nat * Z :=
  match adr with
  | Some 23%nat => (Some 22%nat, 16)
  | Some 24%nat => (Some 22%nat, 24)
  | Some 25%nat => (Some 22%nat, 20)
  | _ => (None, OffsetBot)
  end.

Definition phase_init : PhaseValues :=
  phase addr_init alloc_load
        (λ init, match init with 30%nat => Some 20%nat | _ => None end)
        (bottom_type_of g_init).

(** Three byte stores 50, 51, 52 of the constants 1, 2, 3 to [A+16],
    [A+17], [A+18], one after the other under the control 46; the store 52
    is the last of the chain. *)
Definition with_outs (n : Node) (o : list nat) : Node :=
  mkNode (Opcode n) (ins n) o (con n) (bottom_type n) (control_dependency n)
         (is_complete_flag n).

Definition g_stores : gmap nat Node :=
  list_to_map
    [ (0%nat, node Op_Con [None] 0 Type_TOP);
      (2%nat, node Op_Parm [None] 0 (oop 0));
      (9%nat, with_outs (node Op_Parm [None] 0 Type_MEMORY) [50%nat]);
      (40%nat, node Op_AddP [None; Some 2; Some 2; None]%nat 0 (oop 16));
      (41%nat, node Op_AddP [None; Some 2; Some 2; None]%nat 0 (oop 17));
      (42%nat, node Op_AddP [None; Some 2; Some 2; None]%nat 0 (oop 18));
      (43%nat, node Op_ConI [None] 1 (TypeInt 1 1));
      (44%nat, node Op_ConI [None] 2 (TypeInt 2 2));
      (45%nat, node Op_ConI [None] 3 (TypeInt 3 3));
      (46%nat, node Op_Region [None] 0 Type_CONTROL);
      (50%nat, with_outs (node Op_StoreB [Some 46; Some 9; Some 40; Some 43]%nat 0
                            Type_MEMORY) [51%nat]);
      (51%nat, with_outs (node Op_StoreB [Some 46; Some 50; Some 41; Some 44]%nat 0
                            Type_MEMORY) [52%nat]);
      (52%nat, node Op_StoreB [Some 46; Some 51; Some 42; Some 45]%nat 0 Type_MEMORY) ].

Definition phase_stores : PhaseValues :=
  phase (λ _, (None, OffsetBot)) (λ _, None) (λ _, None) (bottom_type_of g_stores).

(** The stores of [g_stores] write ascending adjacent bytes. *)
Definition pointers_stores : MergeStores.Pointers :=
  {| MergeStores.is_adjacent_to_and_before := λ d u, bool_decide (u = S d);
     MergeStores.other_if_proj := λ _, None;
     MergeStores.is_uncommon_trap_proj := λ _, None |}.

(** Two int stores 7 and 8 with the same control, memory, address and
    value inputs. *)
Definition g_twins : gmap nat Node :=
  list_to_map
    [ (0%nat, node Op_Con [None] 0 Type_TOP);
      (1%nat, node Op_Region [None] 0 Type_CONTROL);
      (2%nat, node Op_Parm [None] 0 Type_MEMORY);
      (3%nat, node Op_Parm [None] 0 (oop 16));
      (4%nat, node Op_ConI [None] 5 (TypeInt 5 5));
      (7%nat, node Op_StoreI [Some 1; Some 2; Some 3; Some 4]%nat 0 Type_MEMORY);
      (8%nat, node Op_StoreI [Some 1; Some 2; Some 3; Some 4]%nat 0 Type_MEMORY) ].

End Examples.

(** ** Example graphs for the forwarding walk *)

Module WalkExamples.
Import Examples.

(** [p] with another answer to [MemNode::all_controls_dominate]. *)
Definition with_dominance (p : PhaseValues) (dom : option nat → option nat → bool)
    : PhaseValues :=
  {| C_top := @C_top p;
     phase_type := @phase_type p;
     Ideal_base_and_offset := @Ideal_base_and_offset p;
     Ideal_allocation := @Ideal_allocation p;
     minimum_header_size := @minimum_header_size p;
     allocation := @allocation p;
     all_controls_dominate := dom;
     get_alias_index := @get_alias_index p;
     vect_length_in_bytes := @vect_length_in_bytes p;
     step_over_gc_barrier := @step_over_gc_barrier p;
     is_clonebasic := @is_clonebasic p;
     is_validated := @is_validated p;
     modifies := @modifies p;
     isa_aryptr_layout := @isa_aryptr_layout p;
     Call_may_modify := @Call_may_modify p;
     ArrayCopy_may_modify := @ArrayCopy_may_modify p;
     ClearArray_step_through := @ClearArray_step_through p;
     zerocon := @zerocon p;
     alias_type := @alias_type p;
     vect_type := @vect_type p;
     eliminate_boxing := @eliminate_boxing p;
     eqv_uncast := @eqv_uncast p;
     is_boxing_method := @is_boxing_method p;
     is_same_inst_field := @is_same_inst_field p;
     LoadNode_Value_by_address := @LoadNode_Value_by_address p |}.

(** Two constant objects [C] (node 2) and [D] (node 3), neither an
    allocation.  The load 10 reads the int at [C+16]; its memory state is
    the store 7 to [D+16]. *)
Definition g_consts : gmap nat Node :=
  list_to_map
    [ (0%nat, node Op_Con [None] 0 Type_TOP);
      (2%nat, node Op_ConP [None] 0 (oop 0));
      (3%nat, node Op_ConP [None] 0 (oop 0));
      (4%nat, node Op_AddP [None; Some 2; Some 2; None]%nat 0 (oop 16));
      (5%nat, node Op_AddP [None; Some 3; Some 3; None]%nat 0 (oop 16));
      (6%nat, node Op_ConI [None] 5 (TypeInt 5 5));
      (7%nat, node Op_StoreI [None; Some 9; Some 5; Some 6]%nat 0 Type_MEMORY);
      (9%nat, node Op_Parm [None] 0 Type_MEMORY);
      (10%nat, node Op_LoadI [None; Some 7; Some 4]%nat 0 (TypeInt (-2147483648) 2147483647)) ].

Definition addr_consts (adr : option nat) : option nat * Z :=
  match adr with
  | Some 4%nat => (Some 2%nat, 16)
  | Some 5%nat => (Some 3%nat, 16)
  | _ => (None, OffsetBot)
  end.

Definition phase_consts : PhaseValues :=
  phase addr_consts (λ _, None) (λ _, None) (bottom_type_of g_consts).

(** An object [A] (node 2) that was there before the allocation 20, whose
    result is the object 26.  The load 10 reads the int at offset 16 of
    the new object; its memory state is the store 7 to [A+16]. *)
Definition g_older : gmap nat Node :=
  list_to_map
    [ (0%nat, node Op_Con [None] 0 Type_TOP);
      (2%nat, node Op_Parm [None] 0 (oop 0));
      (4%nat, node Op_AddP [None; Some 2; Some 2; None]%nat 0 (oop 16));
      (6%nat, node Op_ConI [None] 5 (TypeInt 5 5));
      (7%nat, node Op_StoreI [None; Some 9; Some 4; Some 6]%nat 0 Type_MEMORY);
      (9%nat, node Op_Parm [None] 0 Type_MEMORY);
      (10%nat, node Op_LoadI [None; Some 7; Some 27]%nat 0 (TypeInt (-2147483648) 2147483647));
      (20%nat, node Op_Allocate [None] 0 Type_BOTTOM);
      (22%nat, node Op_Proj [Some 20%nat] 5 (raw 0));
      (26%nat, node Op_CheckCastPP [None; Some 22]%nat 0 (oop 0));
      (27%nat, node Op_AddP [None; Some 26; Some 26; None]%nat 0 (oop 16)) ].

Definition addr_older (adr : option nat) : option nat * Z :=
  match adr with
  | Some 4%nat => (Some 2%nat, 16)
  | Some 27%nat => (Some 26%nat, 16)
  | _ => (None, OffsetBot)
  end.

Definition alloc_older (base : option nat) : option nat :=
  match base with
  | Some 26%nat => Some 20%nat
  | _ => None
  end.

(** All controls of [A] dominate the allocation 20. *)
Definition phase_older : PhaseValues :=
  with_dominance
    (phase addr_older alloc_older (λ _, None) (bottom_type_of g_older))
    (λ dom sub, bool_decide (dom = Some 2%nat) && bool_decide (sub = Some 20%nat)).

End WalkExamples.

(** ** MergeMemNode: iteration over two merges *)

Module MergeMemIter.
Import Edit MergeMem.

Section WithPhase.
Context `{!VMFlags, !PhaseValues}.

(** [MergeMemNode::iteration_setup]: [other] is the second merge of the
    stream, if there is one. *)
Definition iteration_setup (g : gmap nat Node) (this : nat) (other : option nat)
    : gmap nat Node :=
  let g := match other with
           | Some o => grow_to_match g this o
           | None => g
           end in
  let base_mem := Mem.base_memory g this in
  if bool_decide (base_mem ≠ None) && negb (bool_decide (base_mem = Some C_top)) then
    foldl (λ g' i, if bool_decide (in_ g' this i = base_mem)
                   then set_req g' this i empty_memory else g')
          g (seq (AliasIdxBot + 1) (req g this - (AliasIdxBot + 1)))
  else g.

End WithPhase.
End MergeMemIter.


(** ** InitializeNode: cleaning up and completing *)

Module InitializeMore.
Import Edit.

(** [Node::del_req] ([node.cpp]): the last edge takes the place of the
    deleted one.  Where the source asserts [idx < req()], an index out of
    range leaves the node as it is. *)
Definition del_req (g : gmap nat Node) (n idx : nat) : gmap nat Node :=
  let l := ins_of g n in
  if bool_decide (idx < length l)%nat
  then set_ins g n (take (length l - 1) (<[idx := mjoin (last l)]> l))
  else g.

(** [align_down] and [right_n_bits] ([utilities/align.hpp],
    [utilities/globalDefinitions.hpp]); [nth_bit(n)] is 0 from
    [BitsPerWord] on. *)
Definition align_down (x alignment : Z) : Z := x - x mod alignment.

Definition right_n_bits (n : Z) : Z := (if 64 <=? n then 0 else Z.shiftl 1 n) - 1.

Section WithPhase.
Context `{!VMFlags, !PhaseValues}.

(** The body of the first loop of [InitializeNode::remove_extra_zeroes],
    for the edge [i]: the state is the graph and [fill].  (For a null edge
    the source would dereference it; the model keeps the edge.) *)
Definition compact_step (this : nat) (zmem : option nat)
    (st : gmap nat Node * nat) (i : nat) : gmap nat Node * nat :=
  let '(g, fill) := st in
  let n := in_ g this i in
  if bool_decide (n = Some C_top) || bool_decide (n = zmem) then (g, fill)
  else ((if bool_decide (fill < i)%nat then set_req g this fill n else g), S fill).

(** The second loop: [while (fill < req()) del_req(fill)]; [fuel] bounds
    the number of trips. *)
Fixpoint delete_from (fuel : nat) (g : gmap nat Node) (this fill : nat) : gmap nat Node :=
  match fuel with
  | O => g
  | S fuel' =>
      if bool_decide (fill < req g this)%nat
      then delete_from fuel' (del_req g this fill) this fill
      else g
  end.

(** [InitializeNode::remove_extra_zeroes]. *)
Definition remove_extra_zeroes (g : gmap nat Node) (this : nat) : gmap nat Node :=
  if bool_decide (req g this = RawStores) then g
  else
    let zmem := Mem.zero_memory g this in
    let '(g1, fill) :=
      foldl (compact_step this zmem) (g, RawStores)
            (seq RawStores (req g this - RawStores)) in
    delete_from (req g1 this) g1 this fill.

(** [InitializeNode::is_non_zero]: the graph afterwards and the answer. *)
Definition is_non_zero (g : gmap nat Node) (this : nat) : gmap nat Node * bool :=
  if Mem.is_complete g this then (g, false)
  else
    let g := remove_extra_zeroes g this in
    (g, bool_decide (RawStores < req g this)%nat).

(** [AllocateNode::maybe_set_complete]; [init] is what
    [initialization()] gives for the allocation. *)
Definition maybe_set_complete (g : gmap nat Node) (init : option nat)
    : gmap nat Node * bool :=
  match init with
  | None => (g, false)
  | Some i =>
      if Mem.is_complete g i then (g, false)
      else
        let g := remove_extra_zeroes g i in
        let '(g, non_zero) := is_non_zero g i in
        if non_zero then (g, false)
        else (Initialize.set_complete g i, true)
  end.

(** The loop of [InitializeNode::find_next_fullword_store] over the edges
    [sts] that are left, with the [int] variable [int_map] and
    [int_map_off]. *)
Fixpoint fullword_scan (g : gmap nat Node) (int_map int_map_off : Z)
    (sts : list (option nat)) : Z :=
  match sts with
  | [] => -1
  | st :: rest =>
      let FULL_MAP := right_n_bits BytesPerInt in
      let st_off := Mem.get_store_offset g st in
      if st_off <? 0 then -1
      else
        let st_size := from_option (Mem.memory_size g) 0 st in
        if (BytesPerInt <=? st_size) && (st_off mod BytesPerInt =? 0) then st_off
        else
          let this_int_off := align_down st_off BytesPerInt in
          let reset := negb (this_int_off =? int_map_off) in
          let int_map := if reset then 0 else int_map in
          let int_map_off := if reset then this_int_off else int_map_off in
          let subword_off := st_off - this_int_off in
          let int_map :=
            jint_wrap (Z.lor int_map
                         (MergeStores.jlong_wrap
                            (Z.shiftl (right_n_bits st_size) subword_off))) in
          if Z.land int_map FULL_MAP =? FULL_MAP then this_int_off
          else
            let next_int_off := align_down (st_off + st_size) BytesPerInt in
            if next_int_off =? this_int_off + BytesPerInt then
              fullword_scan g (Z.shiftr int_map BytesPerInt) next_int_off rest
            else if this_int_off + BytesPerInt <? next_int_off then
              this_int_off + BytesPerInt
            else fullword_scan g int_map int_map_off rest
  end.

(** [InitializeNode::find_next_fullword_store]. *)
Definition find_next_fullword_store (g : gmap nat Node) (this start : nat) : Z :=
  fullword_scan g 0 0 (drop start (ins_of g this)).

End WithPhase.
End InitializeMore.

(** ** What the clean-up of a barrier keeps *)

Module InitializeSpec.

(** A captured edge that [remove_extra_zeroes] keeps: neither top nor
    the zero memory of the barrier. *)
Definition kept_edge `{!PhaseValues} (zmem e : option nat) : Prop :=
  e ≠ Some C_top ∧ e ≠ zmem.

#[global] Instance kept_edge_dec `{!PhaseValues} zmem e : Decision (kept_edge zmem e).
Proof. unfold kept_edge. apply _. Defined.

(** The byte at offset [b] is written by one of the stores [sts]. *)
Definition covered_by `{!VMFlags, !PhaseValues} (g : gmap nat Node)
    (sts : list (option nat)) (b : Z) : Prop :=
  ∃ st, st ∈ sts ∧ 0 ≤ Mem.get_store_offset g st
        ∧ Mem.get_store_offset g st ≤ b
          < Mem.get_store_offset g st + from_option (Mem.memory_size g) 0 st.

End InitializeSpec.


(** ** Stores of narrow values *)

(** Tests on opcodes that [opcode] does not tell apart. *)
Class MoreOpcodes := {
  (* n->Opcode() == Op_LShiftI *)
  is_LShiftI : nat → bool;
}.

Module NarrowStore.
Import Edit.

(** [TypeInt::is_con()] with [get_con()], through [isa_int()]. *)
Definition int_con (t : Type_) : option Z :=
  match t with
  | TypeInt lo hi => if lo =? hi then Some lo else None
  | _ => None
  end.

(** [BitsPerJavaInteger]. *)
Definition BitsPerJavaInteger : Z := 32.

Section WithPhase.
Context `{!VMFlags, !PhaseValues, !MoreOpcodes}.

(** [StoreNode::Ideal_masked_input]: the graph after [set_req_X] when the
    store is returned, [None] for [nullptr].  [mask] is a [uint]: the
    constant is converted to unsigned for the test.  (The model of
    [set_req_X] is [set_req].) *)
Definition Ideal_masked_input (g : gmap nat Node) (this : nat) (mask : Z)
    : option (gmap nat Node) :=
  match in_ g this MemNode_ValueIn with
  | Some val =>
      if has_opcode g Op_AndI val then
        match in_ g val 2 ≫= λ c, int_con (phase_type c) with
        | Some con =>
            if Z.land (con mod 2 ^ 32) mask =? mask
            then Some (set_req g this MemNode_ValueIn (in_ g val 1))
            else None
        | None => None
        end
      else None
  | None => None
  end.

(** [StoreNode::Ideal_sign_extended_input]; [new_shl] stands for the node
    that [phase->transform] returns for the new [LShiftI] of [shl->in(1)]
    by [conIL - conIR]. *)
Definition Ideal_sign_extended_input (g : gmap nat Node) (this : nat)
    (num_rejected_bits : Z) (new_shl : nat) : option (gmap nat Node) :=
  match in_ g this MemNode_ValueIn with
  | Some shr =>
      if has_opcode g Op_RShiftI shr then
        match in_ g shr 2 ≫= λ c, int_con (phase_type c) with
        | Some conIR =>
            if (0 <=? conIR) && (conIR <? BitsPerJavaInteger)
               && (conIR <=? num_rejected_bits)
            then
              match in_ g shr 1 with
              | Some shl =>
                  if is_LShiftI shl then
                    match in_ g shl 2 ≫= λ c, int_con (phase_type c) with
                    | Some conIL =>
                        if (0 <=? conIL) && (conIL <? BitsPerJavaInteger) then
                          if conIL =? conIR
                          then Some (set_req g this MemNode_ValueIn (in_ g shl 1))
                          else if conIR <? conIL
                          then Some (set_req g this MemNode_ValueIn (Some new_shl))
                          else None
                        else None
                    | None => None
                    end
                  else None
              | None => None
              end
            else None
        | None => None
        end
      else None
  | None => None
  end.

End WithPhase.
End NarrowStore.

(** ** Loads of shorts and chars *)

Module ShortLoads.

Section WithGraph.
Context `{!VMFlags, !PhaseValues} (g : gmap nat Node).

(** [TypeInt::SHORT], [TypeInt::CHAR]. *)
Definition TypeInt_SHORT : Type_ := TypeInt (-32768) 32767.
Definition TypeInt_CHAR : Type_ := TypeInt 0 65535.

(** [LoadUSNode::Value]. *)
Definition LoadUSNode_Value (fuel : nat) (this : nat) : option Type_ :=
  match in_ g this MemNode_Memory with
  | None => Mem.LoadNode_Value g fuel this
  | Some mem =>
      v ← Mem.can_see_stored_value g fuel this mem;
      match v with
      | Some value =>
          if is_Con g value
             && negb (higher_equal (bottom_type_of g value) (bottom_type_of g this))
          then
            let con := get_int g value in
            Some (TypeInt_make (Z.land con 65535))
          else Mem.LoadNode_Value g fuel this
      | None => Mem.LoadNode_Value g fuel this
      end
  end.

(** [LoadSNode::Value]. *)
Definition LoadSNode_Value (fuel : nat) (this : nat) : option Type_ :=
  match in_ g this MemNode_Memory with
  | None => Mem.LoadNode_Value g fuel this
  | Some mem =>
      v ← Mem.can_see_stored_value g fuel this mem;
      match v with
      | Some value =>
          if is_Con g value
             && negb (higher_equal (bottom_type_of g value) (bottom_type_of g this))
          then
            let con := get_int g value in
            Some (TypeInt_make (jint_sar (jint_shl con 16) 16))
          else Mem.LoadNode_Value g fuel this
      | None => Mem.LoadNode_Value g fuel this
      end
  end.

End WithGraph.
End ShortLoads.


(** ** More example graphs *)

Module MoreExamples.
Import Examples.

(** The barrier 30 of [g_init] with a top edge and a zero-memory edge
    among its captured stores. *)
Definition g_zeroes : gmap nat Node :=
  Edit.set_ins g_init 30
    [None; None; Some 21; None; None; Some 22; Some 0; Some 33; Some 21; Some 34]%nat.

(** The barrier 30 with nothing but a zero-memory edge and a top edge
    behind its fixed edges. *)
Definition g_fresh : gmap nat Node :=
  Edit.set_ins g_init 30
    [None; None; Some 21; None; None; Some 22; Some 21; Some 0]%nat.

(** A barrier 30 that has captured a byte at offset 19 (store 63) and
    chars at offsets 20 and 22 (stores 64 and 65). *)
Definition g_bytes : gmap nat Node :=
  list_to_map
    [ (0%nat, node Op_Con [None] 0 Type_TOP);
      (6%nat, node Op_ConI [None] 5 (TypeInt 5 5));
      (20%nat, node Op_Allocate [None] 0 Type_BOTTOM);
      (21%nat, node Op_Proj [Some 20%nat] 2 Type_MEMORY);
      (22%nat, node Op_Proj [Some 20%nat] 5 (raw 0));
      (23%nat, node Op_AddP [None; None; Some 22; None]%nat 0 (raw 19));
      (24%nat, node Op_AddP [None; None; Some 22; None]%nat 0 (raw 20));
      (25%nat, node Op_AddP [None; None; Some 22; None]%nat 0 (raw 22));
      (30%nat, node Op_Initialize
                 [None; None; Some 21; None; None; Some 22; Some 63; Some 64; Some 65]%nat
                 0 Type_BOTTOM);
      (63%nat, node Op_StoreB [None; Some 21; Some 23; Some 6]%nat 0 Type_MEMORY);
      (64%nat, node Op_StoreC [None; Some 21; Some 24; Some 6]%nat 0 Type_MEMORY);
      (65%nat, node Op_StoreC [None; Some 21; Some 25; Some 6]%nat 0 Type_MEMORY) ].

Definition addr_bytes (adr : option nat) : option nat * Z :=
  match adr with
  | Some 23%nat => (Some 22%nat, 19)
  | Some 24%nat => (Some 22%nat, 20)
  | Some 25%nat => (Some 22%nat, 22)
  | _ => (None, OffsetBot)
  end.

Definition phase_bytes : PhaseValues :=
  phase addr_bytes alloc_load
        (λ init, match init with 30%nat => Some 20%nat | _ => None end)
        (bottom_type_of g_bytes).

(** A byte store 73 of [x & 255] and a byte store 77 of [(x << 24) >> 24],
    for the int [x] of node 70; node 75 is the left shift. *)
Definition g_narrow : gmap nat Node :=
  list_to_map
    [ (0%nat, node Op_Con [None] 0 Type_TOP);
      (2%nat, node Op_Parm [None] 0 (oop 0));
      (9%nat, node Op_Parm [None] 0 Type_MEMORY);
      (40%nat, node Op_AddP [None; Some 2; Some 2; None]%nat 0 (oop 16));
      (70%nat, node Op_Parm [None] 0 (TypeInt (-2147483648) 2147483647));
      (71%nat, node Op_ConI [None] 255 (TypeInt 255 255));
      (72%nat, node Op_AndI [None; Some 70; Some 71]%nat 0
                 (TypeInt (-2147483648) 2147483647));
      (73%nat, node Op_StoreB [None; Some 9; Some 40; Some 72]%nat 0 Type_MEMORY);
      (74%nat, node Op_ConI [None] 24 (TypeInt 24 24));
      (75%nat, node Op_Node [None; Some 70; Some 74]%nat 0
                 (TypeInt (-2147483648) 2147483647));
      (76%nat, node Op_RShiftI [None; Some 75; Some 74]%nat 0
                 (TypeInt (-2147483648) 2147483647));
      (77%nat, node Op_StoreB [None; Some 9; Some 40; Some 76]%nat 0 Type_MEMORY) ].

Definition phase_narrow : PhaseValues :=
  phase (λ _, (None, OffsetBot)) (λ _, None) (λ _, None) (bottom_type_of g_narrow).

Definition opcodes_narrow : MoreOpcodes :=
  {| is_LShiftI := λ n, bool_decide (n = 75%nat) |}.

(** The store 15 writes the int constant 0x12345 to the char at [A+16];
    the loads 16 (signed) and 17 (unsigned) read it back. *)
Definition g_short : gmap nat Node :=
  list_to_map
    [ (0%nat, node Op_Con [None] 0 Type_TOP);
      (2%nat, node Op_Parm [None] 0 (oop 0));
      (4%nat, node Op_AddP [None; Some 2; Some 2; None]%nat 0 (oop 16));
      (9%nat, node Op_Parm [None] 0 Type_MEMORY);
      (14%nat, node Op_ConI [None] 0x12345 (TypeInt 0x12345 0x12345));
      (15%nat, node Op_StoreC [None; Some 9; Some 4; Some 14]%nat 0 Type_MEMORY);
      (16%nat, node Op_LoadS [None; Some 15; Some 4]%nat 0 ShortLoads.TypeInt_SHORT);
      (17%nat, node Op_LoadUS [None; Some 15; Some 4]%nat 0 ShortLoads.TypeInt_CHAR) ].

Definition phase_short : PhaseValues :=
  phase addr_load alloc_load (λ _, None) (bottom_type_of g_short).

End MoreExamples.

(** ** MergeMemNode: reading through chained merges *)

Module MergeMemSpec.

Section WithPhase.
Context `{!VMFlags, !PhaseValues}.

(** What a merge reads at a slice through one level of chained merges:
    when the state of the slice is itself a MergeMem, the state which that
    one has for the slice. *)
Definition memory_through (g : gmap nat Node) (this i : nat) : option nat :=
  match Mem.memory_at g this i with
  | Some m => if is_MergeMem g m then Mem.memory_at g m i else Some m
  | None => None
  end.

(** Chains of merges at most one deep: where the base of the merge is
    another MergeMem, the base of that one is none; and where the state the
    merge has for a slice is another MergeMem, the state which that one has
    for the slice is none. *)
Definition shallow (g : gmap nat Node) (this : nat) : Prop :=
  (∀ b, Mem.base_memory g this = Some b → b ≠ this → is_MergeMem g b = true →
        opt_is (is_MergeMem g) (Mem.base_memory g b) = false)
  ∧ (∀ i m, (AliasIdxRaw ≤ i)%nat → Mem.memory_at g this i = Some m → m ≠ this →
            is_MergeMem g m = true →
            opt_is (is_MergeMem g) (Mem.memory_at g m i) = false).

End WithPhase.
End MergeMemSpec.

Module ChainExamples.
Import Examples.

(** [g_merge] with the merge 21: its base is the merge 12 over [X], and
    its slice 3 is the merge 11, which has [A] there. *)
Definition g_chain : gmap nat Node :=
  <[21%nat := node Op_MergeMem [None; Some 0; Some 12; Some 11]%nat 0 Type_MEMORY]> g_merge.

(** [g_chain] with the merge 22 over [X]: its slice 3 is the merge 21,
    which has the merge 11 there, which has [A] there. *)
Definition g_deep : gmap nat Node :=
  <[22%nat := node Op_MergeMem [None; Some 0; Some 13; Some 21]%nat 0 Type_MEMORY]> g_chain.

(** A driver that rewrites merges: whenever it is called, it makes the
    slice 3 of the merge 12 repeat the base [X]. *)
Definition gvn_rewriting : GVN :=
  {| transform := λ g n, (Edit.set_req g 12 3 (Some 13%nat), Some n) |}.

End ChainExamples.

(** ** StoreNode: folding back-to-back stores *)

Module StoreFold.
Import Edit.

Section WithPhase.
Context `{!VMFlags, !PhaseValues}.

(** [a->eqv_uncast(b)] on two edges; a null edge, which the source would
    dereference, matches nothing. *)
Definition edges_eqv_uncast (a b : option nat) : bool :=
  match a, b with
  | Some x, Some y => eqv_uncast x y
  | _, _ => false
  end.

(** The loop of [StoreNode::Ideal] that looks for an earlier store to the
    same address, from the memory state [st] on: [None] when the fuel runs
    out, [Some None] when the loop ends without a fold, the graph after
    [use->set_req_X(MemNode::Memory, st->in(MemNode::Memory), phase)] when it
    folds.  (The model of [set_req_X] is [set_req]; a store with one use
    has a [raw_out(0)]; on a null memory edge, which the source would
    dereference, the loop ends.) *)
Fixpoint fold_scan (fuel : nat) (g : gmap nat Node) (this : nat) (st : option nat)
    : option (option (gmap nat Node)) :=
  match fuel with
  | O => None
  | S fuel' =>
      match st with
      | Some s =>
          if is_Store g s && bool_decide (outcnt g s = 1%nat) then
            if edges_eqv_uncast (in_ g s MemNode_Address) (in_ g this MemNode_Address)
               && (Mem.memory_size g s <=? Mem.memory_size g this)
            then
              match raw_out g s 0 with
              | Some use =>
                  Some (Some (set_req g use MemNode_Memory (in_ g s MemNode_Memory)))
              | None => Some None
              end
            else fold_scan fuel' g this (in_ g s MemNode_Memory)
          else Some None
      | None => Some None
      end
  end.

(** The block of [StoreNode::Ideal] that folds back-to-back stores; it
    runs when [MemNode::Ideal_common] has found nothing to do. *)
Definition Ideal_fold_stores (fuel : nat) (g : gmap nat Node) (this : nat)
    : option (option (gmap nat Node)) :=
  fold_scan fuel g this (in_ g this MemNode_Memory).

End WithPhase.
End StoreFold.

Module FoldExamples.
Import Examples.

(** The byte store 60 to [A+16], the int store 61 to [A+20] and the byte
    store 62 to [A+16] again, one after the other; each of 60 and 61 has
    the next store as its only use. *)
Definition g_overwrite : gmap nat Node :=
  list_to_map
    [ (0%nat, node Op_Con [None] 0 Type_TOP);
      (2%nat, node Op_Parm [None] 0 (oop 0));
      (9%nat, with_outs (node Op_Parm [None] 0 Type_MEMORY) [60%nat]);
      (40%nat, node Op_AddP [None; Some 2; Some 2; None]%nat 0 (oop 16));
      (41%nat, node Op_AddP [None; Some 2; Some 2; None]%nat 0 (oop 20));
      (43%nat, node Op_ConI [None] 1 (TypeInt 1 1));
      (44%nat, node Op_ConI [None] 2 (TypeInt 2 2));
      (46%nat, node Op_Region [None] 0 Type_CONTROL);
      (60%nat, with_outs (node Op_StoreB [Some 46; Some 9; Some 40; Some 43]%nat 0
                            Type_MEMORY) [61%nat]);
      (61%nat, with_outs (node Op_StoreI [Some 46; Some 60; Some 41; Some 44]%nat 0
                            Type_MEMORY) [62%nat]);
      (62%nat, node Op_StoreB [Some 46; Some 61; Some 40; Some 44]%nat 0 Type_MEMORY) ].

Definition phase_overwrite : PhaseValues :=
  phase (λ _, (None, OffsetBot)) (λ _, None) (λ _, None) (bottom_type_of g_overwrite).

End FoldExamples.

(** ** Where a forwarded value comes from *)

Module ForwardedValueSpec.
Import Mem.

Section WithGraph.
Context `{!VMFlags, !PhaseValues} (g : gmap nat Node).

(** The value of a store that is forwarded to the access [this] at
    [ld_adr], which is [ld_base + ld_off]. *)
Definition from_store (this ld_adr : nat) (ld_base : option nat) (ld_off : Z)
    (v : nat) : Prop :=
  ∃ s : nat,
    is_Store g s = true
    ∧ in_ g s MemNode_ValueIn = Some v
    ∧ store_Opcode <$> opcode_of g this = opcode_of g s
    ∧ (is_StoreVector g s = false → memory_size g s = memory_size g this)
    ∧ (is_StoreVector g s = true → vect_type s = vect_type this)
    ∧ (in_ g s MemNode_Address = Some ld_adr
       ∨ ∃ lb sb : nat,
           ld_base = Some lb
           ∧ Ideal_base_and_offset (in_ g s MemNode_Address) = (Some sb, ld_off)
           ∧ eqv_uncast lb sb = true
           ∧ ld_off ≠ OffsetBot).

(** The zero of a fresh object: the access reads past the header of the
    allocation [ld_alloc] that its base is. *)
Definition from_fresh_object (this : nat) (ld_alloc : option nat) (ld_off : Z)
    (v : nat) : Prop :=
  ∃ (o : opcode) (a : nat),
    opcode_of g this = Some o
    ∧ value_basic_type o ≠ T_VOID
    ∧ v = zerocon (value_basic_type o)
    ∧ ld_alloc = Some a
    ∧ is_Allocate g a = true
    ∧ minimum_header_size a ≤ ld_off.

End WithGraph.
End ForwardedValueSpec.

Module PieceExamples.
Import Examples.

(** Two byte stores of the pieces of the int 70: the store 80 writes its
    low byte to [A+16], the store 81 writes the next byte, [70 >> 8], to
    [A+17]. *)
Definition g_pieces : gmap nat Node :=
  list_to_map
    [ (0%nat, node Op_Con [None] 0 Type_TOP);
      (2%nat, node Op_Parm [None] 0 (oop 0));
      (9%nat, with_outs (node Op_Parm [None] 0 Type_MEMORY) [80%nat]);
      (40%nat, node Op_AddP [None; Some 2; Some 2; None]%nat 0 (oop 16));
      (41%nat, node Op_AddP [None; Some 2; Some 2; None]%nat 0 (oop 17));
      (46%nat, node Op_Region [None] 0 Type_CONTROL);
      (70%nat, node Op_Parm [None] 0 (TypeInt (- 2 ^ 31) (2 ^ 31 - 1)));
      (71%nat, node Op_ConI [None] 8 (TypeInt 8 8));
      (72%nat, node Op_RShiftI [None; Some 70; Some 71]%nat 0
                 (TypeInt (- 2 ^ 23) (2 ^ 23 - 1)));
      (80%nat, with_outs (node Op_StoreB [Some 46; Some 9; Some 40; Some 70]%nat 0
                            Type_MEMORY) [81%nat]);
      (81%nat, node Op_StoreB [Some 46; Some 80; Some 41; Some 72]%nat 0 Type_MEMORY) ].

Definition phase_pieces : PhaseValues :=
  phase (λ _, (None, OffsetBot)) (λ _, None) (λ _, None) (bottom_type_of g_pieces).

End PieceExamples.

(** ** InitializeNode: coalescing constant stores *)

(** What [coalesce_subword_stores] asks of the matcher and of the phase. *)
Class CoalesceValues := {
  (* Matcher::isSimpleConstant64(con) *)
  isSimpleConstant64 : Z → bool;
  (* phase->find_intptr_t_con(n, value_if_unknown) *)
  find_intptr_t_con : option nat → Z → Z;
  (* of the singleton TypeF or TypeD of a node: jint_cast(getf()),
     jlong_cast(getd()); none when the type is no singleton *)
  float_con_bits : nat → option Z;
  double_con_bits : nat → option Z;
  (* for the barrier this: what phase->transform returns for the store
     that StoreNode::make builds from ctl, zmem, make_raw_address(offset,
     phase), TypeRawPtr::BOTTOM, phase->longcon(con) or phase->intcon(con)
     and bt, taken to be in the arena already *)
  coalesced_store : nat → option nat → option nat → Z → Z → BasicType → nat;
}.

Module Coalesce.
Import Edit InitializeMore.

(** [align_up] ([utilities/align.hpp]). *)
Definition align_up (x alignment : Z) : Z := align_down (x + (alignment - 1)) alignment.

(** The tile model of [coalesce_subword_stores]: [tiles] and [inits] byte
    by byte in address order, [nodes] tile by tile, with the graph and the
    counters [old_subword] and [old_long]. *)
Record tile_model := mkTiles {
  tm_graph : gmap nat Node;
  tm_tiles : list Z;
  tm_inits : list Z;
  tm_nodes : list (option nat);
  tm_old_subword : Z;
  tm_old_long : Z;
}.

Section WithPhase.
Context `{!VMFlags, !PhaseValues, !CoalesceValues}.

(** The low [size] bytes of [con] as the machine lays them out in memory. *)
Definition con_bytes (size : nat) (con : Z) : list Z :=
  let le := (λ k, Z.land (Z.shiftr con (8 * Z.of_nat k)) 255) <$> seq 0 size in
  if VM_LITTLE_ENDIAN then le else reverse le.

(** The [jint] or [jlong] that the machine reads from the bytes [bs]. *)
Definition bytes_con (bs : list Z) : Z :=
  let le := if VM_LITTLE_ENDIAN then bs else reverse bs in
  let u := foldr (λ b acc, b + 256 * acc) 0 le in
  let w := 2 ^ (8 * Z.of_nat (length bs)) in
  if 2 * u <? w then u else u - w.

(** The bytes [bs] written at [off]; where the source asserts that the
    write stays within the tiles, a write beyond them is dropped. *)
Definition write_bytes (tiles : list Z) (off : nat) (bs : list Z) : list Z :=
  if bool_decide (off + length bs ≤ length tiles)%nat
  then take off tiles ++ bs ++ drop (off + length bs) tiles
  else tiles.

(** [store_constant] (static): the tiles afterwards, or [None] for
    [false]. *)
Definition store_constant (tiles : list Z) (st_off st_size con : Z) : option (list Z) :=
  if negb (Z.land st_off (st_size - 1) =? 0) then None
  else if (st_size =? 1) || (st_size =? 2) || (st_size =? 4) || (st_size =? 8)
  then Some (write_bytes tiles (Z.to_nat st_off) (con_bytes (Z.to_nat st_size) con))
  else None.

(** The constant that the loop of pass A reads off [phase->type] of the
    stored value: its basic type and its bits.  [None] where the loop
    continues: the type is no singleton, or the constant is of another
    kind.  (A [TypeInt] or [TypeLong] is taken to be a singleton when its
    bounds are equal, which is what [get_con] asserts.) *)
Definition stored_constant (val : nat) : option (BasicType * Z) :=
  match phase_type val with
  | TypeInt lo hi => if lo =? hi then Some (T_INT, lo) else None
  | TypeLong lo hi => if lo =? hi then Some (T_LONG, lo) else None
  | TypeF => (λ c, (T_FLOAT, c)) <$> float_con_bits val
  | TypeD => (λ c, (T_DOUBLE, c)) <$> double_con_bits val
  | _ => None
  end.

(** The tile [j] of [tiles]. *)
Definition tile (tiles : list Z) (j : nat) : list Z := take 8 (drop (8 * j) tiles).

(** One trip of the loop of pass A, for the edge [i]: the model
    afterwards, and whether the loop is left ([break]).  (A null edge,
    which the source would dereference when its offset is not below
    [header_size], is skipped.) *)
Definition pass_A_trip (this : nat) (header_size size_limit : Z) (zmem : option nat)
    (s : tile_model) (i : nat) : tile_model * bool :=
  let g := tm_graph s in
  let st_off := Mem.get_store_offset g (in_ g this i) in
  if st_off <? header_size then (s, false)
  else
    match in_ g this i with
    | None => (s, false)
    | Some st =>
        if negb (bool_decide (in_ g st MemNode_Memory = zmem)) then (s, false)
        else
          let st_size := Mem.memory_size g st in
          if size_limit <? st_off + st_size then (s, true)
          else
            match store_constant (tm_inits s) st_off st_size (-1) with
            | None => (s, false)
            | Some inits =>
                let s := mkTiles g (tm_tiles s) inits (tm_nodes s)
                                 (tm_old_subword s) (tm_old_long s) in
                match in_ g st MemNode_ValueIn ≫= stored_constant with
                | None => (s, false)
                | Some (type, con) =>
                    if bool_decide (type = T_LONG) && isSimpleConstant64 con
                       && has_opcode g Op_StoreL st
                    then (s, false)
                    else
                      let tiles :=
                        default (tm_tiles s)
                                (store_constant (tm_tiles s) st_off st_size con) in
                      let j := Z.to_nat (Z.shiftr st_off 3) in
                      if bool_decide (type = T_INT) && (st_size =? BytesPerInt)
                         && (Z.land st_off BytesPerInt =? BytesPerInt)
                         && negb (isSimpleConstant64 (bytes_con (tile tiles j)))
                         && has_opcode g Op_StoreI st
                      then
                        (* this StoreI is already optimal by itself *)
                        let tiles := write_bytes tiles (8 * j + 4) [0; 0; 0; 0] in
                        let prev := mjoin (tm_nodes s !! j) in
                        let con0 := bytes_con (take 4 (tile tiles j)) in
                        if negb (con0 =? 0) && opt_is (has_opcode g Op_StoreI) prev
                        then
                          (mkTiles (set_req g this (i - 1) prev)
                                   (write_bytes tiles (8 * j) [0; 0; 0; 0])
                                   inits (<[j := None]> (tm_nodes s))
                                   (tm_old_subword s - 1) (tm_old_long s),
                           false)
                        else
                          (mkTiles g tiles inits (tm_nodes s)
                                   (tm_old_subword s) (tm_old_long s),
                           false)
                      else
                        (* this store is not needed *)
                        (mkTiles (set_req g this i zmem) tiles inits
                                 (<[j := Some st]> (tm_nodes s))
                                 (if st_size <? BytesPerLong
                                  then tm_old_subword s + 1 else tm_old_subword s)
                                 (if st_size <? BytesPerLong
                                  then tm_old_long s else tm_old_long s + 1),
                         false)
                end
            end
    end.

(** Pass A: the loop over the edges. *)
Fixpoint pass_A (this : nat) (header_size size_limit : Z) (zmem : option nat)
    (s : tile_model) (edges : list nat) : tile_model :=
  match edges with
  | [] => s
  | i :: rest =>
      let '(s', stop) := pass_A_trip this header_size size_limit zmem s i in
      if stop then s' else pass_A this header_size size_limit zmem s' rest
  end.

(** The coalesced stores of pass B for the tile [j]: [off[0..nst)] with
    [st[0..nst)] after [phase->transform].  ([old], which the source
    asserts to be there, gives the control.) *)
Definition tile_stores (g : gmap nat Node) (this : nat) (header_size : Z)
    (zmem : option nat) (j : nat) (con init : list Z) (old : option nat)
    : list (Z * nat) :=
  let con0 := bytes_con (take 4 con) in
  let con1 := bytes_con (drop 4 con) in
  let init0 := bytes_con (take 4 init) in
  let init1 := bytes_con (drop 4 init) in
  let offset := Z.of_nat j * BytesPerLong in
  let split :=
    negb (isSimpleConstant64 (bytes_con con))
    || (offset <? header_size)
    || ((con0 =? 0) && (init0 =? -1))
    || ((con1 =? 0) && (init1 =? -1)) in
  let ctl := old ≫= λ o, in_ g o MemNode_Control in
  if negb split
  then [(offset, coalesced_store this ctl zmem offset (bytes_con con) T_LONG)]
  else
    (if con0 =? 0 then []
     else [(offset, coalesced_store this ctl zmem offset con0 T_INT)])
    ++ (if con1 =? 0 then []
        else [(offset + BytesPerInt,
               coalesced_store this ctl zmem (offset + BytesPerInt) con1 T_INT)]).

(** One trip of [while (nst > 0)]: the store [st1] for [offset] is wired
    in before any overlapping store; [None] where the [guarantee] of the
    source fails. *)
Definition insert_store (this : nat) (zmem : option nat) (g : gmap nat Node)
    (offset : Z) (st1 : nat) : option (gmap nat Node) :=
  let ins_idx := Mem.captured_store_insertion_point g this offset 0 in
  if ins_idx =? 0 then None
  else
    let ins_idx := Z.to_nat (if ins_idx <? 0 then - ins_idx else ins_idx) in
    if bool_decide (RawStores < ins_idx)%nat
       && bool_decide (in_ g this (ins_idx - 1) = zmem)
    then Some (set_req g this (ins_idx - 1) (Some st1))
    else Some (ins_req g this ins_idx (Some st1)).

(** One trip of the loop of pass B, for the tile [j]: the second store is
    inserted first. *)
Definition pass_B_trip (this : nat) (header_size : Z) (zmem : option nat)
    (s : tile_model) (og : option (gmap nat Node)) (j : nat)
    : option (gmap nat Node) :=
  g ← og;
  if bytes_con (tile (tm_tiles s) j) =? 0 then Some g
  else
    foldl (λ og' st, g' ← og'; insert_store this zmem g' st.1 st.2)
          (Some g)
          (reverse (tile_stores g this header_size zmem j
                      (tile (tm_tiles s) j) (tile (tm_inits s) j)
                      (mjoin (tm_nodes s !! j)))).

(** [InitializeNode::coalesce_subword_stores]: the graph afterwards;
    [None] where the [guarantee] of pass B fails. *)
Definition coalesce_subword_stores (g : gmap nat Node) (this : nat)
    (header_size : Z) (size_in_bytes : option nat) : option (gmap nat Node) :=
  let ti_limit := TrackedInitializationLimit * HeapWordSize in
  let size_limit := find_intptr_t_con size_in_bytes ti_limit in
  let size_limit := Z.min size_limit ti_limit in
  let size_limit := align_up size_limit BytesPerLong in
  let num_tiles := Z.to_nat (size_limit / BytesPerLong) in
  let zmem := Mem.zero_memory g this in
  let s := pass_A this header_size size_limit zmem
             (mkTiles g (replicate (8 * num_tiles) 0) (replicate (8 * num_tiles) 0)
                      (replicate num_tiles None) 0 0)
             (seq RawStores (req g this - RawStores)) in
  if tm_old_subword s + tm_old_long s =? 0 then Some (tm_graph s)
  else
    g' ← foldl (pass_B_trip this header_size zmem s) (Some (tm_graph s))
               (seq 0 num_tiles);
    Some (remove_extra_zeroes g' this).

End WithPhase.
End Coalesce.

Module CoalesceExamples.
Import Examples.

(** The barrier 30 of the allocation 20 of a [byte[]] initialized with
    [{ 1, 2, y, 4 }]: it has captured the byte stores 60, 61, 62 and 63 at
    the offsets 16 to 19; [y] (node 46) is no constant.  The node 71 is the
    long store of the tile [0x04000201] to offset 16. *)
Definition g_tile : gmap nat Node :=
  list_to_map
    [ (0%nat, node Op_Con [None] 0 Type_TOP);
      (20%nat, node Op_Allocate [None] 0 Type_BOTTOM);
      (21%nat, node Op_Proj [Some 20%nat] 2 Type_MEMORY);
      (22%nat, node Op_Proj [Some 20%nat] 5 (raw 0));
      (23%nat, node Op_AddP [None; None; Some 22; None]%nat 0 (raw 16));
      (24%nat, node Op_AddP [None; None; Some 22; None]%nat 0 (raw 17));
      (25%nat, node Op_AddP [None; None; Some 22; None]%nat 0 (raw 18));
      (26%nat, node Op_AddP [None; None; Some 22; None]%nat 0 (raw 19));
      (30%nat, node Op_Initialize
                 [None; None; Some 21; None; None; Some 22;
                  Some 60; Some 61; Some 62; Some 63]%nat
                 0 Type_BOTTOM);
      (43%nat, node Op_ConI [None] 1 (TypeInt 1 1));
      (44%nat, node Op_ConI [None] 2 (TypeInt 2 2));
      (45%nat, node Op_ConI [None] 4 (TypeInt 4 4));
      (46%nat, node Op_Parm [None] 0 (TypeInt (-128) 127));
      (60%nat, node Op_StoreB [None; Some 21; Some 23; Some 43]%nat 0 Type_MEMORY);
      (61%nat, node Op_StoreB [None; Some 21; Some 24; Some 44]%nat 0 Type_MEMORY);
      (62%nat, node Op_StoreB [None; Some 21; Some 25; Some 46]%nat 0 Type_MEMORY);
      (63%nat, node Op_StoreB [None; Some 21; Some 26; Some 45]%nat 0 Type_MEMORY);
      (70%nat, node Op_ConL [None] 0x04000201 (TypeLong 0x04000201 0x04000201));
      (71%nat, node Op_StoreL [None; Some 21; Some 23; Some 70]%nat 0 Type_MEMORY) ].

Definition addr_tile (adr : option nat) : option nat * Z :=
  match adr with
  | Some 23%nat => (Some 22%nat, 16)
  | Some 24%nat => (Some 22%nat, 17)
  | Some 25%nat => (Some 22%nat, 18)
  | Some 26%nat => (Some 22%nat, 19)
  | _ => (None, OffsetBot)
  end.

Definition phase_tile : PhaseValues :=
  phase addr_tile alloc_load
        (λ init, match init with 30%nat => Some 20%nat | _ => None end)
        (bottom_type_of g_tile).

(** A machine on which one long store is as cheap as two int stores; the
    object is 24 bytes long; the long store of [0x04000201] to offset 16
    is the node 71. *)
Definition coalesce_tile : CoalesceValues :=
  {| isSimpleConstant64 := λ _, true;
     find_intptr_t_con := λ _ _, 24;
     float_con_bits := λ _, None;
     double_con_bits := λ _, None;
     coalesced_store := λ _ _ _ offset con bt,
       if (offset =? 16) && (con =? 0x04000201) && bool_decide (bt = T_LONG)
       then 71%nat else 0%nat |}.

End CoalesceExamples.

(** * Properties *)

(** ** The forwarding walk *)

Module MemFacts.
Import Mem.

Section WithGraph.
Context `{!VMFlags, !PhaseValues} (g : gmap nat Node).

(** The walk leaves its loop within [cnt + 1] trips, has then counted
    [cnt] down to no less than -1, returns null when it got to -1, and has
    run the loop body on no more than [cnt] memory states. *)
Lemma find_previous_store_loop_bounded this a (fuel : nat) :
  ∀ cnt mem, 0 ≤ cnt → cnt < Z.of_nat fuel →
    ∃ c r, find_previous_store_loop g fuel this a cnt mem = Some (c, r)
           ∧ -1 ≤ c < cnt
           ∧ (c = -1 → r = None)
           ∧ Z.of_nat (length (examined g fuel this a cnt mem)) ≤ cnt.
Proof.
  induction fuel as [|fuel IH]; intros cnt mem Hc Hf; [lia|].
  cbn [find_previous_store_loop examined].
  destruct (Z.ltb_spec (cnt - 1) 0) as [Hlt|Hge].
  - exists (cnt - 1), None. cbn. repeat split; lia.
  - destruct mem as [m|].
    + destruct (find_previous_store_body g this a m) as [mem'| r |].
      * destruct (IH (cnt - 1) mem' ltac:(lia) ltac:(lia)) as (c & r & -> & ? & ? & ?).
        exists c, r. cbn [length]. repeat split; try lia. assumption.
      * exists (cnt - 1), (Some r). cbn. repeat split; lia.
      * exists (cnt - 1), None. cbn. repeat split; lia.
    + exists (cnt - 1), None. cbn. repeat split; lia.
Qed.

(** More fuel than the walk needs does not change its answer. *)
Lemma find_previous_store_loop_fuel this a (fuel : nat) :
  ∀ cnt mem res, find_previous_store_loop g fuel this a cnt mem = Some res →
    ∀ fuel', (fuel ≤ fuel')%nat →
      find_previous_store_loop g fuel' this a cnt mem = Some res.
Proof.
  induction fuel as [|fuel IH]; intros cnt mem res Hres fuel' Hle; [discriminate|].
  destruct fuel' as [|fuel']; [lia|].
  cbn [find_previous_store_loop] in *.
  destruct (cnt - 1 <? 0); [assumption|].
  destruct mem as [m|]; [|assumption].
  destruct (find_previous_store_body g this a m); try assumption.
  apply IH with (fuel' := fuel') in Hres; [assumption|lia].
Qed.

End WithGraph.

(** C7: [find_previous_store] terminates on every graph, cyclic memory
    chains included: with fuel for 51 loop trips the walk always returns,
    after running the loop body on at most 50 memory states, and when the
    cycle limiter [cnt] is used up (it reaches -1) the answer is null. *)
Theorem find_previous_store_terminates `{!VMFlags, !PhaseValues}
    (g : gmap nat Node) (this : nat) (fuel : nat) :
  (50 < fuel)%nat →
  let a := access_of g this in
  let mem := in_ g this MemNode_Memory in
  ∃ cnt r,
    find_previous_store_loop g fuel this a 50 mem = Some (cnt, r)
    ∧ -1 ≤ cnt
    ∧ (cnt = -1 → r = None)
    ∧ (length (examined g fuel this a 50 mem) ≤ 50)%nat
    ∧ is_Some (find_previous_store g fuel this).
Proof.
  intros Hfuel a mem.
  destruct (find_previous_store_loop_bounded g this a fuel 50 mem)
    as (c & r & Hloop & Hc & Hnull & Hlen); [lia..|].
  exists c, r. repeat split; try lia; try assumption.
  unfold find_previous_store. fold a. fold mem.
  destruct (acc_offset a =? OffsetBot); [eexists; reflexivity|].
  rewrite Hloop. eexists; reflexivity.
Qed.

Section OnWalkGraph.
#[local] Existing Instance Examples.flags.
#[local] Existing Instance Examples.phase_walk.

(** On the store 11 of [g_walk], which is its own memory input, the walk
    of the load 12 uses up the limiter and answers null. *)
Lemma find_previous_store_terminates_witness :
  let a := access_of Examples.g_walk 12 in
  let mem := in_ Examples.g_walk 12 MemNode_Memory in
  (∃ cnt r,
    find_previous_store_loop Examples.g_walk 51 12 a 50 mem = Some (cnt, r)
    ∧ -1 ≤ cnt
    ∧ (cnt = -1 → r = None)
    ∧ (length (examined Examples.g_walk 51 12 a 50 mem) ≤ 50)%nat
    ∧ is_Some (find_previous_store Examples.g_walk 51 12))
  ∧ find_previous_store_loop Examples.g_walk 51 12 a 50 mem = Some (-1, None).
Proof.
  split.
  - apply (find_previous_store_terminates Examples.g_walk 12 51). lia.
  - vm_compute. reflexivity.
Defined.

End OnWalkGraph.

End MemFacts.

Module ForwardingFacts.
Import Mem MemSpec.

Section WithGraph.
Context `{!VMFlags, !PhaseValues} (g : gmap nat Node).

Lemma store_step_Found a m r :
  store_step g a m = Found r → r = m ∧ exact_match g a m.
Proof.
  unfold store_step, exact_match.
  destruct (Ideal_base_and_offset (in_ g m MemNode_Address)) as [st_base st_offset].
  destruct st_base as [sb|]; [|discriminate].
  repeat (case_match; try discriminate).
  intros [= <-].
  match goal with
  | H : _ && _ = true |- _ => apply andb_prop in H as [Hb Ho]
  end.
  apply bool_decide_eq_true in Hb. apply Z.eqb_eq in Ho.
  split; [reflexivity|]. rewrite <- Hb, Ho. split; [reflexivity|discriminate].
Qed.

(** What [detect_ptr_independence] has checked when it answers yes for
    two different bases. *)
Lemma detect_ptr_independence_spec a m :
  let st_base := fst (Ideal_base_and_offset (in_ g m MemNode_Address)) in
  st_base ≠ acc_base a →
  detect_ptr_independence g (acc_base a) (acc_alloc a)
    st_base (Ideal_allocation st_base) = true →
  bases_independent g a m.
Proof.
  intros st_base Hne. unfold detect_ptr_independence, bases_independent.
  fold st_base.
  destruct (acc_alloc a) as [a1|] eqn:Ha1;
    destruct (Ideal_allocation st_base) as [a2|] eqn:Ha2; intros Hd.
  - left. exists a1, a2. repeat split; try reflexivity.
    apply negb_true_iff, bool_decide_eq_false in Hd. congruence.
  - right. right. left. repeat split; [discriminate|assumption].
  - right. right. right. repeat split; [discriminate|assumption].
  - right. left.
    apply andb_prop in Hd as [Hd Hc2]. apply andb_prop in Hd as [_ Hc1].
    repeat split; assumption.
Qed.

Lemma store_step_Advance a m mem' :
  memory_size g m ≤ Z.max BytesPerLong MaxVectorSize →
  store_step g a m = Advance mem' →
  mem' = in_ g m MemNode_Memory ∧ skip_justified g a m.
Proof.
  intros Hsize Hstep.
  pose proof (detect_ptr_independence_spec a m) as Hdet.
  revert Hstep Hdet.
  unfold store_step, skip_justified, ranges_disjoint, same_base.
  destruct (Ideal_base_and_offset (in_ g m MemNode_Address)) as [st_base st_offset].
  cbn [fst snd].
  destruct st_base as [sb|]; [|discriminate].
  destruct ((acc_maybe_raw a || check_if_adr_maybe_raw g (in_ g m MemNode_Address))
            && negb (bool_decide (Some sb = acc_base a))) eqn:Hraw; [discriminate|].
  destruct (negb (st_offset =? acc_offset a) && negb (st_offset =? OffsetBot)
            && ((acc_offset a + acc_size a <=? st_offset)
                || (st_offset <=? acc_offset a - Z.max BytesPerLong MaxVectorSize)
                || (st_offset <=? acc_offset a - memory_size g m))) eqn:Hoff.
  - intros [= <-] _. split; [reflexivity|]. left.
    apply andb_prop in Hoff as [Hne Hdis]. apply andb_prop in Hne as [_ Hbot].
    apply negb_true_iff, Z.eqb_neq in Hbot.
    split; [split; [assumption|]|].
    + apply orb_prop in Hdis as [Hdis|Hdis]; [apply orb_prop in Hdis as [Hdis|Hdis]|];
        apply Z.leb_le in Hdis; lia.
    + intros Hr. rewrite Hr in Hraw. cbn in Hraw.
      apply negb_false_iff, bool_decide_eq_true in Hraw. assumption.
  - destruct (negb (bool_decide (Some sb = acc_base a))
              && detect_ptr_independence g (acc_base a) (acc_alloc a)
                   (Some sb) (Ideal_allocation (Some sb))) eqn:Hind.
    + intros [= <-] Hdet. split; [reflexivity|]. right.
      apply andb_prop in Hind as [Hne Hd].
      apply negb_true_iff, bool_decide_eq_false in Hne.
      split; [assumption|]. apply Hdet; assumption.
    + case_match; discriminate.
Qed.

(** Whatever the loop body returns is the memory state it looked at. *)
Lemma find_previous_store_body_Found this a m r :
  find_previous_store_body g this a m = Found r → r = m.
Proof.
  unfold find_previous_store_body, initialize_step, known_instance_step.
  destruct (is_Store g m).
  - intros Hst. apply store_step_Found in Hst as [-> _]. reflexivity.
  - repeat (case_match; try discriminate); intros [= <-]; reflexivity.
Qed.

Lemma find_previous_store_loop_sound this a (fuel : nat) :
  (∀ m, is_Store g m = true → memory_size g m ≤ Z.max BytesPerLong MaxVectorSize) →
  ∀ cnt mem c r,
    find_previous_store_loop g fuel this a cnt mem = Some (c, r) →
    (∀ S, r = Some S → is_Store g S = true → exact_match g a S)
    ∧ (∀ S, r = Some S → last (examined g fuel this a cnt mem) = Some S)
    ∧ Forall (λ m, is_Store g m = true →
                   match find_previous_store_body g this a m with
                   | Advance _ => skip_justified g a m
                   | Found _ => r = Some m ∧ exact_match g a m
                   | Bail => r = None
                   end)
             (examined g fuel this a cnt mem).
Proof.
  intros Hsize.
  induction fuel as [|fuel IH]; intros cnt mem c r Hloop; [discriminate|].
  cbn [find_previous_store_loop examined] in *.
  destruct (cnt - 1 <? 0).
  { injection Hloop as <- <-. split; [discriminate|]. split; [discriminate|constructor]. }
  destruct mem as [m|].
  2:{ injection Hloop as <- <-. split; [discriminate|]. split; [discriminate|constructor]. }
  destruct (find_previous_store_body g this a m) as [mem'|r'|] eqn:Hbody.
  - destruct (IH _ _ _ _ Hloop) as (Hexact & Hlast & Hall). split; [assumption|].
    split.
    + intros S HS. specialize (Hlast S HS).
      destruct (examined g fuel this a (cnt - 1) mem') as [|x l] eqn:Hex;
        [discriminate|].
      rewrite last_cons, Hlast. reflexivity.
    + constructor; [|assumption].
      intros Hst. rewrite Hbody.
      unfold find_previous_store_body in Hbody. rewrite Hst in Hbody.
      apply store_step_Advance in Hbody as [_ ?]; auto.
  - injection Hloop as <- <-.
    pose proof (find_previous_store_body_Found _ _ _ _ Hbody) as ->.
    assert (is_Store g m = true → exact_match g a m) as Hex.
    { intros Hst. unfold find_previous_store_body in Hbody. rewrite Hst in Hbody.
      apply store_step_Found in Hbody as [_ ?]. assumption. }
    split; [intros S [= <-]; assumption|].
    split; [intros S [= <-]; reflexivity|].
    constructor; [|constructor]. intros Hst. rewrite Hbody. split; auto.
  - injection Hloop as <- <-. split; [discriminate|]. split; [discriminate|].
    constructor; [|constructor]. intros _. rewrite Hbody. reflexivity.
Qed.

End WithGraph.

(** C1, as the code has it: when [find_previous_store] returns a store,
    that store's address decomposes into the base and the constant offset
    of the access, and it is the last node the walk looked at.  Of every
    store the walk looked at: if the walk stepped over it, it is proven
    independent, by constant offset ranges that do not overlap (at the
    same base when either address may be raw) or by different bases that
    cannot be the same object (two distinct allocations, two distinct
    constants, or an allocation and a value that was there before it); if
    the walk stopped at it with an answer, it is the exact match that is
    returned; otherwise the walk answers null. *)
Theorem find_previous_store_sound `{!VMFlags, !PhaseValues}
    (g : gmap nat Node) (this : nat) (fuel : nat) (r : option nat) :
  (∀ m, is_Store g m = true → memory_size g m ≤ Z.max BytesPerLong MaxVectorSize) →
  find_previous_store g fuel this = Some r →
  let a := access_of g this in
  let walked := if acc_offset a =? OffsetBot then []
                else examined g fuel this a 50 (in_ g this MemNode_Memory) in
  (∀ S, r = Some S → is_Store g S = true → exact_match g a S)
  ∧ (∀ S, r = Some S → last walked = Some S)
  ∧ Forall (λ m, is_Store g m = true →
                 match find_previous_store_body g this a m with
                 | Advance _ => skip_justified g a m
                 | Found _ => r = Some m ∧ exact_match g a m
                 | Bail => r = None
                 end)
           walked.
Proof.
  intros Hsize Hfind a walked. unfold find_previous_store in Hfind.
  fold a in Hfind. unfold walked.
  destruct (acc_offset a =? OffsetBot).
  - injection Hfind as <-. split; [discriminate|]. split; [discriminate|constructor].
  - destruct (find_previous_store_loop g fuel this a 50 (in_ g this MemNode_Memory))
      as [[c r']|] eqn:Hloop; [|discriminate].
    injection Hfind as <-.
    eapply find_previous_store_loop_sound; eassumption.
Qed.

Section OnWalkGraph.
#[local] Existing Instance Examples.flags.
#[local] Existing Instance Examples.phase_walk.

Lemma memory_size_example (g : gmap nat Node) (m : nat) :
  memory_size g m ≤ Z.max BytesPerLong MaxVectorSize.
Proof.
  unfold memory_size, opcode_of. destruct (g !! m) as [nd|]; cbn; [|lia].
  destruct (Opcode nd); cbn; lia.
Qed.

(** In [g_walk] the walk of the load 10 steps over the store 8 and returns
    the store 7, which writes the very address the load reads. *)
Lemma find_previous_store_sound_witness :
  let a := access_of Examples.g_walk 10 in
  let walked := if acc_offset a =? OffsetBot then []
                else examined Examples.g_walk 51 10 a 50
                       (in_ Examples.g_walk 10 MemNode_Memory) in
  find_previous_store Examples.g_walk 51 10 = Some (Some 7%nat)
  ∧ walked = [8; 7]%nat
  ∧ (∀ S, Some 7%nat = Some S → is_Store Examples.g_walk S = true →
          exact_match Examples.g_walk a S)
  ∧ (∀ S, Some 7%nat = Some S → last walked = Some S)
  ∧ Forall (λ m, is_Store Examples.g_walk m = true →
                 match find_previous_store_body Examples.g_walk 10 a m with
                 | Advance _ => skip_justified Examples.g_walk a m
                 | Found _ => Some 7%nat = Some m ∧ exact_match Examples.g_walk a m
                 | Bail => Some 7%nat = None
                 end)
           walked.
Proof.
  split; [vm_compute; reflexivity|].
  split; [vm_compute; reflexivity|].
  apply (find_previous_store_sound Examples.g_walk 10 51 (Some 7%nat)).
  - intros m _. apply memory_size_example.
  - vm_compute. reflexivity.
Defined.

End OnWalkGraph.

(** C1 as stated fails, three times over.  In [g_walk] the store 8 writes
    [B+24], the load 10 reads [A+16]; neither address may be raw, so the
    walk steps over the store on the offsets alone, although the bases
    differ and nothing tells them apart.  In [g_consts] the store 7 writes
    [D+16], the load 10 reads [C+16]: the same offset, and the walk steps
    over the store because the bases are two distinct constants, neither
    an allocation.  In [g_older] the store 7 writes [A+16], the load 10
    reads offset 16 of the object allocated by 20: the walk steps over the
    store because all controls of [A], which is no allocation and no
    constant, dominate the allocation. *)
Lemma skipped_store_of_another_base :
  (let _ : VMFlags := Examples.flags in
   let _ : PhaseValues := Examples.phase_walk in
   let a := access_of Examples.g_walk 10 in
   is_Store Examples.g_walk 8 = true
   ∧ find_previous_store_body Examples.g_walk 10 a 8 = Advance (Some 7%nat)
   ∧ ¬ skip_justified_as_specified Examples.g_walk a 8
   ∧ ¬ bases_independent Examples.g_walk a 8)
  ∧ (let _ : VMFlags := Examples.flags in
     let _ : PhaseValues := WalkExamples.phase_consts in
     let a := access_of WalkExamples.g_consts 10 in
     is_Store WalkExamples.g_consts 7 = true
     ∧ find_previous_store_body WalkExamples.g_consts 10 a 7 = Advance (Some 9%nat)
     ∧ ¬ skip_justified_as_specified WalkExamples.g_consts a 7
     ∧ ¬ ranges_disjoint WalkExamples.g_consts a 7
     ∧ acc_alloc a = None)
  ∧ (let _ : VMFlags := Examples.flags in
     let _ : PhaseValues := WalkExamples.phase_older in
     let a := access_of WalkExamples.g_older 10 in
     is_Store WalkExamples.g_older 7 = true
     ∧ find_previous_store_body WalkExamples.g_older 10 a 7 = Advance (Some 9%nat)
     ∧ ¬ skip_justified_as_specified WalkExamples.g_older a 7
     ∧ ¬ ranges_disjoint WalkExamples.g_older a 7
     ∧ acc_alloc a = Some 20%nat
     ∧ is_Con WalkExamples.g_older 2 = false).
Proof.
  split; [|split].
  - cbv zeta.
    split; [vm_compute; reflexivity|].
    split; [vm_compute; reflexivity|].
    split.
    + intros [[Hbase _]|[Halloc _]].
      * vm_compute in Hbase. discriminate.
      * apply Halloc. vm_compute. reflexivity.
    + intros [(a1 & a2 & Ha & _)|[(_ & _ & _ & Hc & _)|[(Ha & _)|(_ & Ha & _)]]].
      * vm_compute in Ha. discriminate.
      * vm_compute in Hc. discriminate.
      * apply Ha. vm_compute. reflexivity.
      * apply Ha. vm_compute. reflexivity.
  - cbv zeta.
    split; [vm_compute; reflexivity|].
    split; [vm_compute; reflexivity|].
    split; [|split; [|vm_compute; reflexivity]].
    + intros [[Hbase _]|[Halloc _]].
      * vm_compute in Hbase. discriminate.
      * apply Halloc. vm_compute. reflexivity.
    + intros [_ [Hd|Hd]]; vm_compute in Hd; apply Hd; reflexivity.
  - cbv zeta.
    split; [vm_compute; reflexivity|].
    split; [vm_compute; reflexivity|].
    split; [|split; [|split; vm_compute; reflexivity]].
    + intros [[Hbase _]|(_ & Halloc & _)].
      * vm_compute in Hbase. discriminate.
      * apply Halloc. vm_compute. reflexivity.
    + intros [_ [Hd|Hd]]; vm_compute in Hd; apply Hd; reflexivity.
Qed.

End ForwardingFacts.

(** ** Loads *)

Module LoadFacts.
Import Mem.

Section WithGraph.
Context `{!VMFlags, !PhaseValues} (g : gmap nat Node).

(** The barrier loop of [can_see_stored_value] leaves a memory state that
    is no projection of a barrier as it is. *)
Lemma skip_membars_not_membar (fuel : nat) alias_idx is_final_mem st :
  (∀ opc, in_ g st 0 ≫= opcode_of g = Some opc →
          skippable_membar is_final_mem opc = false) →
  skip_membars g (S fuel) alias_idx is_final_mem st = Some None.
Proof.
  intros Hopc. cbn [skip_membars].
  destruct (is_Proj g st); [|reflexivity].
  destruct (in_ g st 0 ≫= opcode_of g) as [opc|] eqn:Ho; [|reflexivity].
  rewrite (Hopc opc eq_refl). reflexivity.
Qed.

(** The sign-extended low byte, as [jint] shifts compute it. *)
Lemma sign_extend_byte (c : Z) :
  jint_sar (jint_shl c 24) 24 = (c + 128) mod 256 - 128.
Proof.
  unfold jint_sar, jint_shl, jint_wrap.
  rewrite Z.shiftl_mul_pow2, Z.shiftr_div_pow2 by lia.
  replace (c * 2 ^ 24 + 2 ^ 31) with (2 ^ 24 * (c + 128)) by lia.
  replace (2 ^ 32) with (2 ^ 24 * 256) by lia.
  rewrite Z.mul_mod_distr_l by lia.
  replace (2 ^ 24 * ((c + 128) mod 256) - 2 ^ 31)
    with (((c + 128) mod 256 - 128) * 2 ^ 24) by lia.
  apply Z.div_mul. lia.
Qed.

Lemma zero_extend_byte (c : Z) : Z.land c 255 = c mod 256.
Proof. change 255 with (Z.ones 8). rewrite Z.land_ones by lia. reflexivity. Qed.

(** The memory projection of an allocation is not the barrier behind an
    array-copy clone. *)
Lemma find_array_copy_clone_of_allocation ld_alloc st alloc :
  in_ g st 0 = Some alloc →
  is_Allocate g alloc = true →
  find_array_copy_clone g ld_alloc st = None.
Proof.
  intros Hin Halloc. unfold find_array_copy_clone. rewrite Hin.
  assert (has_opcode g Op_MemBarStoreStore alloc = false
          ∧ has_opcode g Op_MemBarCPUOrder alloc = false) as [-> ->].
  { unfold is_Allocate, has_opcode, node_is in *.
    destruct (g !! alloc) as [nd|]; [|split; reflexivity].
    destruct (Opcode nd); try discriminate; split; reflexivity. }
  rewrite andb_false_r. reflexivity.
Qed.

(** The zero constant that [can_see_stored_value] takes from a fresh
    object. *)
Lemma can_see_zero (this st alloc ld_adr : nat) (o : opcode) (fuel : nat) :
  in_ g this MemNode_Memory = Some st →
  in_ g this MemNode_Address = Some ld_adr →
  opcode_of g this = Some o →
  is_Proj g st = true →
  in_ g st 0 = Some alloc →
  is_Allocate g alloc = true →
  Ideal_allocation (fst (Ideal_base_and_offset (Some ld_adr))) = Some alloc →
  minimum_header_size alloc ≤ snd (Ideal_base_and_offset (Some ld_adr)) →
  value_basic_type o ≠ T_VOID →
  can_see_stored_value g (S fuel) this st = Some (Some (zerocon (value_basic_type o))).
Proof.
  intros Hmem Hadr Hopc Hproj Hin Halloc Hbase Hoff Hbt.
  assert (is_Store g st = false) as Hnst.
  { unfold is_Proj, is_Store, node_is in *. destruct (g !! st) as [nd|]; [|reflexivity].
    destruct (Opcode nd); try discriminate; reflexivity. }
  assert (∀ b, in_ g st 0 ≫= opcode_of g = Some b → ∀ f, skippable_membar f b = false)
    as Hskip.
  { intros b Hb f. rewrite Hin in Hb. cbn in Hb.
    unfold is_Allocate, node_is, opcode_of in *.
    destruct (g !! alloc) as [nd|]; [|discriminate].
    cbn in Hb. injection Hb as <-.
    destruct (Opcode nd); try discriminate; destruct f; reflexivity. }
  unfold can_see_stored_value. rewrite Hadr.
  destruct (Ideal_base_and_offset (Some ld_adr)) as [ld_base ld_off] eqn:Hibo.
  cbn [fst snd] in *.
  assert (∀ tp, can_see_trip g this ld_adr ld_base ld_off
                  (Ideal_allocation ld_base) tp st
                = Return (Some (zerocon (value_basic_type o)))) as Htrip.
  { intros tp. unfold can_see_trip. rewrite Hnst, Hin, Hproj, Halloc, Hbase, Hopc.
    rewrite bool_decide_eq_true_2 by reflexivity.
    apply Z.leb_le in Hoff. rewrite Hoff. cbn [andb].
    rewrite (bool_decide_eq_false_2 _ Hbt). cbn [negb andb].
    rewrite Hmem. cbn [mbind option_bind].
    rewrite (find_array_copy_clone_of_allocation _ st alloc Hin Halloc).
    rewrite bool_decide_eq_true_2 by reflexivity.
    rewrite orb_true_r. reflexivity. }
  destruct (skip_through_membars _ _).
  - destruct (isa_instptr (phase_type ld_adr)) as [tp|];
      cbn [fmap option_fmap option_map].
    + rewrite skip_membars_not_membar by (intros; apply Hskip; assumption).
      cbn [mbind option_bind default]. rewrite Htrip. reflexivity.
    + cbn [mbind option_bind]. rewrite Htrip. reflexivity.
  - cbn [mbind option_bind]. rewrite Htrip. reflexivity.
Qed.

End WithGraph.

(** C3, as the code has it: [LoadNode::Identity] of a load with a pinned
    control dependency returns the load itself, or a constant that
    [can_see_stored_value] found for it; it never returns a stored value
    that is not a constant. *)
Theorem pinned_load_Identity `{!VMFlags, !PhaseValues}
    (g : gmap nat Node) (this : nat) (fuel : nat) (r : nat) :
  has_pinned_control_dependency g this = true →
  LoadNode_Identity g fuel this = Some r →
  r = this
  ∨ (is_Con g r = true
     ∧ ∃ mem, in_ g this MemNode_Memory = Some mem
              ∧ can_see_stored_value g fuel this mem = Some (Some r)).
Proof.
  intros Hpin. unfold LoadNode_Identity. rewrite Hpin.
  destruct (in_ g this MemNode_Memory) as [mem|]; [|intros [= <-]; left; reflexivity].
  destruct (can_see_stored_value g fuel this mem) as [[value|]|] eqn:Hsee; cbn.
  - destruct ((memory_size g this <? BytesPerInt)
              && negb (higher_equal (phase_type value) (phase_type this)));
      [intros [= <-]; left; reflexivity|].
    destruct (is_Con g value) eqn:Hcon; cbn.
    + intros [= <-]. right. split; [assumption|]. exists mem. split; [reflexivity|assumption].
    + intros [= <-]. left. reflexivity.
  - intros [= <-]. left. reflexivity.
  - discriminate.
Qed.

(** C5, as the code has it: a load, not a vector load, whose memory input
    is the memory projection of the allocation its address is based on and
    which reads at or beyond the minimum header size sees the zero
    constant of its value type.  [LoadNode::Identity] returns that
    constant; only a load narrower than an int whose type does not include
    the constant's is left as it is.  [LoadNode::Value] gives the type of
    the constant when the memory state and the address are alive.
    ([phase->zerocon] gives a constant node.) *)
Theorem zero_object_read `{!VMFlags, !PhaseValues}
    (g : gmap nat Node) (this st alloc ld_adr : nat) (o : opcode) (fuel : nat) :
  in_ g this MemNode_Memory = Some st →
  in_ g this MemNode_Address = Some ld_adr →
  opcode_of g this = Some o →
  is_Proj g st = true →
  in_ g st 0 = Some alloc →
  is_Allocate g alloc = true →
  Ideal_allocation (fst (Ideal_base_and_offset (Some ld_adr))) = Some alloc →
  minimum_header_size alloc ≤ snd (Ideal_base_and_offset (Some ld_adr)) →
  value_basic_type o ≠ T_VOID →
  let zero := zerocon (value_basic_type o) in
  is_Con g zero = true →
  can_see_stored_value g (S fuel) this st = Some (Some zero)
  ∧ LoadNode_Identity g (S fuel) this
    = Some (if (memory_size g this <? BytesPerInt)
               && negb (higher_equal (phase_type zero) (phase_type this))
            then this else zero)
  ∧ (phase_type st ≠ Type_TOP →
     (∃ tp, isa_ptr (phase_type ld_adr) = Some tp ∧ ptr_empty tp = false) →
     LoadNode_Value g (S fuel) this = Some (bottom_type_of g zero)).
Proof.
  intros Hmem Hadr Hopc Hproj Hin Halloc Hbase Hoff Hbt zero Hcon.
  pose proof (can_see_zero g this st alloc ld_adr o fuel
                Hmem Hadr Hopc Hproj Hin Halloc Hbase Hoff Hbt) as Hsee.
  fold zero in Hsee.
  split; [exact Hsee|split].
  - unfold LoadNode_Identity. rewrite Hmem, Hsee. cbn [mbind option_bind].
    rewrite Hcon, orb_true_r.
    destruct ((memory_size g this <? BytesPerInt)
              && negb (higher_equal (phase_type zero) (phase_type this)));
      reflexivity.
  - intros Hlive (tp & Htp & Hne).
    unfold LoadNode_Value. rewrite Hmem, Hadr.
    rewrite bool_decide_eq_false_2 by assumption.
    rewrite Htp, Hne, Hsee. cbn [mbind option_bind]. rewrite Hcon. reflexivity.
Qed.

(** C6: when the store that defines a byte load wrote an int constant [c]
    that does not fit the load's type, [LoadBNode::Value] is the constant
    type of the sign-extended low byte, which is what shifting [c] left and
    then arithmetically right by 24 computes, and [LoadUBNode::Value] is
    the constant type of [c & 0xFF], the low byte taken unsigned. *)
Theorem byte_load_truncates `{!VMFlags, !PhaseValues}
    (g : gmap nat Node) (this mem value : nat) (fuel : nat) :
  in_ g this MemNode_Memory = Some mem →
  can_see_stored_value g fuel this mem = Some (Some value) →
  is_Con g value = true →
  higher_equal (bottom_type_of g value) (bottom_type_of g this) = false →
  let c := get_int g value in
  LoadBNode_Value g fuel this = Some (TypeInt_make ((c + 128) mod 256 - 128))
  ∧ jint_sar (jint_shl c 24) 24 = (c + 128) mod 256 - 128
  ∧ LoadUBNode_Value g fuel this = Some (TypeInt_make (c mod 256))
  ∧ Z.land c 255 = c mod 256.
Proof.
  intros Hmem Hsee Hcon Hfit c.
  unfold LoadBNode_Value, LoadUBNode_Value.
  rewrite Hmem, Hsee. cbn. rewrite Hcon, Hfit. cbn. fold c.
  rewrite sign_extend_byte, zero_extend_byte. repeat split; reflexivity.
Qed.

Section OnLoadGraph.
#[local] Existing Instance Examples.flags.
#[local] Existing Instance Examples.phase_load.

(** The pinned load 13 of [g_load] is replaced by the constant 5 that the
    store 7 wrote. *)
Lemma pinned_load_Identity_witness :
  has_pinned_control_dependency Examples.g_load 13 = true
  ∧ LoadNode_Identity Examples.g_load 1 13 = Some 6%nat
  ∧ (6%nat = 13%nat
     ∨ (is_Con Examples.g_load 6 = true
        ∧ ∃ mem, in_ Examples.g_load 13 MemNode_Memory = Some mem
                 ∧ can_see_stored_value Examples.g_load 1 13 mem = Some (Some 6%nat))).
Proof.
  split; [vm_compute; reflexivity|].
  split; [vm_compute; reflexivity|].
  apply (pinned_load_Identity Examples.g_load 13 1 6); vm_compute; reflexivity.
Defined.

(** C3 as stated fails: the load 13 is pinned, and [LoadNode::Identity]
    returns the stored constant, not the load. *)
Lemma pinned_load_replaced_by_constant :
  has_pinned_control_dependency Examples.g_load 13 = true
  ∧ can_see_stored_value Examples.g_load 1 13 7 = Some (Some 6%nat)
  ∧ LoadNode_Identity Examples.g_load 1 13 ≠ Some 13%nat.
Proof.
  split; [vm_compute; reflexivity|].
  split; [vm_compute; reflexivity|].
  vm_compute. discriminate.
Qed.

(** The int load 25 of [g_load] reads from the fresh object 20: it is
    replaced by the zero constant 1. *)
Lemma zero_object_read_witness :
  (can_see_stored_value Examples.g_load 1 25 21
   = Some (Some (zerocon (value_basic_type Op_LoadI)))
   ∧ LoadNode_Identity Examples.g_load 1 25
     = Some (if (memory_size Examples.g_load 25 <? BytesPerInt)
                && negb (higher_equal (phase_type (zerocon (value_basic_type Op_LoadI)))
                                      (phase_type 25))
             then 25%nat else zerocon (value_basic_type Op_LoadI))
   ∧ (phase_type 21 ≠ Type_TOP →
      (∃ tp, isa_ptr (phase_type 23) = Some tp ∧ ptr_empty tp = false) →
      LoadNode_Value Examples.g_load 1 25
      = Some (bottom_type_of Examples.g_load (zerocon (value_basic_type Op_LoadI)))))
  ∧ zerocon (value_basic_type Op_LoadI) = 1%nat
  ∧ LoadNode_Identity Examples.g_load 1 25 = Some 1%nat
  ∧ LoadNode_Value Examples.g_load 1 25 = Some (TypeInt 0 0).
Proof.
  split.
  - apply (zero_object_read Examples.g_load 25 21 20 23 Op_LoadI 0);
      try (vm_compute; reflexivity).
    + vm_compute. discriminate.
    + discriminate.
  - repeat split; vm_compute; reflexivity.
Defined.

(** C5 as stated fails: the vector load 24 reads the fresh object at
    offset 16, at the minimum header size, from the allocation's memory
    projection; it sees no value, and [LoadNode::Identity] returns the load
    itself, which is no constant. *)
Lemma zero_object_read_of_a_vector :
  in_ Examples.g_load 24 MemNode_Memory = Some 21%nat
  ∧ is_Proj Examples.g_load 21 = true
  ∧ in_ Examples.g_load 21 0 = Some 20%nat
  ∧ is_Allocate Examples.g_load 20 = true
  ∧ Ideal_allocation (fst (Ideal_base_and_offset (in_ Examples.g_load 24 MemNode_Address)))
    = Some 20%nat
  ∧ minimum_header_size 20 ≤ snd (Ideal_base_and_offset (in_ Examples.g_load 24 MemNode_Address))
  ∧ can_see_stored_value Examples.g_load 1 24 21 = Some None
  ∧ LoadNode_Identity Examples.g_load 1 24 = Some 24%nat
  ∧ is_Con Examples.g_load 24 = false.
Proof.
  repeat split; try (vm_compute; reflexivity). vm_compute. discriminate.
Qed.

(** Storing the int constant 0x1234 and loading the byte back gives 0x34,
    signed (load 16) and unsigned (load 17). *)
Lemma byte_load_truncates_witness :
  (let c := get_int Examples.g_load 14 in
   LoadBNode_Value Examples.g_load 1 16 = Some (TypeInt_make ((c + 128) mod 256 - 128))
   ∧ jint_sar (jint_shl c 24) 24 = (c + 128) mod 256 - 128
   ∧ LoadUBNode_Value Examples.g_load 1 16 = Some (TypeInt_make (c mod 256))
   ∧ Z.land c 255 = c mod 256)
  ∧ get_int Examples.g_load 14 = 0x1234
  ∧ LoadBNode_Value Examples.g_load 1 16 = Some (TypeInt_make 0x34)
  ∧ LoadUBNode_Value Examples.g_load 1 17 = Some (TypeInt_make 0x34).
Proof.
  split.
  - apply (byte_load_truncates Examples.g_load 16 15 14 1); vm_compute; reflexivity.
  - repeat split; vm_compute; reflexivity.
Defined.

End OnLoadGraph.

End LoadFacts.

(** ** Editing the graph *)

Module EditFacts.
Import Edit.

Lemma in_ins_of (g : gmap nat Node) n i : in_ g n i = mjoin (ins_of g n !! i).
Proof. unfold in_, ins_of. destruct (g !! n); reflexivity. Qed.

Lemma req_ins_of (g : gmap nat Node) n : req g n = length (ins_of g n).
Proof. unfold req, ins_of. destruct (g !! n); reflexivity. Qed.

Lemma in_lt_req (g : gmap nat Node) n i x : in_ g n i = Some x → (i < req g n)%nat.
Proof.
  rewrite in_ins_of, req_ins_of. intros Hin.
  destruct (ins_of g n !! i) eqn:Hl; [|discriminate].
  eapply lookup_lt_Some; eassumption.
Qed.

Lemma set_ins_lookup_ne (g : gmap nat Node) n l m :
  m ≠ n → set_ins g n l !! m = g !! m.
Proof.
  intros Hne. unfold set_ins. destruct (g !! n); [|reflexivity].
  apply lookup_insert_ne. congruence.
Qed.

Lemma set_ins_lookup_eq (g : gmap nat Node) n l :
  set_ins g n l !! n = (λ nd, with_ins nd l) <$> g !! n.
Proof.
  unfold set_ins. destruct (g !! n) as [nd|] eqn:Hn.
  - rewrite lookup_insert_eq. reflexivity.
  - rewrite Hn. reflexivity.
Qed.

Lemma ins_of_set_ins_ne (g : gmap nat Node) n l m :
  m ≠ n → ins_of (set_ins g n l) m = ins_of g m.
Proof. intros Hne. unfold ins_of. rewrite set_ins_lookup_ne by assumption. reflexivity. Qed.

Lemma ins_of_set_ins_eq (g : gmap nat Node) n l :
  is_Some (g !! n) → ins_of (set_ins g n l) n = l.
Proof.
  intros [nd Hn]. unfold ins_of. rewrite set_ins_lookup_eq, Hn. reflexivity.
Qed.

Lemma ins_of_None (g : gmap nat Node) n : g !! n = None → ins_of g n = [].
Proof. unfold ins_of. intros ->. reflexivity. Qed.

Lemma set_ins_None (g : gmap nat Node) n l : g !! n = None → set_ins g n l = g.
Proof. unfold set_ins. intros ->. reflexivity. Qed.

Lemma set_ins_id (g : gmap nat Node) n : set_ins g n (ins_of g n) = g.
Proof.
  unfold set_ins, ins_of. destruct (g !! n) as [nd|] eqn:Hn; [|reflexivity].
  apply insert_id. rewrite Hn. destruct nd; reflexivity.
Qed.

Lemma node_is_set_ins (g : gmap nat Node) n l p m :
  node_is (set_ins g n l) p m = node_is g p m.
Proof.
  unfold node_is. destruct (decide (m = n)) as [->|Hne].
  - rewrite set_ins_lookup_eq. destruct (g !! n); reflexivity.
  - rewrite set_ins_lookup_ne by assumption. reflexivity.
Qed.

(** [set_req] writes one input of one node. *)
Lemma ins_of_set_req (g : gmap nat Node) n i x :
  ins_of (set_req g n i x) n = <[i := x]> (ins_of g n).
Proof.
  unfold set_req. destruct (g !! n) as [nd|] eqn:Hn.
  - apply ins_of_set_ins_eq. rewrite Hn. eexists; reflexivity.
  - rewrite set_ins_None by assumption. rewrite ins_of_None by assumption. reflexivity.
Qed.

Lemma set_req_lookup_ne (g : gmap nat Node) n i x m :
  m ≠ n → set_req g n i x !! m = g !! m.
Proof. apply set_ins_lookup_ne. Qed.

Lemma in_set_req_ne (g : gmap nat Node) n i x m j :
  m ≠ n → in_ (set_req g n i x) m j = in_ g m j.
Proof. intros Hne. unfold in_. rewrite set_req_lookup_ne by assumption. reflexivity. Qed.

Lemma in_set_req_eq (g : gmap nat Node) n i x :
  (i < req g n)%nat → in_ (set_req g n i x) n i = x.
Proof.
  intros Hlt. rewrite in_ins_of, ins_of_set_req.
  rewrite list_lookup_insert_eq by (rewrite <- req_ins_of; assumption). reflexivity.
Qed.

Lemma in_set_req_other (g : gmap nat Node) n i x j :
  i ≠ j → in_ (set_req g n i x) n j = in_ g n j.
Proof.
  intros Hne. rewrite !in_ins_of, ins_of_set_req.
  rewrite list_lookup_insert_ne by assumption. reflexivity.
Qed.

Lemma req_set_req (g : gmap nat Node) n i x m : req (set_req g n i x) m = req g m.
Proof.
  destruct (decide (m = n)) as [->|Hne].
  - rewrite !req_ins_of, ins_of_set_req. apply length_insert.
  - unfold req. rewrite set_req_lookup_ne by assumption. reflexivity.
Qed.

Lemma node_is_set_req (g : gmap nat Node) n i x p m :
  node_is (set_req g n i x) p m = node_is g p m.
Proof. apply node_is_set_ins. Qed.

(** Writing back what is there changes nothing. *)
Lemma set_req_id (g : gmap nat Node) n i :
  (i < req g n)%nat → set_req g n i (in_ g n i) = g.
Proof.
  intros Hlt. unfold set_req. rewrite in_ins_of.
  rewrite req_ins_of in Hlt. apply lookup_lt_is_Some in Hlt as [x Hx].
  rewrite Hx. cbn. rewrite list_insert_id by assumption. apply set_ins_id.
Qed.

(** [grow_to] appends slots and keeps the ones that are there. *)
Lemma ins_of_grow_to (g : gmap nat Node) n len x :
  is_Some (g !! n) →
  ins_of (grow_to g n len x) n
  = ins_of g n ++ replicate (len - length (ins_of g n)) x.
Proof. intros Hn. unfold grow_to. apply ins_of_set_ins_eq. assumption. Qed.

Lemma grow_to_lookup_ne (g : gmap nat Node) n len x m :
  m ≠ n → grow_to g n len x !! m = g !! m.
Proof. apply set_ins_lookup_ne. Qed.

Lemma node_is_grow_to (g : gmap nat Node) n len x p m :
  node_is (grow_to g n len x) p m = node_is g p m.
Proof. apply node_is_set_ins. Qed.

Lemma in_grow_to_old (g : gmap nat Node) n len x j :
  (j < req g n)%nat → in_ (grow_to g n len x) n j = in_ g n j.
Proof.
  intros Hlt. destruct (g !! n) as [nd|] eqn:Hn.
  - rewrite !in_ins_of, ins_of_grow_to by (rewrite Hn; eexists; reflexivity).
    rewrite lookup_app_l by (rewrite <- req_ins_of; assumption). reflexivity.
  - unfold grow_to. rewrite set_ins_None by assumption. reflexivity.
Qed.

Lemma in_grow_to_new (g : gmap nat Node) n len x j :
  is_Some (g !! n) → (req g n ≤ j < len)%nat → in_ (grow_to g n len x) n j = x.
Proof.
  intros Hn [Hge Hlt]. rewrite in_ins_of, ins_of_grow_to by assumption.
  rewrite req_ins_of in Hge.
  rewrite lookup_app_r by assumption.
  rewrite lookup_replicate_2 by lia. reflexivity.
Qed.

Lemma req_grow_to (g : gmap nat Node) n len x :
  is_Some (g !! n) → req (grow_to g n len x) n = Nat.max (req g n) len.
Proof.
  intros Hn. rewrite !req_ins_of, ins_of_grow_to by assumption.
  rewrite length_app, length_replicate. lia.
Qed.

Lemma req_grow_to_ge (g : gmap nat Node) n len x :
  (req g n ≤ req (grow_to g n len x) n)%nat.
Proof.
  destruct (g !! n) as [nd|] eqn:Hn.
  - rewrite req_grow_to by (rewrite Hn; eexists; reflexivity). lia.
  - unfold grow_to. rewrite set_ins_None by assumption. lia.
Qed.

End EditFacts.

(** ** MergeMemNode *)

Module MergeMemFacts.
Import Edit EditFacts MergeMem.

Section WithPhase.
Context `{!VMFlags, !PhaseValues, !GVN}.

Lemma slices_spec (g : gmap nat Node) this i :
  In i (slices g this) ↔ (AliasIdxRaw ≤ i < req g this)%nat.
Proof. unfold slices. rewrite in_seq. lia. Qed.

Lemma slices_NoDup (g : gmap nat Node) this : List.NoDup (slices g this).
Proof. apply List.seq_NoDup. Qed.

(** [verify_sparse] says that no slice repeats a base that is not empty. *)
Lemma verify_sparse_spec (g : gmap nat Node) this :
  verify_sparse g this = true
  ↔ (Mem.base_memory g this = empty_memory
     ∨ ∀ i, (AliasIdxRaw ≤ i < req g this)%nat →
            in_ g this i ≠ Mem.base_memory g this).
Proof.
  unfold verify_sparse, Mem.is_empty_memory, empty_memory.
  destruct (bool_decide_reflect (Mem.base_memory g this = Some C_top)) as [Hb|Hb].
  - split; [left; assumption|reflexivity].
  - rewrite forallb_forall. split.
    + intros Hall. right. intros i Hi. apply slices_spec in Hi.
      apply Hall in Hi. apply negb_true_iff, bool_decide_eq_false in Hi. assumption.
    + intros [?|Hall]; [contradiction|]. intros i Hi. apply slices_spec in Hi.
      apply negb_true_iff, bool_decide_eq_false. auto.
Qed.

(** One slice of the loop of [Ideal]: only slot [i] of [this] is written,
    and what is left there is not the new base, unless that is empty. *)
Lemma Ideal_slice_spec this ob nb (g : gmap nat Node) p i g' p' :
  Ideal_slice this ob nb (g, p) i = (g', p') →
  (∀ m, m ≠ this → g' !! m = g !! m)
  ∧ (∀ q m, node_is g' q m = node_is g q m)
  ∧ (∀ m, req g' m = req g m)
  ∧ (∀ j, j ≠ i → in_ g' this j = in_ g this j)
  ∧ ((i < req g this)%nat → in_ g' this i = nb → nb = empty_memory)
  ∧ (p' = true ∨ (p' = p ∧ g' = g)).
Proof.
  unfold Ideal_slice.
  set (old_in := in_ g this i).
  set (old_mem := if bool_decide (old_in = empty_memory) then ob else old_in).
  set (new_mem := match match old_mem with
                        | Some m => if is_MergeMem g m then Some m else None
                        | None => None
                        end with
                  | Some m => _
                  | None => old_mem
                  end).
  set (new_in := if bool_decide (new_mem = nb) then empty_memory else new_mem).
  assert (new_in = nb → nb = empty_memory) as Hnew.
  { unfold new_in. destruct (bool_decide_reflect (new_mem = nb)) as [He|Hn].
    - intros Heq. symmetry. exact Heq.
    - intros Heq. contradiction. }
  destruct (bool_decide_reflect (new_in ≠ old_in)) as [Hch|Hsame]; intros [= <- <-].
  - split; [intros; apply set_req_lookup_ne; assumption|].
    split; [intros; apply node_is_set_req|].
    split; [intros; apply req_set_req|].
    split; [intros; apply in_set_req_other; congruence|].
    split; [|left; reflexivity].
    intros Hlt. rewrite in_set_req_eq by assumption. assumption.
  - repeat split; try reflexivity.
    + intros _ Hin. apply Hnew. apply dec_stable in Hsame.
      rewrite Hsame. exact Hin.
    + right. split; reflexivity.
Qed.

Lemma Ideal_slices_spec this ob nb (l : list nat) :
  ∀ (g : gmap nat Node) p g' p',
    foldl (Ideal_slice this ob nb) (g, p) l = (g', p') →
    List.NoDup l →
    (∀ m, m ≠ this → g' !! m = g !! m)
    ∧ (∀ q m, node_is g' q m = node_is g q m)
    ∧ (∀ m, req g' m = req g m)
    ∧ (∀ j, ¬ In j l → in_ g' this j = in_ g this j)
    ∧ (∀ i, In i l → (i < req g this)%nat → in_ g' this i = nb → nb = empty_memory)
    ∧ (p' = true ∨ (p' = p ∧ g' = g)).
Proof.
  induction l as [|i l IH]; intros g p g' p' Hfold Hnd.
  - cbn in Hfold. injection Hfold as <- <-.
    repeat split; try reflexivity; [intros ? []|right; split; reflexivity].
  - cbn [foldl] in Hfold.
    destruct (Ideal_slice this ob nb (g, p) i) as [g1 p1] eqn:Hstep.
    apply Ideal_slice_spec in Hstep as (F1 & F2 & F3 & F4 & F5 & F6).
    apply List.NoDup_cons_iff in Hnd as [Hni Hnd].
    apply IH in Hfold as (G1 & G2 & G3 & G4 & G5 & G6); [|assumption].
    split; [intros m Hm; rewrite G1, F1 by assumption; reflexivity|].
    split; [intros q m; rewrite G2, F2; reflexivity|].
    split; [intros m; rewrite G3, F3; reflexivity|].
    split.
    { intros j Hj. rewrite G4 by (intros ?; apply Hj; right; assumption).
      apply F4. intros ->. apply Hj. left. reflexivity. }
    split.
    { intros j [<-|Hj] Hlt Hin.
      - rewrite G4 in Hin by assumption. auto.
      - apply (G5 j); [assumption|rewrite F3; assumption|assumption]. }
    destruct G6 as [->|[-> ->]]; [left; reflexivity|].
    destruct F6 as [->|[-> ->]]; [left; reflexivity|right; split; reflexivity].
Qed.

Lemma support_end_bound (g : gmap nat Node) other my_req (i : nat) new_len :
  support_end g other my_req i = Some new_len → (my_req < new_len)%nat.
Proof.
  induction i as [|i IH]; cbn; [discriminate|].
  repeat case_bool_decide; try discriminate.
  - intros [= <-]. lia.
  - assumption.
Qed.

(** [grow_to_match] keeps every edge of [this] and every other node. *)
Lemma grow_to_match_spec (g : gmap nat Node) this other :
  (∀ m, m ≠ this → grow_to_match g this other !! m = g !! m)
  ∧ (∀ q m, node_is (grow_to_match g this other) q m = node_is g q m)
  ∧ (req g this ≤ req (grow_to_match g this other) this)%nat
  ∧ (∀ j, (j < req g this)%nat → in_ (grow_to_match g this other) this j = in_ g this j).
Proof.
  unfold grow_to_match.
  destruct (support_end g other (req g this) (req g other)) as [new_len|].
  - split; [intros; apply grow_to_lookup_ne; assumption|].
    split; [intros; apply node_is_grow_to|].
    split; [apply req_grow_to_ge|].
    intros; apply in_grow_to_old; assumption.
  - repeat split; auto.
Qed.

(** After the first part of [Ideal] no slice repeats the base, unless the
    base is empty. *)
Lemma Ideal_flatten_sparse (g : gmap nat Node) this g' p :
  Ideal_flatten g this = (g', p) →
  ∀ i, (AliasIdxRaw ≤ i < req g' this)%nat →
       in_ g' this i = Mem.base_memory g' this →
       Mem.base_memory g' this = empty_memory.
Proof.
  unfold Ideal_flatten.
  set (ob := Mem.base_memory g this).
  set (omb := match ob with
              | Some b => if is_MergeMem g b then Some b else None
              | None => None
              end).
  set (nb := match omb with Some b => Mem.base_memory g b | None => ob end).
  set (g1 := match omb with Some b => grow_to_match g this b | None => g end).
  assert ((req g this ≤ req g1 this)%nat
          ∧ ∀ j, (j < req g this)%nat → in_ g1 this j = in_ g this j) as [Hreq1 Hin1].
  { unfold g1. destruct omb as [b|]; [|split; auto].
    destruct (grow_to_match_spec g this b) as (_ & _ & ? & ?). split; assumption. }
  destruct (foldl (Ideal_slice this ob nb) (g1, false) (slices g1 this)) as [g2 p2] eqn:Hfold.
  apply Ideal_slices_spec in Hfold as (_ & _ & G3 & G4 & G5 & _); [|apply slices_NoDup].
  assert (¬ In AliasIdxBot (slices g1 this)) as Hbot.
  { rewrite slices_spec. unfold AliasIdxBot, AliasIdxRaw. lia. }
  destruct (bool_decide_reflect (nb ≠ ob)) as [Hne|Heq]; intros [= <- <-] i Hi Hin.
  - assert (AliasIdxBot < req g this)%nat as Hb.
    { destruct ob as [b|] eqn:Hob.
      - eapply in_lt_req. exact Hob.
      - exfalso. apply Hne. reflexivity. }
    rewrite req_set_req, G3 in Hi.
    assert (Mem.base_memory (set_req g2 this AliasIdxBot nb) this = nb) as Hbase.
    { unfold Mem.base_memory. apply in_set_req_eq. rewrite G3. lia. }
    rewrite Hbase in *.
    rewrite in_set_req_other in Hin by (unfold AliasIdxBot, AliasIdxRaw in *; lia).
    apply (G5 i); [apply slices_spec|lia|]; assumption.
  - apply dec_stable in Heq.
    rewrite G3 in Hi.
    assert (Mem.base_memory g2 this = nb) as Hbase.
    { unfold Mem.base_memory. rewrite G4 by assumption. rewrite Heq.
      unfold ob, Mem.base_memory.
      destruct (decide (AliasIdxBot < req g this)%nat) as [Hlt|Hge].
      - apply Hin1. assumption.
      - (* a node without a base edge: nothing was grown *)
        assert (in_ g this AliasIdxBot = None) as Hnone.
        { destruct (in_ g this AliasIdxBot) eqn:E; [|reflexivity].
          apply in_lt_req in E. contradiction. }
        assert (omb = None) as Homb.
        { unfold omb, ob, Mem.base_memory. rewrite Hnone. reflexivity. }
        unfold g1. rewrite Homb. reflexivity. }
    rewrite Hbase in *.
    apply (G5 i); [apply slices_spec|lia|]; assumption.
Qed.

(** The second part of [Ideal] writes nothing but the base edge, and
    writes nothing but the empty memory there, when the driver leaves
    [this] alone. *)
Lemma Ideal_cycles_spec (g : gmap nat Node) this :
  this ≠ C_top →
  (∀ g0 n, n ≠ this → (transform g0 n).1 !! this = g0 !! this) →
  let g' := Ideal_cycles g this in
  req g' this = req g this
  ∧ (∀ j, j ≠ AliasIdxBot → in_ g' this j = in_ g this j)
  ∧ (Mem.base_memory g' this = Mem.base_memory g this
     ∨ Mem.base_memory g' this = empty_memory).
Proof.
  intros Htop Hframe. unfold Ideal_cycles.
  set (g1 := if bool_decide (Mem.base_memory g this = Some this)
             then set_req g this AliasIdxBot empty_memory else g).
  assert (req g1 this = req g this
          ∧ (∀ j, j ≠ AliasIdxBot → in_ g1 this j = in_ g this j)
          ∧ (Mem.base_memory g1 this = Mem.base_memory g this
             ∨ Mem.base_memory g1 this = empty_memory)
          ∧ Mem.base_memory g1 this ≠ Some this) as (R1 & I1 & B1 & N1).
  { unfold g1. destruct (bool_decide_reflect (Mem.base_memory g this = Some this)) as [Hb|Hb].
    - split; [apply req_set_req|].
      split; [intros; apply in_set_req_other; congruence|].
      assert (Mem.base_memory (set_req g this AliasIdxBot empty_memory) this = empty_memory)
        as Hbase.
      { unfold Mem.base_memory. apply in_set_req_eq. eapply in_lt_req. exact Hb. }
      split; [right; assumption|].
      rewrite Hbase. unfold empty_memory. congruence.
    - repeat split; auto. }
  assert (∀ g2 : gmap nat Node, g2 !! this = g1 !! this →
            req g2 this = req g1 this
            ∧ (∀ j, in_ g2 this j = in_ g1 this j)) as Hagree.
  { intros g2 Hg2. unfold req, in_. rewrite Hg2. split; reflexivity. }
  assert (∀ g2 : gmap nat Node, g2 !! this = g1 !! this →
            let g3 := set_req g2 this AliasIdxBot empty_memory in
            req g3 this = req g this
            ∧ (∀ j, j ≠ AliasIdxBot → in_ g3 this j = in_ g this j)
            ∧ (Mem.base_memory g3 this = Mem.base_memory g this
               ∨ Mem.base_memory g3 this = empty_memory)) as Hset.
  { intros g2 Hg2 g3. destruct (Hagree g2 Hg2) as [R2 I2].
    split; [unfold g3; rewrite req_set_req; congruence|].
    split.
    { intros j Hj. unfold g3. rewrite in_set_req_other by congruence.
      rewrite I2. apply I1. assumption. }
    unfold Mem.base_memory, g3.
    destruct (decide (AliasIdxBot < req g2 this)%nat) as [Hlt|Hge].
    - right. apply in_set_req_eq. assumption.
    - rewrite in_ins_of, ins_of_set_req.
      rewrite list_insert_ge by (rewrite <- req_ins_of; lia).
      rewrite <- in_ins_of, I2. exact B1. }
  destruct (Mem.base_memory g1 this) as [nm|] eqn:Hnm;
    [|repeat split; auto; rewrite Hnm; exact B1].
  destruct (is_MergeMem g1 nm); [|repeat split; auto; rewrite Hnm; exact B1].
  assert (nm ≠ this) as Hne by congruence.
  specialize (Hframe g1 nm Hne).
  destruct (transform g1 nm) as [g2 m]. cbn [fst] in Hframe.
  assert (req g2 this = req g this
          ∧ (∀ j, j ≠ AliasIdxBot → in_ g2 this j = in_ g this j)
          ∧ (Mem.base_memory g2 this = Mem.base_memory g this
             ∨ Mem.base_memory g2 this = empty_memory)) as Hkeep.
  { destruct (Hagree g2 Hframe) as [R2 I2].
    split; [congruence|]. split; [intros j Hj; rewrite I2; auto|].
    unfold Mem.base_memory in *. rewrite I2, Hnm. exact B1. }
  destruct m as [m'|]; [|exact Hkeep].
  destruct (bool_decide (m' = C_top)
            || is_MergeMem g2 m' && bool_decide (Mem.base_memory g2 m' = empty_memory));
    [apply Hset; assumption|exact Hkeep].
Qed.

(** Cutting the slices of a dead memory path leaves the base alone. *)
Lemma cut_slices_base this (l : list nat) :
  ∀ g : gmap nat Node,
    ¬ In AliasIdxBot l →
    Mem.base_memory
      (foldl (λ g' i, if bool_decide (in_ g' this i ≠ empty_memory)
                      then set_req g' this i empty_memory else g') g l) this
    = Mem.base_memory g this.
Proof.
  induction l as [|i l IH]; intros g Hni; [reflexivity|].
  cbn [foldl]. rewrite IH by (intros ?; apply Hni; right; assumption).
  case_bool_decide; [|reflexivity].
  unfold Mem.base_memory. apply in_set_req_other.
  intros ->. apply Hni. left. reflexivity.
Qed.

(** After [Ideal] no slice of [this] repeats a base that is not empty,
    whether or not progress is reported. *)
Lemma Ideal_sparse (g : gmap nat Node) this can_reshape :
  this ≠ C_top →
  (∀ g0 n, n ≠ this → (transform g0 n).1 !! this = g0 !! this) →
  verify_sparse (Ideal g this can_reshape).1 this = true.
Proof.
  intros Htop Hframe. unfold Ideal.
  destruct (bool_decide_reflect (Mem.base_memory g this = empty_memory)) as [Hb|Hb].
  { cbn. apply verify_sparse_spec. left. assumption. }
  destruct (Ideal_flatten g this) as [g1 p1] eqn:Hflat.
  pose proof (Ideal_flatten_sparse _ _ _ _ Hflat) as Hsp.
  destruct (Ideal_cycles_spec g1 this Htop Hframe) as (R & I & B).
  set (g2 := Ideal_cycles g1 this) in *.
  unfold Ideal_dead_path.
  destruct (bool_decide_reflect (Mem.base_memory g2 this = empty_memory)) as [Hd|Hd]; cbn.
  - apply verify_sparse_spec. left.
    destruct can_reshape; [assumption|].
    rewrite cut_slices_base; [assumption|].
    rewrite slices_spec. unfold AliasIdxBot, AliasIdxRaw. lia.
  - apply verify_sparse_spec. right. intros i Hi Hin.
    destruct B as [B|B]; [|contradiction].
    apply Hd. rewrite B. apply (Hsp i).
    + rewrite <- R. assumption.
    + rewrite <- B, <- Hin. symmetry. apply I.
      unfold AliasIdxBot, AliasIdxRaw in *. lia.
Qed.

(** *** [set_memory_at] *)

Lemma set_memory_at_spec (g : gmap nat Node) this idx n :
  (AliasIdxBot < req g this)%nat →
  (AliasIdxRaw ≤ idx)%nat →
  let n' := if bool_decide (n = Mem.base_memory g this) then empty_memory else n in
  let g' := set_memory_at g this idx n in
  Mem.base_memory g' this = Mem.base_memory g this
  ∧ req g' this
    = (if bool_decide (n' = empty_memory) then req g this
       else Nat.max (req g this) (S idx))
  ∧ ((idx < req g' this)%nat → in_ g' this idx = n')
  ∧ (∀ j, j ≠ idx → (j < req g this)%nat → in_ g' this j = in_ g this j)
  ∧ (∀ j, j ≠ idx → (req g this ≤ j < req g' this)%nat → in_ g' this j = empty_memory).
Proof.
  intros Hbot Hraw n' g'.
  assert (is_Some (g !! this)) as Hsome.
  { unfold req in Hbot. destruct (g !! this); [eexists; reflexivity|cbn in Hbot; lia]. }
  assert (AliasIdxBot ≠ idx) as Hne by (unfold AliasIdxBot, AliasIdxRaw in *; lia).
  unfold g', set_memory_at. fold n'.
  destruct (bool_decide_reflect (req g this < S idx)%nat) as [Hsmall|Hbig].
  - destruct (bool_decide_reflect (n' = empty_memory)) as [He|He].
    + split; [reflexivity|]. split; [reflexivity|].
      split; [intros; lia|]. split; [reflexivity|]. intros; lia.
    + set (g1 := grow_to g this (S idx) empty_memory).
      assert (req g1 this = S idx) as Hr1.
      { unfold g1. rewrite req_grow_to by assumption. lia. }
      split.
      { unfold Mem.base_memory. rewrite in_set_req_other by congruence.
        apply in_grow_to_old. assumption. }
      split; [rewrite req_set_req, Hr1; lia|].
      split; [intros _; apply in_set_req_eq; lia|].
      split.
      { intros j Hj Hlt. rewrite in_set_req_other by congruence.
        apply in_grow_to_old. assumption. }
      intros j Hj Hrange. rewrite req_set_req, Hr1 in Hrange.
      rewrite in_set_req_other by congruence.
      apply in_grow_to_new; [assumption|lia].
  - split; [unfold Mem.base_memory; apply in_set_req_other; congruence|].
    split; [rewrite req_set_req; case_bool_decide; lia|].
    split; [intros _; apply in_set_req_eq; lia|].
    split; [intros; apply in_set_req_other; congruence|].
    intros j _ Hrange. rewrite req_set_req in Hrange. lia.
Qed.

(** [set_memory_at] keeps the merge sparse. *)
Lemma set_memory_at_sparse (g : gmap nat Node) this idx n :
  (AliasIdxBot < req g this)%nat →
  (AliasIdxRaw ≤ idx)%nat →
  verify_sparse g this = true →
  verify_sparse (set_memory_at g this idx n) this = true.
Proof.
  intros Hbot Hraw Hsp.
  destruct (set_memory_at_spec g this idx n Hbot Hraw) as (B & R & I & J & K).
  apply verify_sparse_spec. apply verify_sparse_spec in Hsp.
  rewrite B. destruct Hsp as [Hsp|Hsp]; [left; assumption|].
  destruct (decide (Mem.base_memory g this = empty_memory)) as [He|He];
    [left; assumption|right].
  intros i Hi.
  destruct (decide (i = idx)) as [->|Hne].
  - rewrite I by lia. case_bool_decide; congruence.
  - destruct (decide (i < req g this)%nat) as [Hlt|Hge].
    + rewrite J by assumption. apply Hsp. lia.
    + rewrite K by (try assumption; lia). congruence.
Qed.

(** *** Merges without chained merges *)

(** On a slice that is no MergeMem, under a base that is none either, the
    loop body only clears a repetition of the base. *)
Lemma Ideal_slice_flat this b (g : gmap nat Node) p i :
  b ≠ empty_memory →
  (∀ x, b = Some x → is_MergeMem g x = false) →
  (∀ x, in_ g this i = Some x → x ≠ C_top → is_MergeMem g x = false) →
  Ideal_slice this b b (g, p) i
  = if bool_decide (in_ g this i = b)
    then (set_req g this i empty_memory, true) else (g, p).
Proof.
  intros Hb Hbase Hslot. unfold Ideal_slice.
  destruct (bool_decide_reflect (in_ g this i = empty_memory)) as [He|He].
  - assert (match b with
            | Some m => if is_MergeMem g m then Some m else None
            | None => None
            end = None) as ->.
    { destruct b as [x|]; [rewrite (Hbase x eq_refl)|]; reflexivity. }
    rewrite (bool_decide_eq_true_2 (b = b)) by reflexivity.
    rewrite (bool_decide_eq_false_2 (empty_memory ≠ in_ g this i)) by (intros Hn; congruence).
    rewrite (bool_decide_eq_false_2 (in_ g this i = b)) by congruence.
    reflexivity.
  - assert (match in_ g this i with
            | Some m => if is_MergeMem g m then Some m else None
            | None => None
            end = None) as ->.
    { destruct (in_ g this i) as [x|] eqn:Hin; [|reflexivity].
      rewrite (Hslot x eq_refl); [reflexivity|].
      intros ->. apply He. reflexivity. }
    destruct (bool_decide_reflect (in_ g this i = b)) as [Heq|Hne].
    + rewrite (bool_decide_eq_true_2 (empty_memory ≠ in_ g this i)) by congruence.
      reflexivity.
    + rewrite (bool_decide_eq_false_2 (in_ g this i ≠ in_ g this i)) by (intros Hn; congruence).
      reflexivity.
Qed.

Lemma Ideal_slices_flat this b (l : list nat) :
  b ≠ empty_memory →
  ∀ (g : gmap nat Node) p g' p',
    (∀ x, b = Some x → is_MergeMem g x = false) →
    (∀ i x, In i l → in_ g this i = Some x → x ≠ C_top → is_MergeMem g x = false) →
    List.NoDup l →
    foldl (Ideal_slice this b b) (g, p) l = (g', p') →
    p' = p || existsb (λ i, bool_decide (in_ g this i = b)) l
    ∧ (existsb (λ i, bool_decide (in_ g this i = b)) l = false → g' = g)
    ∧ (∀ j, in_ g' this j = in_ g this j ∨ in_ g' this j = empty_memory).
Proof.
  intros Hb. induction l as [|i l IH]; intros g p g' p' Hbase Hslots Hnd Hfold.
  - cbn in *. injection Hfold as <- <-. rewrite orb_false_r. auto.
  - cbn [foldl existsb] in *.
    apply List.NoDup_cons_iff in Hnd as [Hni Hnd].
    rewrite Ideal_slice_flat in Hfold; try assumption.
    2:{ intros x. apply Hslots. left. reflexivity. }
    destruct (bool_decide_reflect (in_ g this i = b)) as [Heq|Hne].
    + apply IH in Hfold as (P & _ & J); try assumption.
      * split; [rewrite P; cbn; rewrite orb_true_r; reflexivity|].
        split; [discriminate|].
        intros j. destruct (J j) as [Hj|Hj]; [|right; assumption].
        destruct (decide (i = j)) as [<-|Hij].
        -- destruct (decide (i < req g this)%nat) as [Hlt|Hge].
           ++ right. rewrite Hj. apply in_set_req_eq. assumption.
           ++ left. rewrite Hj. rewrite !in_ins_of, ins_of_set_req.
              rewrite list_insert_ge by (rewrite <- req_ins_of; lia). reflexivity.
        -- left. rewrite Hj. apply in_set_req_other. assumption.
      * intros x Hx. unfold is_MergeMem. rewrite node_is_set_req. apply Hbase, Hx.
      * intros i' x Hi' Hin. unfold is_MergeMem. rewrite node_is_set_req.
        rewrite in_set_req_other in Hin by (intros ->; contradiction).
        apply (Hslots i'); [right|]; assumption.
    + apply IH in Hfold as (P & Q & J); try assumption.
      * cbn. auto.
      * intros i' x Hi'. apply Hslots. right. assumption.
Qed.

Lemma existsb_negb_forallb {A} (f : A → bool) (l : list A) :
  existsb f l = negb (forallb (λ x, negb (f x)) l).
Proof.
  induction l as [|x l IH]; [reflexivity|]. cbn. rewrite IH.
  destruct (f x); reflexivity.
Qed.

(** [Ideal] on a merge without chained merges: progress is reported when
    some slice repeats the base, the repetitions are cleared, and nothing
    else changes. *)
Lemma Ideal_flat (g : gmap nat Node) this can_reshape :
  is_MergeMem g this = true →
  flat g this →
  ∃ g', Ideal g this can_reshape = (g', negb (verify_sparse g this))
        ∧ (verify_sparse g this = true → g' = g)
        ∧ is_MergeMem g' this = true
        ∧ flat g' this
        ∧ verify_sparse g' this = true.
Proof.
  intros Hmm [Hfb Hfs]. unfold Ideal.
  destruct (bool_decide_reflect (Mem.base_memory g this = empty_memory)) as [Hb|Hb].
  { assert (verify_sparse g this = true) as Hsp by (apply verify_sparse_spec; left; assumption).
    exists g. rewrite Hsp. repeat split; auto. }
  destruct (Ideal_flatten g this) as [g1 p1] eqn:Hflat.
  pose proof (Ideal_flatten_sparse _ _ _ _ Hflat) as Hsp1.
  unfold Ideal_flatten in Hflat.
  assert (match Mem.base_memory g this with
          | Some b => if is_MergeMem g b then Some b else None
          | None => None
          end = None) as Homb.
  { destruct (Mem.base_memory g this) as [x|] eqn:Hx; [rewrite (Hfb x eq_refl)|]; reflexivity. }
  rewrite Homb in Hflat.
  destruct (foldl _ _ _) as [g2 p2] eqn:Hfold in Hflat.
  rewrite (bool_decide_eq_false_2 (Mem.base_memory g this ≠ Mem.base_memory g this))
    in Hflat by (intros Hn; congruence).
  injection Hflat as -> ->.
  pose proof Hfold as Hfold'.
  apply Ideal_slices_spec in Hfold' as (G1 & G2 & G3 & G4 & _ & _); [|apply slices_NoDup].
  apply Ideal_slices_flat in Hfold as (P & Q & J); try assumption.
  2:{ intros i x Hi. apply slices_spec in Hi. apply Hfs. lia. }
  2:{ apply slices_NoDup. }
  assert (Mem.base_memory g1 this = Mem.base_memory g this) as Hbase.
  { unfold Mem.base_memory. apply G4. rewrite slices_spec.
    unfold AliasIdxBot, AliasIdxRaw. lia. }
  assert (Ideal_cycles g1 this = g1) as Hcyc.
  { unfold Ideal_cycles.
    rewrite (bool_decide_eq_false_2 (Mem.base_memory g1 this = Some this)).
    2:{ rewrite Hbase. intros Hself. apply Hfb in Hself. congruence. }
    rewrite Hbase. destruct (Mem.base_memory g this) as [x|] eqn:Hx; [|reflexivity].
    unfold is_MergeMem in *. rewrite G2, (Hfb x eq_refl). reflexivity. }
  rewrite Hcyc. unfold Ideal_dead_path.
  rewrite (bool_decide_eq_false_2 (Mem.base_memory g1 this = empty_memory)) by congruence.
  assert (p1 = negb (verify_sparse g this)) as ->.
  { rewrite P. cbn [orb]. unfold verify_sparse, Mem.is_empty_memory.
    rewrite (bool_decide_eq_false_2 (Mem.base_memory g this = Some C_top)) by exact Hb.
    apply existsb_negb_forallb. }
  exists g1. split; [reflexivity|].
  split.
  { intros Hsp. apply Q. rewrite existsb_negb_forallb.
    unfold verify_sparse, Mem.is_empty_memory in Hsp.
    rewrite (bool_decide_eq_false_2 (Mem.base_memory g this = Some C_top)) in Hsp by exact Hb.
    rewrite Hsp. reflexivity. }
  split; [unfold is_MergeMem in *; rewrite G2; assumption|].
  split.
  { split.
    - intros b. rewrite Hbase. unfold is_MergeMem in *. rewrite G2. apply Hfb.
    - intros i b Hi Hin Hnt. unfold is_MergeMem in *. rewrite G2.
      destruct (J i) as [Hj|Hj].
      + apply (Hfs i); [assumption|congruence|assumption].
      + exfalso. apply Hnt. unfold empty_memory in Hj. congruence. }
  apply verify_sparse_spec. right. intros i Hi Hin.
  apply Hb. rewrite <- Hbase. apply (Hsp1 i); assumption.
Qed.

(** When the first part of [Ideal] reports no progress, it has at most
    grown the merge to match a MergeMem base that is its own base. *)
Lemma Ideal_flatten_no_progress (g : gmap nat Node) this g1 :
  Ideal_flatten g this = (g1, false) →
  (g1 = g ∧ ∀ b, Mem.base_memory g this = Some b → is_MergeMem g b = true →
                 Mem.base_memory g b = Some b → False)
  ∨ (∃ b, Mem.base_memory g this = Some b ∧ is_MergeMem g b = true
          ∧ Mem.base_memory g b = Some b
          ∧ g1 = grow_to_match g this b).
Proof.
  unfold Ideal_flatten.
  set (ob := Mem.base_memory g this).
  destruct ob as [b|] eqn:Hob.
  - destruct (is_MergeMem g b) eqn:Hmm.
    + destruct (foldl _ _ _) as [g2 p2] eqn:Hfold.
      apply Ideal_slices_spec in Hfold as (_ & _ & _ & _ & _ & S6);
        [|apply slices_NoDup].
      destruct (bool_decide_reflect (Mem.base_memory g b ≠ Some b)) as [Hne|Heq];
        [discriminate|].
      apply dec_stable in Heq. intros [= -> ->].
      destruct S6 as [?|[_ ->]]; [discriminate|].
      right. exists b. auto.
    + destruct (foldl _ _ _) as [g2 p2] eqn:Hfold.
      apply Ideal_slices_spec in Hfold as (_ & _ & _ & _ & _ & S6);
        [|apply slices_NoDup].
      rewrite bool_decide_eq_false_2 by (intros Hn; apply Hn; reflexivity).
      intros [= -> ->]. destruct S6 as [?|[_ ->]]; [discriminate|].
      left. split; [reflexivity|]. intros b' [= <-]. congruence.
  - destruct (foldl _ _ _) as [g2 p2] eqn:Hfold.
    apply Ideal_slices_spec in Hfold as (_ & _ & _ & _ & _ & S6);
      [|apply slices_NoDup].
    rewrite bool_decide_eq_false_2 by (intros Hn; apply Hn; reflexivity).
    intros [= -> ->]. destruct S6 as [?|[_ ->]]; [discriminate|].
    left. split; [reflexivity|]. discriminate.
Qed.

(** A merge on which [Ideal] reports no change is sparse. *)
Lemma Ideal_no_progress_sparse (g : gmap nat Node) this can_reshape :
  (AliasIdxBot < req g this)%nat →
  (Ideal g this can_reshape).2 = false →
  verify_sparse g this = true.
Proof.
  intros Hbot. unfold Ideal.
  destruct (bool_decide_reflect (Mem.base_memory g this = empty_memory)) as [Hb|Hb].
  { intros _. apply verify_sparse_spec. left. assumption. }
  destruct (Ideal_flatten g this) as [g1 p1] eqn:Hflat.
  unfold Ideal_dead_path.
  destruct (bool_decide (Mem.base_memory (Ideal_cycles g1 this) this = empty_memory));
    cbn [snd]; [discriminate|].
  intros ->.
  pose proof (Ideal_flatten_sparse _ _ _ _ Hflat) as Hsp.
  assert ((req g this ≤ req g1 this)%nat
          ∧ ∀ j, (j < req g this)%nat → in_ g1 this j = in_ g this j) as [Hreq Hin].
  { destruct (Ideal_flatten_no_progress _ _ _ Hflat) as [[-> _]|(b & _ & _ & _ & ->)].
    - split; auto.
    - destruct (grow_to_match_spec g this b) as (_ & _ & ? & ?). split; assumption. }
  apply verify_sparse_spec. right. intros i Hi Heq. apply Hb.
  assert (Mem.base_memory g1 this = Mem.base_memory g this) as Hbase
    by (apply Hin; assumption).
  rewrite <- Hbase. apply (Hsp i); [lia|].
  rewrite Hbase, Hin by lia. exact Heq.
Qed.

(** ... and [Ideal] has left the graph as it was, unless the base of the
    merge is a MergeMem that is its own base. *)
Lemma Ideal_no_progress_unchanged (g : gmap nat Node) this can_reshape :
  is_MergeMem g this = true →
  (∀ b, Mem.base_memory g this = Some b → is_MergeMem g b = true →
        Mem.base_memory g b ≠ Some b) →
  (Ideal g this can_reshape).2 = false →
  (Ideal g this can_reshape).1 = g.
Proof.
  intros Hmm Hself. unfold Ideal.
  destruct (bool_decide_reflect (Mem.base_memory g this = empty_memory)) as [Hb|Hb];
    [reflexivity|].
  destruct (Ideal_flatten g this) as [g1 p1] eqn:Hflat.
  unfold Ideal_dead_path.
  destruct (bool_decide (Mem.base_memory (Ideal_cycles g1 this) this = empty_memory));
    cbn [fst snd]; [discriminate|].
  intros ->.
  destruct (Ideal_flatten_no_progress _ _ _ Hflat) as [[-> Hnm]|(b & Hbase & Hm & Hs & _)].
  2:{ exfalso. exact (Hself b Hbase Hm Hs). }
  unfold Ideal_cycles.
  destruct (bool_decide_reflect (Mem.base_memory g this = Some this)) as [Hthis|Hthis].
  { exfalso. exact (Hself this Hthis Hmm Hthis). }
  destruct (Mem.base_memory g this) as [b|] eqn:Hbase; [|reflexivity].
  destruct (is_MergeMem g b) eqn:Hm; [|reflexivity].
  (* a MergeMem base that is not its own base is progress *)
  exfalso. revert Hflat. unfold Ideal_flatten. rewrite Hbase, Hm.
  destruct (foldl _ _ _) as [g2 p2].
  rewrite bool_decide_eq_true_2 by (apply Hself; [reflexivity|assumption]).
  discriminate.
Qed.

End WithPhase.

(** C2: the sparse-merge invariant is kept.  [set_memory_at] with the base
    memory as the new slice leaves the empty sentinel in the slot and does
    not grow the merge; the merge grows only for a slice that is neither
    the base nor empty; and [set_memory_at] keeps a sparse merge sparse.
    At a fixed point of [MergeMemNode::Ideal], that is whenever it reports
    no change, the merge is sparse: no slice input that is not the empty
    sentinel equals the base memory.  This holds whatever the driver
    behind [phase->transform] does to the graph, and [Ideal] has then left
    the graph as it was, unless the base is a MergeMem that is its own
    base.  Where the driver does not rewrite the merge it is called from,
    the merge is sparse after every call of [Ideal], with or without
    progress. *)
Theorem sparse_invariant_preserved `{!VMFlags, !PhaseValues, !GVN}
    (g : gmap nat Node) (this : nat) :
  (AliasIdxBot < req g this)%nat →
  (∀ idx n, (AliasIdxRaw ≤ idx)%nat →
     let g' := set_memory_at g this idx n in
     (n = Mem.base_memory g this →
        req g' this = req g this
        ∧ ((idx < req g this)%nat → in_ g' this idx = empty_memory))
     ∧ (req g' this ≠ req g this →
        n ≠ Mem.base_memory g this ∧ n ≠ empty_memory ∧ req g' this = S idx)
     ∧ (verify_sparse g this = true → verify_sparse g' this = true))
  ∧ (∀ can_reshape,
       let r := Ideal g this can_reshape in
       (r.2 = false →
          verify_sparse g this = true
          ∧ (∀ i, (AliasIdxRaw ≤ i < req g this)%nat →
                  in_ g this i ≠ empty_memory →
                  in_ g this i ≠ Mem.base_memory g this)
          ∧ (is_MergeMem g this = true →
             (∀ b, Mem.base_memory g this = Some b → is_MergeMem g b = true →
                   Mem.base_memory g b ≠ Some b) →
             r.1 = g))
       ∧ (this ≠ C_top →
          (∀ g0 n, n ≠ this → (transform g0 n).1 !! this = g0 !! this) →
          verify_sparse r.1 this = true
          ∧ ∀ i, (AliasIdxRaw ≤ i < req r.1 this)%nat →
                 in_ r.1 this i ≠ empty_memory →
                 in_ r.1 this i ≠ Mem.base_memory r.1 this)).
Proof.
  intros Hbot. split.
  - intros idx n Hraw g'.
    destruct (set_memory_at_spec g this idx n Hbot Hraw) as (B & R & I & J & K).
    fold g' in B, R, I, J, K.
    split; [|split].
    + intros ->. revert R I.
      rewrite (bool_decide_eq_true_2 (Mem.base_memory g this = Mem.base_memory g this))
        by reflexivity.
      rewrite (bool_decide_eq_true_2 (empty_memory = empty_memory)) by reflexivity.
      intros R I. split; [assumption|]. intros Hlt. apply I. rewrite R. assumption.
    + intros Hgrow. revert R.
      destruct (bool_decide_reflect (n = Mem.base_memory g this)) as [Hn|Hn].
      * rewrite (bool_decide_eq_true_2 (empty_memory = empty_memory)) by reflexivity.
        intros R. contradiction.
      * destruct (bool_decide_reflect (n = empty_memory)) as [He|He];
          intros R; [contradiction|].
        repeat split; try assumption. lia.
    + apply set_memory_at_sparse; assumption.
  - intros can_reshape r. split.
    + intros Hnp.
      assert (verify_sparse g this = true) as Hsp
        by (apply (Ideal_no_progress_sparse g this can_reshape); assumption).
      split; [assumption|]. split.
      * apply verify_sparse_spec in Hsp as [He|Hall]; [|auto].
        intros i _ Hin. congruence.
      * intros Hmm Hself.
        apply Ideal_no_progress_unchanged; assumption.
    + intros Htop Hframe.
      assert (verify_sparse r.1 this = true) as Hsp by (apply Ideal_sparse; assumption).
      split; [assumption|].
      apply verify_sparse_spec in Hsp as [He|Hall]; [|auto].
      intros i _ Hin. congruence.
Qed.

Section OnRewritingDriver.
#[local] Existing Instance Examples.flags.
#[local] Existing Instance Examples.phase_merge.
#[local] Existing Instance ChainExamples.gvn_rewriting.

(** The merge 12 of [g_merge] under a driver that rewrites merges: [Ideal]
    reports no change, and the merge is sparse. *)
Lemma sparse_invariant_preserved_witness :
  ((∀ idx n, (AliasIdxRaw ≤ idx)%nat →
      let g' := set_memory_at Examples.g_merge 12 idx n in
      (n = Mem.base_memory Examples.g_merge 12 →
         req g' 12 = req Examples.g_merge 12
         ∧ ((idx < req Examples.g_merge 12)%nat → in_ g' 12 idx = empty_memory))
      ∧ (req g' 12 ≠ req Examples.g_merge 12 →
         n ≠ Mem.base_memory Examples.g_merge 12 ∧ n ≠ empty_memory
         ∧ req g' 12 = S idx)
      ∧ (verify_sparse Examples.g_merge 12 = true → verify_sparse g' 12 = true))
   ∧ (∀ can_reshape,
        let r := Ideal Examples.g_merge 12 can_reshape in
        (r.2 = false →
           verify_sparse Examples.g_merge 12 = true
           ∧ (∀ i, (AliasIdxRaw ≤ i < req Examples.g_merge 12)%nat →
                   in_ Examples.g_merge 12 i ≠ empty_memory →
                   in_ Examples.g_merge 12 i ≠ Mem.base_memory Examples.g_merge 12)
           ∧ (is_MergeMem Examples.g_merge 12 = true →
              (∀ b, Mem.base_memory Examples.g_merge 12 = Some b →
                    is_MergeMem Examples.g_merge b = true →
                    Mem.base_memory Examples.g_merge b ≠ Some b) →
              r.1 = Examples.g_merge))
        ∧ (12%nat ≠ C_top →
           (∀ g0 n, n ≠ 12%nat → (transform g0 n).1 !! 12%nat = g0 !! 12%nat) →
           verify_sparse r.1 12 = true
           ∧ ∀ i, (AliasIdxRaw ≤ i < req r.1 12)%nat →
                  in_ r.1 12 i ≠ empty_memory →
                  in_ r.1 12 i ≠ Mem.base_memory r.1 12)))
  ∧ (Ideal Examples.g_merge 12 true).2 = false
  ∧ in_ Examples.g_merge 12 3 = Some 15%nat
  ∧ Mem.base_memory Examples.g_merge 12 = Some 13%nat.
Proof.
  split; [|repeat split; vm_compute; reflexivity].
  apply (sparse_invariant_preserved Examples.g_merge 12).
  vm_compute. lia.
Defined.

End OnRewritingDriver.

Section OnMergeGraph.
#[local] Existing Instance Examples.flags.
#[local] Existing Instance Examples.phase_merge.
#[local] Existing Instance Examples.gvn_idle.

(** C8 as stated fails: the base of the merge 10 is the merge 11, whose
    base is the merge 12.  The first application moves the base of 10 to
    12 and reports progress; the second moves it on to 13 and reports
    progress again.  Likewise for a slice: the slice 3 of the merge 22 of
    [g_deep] is the merge 21, which has the merge 11 there: the first
    application moves the slice to 11, the second to [A]. *)
Lemma Ideal_twice_on_chained_merges :
  (let r1 := Ideal Examples.g_merge 10 true in
   let r2 := Ideal r1.1 10 true in
   r1.2 = true
   ∧ Mem.base_memory r1.1 10 = Some 12%nat
   ∧ r2.2 = true
   ∧ Mem.base_memory r2.1 10 = Some 13%nat
   ∧ r2.1 ≠ r1.1)
  ∧ (let r1 := Ideal ChainExamples.g_deep 22 true in
     let r2 := Ideal r1.1 22 true in
     Mem.base_memory ChainExamples.g_deep 22 = Some 13%nat
     ∧ is_MergeMem ChainExamples.g_deep 13 = false
     ∧ r1.2 = true
     ∧ in_ r1.1 22 3 = Some 11%nat
     ∧ r2.2 = true
     ∧ in_ r2.1 22 3 = Some 14%nat
     ∧ r2.1 ≠ r1.1).
Proof.
  split.
  - repeat split; try (vm_compute; reflexivity).
    intros Heq.
    assert (Mem.base_memory (Ideal (Ideal Examples.g_merge 10 true).1 10 true).1 10
            = Mem.base_memory (Ideal Examples.g_merge 10 true).1 10) as Hb
      by (rewrite Heq; reflexivity).
    vm_compute in Hb. discriminate.
  - repeat split; try (vm_compute; reflexivity).
    intros Heq.
    assert (in_ (Ideal (Ideal ChainExamples.g_deep 22 true).1 22 true).1 22 3
            = in_ (Ideal ChainExamples.g_deep 22 true).1 22 3) as Hb
      by (rewrite Heq; reflexivity).
    vm_compute in Hb. discriminate.
Qed.

End OnMergeGraph.

End MergeMemFacts.

(** ** InitializeNode *)

Module InitializeFacts.
Import Edit EditFacts Mem Initialize.

Section WithPhase.
Context `{!VMFlags, !PhaseValues}.

Section Scans.
Context (g : gmap nat Node).

#[local] Abbreviation off := (get_store_offset g).
#[local] Abbreviation msz := (from_option (memory_size g) 0).

Lemma sane_scan_app last l1 l2 :
  sane_scan g last (l1 ++ l2)
  = sane_scan g last l1 && sane_scan g (sane_last_off g last l1) l2.
Proof.
  revert last. induction l1 as [|st l1 IH]; intros last; [reflexivity|].
  cbn. destruct (off st <? 0); [apply IH|].
  destruct (off st <? last); [reflexivity|apply IH].
Qed.

(** A scan that passes from [last] passes from anything below. *)
Lemma sane_scan_anti last last' l :
  last' ≤ last → sane_scan g last l = true → sane_scan g last' l = true.
Proof.
  intros Hle. induction l as [|st l IH]; [reflexivity|].
  cbn. destruct (off st <? 0); [assumption|].
  destruct (Z.ltb_spec (off st) last) as [|Hge]; [discriminate|].
  destruct (Z.ltb_spec (off st) last'); [lia|]. auto.
Qed.

(** A scan that passes a live head passes from anything the head is
    above. *)
Lemma sane_scan_head last x st l :
  0 ≤ off st → x ≤ off st →
  sane_scan g last (st :: l) = true → sane_scan g x (st :: l) = true.
Proof.
  intros Hlive Hx. cbn.
  destruct (Z.ltb_spec (off st) 0); [lia|].
  destruct (off st <? last); [discriminate|].
  destruct (Z.ltb_spec (off st) x); [lia|]. auto.
Qed.

Lemma sane_last_off_before last l start :
  last ≤ start →
  Forall (λ st, off st < 0 ∨ off st + msz st ≤ start) l →
  sane_last_off g last l ≤ start.
Proof.
  intros Hle Hall. revert last Hle.
  induction Hall as [|st l Hst _ IH]; intros last Hle; [assumption|].
  cbn. destruct (Z.ltb_spec (off st) 0); [auto|].
  apply IH. lia.
Qed.

(** Putting a store at [start] of width [size] (or an edge that is no
    store) between a prefix that ends by [start] and a rest that begins
    after [start + size]. *)
Lemma sane_scan_middle last pre new rest start size :
  last ≤ start →
  sane_scan g last pre = true →
  Forall (λ st, off st < 0 ∨ off st + msz st ≤ start) pre →
  (off new = start ∧ msz new = size) ∨ off new < 0 →
  sane_scan g (sane_last_off g last pre) rest = true →
  sane_scan g (start + size) rest = true →
  sane_scan g last (pre ++ new :: rest) = true.
Proof.
  intros Hle Hpre Hbefore Hnew Hrest1 Hrest2.
  rewrite sane_scan_app, Hpre. cbn.
  pose proof (sane_last_off_before last pre start Hle Hbefore) as He.
  destruct Hnew as [[Ho Hm]|Hdead].
  - destruct (Z.ltb_spec (off new) 0) as [Hneg|_]; [assumption|].
    destruct (Z.ltb_spec (off new) (sane_last_off g last pre)); [lia|].
    rewrite Ho, Hm. assumption.
  - destruct (Z.ltb_spec (off new) 0); [assumption|lia].
Qed.

(** Every live store after a scan that passes from [last] is at or above
    [last]. *)
Lemma sane_scan_lower last l :
  Forall (λ st, 0 ≤ off st → 0 ≤ msz st) l →
  sane_scan g last l = true →
  Forall (λ st, 0 ≤ off st → last ≤ off st) l.
Proof.
  intros Hw. revert last.
  induction Hw as [|st l Hst _ IH]; intros last Hsane; [constructor|].
  cbn in Hsane. destruct (Z.ltb_spec (off st) 0) as [Hneg|Hlive].
  - constructor; [lia|auto].
  - destruct (Z.ltb_spec (off st) last); [discriminate|].
    constructor; [lia|].
    apply IH in Hsane. eapply Forall_impl; [exact Hsane|].
    cbn. intros x Hx Hlx. specialize (Hst Hlive). specialize (Hx Hlx). lia.
Qed.

(** A scan that passes means ascending stores that do not overlap. *)
Lemma sane_scan_ordered last l :
  Forall (λ st, 0 ≤ off st → 0 ≤ msz st) l →
  sane_scan g last l = true →
  ∀ (i j : nat) a b,
    (i < j)%nat → l !! i = Some a → l !! j = Some b →
    0 ≤ off a → 0 ≤ off b → off a + msz a ≤ off b.
Proof.
  intros Hw. revert last.
  induction Hw as [|st l Hst Hw IH]; intros last Hsane i j a b Hij Ha Hb Hla Hlb.
  - discriminate.
  - destruct j as [|j]; [lia|]. cbn in Hb.
    cbn in Hsane.
    destruct i as [|i].
    + cbn in Ha. injection Ha as ->.
      destruct (Z.ltb_spec (off a) 0); [lia|].
      destruct (off a <? last); [discriminate|].
      apply (sane_scan_lower _ _ Hw) in Hsane.
      eapply Forall_lookup_1 in Hsane; [|exact Hb]. auto.
    + cbn in Ha.
      destruct (off st <? 0).
      * apply (IH last Hsane i j a b); [lia|assumption..].
      * destruct (off st <? last); [discriminate|].
        apply (IH _ Hsane i j a b); [lia|assumption..].
Qed.

(** What the scan of [captured_store_insertion_point] has found when it
    does not fail: a position [p] behind stores that end by [start]; at
    [p] either a store of the same offset and size (the scan returns its
    edge index), or the end of the list or a store that begins after the
    range (the scan returns the negated index). *)
Lemma insertion_point_scan_spec zmem start size :
  size ≠ 0 →
  ∀ sts (i0 : nat) r,
    insertion_point_scan g zmem start size i0 sts = r →
    r ≠ 0 → (0 < i0)%nat →
    Forall (λ st, 0 ≤ off st →
                  0 ≤ msz st ≤ Z.max BytesPerLong MaxVectorSize) sts →
    ∃ p : nat,
      (p ≤ length sts)%nat
      ∧ Forall (λ st, off st < 0 ∨ off st + msz st ≤ start) (take p sts)
      ∧ ((r = - Z.of_nat (i0 + p)
          ∧ ∀ st, sts !! p = Some st → 0 ≤ off st ∧ start + size ≤ off st)
         ∨ (r = Z.of_nat (i0 + p)
            ∧ ∃ st, sts !! p = Some st ∧ off st = start ∧ msz st = size)).
Proof.
  intros Hsize sts.
  induction sts as [|st sts IH]; intros i0 r Hscan Hr Hi0 Hw.
  - cbn in Hscan. exists 0%nat. split; [cbn; lia|]. split; [constructor|].
    left. rewrite Nat.add_0_r. split; [congruence|]. intros st [=].
  - apply Forall_cons in Hw as [Hst Hw].
    cbn [insertion_point_scan] in Hscan.
    assert (∀ r', insertion_point_scan g zmem start size (S i0) sts = r' →
              r' ≠ 0 → off st < 0 ∨ off st + msz st ≤ start →
              ∃ p : nat,
                (p ≤ length (st :: sts))%nat
                ∧ Forall (λ st, off st < 0 ∨ off st + msz st ≤ start)
                         (take p (st :: sts))
                ∧ ((r' = - Z.of_nat (i0 + p)
                    ∧ ∀ st', (st :: sts) !! p = Some st' →
                             0 ≤ off st' ∧ start + size ≤ off st')
                   ∨ (r' = Z.of_nat (i0 + p)
                      ∧ ∃ st', (st :: sts) !! p = Some st'
                               ∧ off st' = start ∧ msz st' = size))) as Hrec.
    { intros r' Hscan' Hr' Hbefore.
      destruct (IH (S i0) r' Hscan' Hr' ltac:(lia) Hw) as (p & Hp & Hpre & Hres).
      exists (S p). split; [cbn; lia|]. split; [cbn; constructor; assumption|].
      replace (i0 + S p)%nat with (S i0 + p)%nat by lia. exact Hres. }
    destruct (Z.ltb_spec (off st) 0) as [Hneg|Hlive].
    { destruct (negb (bool_decide (st = zmem))); [congruence|].
      apply (Hrec r Hscan Hr). left. assumption. }
    destruct (Z.ltb_spec start (off st)) as [Hafter|Hnafter].
    { destruct (Z.ltb_spec (off st) (start + size)) as [|Hfar]; [congruence|].
      exists 0%nat. split; [cbn; lia|]. split; [constructor|].
      left. rewrite Nat.add_0_r. split; [congruence|].
      intros st' [= <-]. split; assumption. }
    destruct (Z.ltb_spec (off st) start) as [Hbefore|Hnbefore].
    { destruct (negb (size =? 0) && (start <? off st + Z.max BytesPerLong MaxVectorSize)
                && (start <? off st + msz st)) eqn:Hov; [congruence|].
      apply (Hrec r Hscan Hr). right.
      specialize (Hst Hlive).
      apply andb_false_iff in Hov as [Hov|Hov];
        [apply andb_false_iff in Hov as [Hov|Hov]|].
      - apply negb_false_iff, Z.eqb_eq in Hov. contradiction.
      - apply Z.ltb_ge in Hov. lia.
      - apply Z.ltb_ge in Hov. lia. }
    destruct (negb (size =? 0) && negb (msz st =? size)) eqn:Hmis; [congruence|].
    exists 0%nat. split; [cbn; lia|]. split; [constructor|].
    right. rewrite Nat.add_0_r. split; [congruence|].
    exists st. split; [reflexivity|]. split; [lia|].
    apply andb_false_iff in Hmis as [Hmis|Hmis].
    + apply negb_false_iff, Z.eqb_eq in Hmis. contradiction.
    + apply negb_false_iff, Z.eqb_eq in Hmis. assumption.
Qed.

(** The three ways [capture_store] rewrites the list of captured stores. *)
Lemma sane_scan_insert hdr sts (p : nat) new start size :
  hdr ≤ start →
  sane_scan g hdr sts = true →
  Forall (λ st, off st < 0 ∨ off st + msz st ≤ start) (take p sts) →
  (∀ st, sts !! p = Some st → 0 ≤ off st ∧ start + size ≤ off st) →
  (off new = start ∧ msz new = size) ∨ off new < 0 →
  sane_scan g hdr (take p sts ++ new :: drop p sts) = true.
Proof.
  intros Hle Hsane Hpre Hat Hnew.
  rewrite <- (take_drop p sts) in Hsane at 1.
  rewrite sane_scan_app in Hsane. apply andb_prop in Hsane as [Hs1 Hs2].
  apply sane_scan_middle with (start := start) (size := size); try assumption.
  destruct (sts !! p) as [st|] eqn:Hp.
  - rewrite (drop_S _ _ _ Hp) in *. destruct (Hat st eq_refl) as [Hlive Hfar].
    eapply sane_scan_head; eassumption.
  - apply lookup_ge_None in Hp. rewrite drop_ge by assumption. reflexivity.
Qed.

Lemma sane_scan_reuse hdr sts (p : nat) zmem new start size :
  hdr ≤ start →
  sane_scan g hdr sts = true →
  Forall (λ st, off st < 0 ∨ off st + msz st ≤ start) (take (S p) sts) →
  (∀ st, sts !! S p = Some st → 0 ≤ off st ∧ start + size ≤ off st) →
  sts !! p = Some zmem → off zmem < 0 →
  (off new = start ∧ msz new = size) ∨ off new < 0 →
  sane_scan g hdr (take p sts ++ new :: drop (S p) sts) = true.
Proof.
  intros Hle Hsane Hpre Hat Hz Hzdead Hnew.
  rewrite <- (take_drop_middle _ _ _ Hz) in Hsane.
  rewrite sane_scan_app in Hsane. apply andb_prop in Hsane as [Hs1 Hs2].
  cbn in Hs2. destruct (Z.ltb_spec (off zmem) 0); [|lia].
  apply sane_scan_middle with (start := start) (size := size); try assumption.
  - apply (Forall_take _ p) in Hpre. rewrite take_take in Hpre.
    replace (p `min` S p)%nat with p in Hpre by lia. assumption.
  - destruct (sts !! S p) as [st|] eqn:Hp.
    + rewrite (drop_S _ _ _ Hp) in *. destruct (Hat st eq_refl) as [Hlive Hfar].
      eapply sane_scan_head; eassumption.
    + apply lookup_ge_None in Hp. rewrite drop_ge by assumption. reflexivity.
Qed.

Lemma sane_scan_replace hdr sts (p : nat) st new start size :
  hdr ≤ start → 0 ≤ start → 0 ≤ size →
  sane_scan g hdr sts = true →
  Forall (λ st, off st < 0 ∨ off st + msz st ≤ start) (take p sts) →
  sts !! p = Some st → off st = start → msz st = size →
  (off new = start ∧ msz new = size) ∨ off new < 0 →
  sane_scan g hdr (take p sts ++ new :: drop (S p) sts) = true.
Proof.
  intros Hle Hstart Hsize Hsane Hpre Hp Ho Hm Hnew.
  rewrite <- (take_drop_middle _ _ _ Hp) in Hsane.
  rewrite sane_scan_app in Hsane. apply andb_prop in Hsane as [Hs1 Hs2].
  pose proof (sane_last_off_before hdr (take p sts) start Hle Hpre) as He.
  cbn in Hs2.
  destruct (Z.ltb_spec (off st) 0); [lia|].
  destruct (off st <? sane_last_off g hdr (take p sts)); [discriminate|].
  rewrite Ho, Hm in Hs2.
  apply sane_scan_middle with (start := start) (size := size); try assumption.
  eapply sane_scan_anti; [|exact Hs2]. lia.
Qed.

End Scans.

(** *** The graph after [capture_store] *)

Lemma set_ins_set_ins (g : gmap nat Node) n l1 l2 :
  set_ins (set_ins g n l1) n l2 = set_ins g n l2.
Proof.
  unfold set_ins at 1 3. rewrite set_ins_lookup_eq.
  destruct (g !! n) as [nd|] eqn:Hn; cbn.
  - unfold set_ins. rewrite Hn. apply insert_insert_eq.
  - rewrite set_ins_None by assumption. reflexivity.
Qed.

Lemma opcode_of_set_ins (g : gmap nat Node) n l m :
  opcode_of (set_ins g n l) m = opcode_of g m.
Proof.
  unfold opcode_of. destruct (decide (m = n)) as [->|Hne].
  - rewrite set_ins_lookup_eq. destruct (g !! n); reflexivity.
  - rewrite set_ins_lookup_ne by assumption. reflexivity.
Qed.

Lemma in_set_ins_ne (g : gmap nat Node) n l m j :
  m ≠ n → in_ (set_ins g n l) m j = in_ g m j.
Proof. intros Hne. unfold in_. rewrite set_ins_lookup_ne by assumption. reflexivity. Qed.

Lemma memory_size_set_ins (g : gmap nat Node) n l m :
  memory_size (set_ins g n l) m = memory_size g m.
Proof. unfold memory_size. rewrite opcode_of_set_ins. reflexivity. Qed.

Lemma get_store_offset_set_ins (g : gmap nat Node) n l st :
  is_Store g n = false →
  get_store_offset (set_ins g n l) st = get_store_offset g st.
Proof.
  intros Hn. unfold get_store_offset. destruct st as [s|]; [|reflexivity].
  unfold is_Store in *. rewrite node_is_set_ins.
  destruct (decide (s = n)) as [->|Hne].
  - rewrite Hn. reflexivity.
  - rewrite in_set_ins_ne by assumption. reflexivity.
Qed.

Lemma sane_scan_set_ins (g : gmap nat Node) n l last sts :
  is_Store g n = false →
  sane_scan (set_ins g n l) last sts = sane_scan g last sts.
Proof.
  intros Hn. revert last. induction sts as [|st sts IH]; intros last; [reflexivity|].
  cbn. rewrite get_store_offset_set_ins by assumption.
  destruct st as [s|]; cbn; rewrite ?memory_size_set_ins, !IH; reflexivity.
Qed.

Lemma raw_stores_set_ins (g : gmap nat Node) n l :
  is_Some (g !! n) → raw_stores (set_ins g n l) n = drop RawStores l.
Proof.
  intros [nd Hn]. unfold raw_stores. rewrite set_ins_lookup_eq, Hn. reflexivity.
Qed.

Lemma raw_stores_ins_of (g : gmap nat Node) n :
  raw_stores g n = drop RawStores (ins_of g n).
Proof. unfold raw_stores, ins_of. destruct (g !! n); reflexivity. Qed.

Lemma is_complete_set_ins (g : gmap nat Node) n l m :
  is_complete (set_ins g n l) m = is_complete g m.
Proof.
  unfold is_complete. destruct (decide (m = n)) as [->|Hne].
  - rewrite set_ins_lookup_eq. destruct (g !! n); reflexivity.
  - rewrite set_ins_lookup_ne by assumption. reflexivity.
Qed.

(** Replacing the edges [6+a .. 6+b-1] of a node by one edge, seen from
    [RawStores] on. *)
Lemma splice_raw_stores (l : list (option nat)) (a b : nat) x :
  (RawStores + a ≤ length l)%nat →
  drop RawStores (take (RawStores + a) l ++ x :: drop (RawStores + b) l)
  = take a (drop RawStores l) ++ x :: drop b (drop RawStores l).
Proof.
  intros Hlen.
  rewrite drop_app_le by (rewrite length_take; lia).
  rewrite <- take_drop_commute, drop_drop. reflexivity.
Qed.

(** [capture_store] leaves the captured stores in order and in range when
    the list it builds is in order. *)
Lemma splice_invariants (g : gmap nat Node) init alloc (a b : nat) new :
  is_Initialize g init = true →
  allocation init = Some alloc →
  (RawStores + a ≤ req g init)%nat →
  let sts := raw_stores g init in
  let g' := set_ins g init
              (take (RawStores + a) (ins_of g init)
               ++ Some new :: drop (RawStores + b) (ins_of g init)) in
  sane_scan g (minimum_header_size alloc) (take a sts ++ Some new :: drop b sts) = true →
  (0 ≤ get_store_offset g (Some new) →
   minimum_header_size alloc ≤ get_store_offset g (Some new)
   < TrackedInitializationLimit * HeapWordSize) →
  (0 ≤ get_store_offset g (Some new) →
   0 ≤ memory_size g new ≤ Z.max BytesPerLong MaxVectorSize) →
  stores_in_range g init →
  stores_within_MAX_STORE g init →
  stores_are_sane g' init = true
  ∧ stores_in_range g' init
  ∧ stores_within_MAX_STORE g' init
  ∧ stores_ordered g' init.
Proof.
  intros Hinit Halloc Hlen sts g' Hsane Hrange Hwidth Hir Hw.
  assert (is_Some (g !! init)) as Hsome.
  { unfold is_Initialize, node_is in Hinit. destruct (g !! init); [eexists; reflexivity|discriminate]. }
  assert (is_Store g init = false) as Hnst.
  { unfold is_Initialize, is_Store, node_is in *. destruct (g !! init) as [nd|]; [|reflexivity].
    apply bool_decide_eq_true in Hinit. rewrite Hinit. reflexivity. }
  assert (raw_stores g' init = take a sts ++ Some new :: drop b sts) as Hraw.
  { unfold g'. rewrite raw_stores_set_ins by assumption.
    unfold sts. rewrite raw_stores_ins_of. apply splice_raw_stores.
    rewrite <- req_ins_of. assumption. }
  assert (Forall (λ st, 0 ≤ get_store_offset g' st →
                        0 ≤ from_option (memory_size g') 0 st
                        ≤ Z.max BytesPerLong MaxVectorSize)
                 (raw_stores g' init)) as Hw'.
  { rewrite Hraw. unfold stores_within_MAX_STORE in Hw. fold sts in Hw.
    eapply Forall_impl.
    - apply Forall_app. split; [apply Forall_take, Hw|].
      constructor; [exact Hwidth|apply Forall_drop, Hw].
    - intros st Hst. unfold g'. rewrite get_store_offset_set_ins by assumption.
      destruct st as [s|]; cbn in *; rewrite ?memory_size_set_ins; exact Hst. }
  assert (sane_scan g' (minimum_header_size alloc) (raw_stores g' init) = true) as Hsane'.
  { rewrite Hraw. unfold g'. rewrite sane_scan_set_ins by assumption. exact Hsane. }
  split.
  { unfold stores_are_sane. unfold g' at 1. rewrite is_complete_set_ins.
    destruct (is_complete g init); [reflexivity|]. rewrite Halloc. exact Hsane'. }
  split.
  { unfold stores_in_range in *. rewrite Halloc in *. rewrite Hraw. fold sts in Hir.
    eapply Forall_impl.
    - apply Forall_app. split; [apply Forall_take, Hir|].
      constructor; [exact Hrange|apply Forall_drop, Hir].
    - intros st Hst. unfold g'. rewrite get_store_offset_set_ins by assumption.
      exact Hst. }
  split; [exact Hw'|].
  unfold stores_ordered. apply sane_scan_ordered with (last := minimum_header_size alloc).
  - eapply Forall_impl; [exact Hw'|]. cbn. intros st Hst Hl. apply Hst in Hl. lia.
  - exact Hsane'.
Qed.

(** The edits of [capture_store], as one rewrite of the edge list. *)
Lemma set_req_twice (g : gmap nat Node) n (k : nat) x y :
  is_Some (g !! n) → (k < req g n)%nat →
  set_req (set_req g n k x) n k y
  = set_ins g n (take k (ins_of g n) ++ y :: drop (S k) (ins_of g n)).
Proof.
  intros Hn Hk. unfold set_req. rewrite ins_of_set_ins_eq by assumption.
  rewrite set_ins_set_ins, list_insert_insert_eq.
  rewrite insert_take_drop by (rewrite <- req_ins_of; assumption). reflexivity.
Qed.

Lemma set_req_ins_req (g : gmap nat Node) n (k : nat) x y :
  is_Some (g !! n) → (k ≤ req g n)%nat →
  set_req (ins_req g n k x) n k y
  = set_ins g n (take k (ins_of g n) ++ y :: drop k (ins_of g n)).
Proof.
  intros Hn Hk. unfold set_req, ins_req. rewrite ins_of_set_ins_eq by assumption.
  rewrite set_ins_set_ins. f_equal.
  rewrite insert_app_r_alt by (rewrite length_take; lia).
  rewrite length_take_le by (rewrite <- req_ins_of; assumption).
  rewrite Nat.sub_diag. reflexivity.
Qed.

End WithPhase.

(** A barrier that has captured nothing yet satisfies all of it. *)
Lemma fresh_barrier_invariants `{!VMFlags, !PhaseValues}
    (g : gmap nat Node) (init : nat) :
  req g init = RawStores →
  raw_stores g init = []
  ∧ stores_are_sane g init = true
  ∧ stores_in_range g init
  ∧ stores_within_MAX_STORE g init
  ∧ stores_ordered g init.
Proof.
  intros Hreq.
  assert (raw_stores g init = []) as Hnil.
  { unfold raw_stores, req in *. destruct (g !! init) as [nd|]; [|reflexivity].
    apply drop_ge. lia. }
  split; [exact Hnil|].
  unfold stores_are_sane, stores_in_range, stores_within_MAX_STORE, stores_ordered.
  rewrite Hnil. repeat split.
  - destruct (is_complete g init); [reflexivity|].
    destruct (allocation init); reflexivity.
  - destruct (allocation init); [apply Forall_nil_2|exact I].
  - apply Forall_nil_2.
  - intros i j a b _ Ha. rewrite lookup_nil in Ha. discriminate.
Qed.

(** C4, as the code has it: capturing a store keeps the captured stores of
    an initialization barrier ordered and bounded.  When [capture_store] runs on a barrier whose captured stores
    pass [stores_are_sane], lie between the minimum header size and the
    tracked-initialization limit and are no wider than MAX_STORE, the
    captured stores afterwards pass [stores_are_sane] again, lie in the
    same bounds, and each begins at or after the end of every one before
    it; and once the barrier is complete, [captured_store_insertion_point]
    fails for every request and [capture_store] captures nothing.
    [new_st], the node the driver returns for the raw clone, is a store to
    [start] of the size of [st], or no store at all. *)
Theorem captured_stores_ordered_and_bounded `{!VMFlags, !PhaseValues}
    (g : gmap nat Node) (init alloc st new_st : nat) (start : Z) :
  is_Initialize g init = true →
  (RawStores ≤ req g init)%nat →
  allocation init = Some alloc →
  get_store_offset g (zero_memory g init) < 0 →
  0 < memory_size g st ≤ Z.max BytesPerLong MaxVectorSize →
  (get_store_offset g (Some new_st) = start
   ∧ memory_size g new_st = memory_size g st)
  ∨ get_store_offset g (Some new_st) < 0 →
  stores_are_sane g init = true →
  stores_in_range g init →
  stores_within_MAX_STORE g init →
  let r := capture_store g init st start new_st in
  (is_complete g init = true →
     r = (g, None) ∧ ∀ s n, captured_store_insertion_point g init s n = 0)
  ∧ stores_are_sane r.1 init = true
  ∧ stores_in_range r.1 init
  ∧ stores_within_MAX_STORE r.1 init
  ∧ (is_complete g init = false → stores_ordered r.1 init).
Proof.
  intros Hinit Hreq Halloc Hzmem Hsize Hnew Hsane Hir Hw r.
  assert (is_Some (g !! init)) as Hsome.
  { unfold is_Initialize, node_is in Hinit.
    destruct (g !! init); [eexists; reflexivity|discriminate]. }
  split.
  { intros Hc. split.
    - unfold r, capture_store, captured_store_insertion_point. rewrite Hc.
      destruct (start <? 0); reflexivity.
    - intros s n. unfold captured_store_insertion_point. rewrite Hc. reflexivity. }
  assert (is_complete g init = false → stores_ordered g init) as Hord.
  { intros Hc. unfold stores_are_sane in Hsane. rewrite Hc, Halloc in Hsane.
    unfold stores_ordered. eapply sane_scan_ordered; [|exact Hsane].
    eapply Forall_impl; [exact Hw|]. cbn. intros x Hx Hl. apply Hx in Hl. lia. }
  unfold r, capture_store.
  destruct (Z.ltb_spec start 0) as [|Hstart]; [cbn; auto|].
  set (size := memory_size g st) in *.
  destruct (Z.eqb_spec (captured_store_insertion_point g init start size) 0) as [|Hi];
    [cbn; auto|].
  unfold captured_store_insertion_point in *.
  destruct (is_complete g init) eqn:Hc; [contradiction|].
  rewrite Halloc in *.
  destruct (Z.ltb_spec start (minimum_header_size alloc)) as [|Hhdr]; [contradiction|].
  destruct (Z.leb_spec (TrackedInitializationLimit * HeapWordSize) start) as [|Hlim];
    [contradiction|].
  unfold stores_are_sane in Hsane. rewrite Hc, Halloc in Hsane.
  set (sts := raw_stores g init) in *.
  set (zmem := zero_memory g init) in *.
  destruct (insertion_point_scan_spec g zmem start size ltac:(lia) sts RawStores _
              eq_refl Hi ltac:(unfold RawStores; lia) Hw)
    as (p & Hp & Hpre & Hres).
  assert (length sts = (req g init - RawStores)%nat) as Hlen.
  { unfold sts. rewrite raw_stores_ins_of, length_drop, req_ins_of. reflexivity. }
  assert (0 ≤ get_store_offset g (Some new_st) →
          minimum_header_size alloc ≤ get_store_offset g (Some new_st)
          < TrackedInitializationLimit * HeapWordSize) as Hnr.
  { intros Hl. destruct Hnew as [[-> _]|]; lia. }
  assert (0 ≤ get_store_offset g (Some new_st) →
          0 ≤ memory_size g new_st ≤ Z.max BytesPerLong MaxVectorSize) as Hnw.
  { intros Hl. destruct Hnew as [[_ ->]|]; lia. }
  assert ((get_store_offset g (Some new_st) = start
           ∧ from_option (memory_size g) 0 (Some new_st) = size)
          ∨ get_store_offset g (Some new_st) < 0) as Hnew' by exact Hnew.
  destruct Hres as [[Hr Hat]|[Hr (st_p & Hstp & Hoff & Hmsz)]]; rewrite Hr.
  - (* no store at [start] yet *)
    destruct (Z.ltb_spec 0 (- Z.of_nat (RawStores + p))) as [|_]; [lia|].
    replace (Z.to_nat (- - Z.of_nat (RawStores + p))) with (RawStores + p)%nat by lia.
    destruct (bool_decide (RawStores < RawStores + p)%nat
              && bool_decide (in_ g init (RawStores + p - 1) = zmem)) eqn:Hreuse.
    + apply andb_prop in Hreuse as [Hpos Hz].
      apply bool_decide_eq_true in Hpos, Hz.
      destruct p as [|p]; [lia|].
      replace (RawStores + S p - 1)%nat with (RawStores + p)%nat in * by lia.
      assert (sts !! p = Some zmem) as Hzp.
      { unfold sts. rewrite raw_stores_ins_of, lookup_drop.
        rewrite in_ins_of in Hz.
        destruct (ins_of g init !! (RawStores + p)%nat) as [x|] eqn:Hx.
        - cbn in Hz. congruence.
        - apply lookup_ge_None in Hx. rewrite <- req_ins_of in Hx. lia. }
      rewrite set_req_twice by (try assumption; lia). cbn [fst].
      replace (S (RawStores + p)) with (RawStores + S p)%nat by lia.
      destruct (splice_invariants g init alloc p (S p) new_st) as (S1 & S2 & S3 & S4);
        try assumption; [lia| |auto].
      apply sane_scan_reuse with (zmem := zmem) (start := start) (size := size);
        [lia | exact Hsane | exact Hpre | exact Hat | exact Hzp | exact Hzmem
        | exact Hnew'].
    + rewrite set_req_ins_req by (try assumption; lia). cbn [fst].
      destruct (splice_invariants g init alloc p p new_st) as (S1 & S2 & S3 & S4);
        try assumption; [lia| |auto].
      apply sane_scan_insert with (start := start) (size := size);
        [lia | exact Hsane | exact Hpre | exact Hat | exact Hnew'].
  - (* a store at [start] is there already *)
    destruct (Z.ltb_spec 0 (Z.of_nat (RawStores + p))) as [_|]; [|unfold RawStores in *; lia].
    rewrite Nat2Z.id.
    assert (p < length sts)%nat as Hplt by (eapply lookup_lt_Some; eassumption).
    rewrite set_req_twice by (try assumption; lia). cbn [fst].
    replace (S (RawStores + p)) with (RawStores + S p)%nat by lia.
    destruct (splice_invariants g init alloc p (S p) new_st) as (S1 & S2 & S3 & S4);
      try assumption; [lia| |auto].
    apply sane_scan_replace with (st := st_p) (start := start) (size := size);
      [lia | lia | lia | exact Hsane | exact Hpre | exact Hstp | exact Hoff
      | exact Hmsz | exact Hnew'].
Qed.

Section OnInitGraph.
#[local] Existing Instance Examples.flags.
#[local] Existing Instance Examples.phase_init.

(** The barrier 30 of [g_init] has captured stores at 16 and 24; it
    captures the store 36 to offset 20 between them. *)
Lemma captured_stores_ordered_and_bounded_witness :
  let r := capture_store Examples.g_init 30 36 20 36 in
  ((is_complete Examples.g_init 30 = true →
      r = (Examples.g_init, None)
      ∧ ∀ s n, captured_store_insertion_point Examples.g_init 30 s n = 0)
   ∧ stores_are_sane r.1 30 = true
   ∧ stores_in_range r.1 30
   ∧ stores_within_MAX_STORE r.1 30
   ∧ (is_complete Examples.g_init 30 = false → stores_ordered r.1 30))
  ∧ raw_stores r.1 30 = [Some 33; Some 36; Some 34]%nat.
Proof.
  split; [|vm_compute; reflexivity].
  apply (captured_stores_ordered_and_bounded Examples.g_init 30 20 36 36 20).
  - vm_compute. reflexivity.
  - vm_compute. lia.
  - reflexivity.
  - vm_compute. reflexivity.
  - vm_compute. split; [reflexivity|discriminate].
  - left. vm_compute. split; reflexivity.
  - vm_compute. reflexivity.
  - unfold stores_in_range.
    change (allocation 30) with (Some 20%nat).
    change (raw_stores Examples.g_init 30) with [Some 33%nat; Some 34%nat].
    repeat (apply Forall_cons; split;
            [intros _; split; vm_compute; first [discriminate | reflexivity]|]).
    apply Forall_nil_2.
  - unfold stores_within_MAX_STORE.
    change (raw_stores Examples.g_init 30) with [Some 33%nat; Some 34%nat].
    repeat (apply Forall_cons; split;
            [intros _; split; vm_compute; discriminate|]).
    apply Forall_nil_2.
Defined.

End OnInitGraph.

End InitializeFacts.

(** ** InitializeNode: coalescing constant stores *)

Module CoalesceFacts.
Import Edit Mem Initialize InitializeMore Coalesce.

Section OnTile.
#[local] Existing Instance Examples.flags.
#[local] Existing Instance CoalesceExamples.phase_tile.
#[local] Existing Instance CoalesceExamples.coalesce_tile.

(** C4 as stated fails: the barrier 30 of [g_tile] is not complete and has
    captured four byte stores in ascending order.  [coalesce_subword_stores]
    replaces the three constant ones by the long store 71 to offset 16 and
    puts it before the store 62 of [y] to offset 18, which it overlaps:
    the barrier is still not complete, and its captured stores no longer
    pass [stores_are_sane]. *)
Lemma coalesced_stores_overlap :
  is_complete CoalesceExamples.g_tile 30 = false
  ∧ raw_stores CoalesceExamples.g_tile 30 = [Some 60; Some 61; Some 62; Some 63]%nat
  ∧ stores_are_sane CoalesceExamples.g_tile 30 = true
  ∧ ∃ g', coalesce_subword_stores CoalesceExamples.g_tile 30 16 None = Some g'
          ∧ is_complete g' 30 = false
          ∧ raw_stores g' 30 = [Some 71; Some 62]%nat
          ∧ get_store_offset g' (Some 71%nat) = 16
          ∧ memory_size g' 71 = 8
          ∧ get_store_offset g' (Some 62%nat) = 18
          ∧ stores_are_sane g' 30 = false.
Proof.
  split; [vm_compute; reflexivity|].
  split; [vm_compute; reflexivity|].
  split; [vm_compute; reflexivity|].
  eexists. split; [vm_compute; reflexivity|].
  repeat split; vm_compute; reflexivity.
Qed.

End OnTile.
End CoalesceFacts.

(** ** The adjacent-store merger *)

Module MergeStoresFacts.
Import Mem MergeStores.

Lemma round_down_power_of_2_spec (n : nat) :
  (2 ≤ n)%nat →
  (2 ≤ round_down_power_of_2 n ≤ n ∧ n < 2 * round_down_power_of_2 n)%nat.
Proof.
  intros Hn. unfold round_down_power_of_2.
  destruct (Nat.log2_spec n) as [Hlo Hhi]; [lia|].
  rewrite Nat.pow_succ_r' in Hhi.
  assert (1 ≤ Nat.log2 n)%nat as Hlog.
  { change 1%nat with (Nat.log2 2). apply Nat.log2_le_mono. exact Hn. }
  pose proof (Nat.pow_le_mono_r 2 1 (Nat.log2 n) ltac:(lia) Hlog) as Hpow.
  change (2 ^ 1)%nat with 2%nat in Hpow. lia.
Qed.

Section WithGraph.
Context `{!VMFlags, !PhaseValues, !Pointers} (g : gmap nat Node).

Lemma collect_defs_length (_store : nat) (vo : ValueOrder) (room current : nat) :
  (length (collect_defs g _store vo room current) ≤ room)%nat.
Proof.
  revert current. induction room as [|room IH]; intros current; simpl; [lia|].
  destruct (found_store _) as [d|]; simpl; [|lia].
  destruct (found_range_check _); simpl; [lia|].
  specialize (IH d). lia.
Qed.

(** The stores the merger accepts are one, two or four bytes wide. *)
Lemma narrow_store_memory_size (_store : nat) :
  has_opcode g Op_StoreB _store || has_opcode g Op_StoreC _store
  || has_opcode g Op_StoreI _store = true →
  (opcode_of g _store = Some Op_StoreB ∧ memory_size g _store = 1)
  ∨ (opcode_of g _store = Some Op_StoreC ∧ memory_size g _store = 2)
  ∨ (opcode_of g _store = Some Op_StoreI ∧ memory_size g _store = 4).
Proof.
  unfold has_opcode, node_is, memory_size, opcode_of.
  destruct (g !! _store) as [nd|]; simpl; [|discriminate].
  intros Hop. apply orb_true_iff in Hop as [Hop|Hop];
    [apply orb_true_iff in Hop as [Hop|Hop]|];
    apply bool_decide_eq_true_1 in Hop; rewrite Hop; simpl; tauto.
Qed.

Lemma compatible_store_memory_size (_store d : nat) :
  has_opcode g Op_StoreB _store || has_opcode g Op_StoreC _store
  || has_opcode g Op_StoreI _store = true →
  is_compatible_store g _store (Some d) = true →
  memory_size g d = memory_size g _store.
Proof.
  intros Hop Hc. apply bool_decide_eq_true_1 in Hc.
  destruct (narrow_store_memory_size _ Hop) as [[Ho Hm]|[[Ho Hm]|[Ho Hm]]];
    rewrite Hm; unfold memory_size; rewrite <- Hc, Ho; reflexivity.
Qed.

(** A pair of inputs that is adjacent for the yet unknown order is adjacent
    for the order the pair itself has. *)
Lemma is_adjacent_input_pair_order (n1 n2 : nat) (m : Z) :
  is_adjacent_input_pair g Unknown n1 n2 m = true →
  is_adjacent_input_pair g (find_adjacent_input_value_order g n1 n2 m) n1 n2 m = true.
Proof.
  unfold is_adjacent_input_pair.
  destruct (find_adjacent_input_value_order g n1 n2 m) eqn:E; try discriminate.
  - reflexivity.
  - reflexivity.
  - destruct (negb (m =? 1) || negb ReverseBytes_supported); [discriminate|].
    reflexivity.
Qed.

Lemma found_store_Status_make (found : option nat) (c : CFGStatus) (d : nat) :
  found_store (Status_make found c) = Some d → found = Some d.
Proof.
  unfold Status_make. destruct (decide (c = Failure)); [discriminate|]. auto.
Qed.

Lemma find_def_store_found (_store use_store d : nat) :
  found_store (find_def_store g _store use_store) = Some d →
  is_compatible_store g _store (Some d) = true.
Proof.
  unfold find_def_store.
  destruct (in_ g use_store MemNode_Memory) as [d'|]; [|discriminate].
  destruct (is_Store g d'); [|discriminate].
  destruct (is_compatible_store g _store (Some d')) eqn:Hc; [|discriminate].
  intros Hf. apply found_store_Status_make in Hf. congruence.
Qed.

Lemma find_adjacent_def_store_found (_store : nat) (vo : ValueOrder) (use_store d : nat) :
  found_store (find_adjacent_def_store g _store vo use_store) = Some d →
  found_store (find_def_store g _store use_store) = Some d
  ∧ is_adjacent_pair g vo use_store d = true.
Proof.
  unfold find_adjacent_def_store.
  destruct (found_store (find_def_store g _store use_store)) as [d'|] eqn:Hd.
  - destruct (is_adjacent_pair g vo use_store d') eqn:Ha; simpl.
    + rewrite Hd. intros [= ->]. auto.
    + discriminate.
  - rewrite Hd. discriminate.
Qed.

(** Once the merger has fixed its value order from [_store] and the def
    store it found, the search from [_store] finds that def store again. *)
Lemma find_adjacent_def_store_order (_store d dv sv : nat) :
  has_opcode g Op_StoreB _store || has_opcode g Op_StoreC _store
  || has_opcode g Op_StoreI _store = true →
  found_store (find_adjacent_def_store g _store Unknown _store) = Some d →
  in_ g d MemNode_ValueIn = Some dv →
  in_ g _store MemNode_ValueIn = Some sv →
  found_store
    (find_adjacent_def_store g _store
       (find_adjacent_input_value_order g dv sv (memory_size g _store)) _store)
  = Some d.
Proof.
  intros Hop Hf Hdv Hsv.
  apply find_adjacent_def_store_found in Hf as [Hd Ha].
  pose proof (compatible_store_memory_size _ _ Hop (find_def_store_found _ _ _ Hd)) as Hm.
  unfold find_adjacent_def_store. rewrite Hd.
  revert Ha. unfold is_adjacent_pair. rewrite Hdv, Hsv, Hm.
  destruct (is_adjacent_input_pair g Unknown dv sv (memory_size g _store)) eqn:Hp;
    simpl; [|discriminate].
  rewrite (is_adjacent_input_pair_order _ _ _ Hp). simpl.
  intros ->. simpl. exact Hd.
Qed.

End WithGraph.

(** C9: whenever [MergePrimitiveStores::run] builds a merged store, the
    stores it merges are the first stores of the collected group of adjacent
    stores, their number is the size of that group rounded down to a power
    of two (the largest one not above the size of the group), it is at
    least 2, at most [8 / memory_size] stores are collected, and the merged
    store is [memory_size] times that number, at most 8, bytes wide. *)
Theorem merged_store_sizing `{!VMFlags, !PhaseValues, !Pointers}
    (g : gmap nat Node) (_store : nat) (ms : merged_store) :
  run g _store = Some ms →
  ∃ _value_order : ValueOrder,
    let group := collected_group g _store _value_order in
    ms_merged ms = take (length (ms_merged ms)) group
    ∧ ms_merged ms = collect_merge_list g _store _value_order
    ∧ length (ms_merged ms) = round_down_power_of_2 (length group)
    ∧ (∃ k : nat, length (ms_merged ms) = 2 ^ k
                  ∧ 2 ^ k ≤ length group < 2 ^ (S k))%nat
    ∧ (2 ≤ length (ms_merged ms))%nat
    ∧ Z.of_nat (length group) ≤ 8 `quot` memory_size g _store
    ∧ ms_memory_size ms = memory_size g _store * Z.of_nat (length (ms_merged ms))
    ∧ ms_memory_size ms ≤ 8.
Proof.
  unfold run.
  destruct (has_opcode g Op_StoreB _store || has_opcode g Op_StoreC _store
            || has_opcode g Op_StoreI _store) eqn:Hop; simpl; [|discriminate].
  destruct (bool_decide _); [discriminate|].
  destruct (found_store (find_adjacent_def_store g _store Unknown _store))
    as [d|] eqn:Hf; [|discriminate].
  cbn [mbind option_bind].
  destruct (in_ g d MemNode_ValueIn) as [dv|] eqn:Hdv; [|discriminate].
  destruct (in_ g _store MemNode_ValueIn) as [sv|] eqn:Hsv; [|discriminate].
  set (vo := find_adjacent_input_value_order g dv sv (memory_size g _store)).
  destruct (make_merged_input_value g _store vo _) as [v|]; [|discriminate].
  intros [= <-]. exists vo. cbn [ms_merged ms_memory_size make_merged_store].
  pose proof (find_adjacent_def_store_order g _ _ _ _ Hop Hf Hdv Hsv) as Hagain.
  fold vo in Hagain.
  assert (2 ≤ length (collected_group g _store vo)
          ≤ Z.to_nat (8 `quot` memory_size g _store))%nat as [Hlo Hhi].
  { unfold collected_group. cbn [length].
    pose proof (collect_defs_length g _store vo
                  (Z.to_nat (8 `quot` memory_size g _store) - 1) _store) as Hlen.
    assert (2 ≤ Z.to_nat (8 `quot` memory_size g _store))%nat as Hmax.
    { destruct (narrow_store_memory_size g _ Hop) as [[_ ->]|[[_ ->]|[_ ->]]];
        vm_compute; lia. }
    split; [|lia].
    destruct (Z.to_nat (8 `quot` memory_size g _store) - 1)%nat as [|room] eqn:Hroom;
      [lia|].
    cbn [collect_defs]. rewrite Hagain. cbn [length]. lia. }
  destruct (round_down_power_of_2_spec _ Hlo) as [[Hp2 Hple] Hplt].
  assert (length (collect_merge_list g _store vo)
          = round_down_power_of_2 (length (collected_group g _store vo))) as Hlen.
  { unfold collect_merge_list. rewrite length_take. lia. }
  assert (memory_size g _store * Z.of_nat (length (collect_merge_list g _store vo)) ≤ 8)
    as Hwidth.
  { rewrite Hlen.
    destruct (narrow_store_memory_size g _ Hop) as [[_ Hm]|[[_ Hm]|[_ Hm]]];
      rewrite Hm in Hhi |- *;
      [change (Z.to_nat (8 `quot` 1)) with 8%nat in Hhi
      |change (Z.to_nat (8 `quot` 2)) with 4%nat in Hhi
      |change (Z.to_nat (8 `quot` 4)) with 2%nat in Hhi]; lia. }
  split; [rewrite Hlen; reflexivity|].
  split; [reflexivity|].
  split; [exact Hlen|].
  split.
  { exists (Nat.log2 (length (collected_group g _store vo))).
    rewrite Hlen. unfold round_down_power_of_2, collected_group in *.
    cbn [length] in *. lia. }
  split; [lia|].
  split; [|split; [reflexivity|exact Hwidth]].
  change (Z.of_nat (length (collected_group g _store vo))
          ≤ 8 `quot` memory_size g _store).
  revert Hhi. generalize (length (collected_group g _store vo)). intros n Hn.
  destruct (narrow_store_memory_size g _ Hop) as [[_ Hm]|[[_ Hm]|[_ Hm]]];
    rewrite Hm in Hn |- *;
    [change (Z.to_nat (8 `quot` 1)) with 8%nat in Hn; change (8 `quot` 1) with 8
    |change (Z.to_nat (8 `quot` 2)) with 4%nat in Hn; change (8 `quot` 2) with 4
    |change (Z.to_nat (8 `quot` 4)) with 2%nat in Hn; change (8 `quot` 4) with 2]; lia.
Qed.

Section OnStoreChain.
#[local] Existing Instance Examples.flags.
#[local] Existing Instance Examples.phase_stores.
#[local] Existing Instance Examples.pointers_stores.

(** On the chain of three byte stores the group is [52; 51; 50] and the
    merger writes the two bytes of [52; 51] as one constant. *)
Lemma merged_store_sizing_witness :
  run Examples.g_stores 52
  = Some {| ms_ctrl := Some 46%nat; ms_mem := Some 50%nat; ms_adr := Some 41%nat;
            ms_value := ConvL2I (longcon 770); ms_memory_size := 2;
            ms_merged := [52; 51]%nat |}
  ∧ collected_group Examples.g_stores 52 Const = [52; 51; 50]%nat
  ∧ ∃ _value_order : ValueOrder,
      let group := collected_group Examples.g_stores 52 _value_order in
      [52; 51]%nat = take 2 group
      ∧ [52; 51]%nat = collect_merge_list Examples.g_stores 52 _value_order
      ∧ 2%nat = round_down_power_of_2 (length group)
      ∧ (∃ k : nat, 2 = 2 ^ k ∧ 2 ^ k ≤ length group < 2 ^ (S k))%nat
      ∧ (2 ≤ 2)%nat
      ∧ Z.of_nat (length group) ≤ 8 `quot` memory_size Examples.g_stores 52
      ∧ 2 = memory_size Examples.g_stores 52 * 2
      ∧ 2 ≤ 8.
Proof.
  assert (run Examples.g_stores 52
          = Some {| ms_ctrl := Some 46%nat; ms_mem := Some 50%nat; ms_adr := Some 41%nat;
                    ms_value := ConvL2I (longcon 770); ms_memory_size := 2;
                    ms_merged := [52; 51]%nat |}) as Hrun by (vm_compute; reflexivity).
  split; [exact Hrun|]. split; [vm_compute; reflexivity|].
  exact (merged_store_sizing Examples.g_stores 52 _ Hrun).
Defined.

End OnStoreChain.

End MergeStoresFacts.

(** ** Value numbering of stores *)

Module StoreFacts.
Import Mem.

(** C10: [StoreNode::hash] is the no-hash sentinel and [StoreNode::cmp]
    accepts a node only when it is the store itself, so value numbering
    never finds another node for a store, whatever the table holds and even
    when a store with the same opcode and the same inputs is in it. *)
Theorem stores_are_never_commoned (g : gmap nat Node) (table : list nat)
    (this n : nat) :
  StoreNode_hash this = NO_HASH
  ∧ (StoreNode_cmp this n = true ↔ n = this)
  ∧ ValueNumbering.hash_find_insert g StoreNode_hash StoreNode_cmp table this = None
  ∧ ValueNumbering.hash_find_insert Examples.g_twins StoreNode_hash StoreNode_cmp
      [7%nat] 8%nat = None
  ∧ opcode_of Examples.g_twins 7 = opcode_of Examples.g_twins 8
  ∧ Edit.ins_of Examples.g_twins 7 = Edit.ins_of Examples.g_twins 8.
Proof.
  split; [reflexivity|]. split.
  { unfold StoreNode_cmp. rewrite bool_decide_eq_true. tauto. }
  split; [reflexivity|]. repeat split; vm_compute; reflexivity.
Qed.

End StoreFacts.

(** ** Views of a memory merge *)

Module MergeMemViewFacts.
Import Edit EditFacts MergeMem MergeMemFacts MergeMemIter.

Section WithPhase.
Context `{!VMFlags, !PhaseValues}.

(** Clearing, among the slots [l], those that hold [x]. *)
Lemma clear_slots_spec this (x : option nat) (l : list nat) :
  ∀ g : gmap nat Node,
    List.NoDup l →
    let g' := foldl (λ g' i, if bool_decide (in_ g' this i = x)
                             then set_req g' this i empty_memory else g') g l in
    (∀ m, m ≠ this → g' !! m = g !! m)
    ∧ req g' this = req g this
    ∧ (∀ j, in_ g' this j
            = if bool_decide (j ∈ l) && bool_decide (in_ g this j = x)
                 && bool_decide (j < req g this)%nat
              then empty_memory else in_ g this j).
Proof.
  induction l as [|i l IH]; intros g Hnd.
  - cbn. repeat split; auto.
  - inversion Hnd as [|? ? Hni Hnd']; subst. cbn [foldl].
    set (g1 := if bool_decide (in_ g this i = x)
               then set_req g this i empty_memory else g).
    assert ((∀ m, m ≠ this → g1 !! m = g !! m)
            ∧ req g1 this = req g this
            ∧ (∀ j, j ≠ i → in_ g1 this j = in_ g this j)
            ∧ in_ g1 this i
              = if bool_decide (in_ g this i = x) && bool_decide (i < req g this)%nat
                then empty_memory else in_ g this i) as (F1 & R1 & N1 & E1).
    { unfold g1. case_bool_decide as Hx.
      - split; [intros; apply set_req_lookup_ne; assumption|].
        split; [apply req_set_req|].
        split; [intros j Hj; apply in_set_req_other; auto|].
        cbn. case_bool_decide as Hlt.
        + apply in_set_req_eq. assumption.
        + assert (set_req g this i empty_memory = g) as ->; [|reflexivity].
          unfold set_req. rewrite list_insert_ge; [apply set_ins_id|].
          rewrite <- req_ins_of. lia.
      - repeat split; auto. }
    destruct (IH g1 Hnd') as (F & R & I).
    split; [intros m Hm; rewrite F, F1 by assumption; reflexivity|].
    split; [rewrite R, R1; reflexivity|].
    intros j. rewrite I, R1.
    destruct (decide (j = i)) as [->|Hji].
    + rewrite (bool_decide_eq_false_2 (i ∈ l))
        by (rewrite list_elem_of_In; assumption).
      cbn [andb].
      rewrite (bool_decide_eq_true_2 (i ∈ i :: l)) by (left; reflexivity).
      cbn [andb]. exact E1.
    + rewrite N1 by assumption.
      assert (bool_decide (j ∈ i :: l) = bool_decide (j ∈ l)) as ->; [|reflexivity].
      apply bool_decide_ext. rewrite elem_of_cons. intuition congruence.
Qed.

Lemma in_seq_slots (a n j : nat) : j ∈ seq a (n - a) ↔ (a ≤ j < n)%nat.
Proof. rewrite elem_of_seq. lia. Qed.

(** The downward scan of [grow_to_match] stops at the last slice of
    [other] that is not empty. *)
Lemma support_end_spec (g : gmap nat Node) other my_req (i : nat) :
  match support_end g other my_req i with
  | Some new_len =>
      (my_req < new_len ≤ i)%nat
      ∧ ∀ j, (new_len ≤ j < i)%nat → in_ g other j = empty_memory
  | None => ∀ j, (my_req ≤ j < i)%nat → in_ g other j = empty_memory
  end.
Proof.
  induction i as [|i IH]; cbn; [intros; lia|].
  case_bool_decide as Hlt; [intros; lia|].
  case_bool_decide as Hne.
  - split; [lia|]. intros; lia.
  - destruct (support_end g other my_req i) as [new_len|].
    + destruct IH as [Hb Hall]. split; [lia|].
      intros j Hj. destruct (decide (j = i)) as [->|]; [|apply Hall; lia].
      destruct (decide (in_ g other i = empty_memory)); [assumption|contradiction].
    + intros j Hj. destruct (decide (j = i)) as [->|]; [|apply IH; lia].
      destruct (decide (in_ g other i = empty_memory)); [assumption|contradiction].
Qed.

Lemma grow_to_match_views (g : gmap nat Node) this other :
  (AliasIdxBot < req g this)%nat →
  let g' := grow_to_match g this other in
  (∀ i, (req g' this ≤ i < req g other)%nat → in_ g other i = empty_memory)
  ∧ (∀ j, in_ g' this j
          = if bool_decide (req g this ≤ j < req g' this)%nat
            then empty_memory else in_ g this j)
  ∧ (∀ j, Mem.memory_at g' this j = Mem.memory_at g this j).
Proof.
  intros Hbot g'.
  assert (is_Some (g !! this)) as Hsome.
  { unfold req in Hbot. destruct (g !! this); [eauto|lia]. }
  assert ((∀ i, (req g' this ≤ i < req g other)%nat → in_ g other i = empty_memory)
          ∧ (∀ j, in_ g' this j
                  = if bool_decide (req g this ≤ j < req g' this)%nat
                    then empty_memory else in_ g this j)) as [Hcov Hin].
  { unfold g', grow_to_match.
    pose proof (support_end_spec g other (req g this) (req g other)) as Hs.
    destruct (support_end g other (req g this) (req g other)) as [new_len|].
    - destruct Hs as [Hb Hall].
      assert (req (grow_to g this new_len empty_memory) this = new_len) as Hr.
      { rewrite req_grow_to by assumption. lia. }
      rewrite Hr. split; [exact Hall|].
      intros j. case_bool_decide as Hj.
      + apply in_grow_to_new; [assumption|lia].
      + destruct (decide (j < req g this)%nat) as [Hlt|Hge].
        * apply in_grow_to_old; assumption.
        * unfold in_, grow_to, set_ins. destruct Hsome as [nd Hnd].
          rewrite Hnd, lookup_insert_eq. cbn.
          unfold ins_of, req in *. rewrite Hnd in *.
          rewrite !(proj2 (lookup_ge_None _ _)); [reflexivity|lia|].
          rewrite length_app, length_replicate. lia.
    - split; [exact Hs|]. intros j.
      rewrite bool_decide_eq_false_2 by lia. reflexivity. }
  split; [exact Hcov|]. split; [exact Hin|].
  intros j. unfold Mem.memory_at, Mem.base_memory.
  assert (req g this ≤ req g' this)%nat as Hle by apply grow_to_match_spec.
  rewrite !Hin. rewrite (bool_decide_eq_false_2 (req g this ≤ AliasIdxBot < _)%nat) by lia.
  destruct (bool_decide_reflect (j < req g this)%nat) as [Hlt|Hge].
  - rewrite (bool_decide_eq_true_2 (j < req g' this)%nat) by lia.
    rewrite (bool_decide_eq_false_2 (req g this ≤ j < _)%nat) by lia. reflexivity.
  - case_bool_decide as Hj'.
    + rewrite (bool_decide_eq_true_2 (req g this ≤ j < _)%nat) by lia. reflexivity.
    + reflexivity.
Qed.

End WithPhase.

(** What [memory_at] reads after [set_memory_at]: the state that was
    set, at the slice that was set, and what it read before at every other
    slice.  (The empty sentinel cannot be set as a state: it reads as the
    base.) *)
Theorem memory_at_set_memory_at `{!VMFlags, !PhaseValues}
    (g : gmap nat Node) (this idx : nat) (n : option nat) :
  (AliasIdxBot < req g this)%nat →
  (AliasIdxRaw ≤ idx)%nat →
  n ≠ empty_memory →
  let g' := set_memory_at g this idx n in
  Mem.memory_at g' this idx = n
  ∧ ∀ j, j ≠ idx → Mem.memory_at g' this j = Mem.memory_at g this j.
Proof.
  intros Hbot Hraw Hn g'.
  destruct (set_memory_at_spec g this idx n Hbot Hraw) as (B & R & I & J & K).
  fold g' in B, R, I, J, K.
  assert (req g this ≤ req g' this
          ∧ ((idx < req g' this)%nat →
             (n = Mem.base_memory g this ∧ in_ g' this idx = empty_memory)
             ∨ (n ≠ Mem.base_memory g this ∧ in_ g' this idx = n))
          ∧ (¬ (idx < req g' this)%nat → n = Mem.base_memory g this))%nat
    as (Hle & Hin & Hout).
  { revert R I. destruct (bool_decide_reflect (n = Mem.base_memory g this)) as [Hb|Hb].
    - rewrite (bool_decide_eq_true_2 (empty_memory = empty_memory)) by reflexivity.
      intros R I. split; [lia|]. split; [|auto]. intros Hlt. left. auto.
    - rewrite (bool_decide_eq_false_2 (n = empty_memory)) by assumption.
      intros R I. split; [lia|]. split; [|lia]. intros Hlt. right. auto. }
  clear R I. split.
  - unfold Mem.memory_at, Mem.is_empty_memory. fold empty_memory. rewrite B.
    destruct (bool_decide_reflect (idx < req g' this)%nat) as [Hlt|Hge].
    + destruct (Hin Hlt) as [[Hb ->]|[Hb ->]].
      * rewrite bool_decide_eq_true_2 by reflexivity. symmetry. exact Hb.
      * rewrite bool_decide_eq_false_2 by assumption. reflexivity.
    + rewrite bool_decide_eq_true_2 by reflexivity. symmetry. apply Hout. exact Hge.
  - intros j Hj. unfold Mem.memory_at. rewrite B.
    destruct (bool_decide_reflect (j < req g this)%nat) as [Hlt|Hge].
    + rewrite (bool_decide_eq_true_2 (j < req g' this)%nat) by lia.
      rewrite J by assumption. reflexivity.
    + destruct (bool_decide_reflect (j < req g' this)%nat) as [Hlt'|Hge'];
        [|reflexivity].
      rewrite K by lia. reflexivity.
Qed.

(** [MergeMemNode::Identity] returns the merge itself or its base memory;
    when the base is not the merge, it returns the base exactly when the
    memory path is dead (the base is the empty sentinel) or every slice
    reads as the base. *)
Theorem Identity_when_no_slice_differs `{!VMFlags, !PhaseValues}
    (g : gmap nat Node) (this : nat) :
  Mem.base_memory g this ≠ Some this →
  (Identity g this = Some this ∨ Identity g this = Mem.base_memory g this)
  ∧ (Identity g this = Mem.base_memory g this
     ↔ Mem.base_memory g this = empty_memory
       ∨ ∀ idx, (AliasIdxRaw ≤ idx)%nat →
                Mem.memory_at g this idx = Mem.base_memory g this).
Proof.
  intros Hself. unfold Identity.
  set (base := Mem.base_memory g this) in *.
  set (own := λ i, bool_decide (in_ g this i ≠ empty_memory)
                   && bool_decide (in_ g this i ≠ base)).
  assert (existsb own (slices g this) = false
          ↔ ∀ idx, (AliasIdxRaw ≤ idx)%nat → Mem.memory_at g this idx = base) as Hex.
  { rewrite existsb_negb_forallb, negb_false_iff, forallb_forall. split.
    - intros Hall idx Hidx. unfold Mem.memory_at, Mem.is_empty_memory.
      fold empty_memory. fold base.
      destruct (bool_decide_reflect (idx < req g this)%nat) as [Hlt|Hge];
        [|rewrite bool_decide_eq_true_2 by reflexivity; reflexivity].
      specialize (Hall idx (proj2 (slices_spec g this idx) (conj Hidx Hlt))).
      unfold own in Hall. apply negb_true_iff, andb_false_iff in Hall.
      destruct (bool_decide_reflect (in_ g this idx = empty_memory)) as [He|He];
        [reflexivity|].
      destruct Hall as [Hall|Hall]; apply bool_decide_eq_false in Hall.
      + exfalso. apply Hall. assumption.
      + destruct (decide (in_ g this idx = base)); [assumption|].
        exfalso. apply Hall. assumption.
    - intros Hall i Hi. apply slices_spec in Hi as [Hraw Hlt].
      specialize (Hall i Hraw). revert Hall.
      unfold Mem.memory_at, Mem.is_empty_memory. fold empty_memory. fold base.
      rewrite (bool_decide_eq_true_2 _ Hlt). unfold own.
      destruct (bool_decide_reflect (in_ g this i = empty_memory)) as [He|He].
      + intros _. rewrite (bool_decide_eq_false_2 (in_ g this i ≠ empty_memory)); auto.
      + intros ->. rewrite (bool_decide_eq_false_2 (base ≠ base)) by auto.
        rewrite andb_false_r. reflexivity. }
  destruct (bool_decide_reflect (base ≠ empty_memory)) as [Hb|Hb]; cbn [andb].
  - destruct (existsb own (slices g this)) eqn:Hown.
    + split; [left; reflexivity|]. split.
      * intros Heq. exfalso. apply Hself. symmetry. exact Heq.
      * intros [He|Hall]; [contradiction|].
        apply Hex in Hall. discriminate.
    + split; [right; reflexivity|]. split; [|reflexivity].
      intros _. right. apply Hex. reflexivity.
  - split; [right; reflexivity|]. split; [|reflexivity].
    intros _. left. destruct (decide (base = empty_memory)); [assumption|contradiction].
Qed.

(** [set_base_memory] with a base that is not the empty sentinel: the
    merge has the new base, is as long as before and sparse, every slice
    that had a state of its own other than the new base keeps it, and
    every other slice reads the new base. *)
Theorem set_base_memory_views `{!VMFlags, !PhaseValues}
    (g : gmap nat Node) (this : nat) (new_base : option nat) :
  (AliasIdxBot < req g this)%nat →
  new_base ≠ empty_memory →
  let g' := set_base_memory g this new_base in
  Mem.base_memory g' this = new_base
  ∧ req g' this = req g this
  ∧ verify_sparse g' this = true
  ∧ (∀ m, m ≠ this → g' !! m = g !! m)
  ∧ ∀ idx, (AliasIdxRaw ≤ idx)%nat →
      Mem.memory_at g' this idx
      = if bool_decide (idx < req g this)%nat
           && negb (bool_decide (in_ g this idx = empty_memory))
        then in_ g this idx else new_base.
Proof.
  intros Hbot Hnb g'. unfold g', set_base_memory.
  rewrite (bool_decide_eq_true_2 _ Hnb).
  set (g1 := set_req g this AliasIdxBot new_base).
  assert (req g1 this = req g this) as R1 by apply req_set_req.
  assert (slices g1 this = slices g this) as Hsl by (unfold slices; rewrite R1; reflexivity).
  destruct (clear_slots_spec this new_base (slices g1 this) g1 (slices_NoDup g1 this))
    as (F & R & I).
  set (g2 := foldl _ g1 _) in *.
  assert (Mem.base_memory g2 this = new_base) as Hbase.
  { unfold Mem.base_memory. rewrite I.
    rewrite (bool_decide_eq_false_2 (AliasIdxBot ∈ slices g1 this)).
    - cbn [andb]. apply in_set_req_eq. assumption.
    - rewrite list_elem_of_In, slices_spec. unfold AliasIdxBot, AliasIdxRaw. lia. }
  assert (∀ i, (AliasIdxRaw ≤ i < req g this)%nat →
               in_ g2 this i = if bool_decide (in_ g this i = new_base)
                               then empty_memory else in_ g this i) as Hslot.
  { intros i Hi. rewrite I.
    rewrite (bool_decide_eq_true_2 (i ∈ slices g1 this))
      by (rewrite list_elem_of_In, slices_spec; lia).
    rewrite (bool_decide_eq_true_2 (i < req g1 this)%nat) by lia.
    cbn [andb]. rewrite andb_true_r.
    unfold g1. rewrite in_set_req_other; [reflexivity|].
    unfold AliasIdxBot, AliasIdxRaw in *. lia. }
  split; [exact Hbase|]. split; [rewrite R, R1; reflexivity|].
  split.
  { apply verify_sparse_spec. right. rewrite Hbase, R, R1.
    intros i Hi. rewrite (Hslot i Hi).
    destruct (bool_decide_reflect (in_ g this i = new_base)) as [Hx|Hx];
      [congruence|assumption]. }
  split.
  { intros m Hm. rewrite F by assumption. apply set_req_lookup_ne. assumption. }
  intros idx Hraw. unfold Mem.memory_at, Mem.is_empty_memory. fold empty_memory.
  rewrite Hbase, R, R1.
  destruct (bool_decide_reflect (idx < req g this)%nat) as [Hlt|Hge]; cbn [andb].
  - rewrite (Hslot idx (conj Hraw Hlt)).
    destruct (bool_decide_reflect (in_ g this idx = new_base)) as [Hx|Hx].
    + rewrite bool_decide_eq_true_2 by reflexivity.
      rewrite Hx. rewrite (bool_decide_eq_false_2 _ Hnb). reflexivity.
    + destruct (bool_decide_reflect (in_ g this idx = empty_memory)); reflexivity.
  - rewrite bool_decide_eq_true_2 by reflexivity. reflexivity.
Qed.

(** [grow_to_match] makes the merge long enough for every slice of
    [other] that is not empty, appends empty slots only, and leaves what
    [memory_at] reads at every slice as it was. *)
Theorem grow_to_match_covers `{!VMFlags, !PhaseValues}
    (g : gmap nat Node) (this other : nat) :
  (AliasIdxBot < req g this)%nat →
  let g' := grow_to_match g this other in
  (∀ i, (req g' this ≤ i < req g other)%nat → in_ g other i = empty_memory)
  ∧ (req g this ≤ req g' this)%nat
  ∧ (∀ j, (j < req g this)%nat → in_ g' this j = in_ g this j)
  ∧ (∀ j, (req g this ≤ j < req g' this)%nat → in_ g' this j = empty_memory)
  ∧ (∀ j, Mem.memory_at g' this j = Mem.memory_at g this j)
  ∧ (verify_sparse g this = true → verify_sparse g' this = true).
Proof.
  intros Hbot g'.
  destruct (grow_to_match_views g this other Hbot) as (Hcov & Hin & Hview).
  fold g' in Hcov, Hin, Hview.
  assert (req g this ≤ req g' this)%nat as Hle by apply grow_to_match_spec.
  split; [exact Hcov|]. split; [exact Hle|].
  split; [intros j Hj; rewrite Hin, bool_decide_eq_false_2 by lia; reflexivity|].
  split; [intros j Hj; rewrite Hin, bool_decide_eq_true_2 by lia; reflexivity|].
  split; [exact Hview|].
  intros Hsp. apply verify_sparse_spec. apply verify_sparse_spec in Hsp.
  assert (Mem.base_memory g' this = Mem.base_memory g this) as Hb.
  { unfold Mem.base_memory. rewrite Hin, bool_decide_eq_false_2 by lia. reflexivity. }
  rewrite Hb. destruct Hsp as [He|Hall]; [left; exact He|].
  destruct (decide (Mem.base_memory g this = empty_memory)) as [He|He];
    [left; exact He|right].
  intros i Hi. rewrite Hin.
  destruct (bool_decide_reflect (req g this ≤ i < req g' this)%nat) as [Hnew|Hold].
  - congruence.
  - apply Hall. lia.
Qed.

(** [iteration_setup] leaves the merge sparse and long enough for every
    slice of [other] that is not empty (the invariant the source asserts),
    and [memory_at] reads at every slice what it read before. *)
Theorem iteration_setup_views `{!VMFlags, !PhaseValues}
    (g : gmap nat Node) (this : nat) (other : option nat) :
  (AliasIdxBot < req g this)%nat →
  is_Some (Mem.base_memory g this) →
  let g' := iteration_setup g this other in
  verify_sparse g' this = true
  ∧ (∀ o i, other = Some o → (req g' this ≤ i < req g o)%nat →
            in_ g o i = empty_memory)
  ∧ (∀ j, Mem.memory_at g' this j = Mem.memory_at g this j).
Proof.
  intros Hbot [b Hb] g'. unfold g', iteration_setup.
  set (g1 := match other with Some o => grow_to_match g this o | None => g end).
  assert ((∀ o i, other = Some o → (req g1 this ≤ i < req g o)%nat →
                  in_ g o i = empty_memory)
          ∧ (req g this ≤ req g1 this)%nat
          ∧ Mem.base_memory g1 this = Mem.base_memory g this
          ∧ (∀ j, Mem.memory_at g1 this j = Mem.memory_at g this j))
    as (Hcov & Hle & Hbase & Hview).
  { unfold g1. destruct other as [o|].
    - destruct (grow_to_match_views g this o Hbot) as (C & I & V).
      split; [intros o' i [= <-]; apply C|].
      split; [apply grow_to_match_spec|].
      split; [|exact V].
      unfold Mem.base_memory. rewrite I, bool_decide_eq_false_2 by lia. reflexivity.
    - split; [discriminate|]. auto. }
  rewrite Hbase, Hb. rewrite (bool_decide_eq_true_2 (Some b ≠ None)) by discriminate.
  cbn [andb].
  destruct (bool_decide_reflect (Some b = Some C_top)) as [Htop|Htop]; cbn [negb].
  { split.
    - apply verify_sparse_spec. left. rewrite Hbase, Hb. exact Htop.
    - split; assumption. }
  set (l := seq (AliasIdxBot + 1) (req g1 this - (AliasIdxBot + 1))).
  destruct (clear_slots_spec this (Some b) l g1 (proj1 (NoDup_ListNoDup _) (NoDup_seq _ _)))
    as (F & R & I).
  set (g2 := foldl _ g1 l) in *.
  assert (Mem.base_memory g2 this = Some b) as Hb2.
  { unfold Mem.base_memory. rewrite I.
    rewrite (bool_decide_eq_false_2 (AliasIdxBot ∈ l)).
    - cbn [andb]. rewrite <- Hb, <- Hbase. reflexivity.
    - unfold l. rewrite in_seq_slots. lia. }
  assert (∀ i, (AliasIdxRaw ≤ i < req g1 this)%nat →
               in_ g2 this i = if bool_decide (in_ g1 this i = Some b)
                               then empty_memory else in_ g1 this i) as Hslot.
  { intros i Hi. rewrite I.
    rewrite (bool_decide_eq_true_2 (i ∈ l))
      by (unfold l; rewrite in_seq_slots; unfold AliasIdxBot, AliasIdxRaw in *; lia).
    rewrite (bool_decide_eq_true_2 (i < req g1 this)%nat) by lia.
    cbn [andb]. rewrite andb_true_r. reflexivity. }
  split.
  { apply verify_sparse_spec. right. rewrite Hb2, R. intros i Hi.
    rewrite (Hslot i Hi).
    destruct (bool_decide_reflect (in_ g1 this i = Some b)) as [Hx|Hx]; [|assumption].
    intros Heq. apply Htop. symmetry. exact Heq. }
  split; [rewrite R; exact Hcov|].
  intros j. rewrite <- Hview. unfold Mem.memory_at, Mem.is_empty_memory.
  fold empty_memory. rewrite Hb2, R, Hbase, Hb.
  destruct (bool_decide_reflect (j < req g1 this)%nat) as [Hlt|Hge]; [|reflexivity].
  destruct (decide (AliasIdxRaw ≤ j)%nat) as [Hraw|Hlow].
  - rewrite (Hslot j (conj Hraw Hlt)).
    destruct (bool_decide_reflect (in_ g1 this j = Some b)) as [Hx|Hx].
    + rewrite bool_decide_eq_true_2 by reflexivity.
      rewrite Hx. rewrite (bool_decide_eq_false_2 (Some b = empty_memory)) by assumption.
      reflexivity.
    + reflexivity.
  - rewrite I. rewrite (bool_decide_eq_false_2 (j ∈ l)); [reflexivity|].
    unfold l. rewrite in_seq_slots. unfold AliasIdxBot, AliasIdxRaw in *. lia.
Qed.

Section OnMergeGraph.
#[local] Existing Instance Examples.flags.
#[local] Existing Instance Examples.phase_merge.

(** On the merge 20 of [g_merge]: setting the slice 5 to the state 15
    grows the merge, and the slice 3 still reads 14. *)
Lemma memory_at_set_memory_at_witness :
  let g' := set_memory_at Examples.g_merge 20 5 (Some 15%nat) in
  (Mem.memory_at g' 20 5 = Some 15%nat
   ∧ ∀ j, j ≠ 5%nat → Mem.memory_at g' 20 j = Mem.memory_at Examples.g_merge 20 j)
  ∧ req g' 20 = 6%nat
  ∧ Mem.memory_at g' 20 3 = Some 14%nat.
Proof.
  split; [|split; vm_compute; reflexivity].
  apply (memory_at_set_memory_at Examples.g_merge 20 5 (Some 15%nat)).
  - vm_compute. lia.
  - vm_compute. lia.
  - discriminate.
Defined.

(** The merge 20 has the slice 3 of its own, so it is not its base. *)
Lemma Identity_when_no_slice_differs_witness :
  (Identity Examples.g_merge 20 = Some 20%nat
   ∨ Identity Examples.g_merge 20 = Mem.base_memory Examples.g_merge 20)
  ∧ (Identity Examples.g_merge 20 = Mem.base_memory Examples.g_merge 20
     ↔ Mem.base_memory Examples.g_merge 20 = empty_memory
       ∨ ∀ idx, (AliasIdxRaw ≤ idx)%nat →
                Mem.memory_at Examples.g_merge 20 idx
                = Mem.base_memory Examples.g_merge 20).
Proof.
  apply (Identity_when_no_slice_differs Examples.g_merge 20).
  vm_compute. discriminate.
Defined.

(** Giving the merge 20 the base 14 clears its slice 3. *)
Lemma set_base_memory_views_witness :
  let g' := set_base_memory Examples.g_merge 20 (Some 14%nat) in
  (Mem.base_memory g' 20 = Some 14%nat
   ∧ req g' 20 = req Examples.g_merge 20
   ∧ verify_sparse g' 20 = true
   ∧ (∀ m, m ≠ 20%nat → g' !! m = Examples.g_merge !! m)
   ∧ ∀ idx, (AliasIdxRaw ≤ idx)%nat →
       Mem.memory_at g' 20 idx
       = if bool_decide (idx < req Examples.g_merge 20)%nat
            && negb (bool_decide (in_ Examples.g_merge 20 idx = empty_memory))
         then in_ Examples.g_merge 20 idx else Some 14%nat)
  ∧ in_ g' 20 3 = empty_memory
  ∧ in_ g' 20 4 = Some 13%nat.
Proof.
  split; [|split; vm_compute; reflexivity].
  apply (set_base_memory_views Examples.g_merge 20 (Some 14%nat)).
  - vm_compute. lia.
  - discriminate.
Defined.

(** The merge 10 has three edges, the merge 20 five. *)
Lemma grow_to_match_covers_witness :
  let g' := grow_to_match Examples.g_merge 10 20 in
  ((∀ i, (req g' 10 ≤ i < req Examples.g_merge 20)%nat →
         in_ Examples.g_merge 20 i = empty_memory)
   ∧ (req Examples.g_merge 10 ≤ req g' 10)%nat
   ∧ (∀ j, (j < req Examples.g_merge 10)%nat → in_ g' 10 j = in_ Examples.g_merge 10 j)
   ∧ (∀ j, (req Examples.g_merge 10 ≤ j < req g' 10)%nat → in_ g' 10 j = empty_memory)
   ∧ (∀ j, Mem.memory_at g' 10 j = Mem.memory_at Examples.g_merge 10 j)
   ∧ (verify_sparse Examples.g_merge 10 = true → verify_sparse g' 10 = true))
  ∧ req Examples.g_merge 10 = 4%nat
  ∧ req g' 10 = 5%nat.
Proof.
  split; [|split; vm_compute; reflexivity].
  apply (grow_to_match_covers Examples.g_merge 10 20). vm_compute. lia.
Defined.

(** Setting up the merge 20 for an iteration with the merge 11 clears the
    slice 4, which repeats the base. *)
Lemma iteration_setup_views_witness :
  let g' := iteration_setup Examples.g_merge 20 (Some 11%nat) in
  (verify_sparse g' 20 = true
   ∧ (∀ o i, Some 11%nat = Some o → (req g' 20 ≤ i < req Examples.g_merge o)%nat →
             in_ Examples.g_merge o i = empty_memory)
   ∧ (∀ j, Mem.memory_at g' 20 j = Mem.memory_at Examples.g_merge 20 j))
  ∧ verify_sparse Examples.g_merge 20 = false
  ∧ in_ g' 20 4 = empty_memory.
Proof.
  split; [|split; vm_compute; reflexivity].
  apply (iteration_setup_views Examples.g_merge 20 (Some 11%nat)).
  - vm_compute. lia.
  - vm_compute. eexists. reflexivity.
Defined.

End OnMergeGraph.

End MergeMemViewFacts.

(** ** Looking up captured stores *)

Module CapturedStoreFacts.
Import Edit EditFacts Mem Initialize InitializeFacts.

Section WithPhase.
Context `{!VMFlags, !PhaseValues}.

Section Scans.
Context (g : gmap nat Node).

#[local] Abbreviation off := (get_store_offset g).
#[local] Abbreviation msz := (from_option (memory_size g) 0).

(** Where the scan of [captured_store_insertion_point] stops when it does
    not fail: it runs through the edges before a position [p] whatever
    follows them; at [p] it finds the end of the edges or a store that
    begins behind the range, or a store at [start] of the given size. *)
Lemma insertion_point_scan_position zmem start size :
  ∀ sts (i0 : nat) r,
    insertion_point_scan g zmem start size i0 sts = r →
    r ≠ 0 → (0 < i0)%nat →
    ∃ p : nat,
      (p ≤ length sts)%nat
      ∧ (∀ (q : nat) rest, (q ≤ p)%nat →
           insertion_point_scan g zmem start size i0 (take q sts ++ rest)
           = insertion_point_scan g zmem start size (i0 + q) rest)
      ∧ ((r = - Z.of_nat (i0 + p)
          ∧ ∀ st, sts !! p = Some st → 0 ≤ off st ∧ start < off st
                                        ∧ start + size ≤ off st)
         ∨ (r = Z.of_nat (i0 + p)
            ∧ ∃ st, sts !! p = Some st ∧ 0 ≤ off st ∧ off st = start
                    ∧ (size ≠ 0 → msz st = size))).
Proof.
  induction sts as [|st sts IH]; intros i0 r Hscan Hr Hi0.
  - cbn in Hscan. exists 0%nat. split; [cbn; lia|].
    split; [intros q rest Hq; replace q with 0%nat by lia; cbn;
            rewrite Nat.add_0_r; reflexivity|].
    left. rewrite Nat.add_0_r. split; [congruence|]. intros st [=].
  - cbn [insertion_point_scan] in Hscan.
    assert (insertion_point_scan g zmem start size i0 (st :: sts)
            = insertion_point_scan g zmem start size (S i0) sts →
            (∀ rest, insertion_point_scan g zmem start size i0 (st :: rest)
                     = insertion_point_scan g zmem start size (S i0) rest) →
            ∃ p : nat,
              (p ≤ length (st :: sts))%nat
              ∧ (∀ (q : nat) rest, (q ≤ p)%nat →
                   insertion_point_scan g zmem start size i0
                     (take q (st :: sts) ++ rest)
                   = insertion_point_scan g zmem start size (i0 + q) rest)
              ∧ ((r = - Z.of_nat (i0 + p)
                  ∧ ∀ st', (st :: sts) !! p = Some st' →
                           0 ≤ off st' ∧ start < off st' ∧ start + size ≤ off st')
                 ∨ (r = Z.of_nat (i0 + p)
                    ∧ ∃ st', (st :: sts) !! p = Some st' ∧ 0 ≤ off st' ∧ off st' = start
                             ∧ (size ≠ 0 → msz st' = size)))) as Hrec.
    { intros Hstep Hpass. cbn [insertion_point_scan] in Hstep.
      rewrite Hstep in Hscan.
      destruct (IH (S i0) r Hscan Hr ltac:(lia)) as (p & Hp & Hpre & Hres).
      exists (S p). split; [cbn; lia|]. split.
      - intros [|q] rest Hq; [cbn; rewrite Nat.add_0_r; reflexivity|].
        cbn [take app]. rewrite Hpass, Hpre by lia.
        replace (i0 + S q)%nat with (S i0 + q)%nat by lia. reflexivity.
      - replace (i0 + S p)%nat with (S i0 + p)%nat by lia. exact Hres. }
    destruct (Z.ltb_spec (off st) 0) as [Hneg|Hlive].
    { destruct (negb (bool_decide (st = zmem))) eqn:Hz; [congruence|].
      apply Hrec.
      - cbn [insertion_point_scan].
        destruct (Z.ltb_spec (off st) 0); [|lia]. rewrite Hz. reflexivity.
      - intros rest. cbn [insertion_point_scan].
        destruct (Z.ltb_spec (off st) 0); [|lia]. rewrite Hz. reflexivity. }
    destruct (Z.ltb_spec start (off st)) as [Hafter|Hnafter].
    { destruct (Z.ltb_spec (off st) (start + size)) as [|Hfar]; [congruence|].
      exists 0%nat. split; [cbn; lia|].
      split; [intros q rest Hq; replace q with 0%nat by lia; cbn;
            rewrite Nat.add_0_r; reflexivity|].
      left. rewrite Nat.add_0_r. split; [congruence|].
      intros st' [= <-]. repeat split; assumption. }
    destruct (Z.ltb_spec (off st) start) as [Hbefore|Hnbefore].
    { destruct (negb (size =? 0) && (start <? off st + Z.max BytesPerLong MaxVectorSize)
                && (start <? off st + msz st)) eqn:Hov; [congruence|].
      apply Hrec.
      - cbn [insertion_point_scan].
        destruct (Z.ltb_spec (off st) 0); [lia|].
        destruct (Z.ltb_spec start (off st)); [lia|].
        destruct (Z.ltb_spec (off st) start); [|lia].
        rewrite Hov. reflexivity.
      - intros rest. cbn [insertion_point_scan].
        destruct (Z.ltb_spec (off st) 0); [lia|].
        destruct (Z.ltb_spec start (off st)); [lia|].
        destruct (Z.ltb_spec (off st) start); [|lia].
        rewrite Hov. reflexivity. }
    destruct (negb (size =? 0) && negb (msz st =? size)) eqn:Hmis; [congruence|].
    exists 0%nat. split; [cbn; lia|].
    split; [intros q rest Hq; replace q with 0%nat by lia; cbn;
            rewrite Nat.add_0_r; reflexivity|].
    right. rewrite Nat.add_0_r. split; [congruence|].
    exists st. split; [reflexivity|]. split; [lia|]. split; [lia|].
    intros Hsz. apply andb_false_iff in Hmis as [Hmis|Hmis].
    + apply negb_false_iff, Z.eqb_eq in Hmis. contradiction.
    + apply negb_false_iff, Z.eqb_eq in Hmis. exact Hmis.
Qed.

(** Behind the range there is nothing to find. *)
Lemma insertion_point_scan_behind zmem start size :
  ∀ sts (i0 : nat),
    Forall (λ st, 0 ≤ off st → start < off st) sts →
    insertion_point_scan g zmem start size i0 sts ≤ 0.
Proof.
  induction sts as [|st sts IH]; intros i0 Hall; cbn [insertion_point_scan]; [lia|].
  apply Forall_cons in Hall as [Hst Hall].
  destruct (Z.ltb_spec (off st) 0) as [Hneg|Hlive].
  - destruct (negb (bool_decide (st = zmem))); [lia|auto].
  - specialize (Hst Hlive).
    destruct (Z.ltb_spec start (off st)); [|lia].
    destruct (off st <? start + size); lia.
Qed.

End Scans.

Lemma insertion_point_scan_set_ins (g : gmap nat Node) n l zmem start size :
  is_Store g n = false →
  ∀ sts i0,
    insertion_point_scan (set_ins g n l) zmem start size i0 sts
    = insertion_point_scan g zmem start size i0 sts.
Proof.
  intros Hn. induction sts as [|st sts IH]; intros i0; [reflexivity|].
  cbn [insertion_point_scan]. rewrite get_store_offset_set_ins by assumption.
  destruct st as [s|]; cbn [from_option]; rewrite ?memory_size_set_ins, !IH; reflexivity.
Qed.

Lemma Initialize_not_Store (g : gmap nat Node) init :
  is_Initialize g init = true → is_Store g init = false ∧ is_MergeMem g init = false.
Proof.
  unfold is_Initialize, is_Store, is_MergeMem, node_is.
  destruct (g !! init) as [nd|]; [|discriminate].
  intros Hi. apply bool_decide_eq_true in Hi. rewrite Hi. split; reflexivity.
Qed.

(** Edits behind the fixed edges of a barrier leave its zero memory. *)
Lemma zero_memory_set_ins (g : gmap nat Node) init l :
  is_Initialize g init = true →
  take RawStores l = take RawStores (ins_of g init) →
  zero_memory (set_ins g init l) init = zero_memory g init.
Proof.
  intros Hinit Htake.
  destruct (Initialize_not_Store g init Hinit) as [_ Hmm].
  assert (is_Some (g !! init)) as Hsome.
  { unfold is_Initialize, node_is in Hinit.
    destruct (g !! init); [eauto|discriminate]. }
  unfold zero_memory, InitializeNode_memory.
  assert (in_ (set_ins g init l) init TypeFunc_Memory = in_ g init TypeFunc_Memory) as ->.
  { rewrite !in_ins_of, ins_of_set_ins_eq by assumption.
    rewrite <- (lookup_take_lt l RawStores TypeFunc_Memory)
      by (unfold RawStores, TypeFunc_Memory; lia).
    rewrite <- (lookup_take_lt (ins_of g init) RawStores TypeFunc_Memory)
      by (unfold RawStores, TypeFunc_Memory; lia).
    rewrite Htake. reflexivity. }
  destruct (in_ g init TypeFunc_Memory) as [m|]; [|reflexivity].
  unfold is_MergeMem in *. rewrite node_is_set_ins.
  destruct (node_is g _ m) eqn:Hm; [|reflexivity].
  assert (m ≠ init) as Hne by (intros ->; congruence).
  unfold memory_at, base_memory, req, in_.
  rewrite set_ins_lookup_ne by assumption. reflexivity.
Qed.

End WithPhase.

(** What [find_captured_store] returns: nothing, the zero memory of the
    barrier, or a captured store that begins at [start] and, unless the
    size asked for is 0, has that size (the store the source asserts it
    to be); it returns nothing on a barrier that is complete and for a
    [start] outside the tracked range. *)
Theorem find_captured_store_result `{!VMFlags, !PhaseValues}
    (g : gmap nat Node) (init alloc : nat) (start size : Z) :
  allocation init = Some alloc →
  let r := find_captured_store g init start size in
  (r = None
   ∨ r = zero_memory g init
   ∨ ∃ (i st : nat),
       (RawStores ≤ i < req g init)%nat
       ∧ in_ g init i = Some st ∧ r = Some st
       ∧ is_Store g st = true
       ∧ get_store_offset g (Some st) = start
       ∧ (size ≠ 0 → memory_size g st = size))
  ∧ (is_complete g init = true
     ∨ start < minimum_header_size alloc
     ∨ TrackedInitializationLimit * HeapWordSize ≤ start → r = None).
Proof.
  intros Halloc r. unfold r, find_captured_store, captured_store_insertion_point.
  rewrite Halloc.
  destruct (is_complete g init); [cbn; auto|].
  destruct (Z.ltb_spec start (minimum_header_size alloc)) as [|Hhdr]; [cbn; auto|].
  destruct (Z.leb_spec (TrackedInitializationLimit * HeapWordSize) start) as [|Hlim];
    [cbn; auto|].
  split; [|intros [|[|]]; [discriminate|lia|lia]].
  set (i := insertion_point_scan g (zero_memory g init) start size RawStores
              (raw_stores g init)).
  destruct (Z.eqb_spec i 0) as [|Hi]; [left; reflexivity|].
  destruct (insertion_point_scan_position g (zero_memory g init) start size
              (raw_stores g init) RawStores i eq_refl Hi ltac:(unfold RawStores; lia))
    as (p & Hp & _ & Hres).
  destruct Hres as [[Hr _]|[Hr (st & Hst & Hlive & Hoff & Hsz)]].
  - destruct (Z.ltb_spec i 0); [|unfold RawStores in *; lia].
    right. left. reflexivity.
  - destruct (Z.ltb_spec i 0); [lia|].
    right. right. rewrite Hr, Nat2Z.id.
    rewrite raw_stores_ins_of, lookup_drop in Hst.
    assert (in_ g init (RawStores + p) = st) as Hin.
    { rewrite in_ins_of, Hst. reflexivity. }
    destruct st as [s|].
    + exists (RawStores + p)%nat, s.
      assert (is_Store g s = true) as Hstore.
      { revert Hlive. cbn. destruct (is_Store g s); [reflexivity|]. cbn. lia. }
      split.
      { apply lookup_lt_Some in Hst. rewrite req_ins_of. lia. }
      repeat split; assumption.
    + exfalso. cbn in Hlive. lia.
Qed.

(** After [capture_store] has captured a store, [find_captured_store]
    for the same range finds the captured store or nothing (what the
    source asserts of [check_st]); it finds the captured store when that
    is a store to [start]. *)
Theorem captured_store_is_findable `{!VMFlags, !PhaseValues}
    (g : gmap nat Node) (init alloc st new_st : nat) (start : Z) :
  is_Initialize g init = true →
  (RawStores ≤ req g init)%nat →
  allocation init = Some alloc →
  get_store_offset g (zero_memory g init) < 0 →
  0 < memory_size g st →
  (get_store_offset g (Some new_st) = start
   ∧ memory_size g new_st = memory_size g st)
  ∨ get_store_offset g (Some new_st) < 0 →
  stores_are_sane g init = true →
  stores_within_MAX_STORE g init →
  let r := capture_store g init st start new_st in
  r.2 = Some new_st →
  let check_st := find_captured_store r.1 init start (memory_size g st) in
  (check_st = Some new_st ∨ check_st = None)
  ∧ (get_store_offset g (Some new_st) = start → check_st = Some new_st).
Proof.
  intros Hinit Hreq Halloc Hzmem Hsize Hnew Hsane Hw r.
  destruct (Initialize_not_Store g init Hinit) as [Hnst Hnmm].
  assert (is_Some (g !! init)) as Hsome.
  { unfold is_Initialize, node_is in Hinit.
    destruct (g !! init); [eauto|discriminate]. }
  unfold r, capture_store.
  destruct (Z.ltb_spec start 0) as [|Hstart]; [cbn; discriminate|].
  set (size := memory_size g st) in *.
  destruct (Z.eqb_spec (captured_store_insertion_point g init start size) 0) as [|Hi];
    [cbn; discriminate|].
  unfold captured_store_insertion_point in Hi |- *.
  destruct (is_complete g init) eqn:Hc; [contradiction|].
  rewrite Halloc in *.
  destruct (Z.ltb_spec start (minimum_header_size alloc)) as [|Hhdr]; [contradiction|].
  destruct (Z.leb_spec (TrackedInitializationLimit * HeapWordSize) start) as [|Hlim];
    [contradiction|].
  unfold stores_are_sane in Hsane. rewrite Hc, Halloc in Hsane.
  set (sts := raw_stores g init) in *.
  set (zmem := zero_memory g init) in *.
  destruct (insertion_point_scan_position g zmem start size sts RawStores _
              eq_refl Hi ltac:(unfold RawStores; lia))
    as (p & Hp & Hpre & Hres).
  assert (length sts = (req g init - RawStores)%nat) as Hlen.
  { unfold sts. rewrite raw_stores_ins_of, length_drop, req_ins_of. reflexivity. }
  assert (Forall (λ s, 0 ≤ get_store_offset g s → 0 ≤ from_option (memory_size g) 0 s) sts)
    as Hw0.
  { eapply Forall_impl; [exact Hw|]. cbn. intros x Hx Hl. apply Hx in Hl. lia. }
  (* the list of captured stores afterwards, and what the lookup does on it *)
  assert (∀ (a b : nat),
            (a ≤ p)%nat → (RawStores + a ≤ req g init)%nat →
            (∀ rest, insertion_point_scan g zmem start size RawStores (take a sts ++ rest)
                     = insertion_point_scan g zmem start size (RawStores + a) rest) →
            Forall (λ s, 0 ≤ get_store_offset g s → start < get_store_offset g s)
                   (drop b sts) →
            let g' := set_ins g init
                        (take (RawStores + a) (ins_of g init)
                         ++ Some new_st :: drop (RawStores + b) (ins_of g init)) in
            let check_st := find_captured_store g' init start size in
            (check_st = Some new_st ∨ check_st = None)
            ∧ (get_store_offset g (Some new_st) = start → check_st = Some new_st))
    as Hfind.
  { intros a b Hap Ha Hpass Hbehind g' check_st.
    assert (zero_memory g' init = zmem) as Hz.
    { apply zero_memory_set_ins; [assumption|].
      rewrite take_app_le by (rewrite length_take; rewrite <- req_ins_of; lia).
      rewrite take_take. f_equal; lia. }
    assert (raw_stores g' init = take a sts ++ Some new_st :: drop b sts) as Hraw.
    { unfold g'. rewrite raw_stores_set_ins by assumption.
      unfold sts. rewrite raw_stores_ins_of. apply splice_raw_stores.
      rewrite <- req_ins_of. assumption. }
    assert (in_ g' init (RawStores + a) = Some new_st) as Hin.
    { unfold g'. rewrite in_ins_of, ins_of_set_ins_eq by assumption.
      rewrite lookup_app_r by (rewrite length_take; lia).
      rewrite length_take_le by (rewrite <- req_ins_of; lia).
      rewrite Nat.sub_diag. reflexivity. }
    assert (captured_store_insertion_point g' init start size
            = insertion_point_scan g zmem start size (RawStores + a)
                (Some new_st :: drop b sts)) as Hcpi.
    { unfold captured_store_insertion_point. rewrite Hz, Hraw.
      unfold g'. rewrite is_complete_set_ins, Hc, Halloc.
      destruct (Z.ltb_spec start (minimum_header_size alloc)); [lia|].
      destruct (Z.leb_spec (TrackedInitializationLimit * HeapWordSize) start); [lia|].
      rewrite insertion_point_scan_set_ins by assumption. apply Hpass. }
    unfold check_st, find_captured_store. rewrite Hcpi.
    cbn [insertion_point_scan].
    destruct Hnew as [[Ho Hm]|Hdead].
    - cbn [from_option]. rewrite Ho, Hm.
      destruct (Z.ltb_spec start 0); [lia|].
      rewrite Z.ltb_irrefl. rewrite Z.eqb_refl. cbn [negb andb].
      rewrite andb_false_r.
      destruct (Z.eqb_spec (Z.of_nat (RawStores + a)) 0);
        [unfold RawStores in *; lia|].
      destruct (Z.ltb_spec (Z.of_nat (RawStores + a)) 0); [lia|].
      rewrite Nat2Z.id, Hin. auto.
    - destruct (Z.ltb_spec (get_store_offset g (Some new_st)) 0); [|lia].
      split; [|lia].
      destruct (bool_decide_reflect (Some new_st = zmem)) as [Heq|Hne]; cbn [negb];
        [|right; reflexivity].
      pose proof (insertion_point_scan_behind g zmem start size (drop b sts)
                    (S (RawStores + a)) Hbehind) as Hle.
      destruct (Z.eqb_spec
                  (insertion_point_scan g zmem start size (S (RawStores + a))
                     (drop b sts)) 0); [right; reflexivity|].
      destruct (Z.ltb_spec
                  (insertion_point_scan g zmem start size (S (RawStores + a))
                     (drop b sts)) 0); [|lia].
      left. rewrite Hz. symmetry. exact Heq. }
  (* the live stores from the position of the scan on begin behind [start] *)
  assert (∀ x, sts !! p = Some x → 0 ≤ get_store_offset g x →
               start < get_store_offset g x →
               Forall (λ s, 0 ≤ get_store_offset g s → start < get_store_offset g s)
                      (drop p sts)) as Hbehind_at.
  { intros x Hx Hlive Hfar.
    rewrite <- (take_drop p sts) in Hsane.
    rewrite sane_scan_app in Hsane. apply andb_prop in Hsane as [_ Hs2].
    rewrite (drop_S _ _ _ Hx) in Hs2 |- *.
    apply (sane_scan_head g _ (get_store_offset g x)) in Hs2; [|assumption|lia].
    apply sane_scan_lower in Hs2.
    - eapply Forall_impl; [exact Hs2|]. cbn. intros s Hs Hl. specialize (Hs Hl). lia.
    - rewrite <- (drop_S _ _ _ Hx). apply Forall_drop. exact Hw0. }
  destruct Hres as [[Hr Hat]|[Hr (st_p & Hstp & _ & Hoff & Hmsz)]]; rewrite Hr.
  - (* no store at [start] yet *)
    destruct (Z.ltb_spec 0 (- Z.of_nat (RawStores + p))) as [|_]; [lia|].
    replace (Z.to_nat (- - Z.of_nat (RawStores + p))) with (RawStores + p)%nat by lia.
    assert (Forall (λ s, 0 ≤ get_store_offset g s → start < get_store_offset g s)
                   (drop p sts)) as Hbehind.
    { destruct (sts !! p) as [x|] eqn:Hx.
      - destruct (Hat x eq_refl) as (Hl & Hf & _). eapply Hbehind_at; eauto.
      - apply lookup_ge_None in Hx. rewrite drop_ge by assumption. constructor. }
    destruct (bool_decide (RawStores < RawStores + p)%nat
              && bool_decide (in_ g init (RawStores + p - 1) = zmem)) eqn:Hreuse.
    + apply andb_prop in Hreuse as [Hpos Hzp].
      apply bool_decide_eq_true in Hpos, Hzp.
      destruct p as [|p]; [lia|].
      replace (RawStores + S p - 1)%nat with (RawStores + p)%nat in * by lia.
      assert (sts !! p = Some zmem) as Hzp'.
      { unfold sts. rewrite raw_stores_ins_of, lookup_drop.
        rewrite in_ins_of in Hzp.
        destruct (ins_of g init !! (RawStores + p)%nat) as [x|] eqn:Hx.
        - cbn in Hzp. congruence.
        - apply lookup_ge_None in Hx. rewrite <- req_ins_of in Hx. lia. }
      rewrite set_req_twice by (try assumption; lia). cbn [fst snd]. intros _.
      replace (S (RawStores + p)) with (RawStores + S p)%nat by lia.
      apply (Hfind p (S p)); [lia|lia| |exact Hbehind].
      intros rest. apply Hpre. lia.
    + rewrite set_req_ins_req by (try assumption; lia). cbn [fst snd]. intros _.
      apply (Hfind p p); [lia|lia| |exact Hbehind].
      intros rest. apply Hpre. lia.
  - (* a store at [start] is there already *)
    destruct (Z.ltb_spec 0 (Z.of_nat (RawStores + p))) as [_|]; [|unfold RawStores in *; lia].
    rewrite Nat2Z.id.
    assert (p < length sts)%nat as Hplt by (eapply lookup_lt_Some; eassumption).
    rewrite set_req_twice by (try assumption; lia). cbn [fst snd]. intros _.
    replace (S (RawStores + p)) with (RawStores + S p)%nat by lia.
    apply (Hfind p (S p)); [lia|lia|intros rest; apply Hpre; lia|].
    rewrite <- (take_drop_middle _ _ _ Hstp) in Hsane.
    rewrite sane_scan_app in Hsane. apply andb_prop in Hsane as [_ Hs2].
    cbn in Hs2.
    destruct (Z.ltb_spec (get_store_offset g st_p) 0); [lia|].
    destruct (get_store_offset g st_p <? _); [discriminate|].
    apply sane_scan_lower in Hs2.
    + eapply Forall_impl; [exact Hs2|]. cbn. intros s Hs Hl. specialize (Hs Hl).
      rewrite Hoff, (Hmsz ltac:(lia)) in Hs. lia.
    + apply Forall_drop. exact Hw0.
Qed.

Section OnInitGraph.
#[local] Existing Instance Examples.flags.
#[local] Existing Instance Examples.phase_init.

(** On the barrier 30 of [g_init], the int at offset 16 is the captured
    store 33, and the int at offset 20 is still zero memory. *)
Lemma find_captured_store_result_witness :
  (let r := find_captured_store Examples.g_init 30 16 4 in
   (r = None
    ∨ r = zero_memory Examples.g_init 30
    ∨ ∃ (i st : nat),
        (RawStores ≤ i < req Examples.g_init 30)%nat
        ∧ in_ Examples.g_init 30 i = Some st ∧ r = Some st
        ∧ is_Store Examples.g_init st = true
        ∧ get_store_offset Examples.g_init (Some st) = 16
        ∧ (4 ≠ 0 → memory_size Examples.g_init st = 4))
   ∧ (is_complete Examples.g_init 30 = true
      ∨ 16 < minimum_header_size 20
      ∨ TrackedInitializationLimit * HeapWordSize ≤ 16 → r = None))
  ∧ find_captured_store Examples.g_init 30 16 4 = Some 33%nat
  ∧ find_captured_store Examples.g_init 30 20 4 = Some 21%nat
  ∧ zero_memory Examples.g_init 30 = Some 21%nat
  ∧ find_captured_store Examples.g_init 30 18 4 = None.
Proof.
  split; [|repeat split; vm_compute; reflexivity].
  apply (find_captured_store_result Examples.g_init 30 20 16 4). reflexivity.
Defined.

(** The store 36 to offset 20 is found where it was captured. *)
Lemma captured_store_is_findable_witness :
  let r := capture_store Examples.g_init 30 36 20 36 in
  let check_st := find_captured_store r.1 30 20 (memory_size Examples.g_init 36) in
  ((check_st = Some 36%nat ∨ check_st = None)
   ∧ (get_store_offset Examples.g_init (Some 36%nat) = 20 → check_st = Some 36%nat))
  ∧ check_st = Some 36%nat.
Proof.
  split; [|vm_compute; reflexivity].
  apply (captured_store_is_findable Examples.g_init 30 20 36 36 20).
  - vm_compute. reflexivity.
  - vm_compute. lia.
  - reflexivity.
  - vm_compute. reflexivity.
  - vm_compute. reflexivity.
  - left. vm_compute. split; reflexivity.
  - vm_compute. reflexivity.
  - unfold stores_within_MAX_STORE.
    change (raw_stores Examples.g_init 30) with [Some 33%nat; Some 34%nat].
    repeat (apply Forall_cons; split;
            [intros _; split; vm_compute; discriminate|]).
    apply Forall_nil_2.
  - vm_compute. reflexivity.
Defined.

End OnInitGraph.

End CapturedStoreFacts.

(** ** Cleaning up and completing a barrier *)

Module InitializeMoreFacts.
Import Edit EditFacts Mem Initialize InitializeFacts InitializeMore InitializeSpec
       CapturedStoreFacts.

Section WithPhase.
Context `{!VMFlags, !PhaseValues}.

Lemma in_lookup (g : gmap nat Node) n i e :
  ins_of g n !! i = Some e → in_ g n i = e.
Proof. intros He. rewrite in_ins_of, He. reflexivity. Qed.

(** The first loop of [remove_extra_zeroes] after [n] trips: the edges
    before [fill] are the fixed edges and the kept ones among the first [n]
    captured edges, in order; the edges from [RawStores + n] on are
    untouched. *)
Lemma compact_loop (g : gmap nat Node) this zmem (n : nat) :
  let l0 := ins_of g this in
  (RawStores + n ≤ length l0)%nat →
  is_Some (g !! this) →
  ∃ g1 fill,
    foldl (compact_step this zmem) (g, RawStores) (seq RawStores n) = (g1, fill)
    ∧ g1 = set_ins g this (ins_of g1 this)
    ∧ length (ins_of g1 this) = length l0
    ∧ (fill ≤ RawStores + n)%nat
    ∧ take fill (ins_of g1 this)
      = take RawStores l0 ++ filter (kept_edge zmem) (take n (drop RawStores l0))
    ∧ drop (RawStores + n) (ins_of g1 this) = drop (RawStores + n) l0.
Proof.
  intros l0. induction n as [|n IH]; intros Hlen Hsome.
  - exists g, RawStores. cbn [seq foldl]. rewrite Nat.add_0_r.
    split; [reflexivity|]. split; [symmetry; apply set_ins_id|].
    repeat split; auto. rewrite take_0, app_nil_r. reflexivity.
  - destruct IH as (g1 & fill & Hfold & Hg1 & Hl1 & Hfill & Htake & Hdrop);
      [lia|assumption|].
    rewrite seq_S, foldl_snoc, Hfold. cbn [compact_step].
    assert (∃ e, l0 !! (RawStores + n)%nat = Some e) as [e He].
    { apply lookup_lt_is_Some. lia. }
    assert (ins_of g1 this !! (RawStores + n)%nat = Some e) as He1.
    { pose proof (f_equal (λ l, l !! 0%nat) Hdrop) as Hd. cbn beta in Hd.
      rewrite !lookup_drop, !Nat.add_0_r in Hd. rewrite Hd. exact He. }
    rewrite (in_lookup _ _ _ _ He1).
    assert (take (S n) (drop RawStores l0) = take n (drop RawStores l0) ++ [e]) as Hsnoc.
    { apply take_S_r. rewrite lookup_drop. exact He. }
    destruct (decide (kept_edge zmem e)) as [Hk|Hnk].
    + (* the edge is kept *)
      assert (bool_decide (e = Some C_top) || bool_decide (e = zmem) = false) as ->.
      { destruct Hk as [Hk1 Hk2].
        rewrite !bool_decide_eq_false_2 by assumption. reflexivity. }
      set (g2 := if bool_decide (fill < RawStores + n)%nat
                 then set_req g1 this fill e else g1).
      assert (ins_of g2 this = <[fill := e]> (ins_of g1 this)) as Hins2.
      { unfold g2. case_bool_decide as Hlt.
        - apply ins_of_set_req.
        - assert (fill = RawStores + n)%nat as -> by lia.
          symmetry. apply list_insert_id. exact He1. }
      exists g2, (S fill).
      split; [reflexivity|].
      split.
      { unfold g2. case_bool_decide; [|assumption].
        rewrite ins_of_set_req. unfold set_req. rewrite Hg1 at 1.
        apply set_ins_set_ins. }
      split; [rewrite Hins2, length_insert; assumption|].
      split; [lia|].
      split.
      * rewrite Hins2, Hsnoc, filter_app, filter_cons_True, filter_nil by assumption.
        rewrite app_assoc, <- Htake.
        assert (fill < length (ins_of g1 this))%nat as Hfl by lia.
        rewrite (take_S_r _ _ e) by (apply list_lookup_insert_eq; assumption).
        rewrite take_insert_ge by lia. reflexivity.
      * rewrite Hins2, drop_insert_lt by lia.
        replace (RawStores + S n)%nat with (RawStores + n + 1)%nat by lia.
        rewrite <- (drop_drop (ins_of g1 this) 1 (RawStores + n)).
        rewrite <- (drop_drop l0 1 (RawStores + n)), Hdrop. reflexivity.
    + (* the edge is top or the zero memory *)
      assert (bool_decide (e = Some C_top) || bool_decide (e = zmem) = true) as ->.
      { unfold kept_edge in Hnk.
        destruct (bool_decide_reflect (e = Some C_top)); [reflexivity|].
        destruct (bool_decide_reflect (e = zmem)); [reflexivity|].
        exfalso. apply Hnk. split; assumption. }
      exists g1, fill.
      split; [reflexivity|]. split; [assumption|]. split; [assumption|].
      split; [lia|]. split.
      * rewrite Hsnoc, filter_app, filter_cons_False, filter_nil, app_nil_r by assumption.
        exact Htake.
      * replace (RawStores + S n)%nat with (RawStores + n + 1)%nat by lia.
        rewrite <- (drop_drop (ins_of g1 this) 1 (RawStores + n)).
        rewrite <- (drop_drop l0 1 (RawStores + n)), Hdrop. reflexivity.
Qed.

Lemma ins_of_del_req (g : gmap nat Node) n idx :
  is_Some (g !! n) → (idx < req g n)%nat →
  ins_of (del_req g n idx) n
  = take (req g n - 1) (<[idx := mjoin (last (ins_of g n))]> (ins_of g n)).
Proof.
  intros Hn Hidx. unfold del_req. rewrite <- req_ins_of.
  rewrite bool_decide_eq_true_2 by assumption.
  apply ins_of_set_ins_eq. assumption.
Qed.

(** The second loop leaves the edges before [fill]. *)
Lemma delete_from_spec (fuel : nat) :
  ∀ (g : gmap nat Node) this fill,
    is_Some (g !! this) →
    (fill ≤ req g this)%nat → (req g this - fill ≤ fuel)%nat →
    delete_from fuel g this fill = set_ins g this (take fill (ins_of g this)).
Proof.
  induction fuel as [|fuel IH]; intros g this fill Hsome Hle Hfuel.
  - cbn. rewrite take_ge by (rewrite <- req_ins_of; lia). symmetry. apply set_ins_id.
  - cbn [delete_from]. case_bool_decide as Hlt.
    + assert (ins_of (del_req g this fill) this
              = take (req g this - 1)
                  (<[fill := mjoin (last (ins_of g this))]> (ins_of g this))) as Hins
        by (apply ins_of_del_req; assumption).
      assert (del_req g this fill
              = set_ins g this
                  (take (req g this - 1)
                     (<[fill := mjoin (last (ins_of g this))]> (ins_of g this)))) as Hdel.
      { unfold del_req. rewrite <- req_ins_of.
        rewrite bool_decide_eq_true_2 by assumption. reflexivity. }
      assert (req (del_req g this fill) this = (req g this - 1)%nat) as Hreq.
      { rewrite (req_ins_of (del_req g this fill)), Hins, length_take, length_insert,
          <- req_ins_of. lia. }
      rewrite IH.
      * rewrite Hins, take_take.
        replace (fill `min` (req g this - 1))%nat with fill by lia.
        rewrite take_insert_ge by lia. rewrite Hdel. apply set_ins_set_ins.
      * rewrite Hdel. unfold set_ins. destruct Hsome as [nd Hnd]. rewrite Hnd.
        rewrite lookup_insert_eq. eauto.
      * lia.
      * lia.
    + rewrite take_ge by (rewrite <- req_ins_of; lia). symmetry. apply set_ins_id.
Qed.

(** [remove_extra_zeroes] as a filter on the captured edges. *)
Lemma remove_extra_zeroes_ins (g : gmap nat Node) this :
  (RawStores ≤ req g this)%nat →
  is_Some (g !! this) →
  remove_extra_zeroes g this
  = set_ins g this
      (take RawStores (ins_of g this)
       ++ filter (kept_edge (zero_memory g this)) (raw_stores g this)).
Proof.
  intros Hreq Hsome. unfold remove_extra_zeroes.
  rewrite raw_stores_ins_of.
  case_bool_decide as Hempty.
  { rewrite (drop_ge (ins_of g this)) by (rewrite <- req_ins_of; lia).
    rewrite filter_nil, app_nil_r, take_ge by (rewrite <- req_ins_of; lia).
    symmetry. apply set_ins_id. }
  destruct (compact_loop g this (zero_memory g this) (req g this - RawStores))
    as (g1 & fill & Hfold & Hg1 & Hl1 & Hfill & Htake & _).
  { rewrite <- req_ins_of. lia. }
  { assumption. }
  rewrite Hfold.
  assert (is_Some (g1 !! this)) as Hs1.
  { rewrite Hg1. unfold set_ins. destruct Hsome as [nd Hnd]. rewrite Hnd.
    rewrite lookup_insert_eq. eauto. }
  rewrite delete_from_spec; [|assumption| |lia].
  - rewrite Htake. rewrite Hg1 at 1. rewrite set_ins_set_ins. f_equal. f_equal. f_equal.
    apply take_ge. rewrite length_drop, <- req_ins_of. lia.
  - rewrite req_ins_of, Hl1, <- req_ins_of. lia.
Qed.

(** Dropping edges that are no stores does not change [stores_are_sane]'s
    scan. *)
Lemma sane_scan_filter (g : gmap nat Node) (P : option nat → Prop)
    `{!∀ e, Decision (P e)} last l :
  (∀ e, e ∈ l → ¬ P e → get_store_offset g e < 0) →
  sane_scan g last (filter P l) = sane_scan g last l.
Proof.
  revert last. induction l as [|e l IH]; intros last Hdead; [reflexivity|].
  assert (∀ e', e' ∈ l → ¬ P e' → get_store_offset g e' < 0) as Hdead'.
  { intros e' He'. apply Hdead. right. assumption. }
  destruct (decide (P e)) as [Hp|Hnp].
  - rewrite filter_cons_True by assumption. cbn.
    destruct (get_store_offset g e <? 0); [auto|].
    destruct (get_store_offset g e <? last); auto.
  - rewrite filter_cons_False by assumption. cbn.
    specialize (Hdead e ltac:(left) Hnp).
    destruct (Z.ltb_spec (get_store_offset g e) 0); [auto|lia].
Qed.

(** The kept edges of kept edges are all of them. *)
Lemma filter_kept_twice zmem (l : list (option nat)) :
  filter (kept_edge zmem) (filter (kept_edge zmem) l) = filter (kept_edge zmem) l.
Proof.
  induction l as [|e l IH]; [reflexivity|].
  destruct (decide (kept_edge zmem e)) as [Hk|Hk].
  - rewrite (filter_cons_True _ _ _ Hk), (filter_cons_True _ _ _ Hk), IH. reflexivity.
  - rewrite (filter_cons_False _ _ _ Hk). exact IH.
Qed.

Lemma filter_nil_iff {A} (P : A → Prop) `{!∀ x, Decision (P x)} (l : list A) :
  filter P l = [] ↔ ∀ x, x ∈ l → ¬ P x.
Proof.
  induction l as [|e l IH].
  - split; [intros _ x Hx; inversion Hx|reflexivity].
  - destruct (decide (P e)) as [Hp|Hp].
    + rewrite (filter_cons_True _ _ _ Hp). split; [discriminate|].
      intros Hall. exfalso. apply (Hall e); [left|assumption].
    + rewrite (filter_cons_False _ _ _ Hp), IH. split.
      * intros Hall x Hx. apply elem_of_cons in Hx as [->|Hx]; auto.
      * intros Hall x Hx. apply Hall. right. assumption.
Qed.

End WithPhase.

(** [remove_extra_zeroes] keeps, in their order, the captured edges that
    are neither top nor the zero memory of the barrier and drops the
    others; the fixed edges, the other nodes and the zero memory stay; a
    second run changes nothing; and [stores_are_sane] answers as before. *)
Theorem remove_extra_zeroes_keeps `{!VMFlags, !PhaseValues}
    (g : gmap nat Node) (init : nat) :
  is_Initialize g init = true →
  (RawStores ≤ req g init)%nat →
  get_store_offset g (Some C_top) < 0 →
  get_store_offset g (zero_memory g init) < 0 →
  let zmem := zero_memory g init in
  let g' := remove_extra_zeroes g init in
  raw_stores g' init = filter (kept_edge zmem) (raw_stores g init)
  ∧ (∀ i, (i < RawStores)%nat → in_ g' init i = in_ g init i)
  ∧ (∀ m, m ≠ init → g' !! m = g !! m)
  ∧ zero_memory g' init = zmem
  ∧ is_complete g' init = is_complete g init
  ∧ remove_extra_zeroes g' init = g'
  ∧ stores_are_sane g' init = stores_are_sane g init.
Proof.
  intros Hinit Hreq Htop Hzmem zmem g'.
  destruct (Initialize_not_Store g init Hinit) as [Hnst Hnmm].
  assert (is_Some (g !! init)) as Hsome.
  { unfold is_Initialize, node_is in Hinit.
    destruct (g !! init); [eauto|discriminate]. }
  set (kept := filter (kept_edge zmem) (raw_stores g init)).
  set (fixed := take RawStores (ins_of g init)).
  assert (length fixed = RawStores) as Hfixed.
  { unfold fixed. apply length_take_le. rewrite <- req_ins_of. assumption. }
  assert (g' = set_ins g init (fixed ++ kept)) as Hg'
    by (apply remove_extra_zeroes_ins; assumption).
  assert (ins_of g' init = fixed ++ kept) as Hins.
  { rewrite Hg'. apply ins_of_set_ins_eq. assumption. }
  assert (raw_stores g' init = kept) as Hraw.
  { rewrite raw_stores_ins_of, Hins, drop_app_length'; auto. }
  assert (take RawStores (ins_of g' init) = fixed) as Htake.
  { rewrite Hins, take_app_length'; auto. }
  assert (zero_memory g' init = zmem) as Hz.
  { rewrite Hg'. apply zero_memory_set_ins; [assumption|].
    rewrite take_app_length'; auto. }
  assert (is_complete g' init = is_complete g init) as Hc.
  { rewrite Hg'. apply is_complete_set_ins. }
  split; [exact Hraw|].
  split.
  { intros i Hi. rewrite !in_ins_of, Hins.
    rewrite lookup_app_l by lia. unfold fixed. rewrite lookup_take_lt by assumption.
    reflexivity. }
  split; [intros m Hm; rewrite Hg'; apply set_ins_lookup_ne; assumption|].
  split; [exact Hz|]. split; [exact Hc|].
  split.
  { rewrite remove_extra_zeroes_ins.
    - rewrite Htake, Hz, Hraw. unfold kept. rewrite filter_kept_twice.
      fold kept. rewrite <- Hins. apply set_ins_id.
    - rewrite req_ins_of, Hins, length_app. lia.
    - rewrite Hg'. unfold set_ins. destruct Hsome as [nd Hnd]. rewrite Hnd.
      rewrite lookup_insert_eq. eauto. }
  unfold stores_are_sane. rewrite Hc, Hraw.
  destruct (is_complete g init); [reflexivity|].
  destruct (allocation init) as [alloc|]; [|reflexivity].
  rewrite Hg', sane_scan_set_ins by assumption.
  apply sane_scan_filter.
  intros e _ Hnk. unfold kept_edge in Hnk.
  destruct (decide (e = Some C_top)) as [->|Hne1]; [assumption|].
  destruct (decide (e = zmem)) as [->|Hne2]; [assumption|].
  exfalso. apply Hnk. split; assumption.
Qed.

(** [maybe_set_complete] answers yes exactly for a barrier that is there,
    is not complete and has no captured edge other than top and its zero
    memory; [is_non_zero] tells whether such an edge is there.  After a
    yes the barrier is complete, has no captured edges, and every request
    to [captured_store_insertion_point] fails; after a no it is as
    complete as before. *)
Theorem maybe_set_complete_only_when_empty `{!VMFlags, !PhaseValues}
    (g : gmap nat Node) (init : nat) :
  is_Initialize g init = true →
  (RawStores ≤ req g init)%nat →
  let zmem := zero_memory g init in
  let r := maybe_set_complete g (Some init) in
  ((is_non_zero g init).2 = true
   ↔ is_complete g init = false
     ∧ ∃ e, e ∈ raw_stores g init ∧ kept_edge zmem e)
  ∧ (r.2 = true
     ↔ is_complete g init = false
       ∧ ∀ e, e ∈ raw_stores g init → ¬ kept_edge zmem e)
  ∧ (r.2 = true →
     is_complete r.1 init = true
     ∧ raw_stores r.1 init = []
     ∧ ∀ start size, captured_store_insertion_point r.1 init start size = 0)
  ∧ (r.2 = false → is_complete r.1 init = is_complete g init)
  ∧ maybe_set_complete g None = (g, false).
Proof.
  intros Hinit Hreq zmem r.
  destruct (Initialize_not_Store g init Hinit) as [Hnst Hnmm].
  assert (is_Some (g !! init)) as Hsome.
  { unfold is_Initialize, node_is in Hinit.
    destruct (g !! init); [eauto|discriminate]. }
  set (kept := filter (kept_edge zmem) (raw_stores g init)).
  set (fixed := take RawStores (ins_of g init)).
  assert (length fixed = RawStores) as Hfixed.
  { unfold fixed. apply length_take_le. rewrite <- req_ins_of. assumption. }
  set (g1 := remove_extra_zeroes g init).
  assert (g1 = set_ins g init (fixed ++ kept)) as Hg1
    by (apply remove_extra_zeroes_ins; assumption).
  assert (ins_of g1 init = fixed ++ kept) as Hins.
  { rewrite Hg1. apply ins_of_set_ins_eq. assumption. }
  assert (req g1 init = (RawStores + length kept)%nat) as Hreq1.
  { rewrite req_ins_of, Hins, length_app. lia. }
  assert (is_complete g1 init = is_complete g init) as Hc1.
  { rewrite Hg1. apply is_complete_set_ins. }
  assert (is_Some (g1 !! init)) as Hsome1.
  { rewrite Hg1. unfold set_ins. destruct Hsome as [nd Hnd]. rewrite Hnd.
    rewrite lookup_insert_eq. eauto. }
  assert (is_Initialize g1 init = true) as Hinit1.
  { unfold is_Initialize. rewrite Hg1, node_is_set_ins. exact Hinit. }
  assert (zero_memory g1 init = zmem) as Hz1.
  { rewrite Hg1. apply zero_memory_set_ins; [assumption|].
    rewrite take_app_length'; auto. }
  assert (raw_stores g1 init = kept) as Hraw1.
  { rewrite raw_stores_ins_of, Hins, drop_app_length'; auto. }
  assert (remove_extra_zeroes g1 init = g1) as Hidem.
  { rewrite remove_extra_zeroes_ins by (assumption || lia).
    rewrite Hz1, Hraw1, Hins, take_app_length' by auto.
    unfold kept. rewrite filter_kept_twice. fold kept.
    rewrite <- Hins. apply set_ins_id. }
  assert (kept ≠ [] ↔ ∃ e, e ∈ raw_stores g init ∧ kept_edge zmem e) as Hne.
  { unfold kept. split.
    - intros Hk. destruct (filter _ _) as [|e k] eqn:Hf; [contradiction|].
      assert (e ∈ filter (kept_edge zmem) (raw_stores g init)) as He
        by (rewrite Hf; left).
      apply list_elem_of_filter in He as [Hk1 Hk2].
      exists e. split; assumption.
    - intros (e & He & Hk) Hnil.
      exact (proj1 (filter_nil_iff (kept_edge zmem) (raw_stores g init)) Hnil e He Hk). }
  assert (kept = [] ↔ ∀ e, e ∈ raw_stores g init → ¬ kept_edge zmem e) as Hnil.
  { unfold kept. apply filter_nil_iff. }
  split.
  { unfold is_non_zero. destruct (is_complete g init) eqn:Hc.
    - cbn. split; [discriminate|]. intros [[=] _].
    - fold g1. cbn [snd]. rewrite Hreq1, <- Hne.
      rewrite bool_decide_eq_true. destruct kept; cbn [length].
      + split; [lia|]. intros [_ Hk]. contradiction.
      + split; [|lia]. intros _. split; [reflexivity|discriminate]. }
  assert (r = if is_complete g init then (g, false)
              else if bool_decide (RawStores < req g1 init)%nat then (g1, false)
              else (set_complete g1 init, true)) as Hr.
  { unfold r, maybe_set_complete. destruct (is_complete g init) eqn:Hc; [reflexivity|].
    fold g1. unfold is_non_zero. rewrite Hc1, Hidem. reflexivity. }
  split.
  { rewrite Hr. destruct (is_complete g init) eqn:Hc.
    - cbn. split; [discriminate|]. intros [[=] _].
    - rewrite Hreq1, <- Hnil.
      destruct (bool_decide_reflect (RawStores < RawStores + length kept)%nat)
        as [Hlt|Hlt]; cbn [snd].
      + split; [discriminate|]. intros [_ Hk]. rewrite Hk in Hlt. cbn [length] in Hlt. lia.
      + split; [|reflexivity]. intros _. split; [reflexivity|].
        destruct kept; [reflexivity|cbn [length] in Hlt; lia]. }
  split.
  { rewrite Hr. destruct (is_complete g init) eqn:Hc; [cbn; discriminate|].
    rewrite Hreq1.
    destruct (bool_decide_reflect (RawStores < RawStores + length kept)%nat)
      as [Hlt|Hlt]; cbn [fst snd]; [discriminate|].
    intros _.
    assert (kept = []) as Hk by (destruct kept; [reflexivity|cbn [length] in Hlt; lia]).
    destruct Hsome1 as [nd1 Hnd1].
    assert (is_complete (set_complete g1 init) init = true) as Hdone.
    { unfold is_complete, set_complete. rewrite Hnd1, lookup_insert_eq. reflexivity. }
    split; [exact Hdone|]. split.
    - unfold raw_stores, set_complete. rewrite Hnd1, lookup_insert_eq. cbn [ins].
      pose proof Hraw1 as Hraw. unfold raw_stores in Hraw. rewrite Hnd1 in Hraw.
      rewrite Hraw. exact Hk.
    - intros start size. unfold captured_store_insertion_point.
      rewrite Hdone. reflexivity. }
  split; [|reflexivity].
  rewrite Hr. destruct (is_complete g init) eqn:Hc; [cbn; auto|].
  destruct (bool_decide (RawStores < req g1 init)%nat); cbn [fst snd]; [|discriminate].
  intros _. exact Hc1.
Qed.

Section OnInitGraph.
#[local] Existing Instance Examples.flags.
#[local] Existing Instance Examples.phase_init.

(** The barrier 30 of [g_zeroes] has the captured edges top, 33, zero
    memory and 34; the clean-up leaves 33 and 34. *)
Lemma remove_extra_zeroes_keeps_witness :
  let zmem := zero_memory MoreExamples.g_zeroes 30 in
  let g' := remove_extra_zeroes MoreExamples.g_zeroes 30 in
  (raw_stores g' 30 = filter (kept_edge zmem) (raw_stores MoreExamples.g_zeroes 30)
   ∧ (∀ i, (i < RawStores)%nat → in_ g' 30 i = in_ MoreExamples.g_zeroes 30 i)
   ∧ (∀ m, m ≠ 30%nat → g' !! m = MoreExamples.g_zeroes !! m)
   ∧ zero_memory g' 30 = zmem
   ∧ is_complete g' 30 = is_complete MoreExamples.g_zeroes 30
   ∧ remove_extra_zeroes g' 30 = g'
   ∧ stores_are_sane g' 30 = stores_are_sane MoreExamples.g_zeroes 30)
  ∧ raw_stores MoreExamples.g_zeroes 30 = [Some 0; Some 33; Some 21; Some 34]%nat
  ∧ raw_stores g' 30 = [Some 33; Some 34]%nat.
Proof.
  split; [|split; vm_compute; reflexivity].
  apply (remove_extra_zeroes_keeps MoreExamples.g_zeroes 30);
    vm_compute; first [reflexivity | lia].
Defined.

(** The barrier 30 of [g_fresh] has captured nothing and is completed; the
    barrier of [g_init] has captured two stores and is not. *)
Lemma maybe_set_complete_only_when_empty_witness :
  let zmem := zero_memory MoreExamples.g_fresh 30 in
  let r := maybe_set_complete MoreExamples.g_fresh (Some 30%nat) in
  (((is_non_zero MoreExamples.g_fresh 30).2 = true
    ↔ is_complete MoreExamples.g_fresh 30 = false
      ∧ ∃ e, e ∈ raw_stores MoreExamples.g_fresh 30 ∧ kept_edge zmem e)
   ∧ (r.2 = true
      ↔ is_complete MoreExamples.g_fresh 30 = false
        ∧ ∀ e, e ∈ raw_stores MoreExamples.g_fresh 30 → ¬ kept_edge zmem e)
   ∧ (r.2 = true →
      is_complete r.1 30 = true
      ∧ raw_stores r.1 30 = []
      ∧ ∀ start size, captured_store_insertion_point r.1 30 start size = 0)
   ∧ (r.2 = false → is_complete r.1 30 = is_complete MoreExamples.g_fresh 30)
   ∧ maybe_set_complete MoreExamples.g_fresh None = (MoreExamples.g_fresh, false))
  ∧ r.2 = true
  ∧ (maybe_set_complete Examples.g_init (Some 30%nat)).2 = false.
Proof.
  split; [|split; vm_compute; reflexivity].
  apply (maybe_set_complete_only_when_empty MoreExamples.g_fresh 30).
  - vm_compute. reflexivity.
  - vm_compute. lia.
Defined.

End OnInitGraph.

End InitializeMoreFacts.

(** ** The next fully initialized word *)

Module FullwordFacts.
Import Edit EditFacts Mem Initialize InitializeMore InitializeSpec.

(** Wrapping to [w] bits keeps the bits below [w]. *)
Lemma testbit_wrap (w z k : Z) :
  0 < w → 0 ≤ k < w →
  Z.testbit ((z + 2 ^ (w - 1)) mod 2 ^ w - 2 ^ (w - 1)) k = Z.testbit z k.
Proof.
  intros Hw Hk.
  rewrite <- (Z.mod_pow2_bits_low _ w k) by lia.
  rewrite <- (Z.mod_pow2_bits_low z w k) by lia.
  f_equal. rewrite Zminus_mod_idemp_l. f_equal. lia.
Qed.

Lemma testbit_jint_wrap (z k : Z) :
  0 ≤ k < 32 → Z.testbit (jint_wrap z) k = Z.testbit z k.
Proof. intros Hk. apply (testbit_wrap 32); lia. Qed.

Lemma testbit_jlong_wrap (z k : Z) :
  0 ≤ k < 64 → Z.testbit (MergeStores.jlong_wrap z) k = Z.testbit z k.
Proof. intros Hk. apply (testbit_wrap 64); lia. Qed.

(** The low bits of [right_n_bits(n)]. *)
Lemma testbit_right_n_bits (n j : Z) :
  0 < n → 0 ≤ j < 64 → Z.testbit (right_n_bits n) j = (j <? n).
Proof.
  intros Hn Hj. unfold right_n_bits.
  destruct (Z.leb_spec 64 n) as [Hbig|Hsmall].
  - change (0 - 1) with (-1). rewrite Z.bits_m1 by lia.
    symmetry. apply Z.ltb_lt. lia.
  - rewrite Z.shiftl_1_l. change (2 ^ n - 1) with (Z.pred (2 ^ n)).
    rewrite <- Z.ones_equiv, Z.testbit_ones by lia.
    destruct (Z.leb_spec 0 j); [reflexivity|lia].
Qed.

(** What one store adds to the map of the word at [this_int_off]. *)
Lemma testbit_store_bits (int_map st_size subword_off k : Z) :
  0 < st_size → 0 ≤ subword_off < 4 → 0 ≤ k < 8 →
  Z.testbit
    (jint_wrap (Z.lor int_map
                  (MergeStores.jlong_wrap
                     (Z.shiftl (right_n_bits st_size) subword_off)))) k
  = Z.testbit int_map k || ((subword_off <=? k) && (k <? subword_off + st_size)).
Proof.
  intros Hsize Hsub Hk.
  rewrite testbit_jint_wrap, Z.lor_spec, testbit_jlong_wrap by lia.
  f_equal. rewrite Z.shiftl_spec by lia.
  destruct (Z.leb_spec subword_off k) as [Hle|Hgt].
  - rewrite testbit_right_n_bits by lia. cbn [andb].
    destruct (Z.ltb_spec (k - subword_off) st_size), (Z.ltb_spec k (subword_off + st_size));
      (reflexivity || lia).
  - rewrite Z.testbit_neg_r by lia. reflexivity.
Qed.

(** A map with all of [FULL_MAP] has the four low bits. *)
Lemma full_map_bits (m k : Z) :
  Z.land m (right_n_bits BytesPerInt) = right_n_bits BytesPerInt →
  0 ≤ k < 4 → Z.testbit m k = true.
Proof.
  intros Hfull Hk.
  assert (Z.testbit (Z.land m 15) k = Z.testbit 15 k) as Hbit
    by (f_equal; exact Hfull).
  rewrite Z.land_spec in Hbit.
  assert (Z.testbit 15 k = true) as H15.
  { assert (k = 0 ∨ k = 1 ∨ k = 2 ∨ k = 3) as [->|[->|[->| ->]]] by lia; reflexivity. }
  rewrite H15, andb_true_r in Hbit. exact Hbit.
Qed.

Section WithPhase.
Context `{!VMFlags, !PhaseValues} (g : gmap nat Node).

#[local] Abbreviation off := (get_store_offset g).
#[local] Abbreviation msz := (from_option (memory_size g) 0).

Lemma covered_by_mono (l1 l2 : list (option nat)) b :
  l1 ⊆ l2 → covered_by g l1 b → covered_by g l2 b.
Proof. intros Hsub (st & Hst & Hc). exists st. split; [apply Hsub, Hst|exact Hc]. Qed.

Lemma covered_by_store (l : list (option nat)) st b :
  st ∈ l → 0 ≤ off st → off st ≤ b < off st + msz st → covered_by g l b.
Proof. intros Hin Hl Hb. exists st. auto. Qed.

(** The scan of [find_next_fullword_store]: while it runs, the four low
    bits of [int_map] stand for bytes of the word at [int_map_off] that
    the stores seen so far ([seen]) write. *)
Lemma fullword_scan_spec :
  ∀ (sts seen : list (option nat)) (int_map int_map_off : Z),
    0 ≤ int_map < 16 →
    (∀ k, 0 ≤ k < 4 → Z.testbit int_map k = true →
          covered_by g seen (int_map_off + k)) →
    Forall (λ st, 0 ≤ off st → 0 < msz st) sts →
    let r := fullword_scan g int_map int_map_off sts in
    r = -1
    ∨ (0 ≤ r ∧ r mod BytesPerInt = 0
       ∧ ∀ b, r ≤ b < r + BytesPerInt → covered_by g (seen ++ sts) b).
Proof.
  induction sts as [|st rest IH]; intros seen int_map int_map_off Hmap Hbits Hsz r;
    [left; reflexivity|].
  apply Forall_cons in Hsz as [Hst Hrest].
  assert (st ∈ seen ++ st :: rest) as Hin by (apply elem_of_app; right; left).
  assert (seen ++ [st] ⊆ seen ++ st :: rest) as Hsub1.
  { intros x Hx. apply elem_of_app in Hx as [Hx|Hx]; apply elem_of_app;
      [left; assumption|right]. apply list_elem_of_singleton in Hx as ->. left. }
  assert (seen ⊆ seen ++ st :: rest) as Hsub0.
  { intros x Hx. apply elem_of_app. left. assumption. }
  assert (∀ m o,
            0 ≤ m < 16 →
            (∀ k, 0 ≤ k < 4 → Z.testbit m k = true →
                  covered_by g (seen ++ [st]) (o + k)) →
            let r' := fullword_scan g m o rest in
            r' = -1
            ∨ (0 ≤ r' ∧ r' mod BytesPerInt = 0
               ∧ ∀ b, r' ≤ b < r' + BytesPerInt →
                      covered_by g (seen ++ st :: rest) b)) as Hnext.
  { intros m o Hm Hb.
    replace (seen ++ st :: rest) with ((seen ++ [st]) ++ rest)
      by (rewrite <- app_assoc; reflexivity).
    apply IH; assumption. }
  unfold r. cbn [fullword_scan].
  destruct (Z.ltb_spec (off st) 0) as [|Hlive]; [left; reflexivity|].
  specialize (Hst Hlive).
  set (st_off := off st) in *. set (st_size := msz st) in *.
  unfold BytesPerInt in *.
  destruct ((4 <=? st_size) && (st_off mod 4 =? 0)) eqn:Hword.
  { apply andb_prop in Hword as [Hbig Hal].
    apply Z.leb_le in Hbig. apply Z.eqb_eq in Hal.
    right. split; [assumption|]. split; [assumption|].
    intros b Hb. apply (covered_by_store _ st); [assumption|assumption|].
    fold st_off st_size. lia. }
  set (this_int_off := align_down st_off 4).
  set (subword_off := st_off - this_int_off).
  assert (0 ≤ subword_off < 4 ∧ this_int_off mod 4 = 0 ∧ 0 ≤ this_int_off
          ∧ st_off = this_int_off + subword_off) as (Hsub & Hal & Hnn & Hoff).
  { unfold subword_off, this_int_off, align_down. Z.div_mod_to_equations. lia. }
  set (m0 := if negb (this_int_off =? int_map_off) then 0 else int_map).
  assert (0 ≤ m0 < 16) as Hm0 by (unfold m0; destruct (negb _); lia).
  assert (∀ k, 0 ≤ k < 4 → Z.testbit m0 k = true →
               covered_by g (seen ++ st :: rest) (this_int_off + k)) as Hb0.
  { intros k Hk. unfold m0. destruct (Z.eqb_spec this_int_off int_map_off) as [->|];
      cbn [negb].
    - intros Hbit. eapply covered_by_mono; [exact Hsub0|]. apply Hbits; assumption.
    - rewrite Z.bits_0. discriminate. }
  assert ((if negb (this_int_off =? int_map_off) then this_int_off else int_map_off)
          = this_int_off) as Hoff0.
  { destruct (Z.eqb_spec this_int_off int_map_off) as [->|]; reflexivity. }
  set (m1 := jint_wrap (Z.lor m0 (MergeStores.jlong_wrap
                                    (Z.shiftl (right_n_bits st_size) subword_off)))).
  assert (∀ k, 0 ≤ k < 8 →
               Z.testbit m1 k
               = Z.testbit m0 k || ((subword_off <=? k) && (k <? subword_off + st_size)))
    as Hm1 by (intros k Hk; apply testbit_store_bits; lia).
  assert (∀ k, 0 ≤ k < 8 → (subword_off <=? k) && (k <? subword_off + st_size) = true →
               covered_by g (seen ++ st :: rest) (this_int_off + k)) as Hnew.
  { intros k Hk Hbit. apply andb_prop in Hbit as [Hlo Hhi].
    apply Z.leb_le in Hlo. apply Z.ltb_lt in Hhi.
    apply (covered_by_store _ st); [assumption|assumption|].
    fold st_off st_size. lia. }
  assert (∀ k, 0 ≤ k < 4 → Z.testbit m1 k = true →
               covered_by g (seen ++ st :: rest) (this_int_off + k)) as Hb1.
  { intros k Hk. rewrite Hm1 by lia. intros Hbit.
    apply orb_prop in Hbit as [Hbit|Hbit]; [apply Hb0|apply Hnew]; (assumption || lia). }
  cbv zeta. fold this_int_off. fold subword_off. fold m0. fold m1. rewrite Hoff0.
  destruct (Z.eqb_spec (Z.land m1 (right_n_bits 4)) (right_n_bits 4)) as [Hfull|Hpart].
  { right. split; [assumption|]. split; [assumption|].
    intros b Hb. replace b with (this_int_off + (b - this_int_off)) by lia.
    apply Hb1; [lia|]. apply full_map_bits; [exact Hfull|lia]. }
  set (next_int_off := align_down (st_off + st_size) 4).
  assert (next_int_off mod 4 = 0 ∧ next_int_off ≤ st_off + st_size < next_int_off + 4)
    as [Hnal Hnb].
  { unfold next_int_off, align_down. Z.div_mod_to_equations. lia. }
  (* without wrap-around the map is what the bits say *)
  assert (subword_off + st_size < 8 → m1 = Z.lor m0 (Z.shiftl (Z.ones st_size) subword_off)
                                     ∧ 0 ≤ m1 < 256) as Hsmall.
  { intros Hlt.
    assert (st_size = 1 ∨ st_size = 2 ∨ st_size = 3 ∨ st_size = 4 ∨ st_size = 5
            ∨ st_size = 6 ∨ st_size = 7) as Hs by lia.
    assert (subword_off = 0 ∨ subword_off = 1 ∨ subword_off = 2 ∨ subword_off = 3)
      as Hsw by lia.
    assert (m0 = 0 ∨ m0 = 1 ∨ m0 = 2 ∨ m0 = 3 ∨ m0 = 4 ∨ m0 = 5 ∨ m0 = 6 ∨ m0 = 7
            ∨ m0 = 8 ∨ m0 = 9 ∨ m0 = 10 ∨ m0 = 11 ∨ m0 = 12 ∨ m0 = 13 ∨ m0 = 14
            ∨ m0 = 15) as Hm by lia.
    unfold m1. clear -Hs Hsw Hm Hlt.
    repeat (destruct Hs as [->|Hs]); try rewrite Hs;
      repeat (destruct Hsw as [->|Hsw]); try rewrite Hsw; try lia;
      repeat (destruct Hm as [->|Hm]); try rewrite Hm;
      vm_compute; repeat split; congruence. }
  destruct (Z.eqb_spec next_int_off (this_int_off + 4)) as [Hcross|Hncross].
  - (* the store ends in the next word *)
    destruct Hsmall as [_ Hm1b]; [lia|].
    apply Hnext.
    + rewrite Z.shiftr_div_pow2 by lia. change (2 ^ 4) with 16.
      Z.div_mod_to_equations. lia.
    + intros k Hk. rewrite Z.shiftr_spec by lia. rewrite Hm1 by lia.
      rewrite (Z.bits_above_log2 m0 (k + 4)); cbn [orb].
      * intros Hbit. eapply covered_by_mono; [|
          rewrite Hcross; replace (this_int_off + 4 + k) with (this_int_off + (k + 4)) by lia].
        { intros x Hx. exact Hx. }
        (* the byte lies in the store *)
        apply andb_prop in Hbit as [Hlo Hhi].
        apply Z.leb_le in Hlo. apply Z.ltb_lt in Hhi.
        apply (covered_by_store _ st);
          [apply elem_of_app; right; left|assumption|].
        fold st_off st_size. lia.
      * lia.
      * pose proof (Z.log2_le_mono m0 15 ltac:(lia)) as Hl.
        change (Z.log2 15) with 3 in Hl. lia.
  - destruct (Z.ltb_spec (this_int_off + 4) next_int_off) as [Hfar|Hnear].
    + (* the store covers the next word *)
      right. split; [lia|]. split; [Z.div_mod_to_equations; lia|].
      intros b Hb. apply (covered_by_store _ st); [assumption|assumption|].
      fold st_off st_size.
      assert (this_int_off + 8 ≤ next_int_off) by (Z.div_mod_to_equations; lia).
      lia.
    + (* the store ends in this word *)
      assert (subword_off + st_size < 4) as Hin4 by (Z.div_mod_to_equations; lia).
      apply Hnext.
      * assert (st_size = 1 ∨ st_size = 2 ∨ st_size = 3) as Hs by lia.
        assert (subword_off = 0 ∨ subword_off = 1 ∨ subword_off = 2) as Hsw by lia.
        assert (m0 = 0 ∨ m0 = 1 ∨ m0 = 2 ∨ m0 = 3 ∨ m0 = 4 ∨ m0 = 5 ∨ m0 = 6 ∨ m0 = 7
                ∨ m0 = 8 ∨ m0 = 9 ∨ m0 = 10 ∨ m0 = 11 ∨ m0 = 12 ∨ m0 = 13 ∨ m0 = 14
                ∨ m0 = 15) as Hm by lia.
        unfold m1. clear -Hs Hsw Hm Hin4.
        repeat (destruct Hs as [->|Hs]); try rewrite Hs;
          repeat (destruct Hsw as [->|Hsw]); try rewrite Hsw; try lia;
          repeat (destruct Hm as [->|Hm]); try rewrite Hm;
          vm_compute; split; congruence.
      * intros k Hk Hbit. rewrite Hm1 in Hbit by lia.
        apply orb_prop in Hbit as [Hbit|Hbit].
        -- unfold m0 in Hbit.
           destruct (Z.eqb_spec this_int_off int_map_off) as [Heq|]; cbn [negb] in Hbit.
           ++ eapply covered_by_mono; [|rewrite Heq; apply Hbits; eassumption].
              intros x Hx. apply elem_of_app. left. assumption.
           ++ rewrite Z.bits_0 in Hbit. discriminate.
        -- apply andb_prop in Hbit as [Hlo Hhi].
           apply Z.leb_le in Hlo. apply Z.ltb_lt in Hhi.
           apply (covered_by_store _ st); [apply elem_of_app; right; left|assumption|].
           fold st_off st_size. lia.
Qed.

End WithPhase.

(** [find_next_fullword_store] answers -1 or the offset of a word: not
    negative, a multiple of [BytesPerInt], and every byte of the word is
    written by one of the captured stores from [start] on.  It answers -1
    when there is no edge from [start] on. *)
Theorem find_next_fullword_store_is_initialized `{!VMFlags, !PhaseValues}
    (g : gmap nat Node) (init start : nat) :
  Forall (λ st, 0 ≤ get_store_offset g st → 0 < from_option (memory_size g) 0 st)
         (drop start (ins_of g init)) →
  let r := find_next_fullword_store g init start in
  (r = -1
   ∨ (0 ≤ r ∧ r mod BytesPerInt = 0
      ∧ ∀ b, r ≤ b < r + BytesPerInt → covered_by g (drop start (ins_of g init)) b))
  ∧ ((req g init ≤ start)%nat → r = -1).
Proof.
  intros Hsz r. split.
  - apply (fullword_scan_spec g (drop start (ins_of g init)) [] 0 0); [lia| |exact Hsz].
    intros k _. rewrite Z.bits_0. discriminate.
  - intros Hge. unfold r, find_next_fullword_store.
    rewrite drop_ge by (rewrite <- req_ins_of; assumption). reflexivity.
Qed.

Section OnByteGraph.
#[local] Existing Instance Examples.flags.
#[local] Existing Instance MoreExamples.phase_bytes.

(** On [g_bytes] the byte at 19 does not fill the word at 16; the chars
    at 20 and 22 fill the word at 20. *)
Lemma find_next_fullword_store_is_initialized_witness :
  let r := find_next_fullword_store MoreExamples.g_bytes 30 RawStores in
  ((r = -1
    ∨ (0 ≤ r ∧ r mod BytesPerInt = 0
       ∧ ∀ b, r ≤ b < r + BytesPerInt →
              covered_by MoreExamples.g_bytes
                (drop RawStores (ins_of MoreExamples.g_bytes 30)) b))
   ∧ ((req MoreExamples.g_bytes 30 ≤ RawStores)%nat → r = -1))
  ∧ r = 20.
Proof.
  split; [|vm_compute; reflexivity].
  apply (find_next_fullword_store_is_initialized MoreExamples.g_bytes 30 RawStores).
  change (drop RawStores (ins_of MoreExamples.g_bytes 30))
    with [Some 63%nat; Some 64%nat; Some 65%nat].
  repeat (apply Forall_cons; split; [intros _; vm_compute; reflexivity|]).
  apply Forall_nil_2.
Defined.

End OnByteGraph.

End FullwordFacts.

(** ** The merged stores and the merged constant *)

Module MergeChainFacts.
Import Mem MergeStores MergeStoresFacts.

Section WithGraph.
Context `{!VMFlags, !PhaseValues, !Pointers} (g : gmap nat Node).

(** What [find_def_store] has checked of the store it found. *)
Lemma find_def_store_inv (_store use_store d : nat) :
  found_store (find_def_store g _store use_store) = Some d →
  in_ g use_store MemNode_Memory = Some d
  ∧ is_Store g d = true
  ∧ opcode_of g _store = opcode_of g d
  ∧ cfg_status_for_pair g use_store d ≠ Failure
  ∧ found_range_check (find_def_store g _store use_store)
    = bool_decide (cfg_status_for_pair g use_store d = SuccessWithRangeCheck).
Proof.
  unfold find_def_store.
  destruct (in_ g use_store MemNode_Memory) as [d'|]; [|discriminate].
  destruct (is_Store g d') eqn:Hst; [|discriminate].
  destruct (is_compatible_store g _store (Some d')) eqn:Hc; [|discriminate].
  unfold Status_make.
  destruct (decide (cfg_status_for_pair g use_store d' = Failure)) as [|Hcfg];
    [discriminate|].
  cbn. intros [= <-]. apply bool_decide_eq_true in Hc. auto.
Qed.

(** A pair without range check has one control input. *)
Lemma cfg_status_same_control (use_store def_store : nat) :
  cfg_status_for_pair g use_store def_store = SuccessNoRangeCheck →
  in_ g use_store MemNode_Control = in_ g def_store MemNode_Control.
Proof.
  unfold cfg_status_for_pair.
  destruct (in_ g use_store MemNode_Control) as [cu|]; [|discriminate].
  destruct (in_ g def_store MemNode_Control) as [cd|]; [|discriminate].
  destruct (bool_decide_reflect (cu = cd)) as [->|Hne]; [reflexivity|].
  destruct (negb (bool_decide (outcnt g def_store = 2%nat))); [discriminate|].
  destruct (raw_out g def_store _) as [mm|]; [|discriminate].
  destruct (negb (is_MergeMem g mm) || _); [discriminate|].
  destruct (negb (has_opcode g Op_IfTrue cu || has_opcode g Op_IfFalse cu) || _ || _);
    [discriminate|].
  destruct (negb _ || negb _); discriminate.
Qed.

(** The stores the merger puts side by side: each next one is the memory
    input of the one before, a store of the opcode of [_store], right
    before it in memory, and the control flow between the two is one the
    merger accepts; all but the last have one control input. *)
Lemma collect_defs_chain (_store : nat) (vo : ValueOrder) (room : nat) :
  ∀ current,
    let l := current :: collect_defs g _store vo room current in
    (∀ (i : nat) u d, l !! i = Some u → l !! S i = Some d →
       in_ g u MemNode_Memory = Some d
       ∧ is_Store g d = true
       ∧ opcode_of g d = opcode_of g _store
       ∧ is_adjacent_to_and_before d u = true
       ∧ cfg_status_for_pair g u d ≠ Failure)
    ∧ (∀ (i : nat) u, (S i < length l)%nat → l !! i = Some u →
                      in_ g u MemNode_Control = in_ g current MemNode_Control).
Proof.
  induction room as [|room IH]; intros current l.
  - unfold l. cbn. split.
    + intros [|i] u d Hu Hd; discriminate.
    + intros i u Hlen. cbn in Hlen. lia.
  - unfold l. cbn [collect_defs].
    destruct (found_store (find_adjacent_def_store g _store vo current)) as [d|] eqn:Hf.
    2:{ split.
        - intros [|i] u d' Hu Hd; discriminate.
        - intros i u Hlen. cbn in Hlen. lia. }
    pose proof Hf as Hf'.
    apply find_adjacent_def_store_found in Hf' as [Hd Ha].
    destruct (find_def_store_inv _ _ _ Hd) as (Hmem & Hst & Hop & Hcfg & Hrc).
    assert (in_ g current MemNode_Memory = Some d
            ∧ is_Store g d = true
            ∧ opcode_of g d = opcode_of g _store
            ∧ is_adjacent_to_and_before d current = true
            ∧ cfg_status_for_pair g current d ≠ Failure) as Hlink.
    { repeat split; try assumption; [congruence|].
      revert Ha. unfold is_adjacent_pair.
      destruct (in_ g d MemNode_ValueIn); [|discriminate].
      destruct (in_ g current MemNode_ValueIn); [|discriminate].
      destruct (negb _); [discriminate|auto]. }
    assert (found_range_check (find_adjacent_def_store g _store vo current)
            = bool_decide (cfg_status_for_pair g current d = SuccessWithRangeCheck))
      as Hrc'.
    { unfold find_adjacent_def_store. rewrite Hd, Ha. cbn. exact Hrc. }
    rewrite Hrc'.
    destruct (bool_decide_reflect (cfg_status_for_pair g current d = SuccessWithRangeCheck))
      as [Hwith|Hwithout].
    + split.
      * intros [|[|i]] u d' Hu Hd'; try discriminate.
        cbn in Hu, Hd'. injection Hu as <-. injection Hd' as <-. exact Hlink.
      * intros [|[|i]] u Hlen Hu; cbn in Hlen; try lia.
        cbn in Hu. injection Hu as <-. reflexivity.
    + assert (in_ g current MemNode_Control = in_ g d MemNode_Control) as Hctrl.
      { apply cfg_status_same_control.
        destruct (cfg_status_for_pair g current d); congruence. }
      destruct (IH d) as [IH1 IH2]. split.
      * intros [|i] u d' Hu Hd'.
        -- cbn in Hu, Hd'. injection Hu as <-. injection Hd' as <-. exact Hlink.
        -- cbn in Hu, Hd'. apply (IH1 i); assumption.
      * intros [|i] u Hlen Hu.
        -- cbn in Hu. injection Hu as <-. reflexivity.
        -- cbn in Hu, Hlen. rewrite Hctrl. apply (IH2 i); [cbn; lia|assumption].
Qed.

End WithGraph.

(** The stores that [MergePrimitiveStores::run] merges form a chain that
    begins with [_store]: each next one is the memory input of the one
    before, a store of the same opcode that writes right before it, across
    control flow the merger accepts; all but the last have the control
    input of [_store], which the merged store takes, and the merged store
    takes memory and address of the last. *)
Theorem merged_stores_form_a_chain `{!VMFlags, !PhaseValues, !Pointers}
    (g : gmap nat Node) (_store : nat) (ms : merged_store) :
  run g _store = Some ms →
  ms_merged ms !! 0%nat = Some _store
  ∧ (∀ (i : nat) u d, ms_merged ms !! i = Some u → ms_merged ms !! S i = Some d →
       in_ g u MemNode_Memory = Some d
       ∧ is_Store g d = true
       ∧ opcode_of g d = opcode_of g _store
       ∧ is_adjacent_to_and_before d u = true
       ∧ cfg_status_for_pair g u d ≠ Failure)
  ∧ (∀ (i : nat) u, (S i < length (ms_merged ms))%nat → ms_merged ms !! i = Some u →
       in_ g u MemNode_Control = in_ g _store MemNode_Control)
  ∧ ms_ctrl ms = in_ g _store MemNode_Control
  ∧ ms_mem ms = last (ms_merged ms) ≫= (λ f, in_ g f MemNode_Memory)
  ∧ ms_adr ms = last (ms_merged ms) ≫= (λ f, in_ g f MemNode_Address)
  ∧ found_store (find_adjacent_use_store g _store Unknown _store) = None.
Proof.
  unfold run.
  destruct (has_opcode g Op_StoreB _store || has_opcode g Op_StoreC _store
            || has_opcode g Op_StoreI _store) eqn:Hop; simpl; [|discriminate].
  destruct (bool_decide_reflect
              (found_store (find_adjacent_use_store g _store Unknown _store) ≠ None))
    as [|Huse]; [discriminate|].
  destruct (found_store (find_adjacent_def_store g _store Unknown _store))
    as [d|] eqn:Hf; [|discriminate].
  cbn [mbind option_bind].
  destruct (in_ g d MemNode_ValueIn) as [dv|] eqn:Hdv; [|discriminate].
  destruct (in_ g _store MemNode_ValueIn) as [sv|] eqn:Hsv; [|discriminate].
  set (vo := find_adjacent_input_value_order g dv sv (memory_size g _store)).
  destruct (make_merged_input_value g _store vo _) as [v|]; [|discriminate].
  intros [= <-]. cbn [ms_merged ms_ctrl ms_mem ms_adr make_merged_store].
  unfold collect_merge_list, collected_group.
  set (room := (Z.to_nat (8 `quot` memory_size g _store) - 1)%nat).
  set (group := _store :: collect_defs g _store vo room _store).
  destruct (collect_defs_chain g _store vo room _store) as [Hlinks Hctrl].
  fold group in Hlinks, Hctrl.
  assert (0 < round_down_power_of_2 (length group))%nat as Hpos.
  { unfold round_down_power_of_2.
    pose proof (Nat.pow_nonzero 2 (Nat.log2 (length group))). lia. }
  split.
  { rewrite lookup_take_lt by assumption. reflexivity. }
  split.
  { intros i u d' Hu Hd'.
    apply lookup_take_Some in Hu as [Hu _]. apply lookup_take_Some in Hd' as [Hd' _].
    apply (Hlinks i); assumption. }
  split.
  { intros i u Hlen Hu. rewrite length_take in Hlen.
    apply lookup_take_Some in Hu as [Hu _].
    apply (Hctrl i); [lia|assumption]. }
  split; [reflexivity|]. split; [reflexivity|]. split; [reflexivity|].
  destruct (found_store _); [exfalso; apply Huse; discriminate|reflexivity].
Qed.

Section Constants.
Context `{!VMFlags, !PhaseValues, !Pointers} (g : gmap nat Node).

#[local] Abbreviation con_of :=
  (λ st : nat, from_option (get_int g) 0 (in_ g st MemNode_ValueIn)).

Lemma testbit_jlong (z k : Z) :
  0 ≤ k < 64 → Z.testbit (jlong_wrap z) k = Z.testbit z k.
Proof.
  intros Hk. unfold jlong_wrap.
  rewrite <- (Z.mod_pow2_bits_low _ 64 k) by lia.
  rewrite <- (Z.mod_pow2_bits_low z 64 k) by lia.
  f_equal. rewrite Zminus_mod_idemp_l. f_equal. lia.
Qed.

(** The mask of one store. *)
Lemma testbit_mask (bits k : Z) :
  0 < bits ≤ 32 → 0 ≤ k →
  Z.testbit (jlong_wrap (Z.shiftl 1 bits) - 1) k = (k <? bits).
Proof.
  intros Hbits Hk.
  assert (jlong_wrap (Z.shiftl 1 bits) = 2 ^ bits) as ->.
  { rewrite Z.shiftl_1_l. unfold jlong_wrap.
    assert (2 ^ bits ≤ 2 ^ 32) by (apply Z.pow_le_mono_r; lia).
    assert (0 < 2 ^ bits) by (apply Z.pow_pos_nonneg; lia).
    rewrite Z.mod_small by lia. lia. }
  change (2 ^ bits - 1) with (Z.pred (2 ^ bits)).
  rewrite <- Z.ones_equiv, Z.testbit_ones by lia.
  destruct (Z.leb_spec 0 k); [reflexivity|lia].
Qed.

(** Little-endian: the constant of the last store of the list ends up in
    the low bits. *)
Lemma merged_constant_little_endian (bits : Z) (l : list nat) :
  0 < bits ≤ 32 →
  Z.of_nat (length l) * bits ≤ 64 →
  let mask := jlong_wrap (Z.shiftl 1 bits) - 1 in
  let con := foldl (λ con st, Z.lor (jlong_wrap (Z.shiftl con bits))
                                    (Z.land mask (con_of st))) 0 l in
  ∀ (k : nat) s b,
    (k < length l)%nat → 0 ≤ b < bits →
    l !! (length l - 1 - k)%nat = Some s →
    Z.testbit con (Z.of_nat k * bits + b) = Z.testbit (con_of s) b.
Proof.
  intros Hbits. induction l as [|x l IH] using rev_ind; intros Hlen mask con k s b Hk Hb Hs.
  - cbn in Hk. lia.
  - rewrite length_app in Hlen, Hk, Hs. cbn [length] in Hlen, Hk, Hs.
    unfold con. rewrite foldl_snoc.
    set (c := foldl _ 0 l).
    rewrite Z.lor_spec, Z.land_spec.
    assert (0 ≤ Z.of_nat k * bits + b < 64) as Hidx by nia.
    rewrite testbit_jlong by assumption.
    rewrite Z.shiftl_spec by lia.
    fold mask. unfold mask at 1. rewrite testbit_mask by lia.
    destruct k as [|k].
    + replace (length l + 1 - 1 - 0)%nat with (length l) in Hs by lia.
      rewrite lookup_app_r, Nat.sub_diag in Hs by lia. cbn in Hs. injection Hs as <-.
      rewrite Z.testbit_neg_r by lia.
      destruct (Z.ltb_spec (Z.of_nat 0 * bits + b) bits); [|lia].
      cbn [orb andb]. f_equal; lia.
    + destruct (Z.ltb_spec (Z.of_nat (S k) * bits + b) bits); [nia|].
      cbn [andb]. rewrite orb_false_r.
      replace (Z.of_nat (S k) * bits + b - bits) with (Z.of_nat k * bits + b) by lia.
      apply IH; [nia|lia|assumption|].
      rewrite lookup_app_l in Hs by lia.
      replace (length l - 1 - k)%nat with (length l + 1 - 1 - S k)%nat by lia.
      exact Hs.
Qed.

(** Big-endian: the constant of the [i]-th store of the list is shifted
    to the [i]-th group of bits. *)
Lemma merged_constant_big_endian_loop (bits : Z) (l : list nat) :
  0 < bits ≤ 32 →
  let mask := jlong_wrap (Z.shiftl 1 bits) - 1 in
  let step := (λ '(con, i) st,
                 (Z.lor con (jlong_wrap (Z.shiftl (Z.land mask (con_of st)) (i * bits))),
                  i + 1)) in
  ∀ (c i : Z) (i0 : nat),
    i = Z.of_nat i0 →
    ∀ (k : nat) b,
      (Z.of_nat k + 1) * bits ≤ 64 → 0 ≤ b < bits →
      Z.testbit (fst (foldl step (c, i) l)) (Z.of_nat k * bits + b)
      = Z.testbit c (Z.of_nat k * bits + b)
        || match (if (i0 <=? k)%nat then l !! (k - i0)%nat else None) with
           | Some s => Z.testbit (con_of s) b
           | None => false
           end.
Proof.
  intros Hbits mask step. induction l as [|x l IH]; intros c i i0 Hi k b Hk64 Hb.
  - cbn. destruct (i0 <=? k)%nat; rewrite orb_false_r; reflexivity.
  - cbn [foldl]. unfold step at 2.
    rewrite (IH _ (i + 1) (S i0)) by (assumption || lia).
    rewrite Z.lor_spec, <- orb_assoc. f_equal.
    rewrite testbit_jlong by nia.
    rewrite Z.shiftl_spec by nia.
    rewrite Z.land_spec. unfold mask.
    destruct (Nat.leb_spec i0 k) as [Hle|Hgt].
    + destruct (decide (k = i0)) as [->|Hne].
      * replace (Z.of_nat i0 * bits + b - i * bits) with b by nia.
        rewrite testbit_mask by lia.
        destruct (Z.ltb_spec b bits); [|lia]. cbn [andb].
        rewrite Nat.sub_diag. cbn [lookup list_lookup].
        destruct (Nat.leb_spec (S i0) i0); [lia|]. rewrite orb_false_r. reflexivity.
      * rewrite testbit_mask by nia.
        destruct (Z.ltb_spec (Z.of_nat k * bits + b - i * bits) bits); [nia|].
        cbn [andb orb].
        destruct (Nat.leb_spec (S i0) k); [|lia].
        replace (k - i0)%nat with (S (k - S i0)) by lia. reflexivity.
    + rewrite Z.testbit_neg_r by nia. cbn [orb].
      destruct (Nat.leb_spec (S i0) k); [lia|]. reflexivity.
Qed.

End Constants.

(** When the merged stores all store int constants, the merged store
    stores a long constant (narrowed by [ConvL2I] when it is at most four
    bytes wide) in which the bits of each store's constant stand where the
    merged store writes that store's bytes: on a little-endian machine the
    last of the merged stores, the one at the lowest address, gives the
    lowest bits; on a big-endian machine the first one does. *)
Theorem merged_constant_keeps_the_bytes `{!VMFlags, !PhaseValues, !Pointers}
    (g : gmap nat Node) (_store : nat) (ms : merged_store) :
  run g _store = Some ms →
  (∀ s, s ∈ ms_merged ms → opt_is (is_ConI g) (in_ g s MemNode_ValueIn) = true) →
  let bits := memory_size g _store * 8 in
  let n := length (ms_merged ms) in
  ∃ con : Z,
    ms_value ms = (if ms_memory_size ms <=? 4 then ConvL2I (longcon con) else longcon con)
    ∧ ∀ (k : nat) s v b,
        (k < n)%nat → 0 ≤ b < bits →
        ms_merged ms !! (if VM_LITTLE_ENDIAN then n - 1 - k else k)%nat = Some s →
        in_ g s MemNode_ValueIn = Some v →
        Z.testbit con (Z.of_nat k * bits + b) = Z.testbit (get_int g v) b.
Proof.
  intros Hrun Hcon bits n. revert Hrun. unfold run.
  destruct (has_opcode g Op_StoreB _store || has_opcode g Op_StoreC _store
            || has_opcode g Op_StoreI _store) eqn:Hop; simpl; [|discriminate].
  destruct (bool_decide _); [discriminate|].
  destruct (found_store (find_adjacent_def_store g _store Unknown _store))
    as [d|] eqn:Hf; [|discriminate].
  cbn [mbind option_bind].
  destruct (in_ g d MemNode_ValueIn) as [dv|] eqn:Hdv; [|discriminate].
  destruct (in_ g _store MemNode_ValueIn) as [sv|] eqn:Hsv; [|discriminate].
  set (vo := find_adjacent_input_value_order g dv sv (memory_size g _store)).
  pose proof (find_adjacent_def_store_order g _ _ _ _ Hop Hf Hdv Hsv) as Hagain.
  fold vo in Hagain.
  set (merge_list := collect_merge_list g _store vo).
  (* the sizes, as for the merge list *)
  assert (2 ≤ length (collected_group g _store vo)
          ≤ Z.to_nat (8 `quot` memory_size g _store))%nat as [Hlo Hhi].
  { unfold collected_group. cbn [length].
    pose proof (collect_defs_length g _store vo
                  (Z.to_nat (8 `quot` memory_size g _store) - 1) _store) as Hlen.
    assert (2 ≤ Z.to_nat (8 `quot` memory_size g _store))%nat as Hmax.
    { destruct (narrow_store_memory_size g _ Hop) as [[_ ->]|[[_ ->]|[_ ->]]];
        vm_compute; lia. }
    split; [|lia].
    destruct (Z.to_nat (8 `quot` memory_size g _store) - 1)%nat as [|room] eqn:Hroom;
      [lia|].
    cbn [collect_defs]. rewrite Hagain. cbn [length]. lia. }
  destruct (round_down_power_of_2_spec _ Hlo) as [[Hp2 Hple] Hplt].
  assert (length merge_list = round_down_power_of_2 (length (collected_group g _store vo)))
    as Hlen.
  { unfold merge_list, collect_merge_list. rewrite length_take. lia. }
  assert (0 < bits ≤ 32 ∧ Z.of_nat (length merge_list) * bits ≤ 64) as [Hbits Hfit].
  { unfold bits. rewrite Hlen.
    destruct (narrow_store_memory_size g _ Hop) as [[_ Hm]|[[_ Hm]|[_ Hm]]];
      rewrite Hm in Hhi |- *;
      [change (Z.to_nat (8 `quot` 1)) with 8%nat in Hhi
      |change (Z.to_nat (8 `quot` 2)) with 4%nat in Hhi
      |change (Z.to_nat (8 `quot` 4)) with 2%nat in Hhi]; lia. }
  (* the def store is the second of the merged stores *)
  assert (merge_list !! 1%nat = Some d) as Hsecond.
  { unfold merge_list, collect_merge_list. rewrite lookup_take_lt by lia.
    unfold collected_group. cbn [lookup list_lookup].
    destruct (Z.to_nat (8 `quot` memory_size g _store) - 1)%nat as [|room] eqn:Hroom.
    - unfold collected_group in Hlo. rewrite Hroom in Hlo. cbn in Hlo. lia.
    - cbn [collect_defs]. rewrite Hagain. reflexivity. }
  assert (merge_list !! 0%nat = Some _store) as Hfirst.
  { unfold merge_list, collect_merge_list. rewrite lookup_take_lt by lia. reflexivity. }
  intros Hrun.
  assert (ms_merged ms = merge_list) as Hmerged.
  { destruct (make_merged_input_value g _store vo merge_list); [|discriminate].
    injection Hrun as <-. reflexivity. }
  rewrite Hmerged in Hcon. unfold n. rewrite Hmerged.
  assert (is_ConI g sv = true) as Hsvc.
  { specialize (Hcon _store (list_elem_of_lookup_2 _ _ _ Hfirst)).
    rewrite Hsv in Hcon. exact Hcon. }
  assert (is_ConI g dv = true) as Hdvc.
  { specialize (Hcon d (list_elem_of_lookup_2 _ _ _ Hsecond)).
    rewrite Hdv in Hcon. exact Hcon. }
  assert (vo = Const) as Hvo.
  { unfold vo, find_adjacent_input_value_order. rewrite Hdvc, Hsvc. reflexivity. }
  revert Hrun. unfold make_merged_input_value. fold merge_list.
  rewrite Hsv. cbn [opt_is].
  change (has_opcode g Op_ConI sv) with (is_ConI g sv). rewrite Hsvc.
  rewrite Hvo. cbn [andb].
  destruct (decide (Const = Reverse)) as [|_]; [discriminate|].
  set (mask := jlong_wrap (Z.shiftl 1 (memory_size g _store * 8)) - 1).
  set (new_size := memory_size g _store * Z.of_nat (length merge_list)).
  intros Hrun.
  destruct VM_LITTLE_ENDIAN eqn:Hle.
  - set (con := foldl _ 0 merge_list) in Hrun.
    exists con. injection Hrun as <-. cbn [ms_value ms_memory_size make_merged_store].
    fold new_size. split; [destruct (new_size <=? 4); reflexivity|].
    intros k s v b Hk Hb Hs Hv.
    pose proof (merged_constant_little_endian g bits merge_list Hbits Hfit k s b Hk Hb Hs)
      as Hbit.
    cbv beta zeta in Hbit. rewrite Hv in Hbit. exact Hbit.
  - set (con := fst (foldl _ (0, 0) merge_list)) in Hrun.
    exists con. injection Hrun as <-. cbn [ms_value ms_memory_size make_merged_store].
    fold new_size. split; [destruct (new_size <=? 4); reflexivity|].
    intros k s v b Hk Hb Hs Hv.
    pose proof (merged_constant_big_endian_loop g bits merge_list Hbits 0 0 0%nat
                  eq_refl k b ltac:(nia) Hb) as Hbit.
    cbv beta zeta in Hbit. unfold con, mask. fold bits.
    rewrite Hbit. rewrite Z.bits_0. cbn [orb Nat.leb].
    rewrite Nat.sub_0_r, Hs, Hv. reflexivity.
Qed.

Section OnStoreChain.
#[local] Existing Instance Examples.flags.
#[local] Existing Instance Examples.phase_stores.
#[local] Existing Instance Examples.pointers_stores.

(** On [g_stores] the merger of the store 52 merges 52 and 51. *)
Lemma merged_stores_form_a_chain_witness :
  ∃ ms, run Examples.g_stores 52 = Some ms
    ∧ ms_merged ms = [52; 51]%nat
    ∧ ms_merged ms !! 0%nat = Some 52%nat
    ∧ (∀ (i : nat) u d, ms_merged ms !! i = Some u → ms_merged ms !! S i = Some d →
         in_ Examples.g_stores u MemNode_Memory = Some d
         ∧ is_Store Examples.g_stores d = true
         ∧ opcode_of Examples.g_stores d = opcode_of Examples.g_stores 52
         ∧ is_adjacent_to_and_before d u = true
         ∧ cfg_status_for_pair Examples.g_stores u d ≠ Failure)
    ∧ (∀ (i : nat) u, (S i < length (ms_merged ms))%nat → ms_merged ms !! i = Some u →
         in_ Examples.g_stores u MemNode_Control = in_ Examples.g_stores 52 MemNode_Control)
    ∧ ms_ctrl ms = in_ Examples.g_stores 52 MemNode_Control
    ∧ ms_mem ms = last (ms_merged ms) ≫= (λ f, in_ Examples.g_stores f MemNode_Memory)
    ∧ ms_adr ms = last (ms_merged ms) ≫= (λ f, in_ Examples.g_stores f MemNode_Address)
    ∧ found_store (find_adjacent_use_store Examples.g_stores 52 Unknown 52) = None.
Proof.
  eexists. split; [vm_compute; reflexivity|]. split; [reflexivity|].
  apply (merged_stores_form_a_chain Examples.g_stores 52). vm_compute. reflexivity.
Defined.

(** The bytes 3 and 2 of the stores 52 and 51 make the constant 0x0302. *)
Lemma merged_constant_keeps_the_bytes_witness :
  ∃ ms, run Examples.g_stores 52 = Some ms
    ∧ ms_value ms = ConvL2I (longcon 0x0302)
    ∧ ∃ con : Z,
        ms_value ms = (if ms_memory_size ms <=? 4 then ConvL2I (longcon con)
                       else longcon con)
        ∧ ∀ (k : nat) s v b,
            (k < length (ms_merged ms))%nat →
            0 ≤ b < memory_size Examples.g_stores 52 * 8 →
            ms_merged ms !! (if VM_LITTLE_ENDIAN then length (ms_merged ms) - 1 - k
                             else k)%nat = Some s →
            in_ Examples.g_stores s MemNode_ValueIn = Some v →
            Z.testbit con (Z.of_nat k * (memory_size Examples.g_stores 52 * 8) + b)
            = Z.testbit (get_int Examples.g_stores v) b.
Proof.
  eexists. split; [vm_compute; reflexivity|]. split; [reflexivity|].
  apply (merged_constant_keeps_the_bytes Examples.g_stores 52).
  - vm_compute. reflexivity.
  - intros s Hs. cbn [ms_merged] in Hs.
    apply elem_of_cons in Hs as [->|Hs]; [vm_compute; reflexivity|].
    apply elem_of_cons in Hs as [->|Hs]; [vm_compute; reflexivity|].
    inversion Hs.
Defined.

End OnStoreChain.

End MergeChainFacts.

(** ** Stores of narrow values *)

Module NarrowStoreFacts.
Import Edit EditFacts Mem NarrowStore.

(** A constant that covers the mask leaves the masked bits of every
    value as they are. *)
Lemma useless_mask (c mask v : Z) :
  0 ≤ mask < 2 ^ 32 →
  Z.land (c mod 2 ^ 32) mask = mask →
  Z.land (Z.land v c) mask = Z.land v mask.
Proof.
  intros Hmask Hcover. apply Z.bits_inj'. intros k Hk.
  rewrite !Z.land_spec.
  destruct (Z.testbit mask k) eqn:Hbit; [|rewrite !andb_false_r; reflexivity].
  rewrite !andb_true_r.
  assert (k < 32) as Hlt.
  { destruct (Z.lt_ge_cases k 32) as [|Hge]; [assumption|].
    rewrite Z.bits_above_log2 in Hbit; [discriminate|lia|].
    destruct (Z.eq_dec mask 0) as [->|]; [cbn; lia|].
    assert (Z.log2 mask < 32) by (apply Z.log2_lt_pow2; lia). lia. }
  assert (Z.testbit c k = true) as ->; [|apply andb_true_r].
  rewrite <- (Z.mod_pow2_bits_low c 32 k) by lia.
  assert (Z.testbit (Z.land (c mod 2 ^ 32) mask) k = true) as Hc
    by (rewrite Hcover; exact Hbit).
  rewrite Z.land_spec, Hbit, andb_true_r in Hc. exact Hc.
Qed.

(** Shifting left by [L] and then arithmetically right by [R ≤ L] agrees
    with shifting left by [L - R] on the bits below [32 - R]. *)
Lemma useless_sign_extension (v L R k : Z) :
  0 ≤ R ≤ L → L < 32 → 0 ≤ k < 32 - R →
  Z.testbit (jint_sar (jint_shl v L) R) k = Z.testbit (jint_shl v (L - R)) k.
Proof.
  intros HR HL Hk. unfold jint_sar, jint_shl, jint_wrap.
  rewrite Z.shiftr_spec by lia.
  assert (∀ z i, 0 ≤ i < 32 →
            Z.testbit ((z + 2 ^ 31) mod 2 ^ 32 - 2 ^ 31) i = Z.testbit z i) as Hwrap.
  { intros z i Hi.
    rewrite <- (Z.mod_pow2_bits_low _ 32 i) by lia.
    rewrite <- (Z.mod_pow2_bits_low z 32 i) by lia.
    f_equal. rewrite Zminus_mod_idemp_l. f_equal. lia. }
  rewrite !Hwrap by lia.
  rewrite !Z.shiftl_spec by lia. f_equal. lia.
Qed.

Lemma jint_shl_0 (v : Z) : is_jint v → jint_shl v 0 = v.
Proof.
  unfold is_jint, jint_shl, jint_wrap. intros Hv.
  rewrite Z.shiftl_0_r, Z.mod_small by lia. lia.
Qed.

(** When [Ideal_masked_input] rewires the store, the value was an [AndI]
    of some [x] with a constant [c] that has all bits of the mask; the
    store now stores [x], no other edge changes, and the bits of the mask,
    which are what the store writes, are the same in [x] and in [x & c]
    whatever [x] is. *)
Theorem masked_input_keeps_stored_bits `{!VMFlags, !PhaseValues, !MoreOpcodes}
    (g g' : gmap nat Node) (this : nat) (mask : Z) :
  0 ≤ mask < 2 ^ 32 →
  Ideal_masked_input g this mask = Some g' →
  ∃ (val : nat) (c : Z),
    in_ g this MemNode_ValueIn = Some val
    ∧ has_opcode g Op_AndI val = true
    ∧ (in_ g val 2 ≫= λ n, int_con (phase_type n)) = Some c
    ∧ in_ g' this MemNode_ValueIn = in_ g val 1
    ∧ (∀ j, j ≠ MemNode_ValueIn → in_ g' this j = in_ g this j)
    ∧ (∀ m, m ≠ this → g' !! m = g !! m)
    ∧ ∀ x : Z, Z.land (Z.land x c) mask = Z.land x mask.
Proof.
  intros Hmask. unfold Ideal_masked_input.
  destruct (in_ g this MemNode_ValueIn) as [val|] eqn:Hval; [|discriminate].
  destruct (has_opcode g Op_AndI val) eqn:Hand; [|discriminate].
  destruct (in_ g val 2 ≫= λ n, int_con (phase_type n)) as [c|] eqn:Hc; [|discriminate].
  destruct (Z.eqb_spec (Z.land (c mod 2 ^ 32) mask) mask) as [Hcover|]; [|discriminate].
  intros [= <-]. exists val, c.
  split; [reflexivity|]. split; [exact Hand|]. split; [exact Hc|].
  split; [apply in_set_req_eq, in_lt_req with (x := val); exact Hval|].
  split; [intros j Hj; apply in_set_req_other; auto|].
  split; [intros m Hm; apply set_req_lookup_ne; assumption|].
  intros x. apply useless_mask; assumption.
Qed.

(** When [Ideal_sign_extended_input] rewires the store, the value was
    [(x << conIL) >> conIR] with constants [0 ≤ conIR ≤ conIL < 32] and
    [conIR ≤ num_rejected_bits]; the store now stores [x] when the two are
    equal and the new shift [x << (conIL - conIR)] otherwise, no other edge
    changes, and the bits below [32 - num_rejected_bits], which are what
    the store writes, are the same in the old and in the new value. *)
Theorem sign_extended_input_keeps_stored_bits `{!VMFlags, !PhaseValues, !MoreOpcodes}
    (g g' : gmap nat Node) (this : nat) (num_rejected_bits : Z) (new_shl : nat) :
  Ideal_sign_extended_input g this num_rejected_bits new_shl = Some g' →
  ∃ (shr shl : nat) (conIL conIR : Z),
    in_ g this MemNode_ValueIn = Some shr
    ∧ has_opcode g Op_RShiftI shr = true
    ∧ in_ g shr 1 = Some shl
    ∧ is_LShiftI shl = true
    ∧ (in_ g shr 2 ≫= λ n, int_con (phase_type n)) = Some conIR
    ∧ (in_ g shl 2 ≫= λ n, int_con (phase_type n)) = Some conIL
    ∧ 0 ≤ conIR ≤ conIL ∧ conIL < 32 ∧ conIR ≤ num_rejected_bits
    ∧ in_ g' this MemNode_ValueIn
      = (if conIL =? conIR then in_ g shl 1 else Some new_shl)
    ∧ (∀ j, j ≠ MemNode_ValueIn → in_ g' this j = in_ g this j)
    ∧ (∀ m, m ≠ this → g' !! m = g !! m)
    ∧ (∀ x k : Z, 0 ≤ k < 32 - num_rejected_bits →
         Z.testbit (jint_sar (jint_shl x conIL) conIR) k
         = Z.testbit (jint_shl x (conIL - conIR)) k)
    ∧ (∀ x : Z, is_jint x → jint_shl x 0 = x).
Proof.
  unfold Ideal_sign_extended_input, BitsPerJavaInteger.
  destruct (in_ g this MemNode_ValueIn) as [shr|] eqn:Hshr; [|discriminate].
  destruct (has_opcode g Op_RShiftI shr) eqn:Hop; [|discriminate].
  destruct (in_ g shr 2 ≫= λ n, int_con (phase_type n)) as [conIR|] eqn:HR;
    [|discriminate].
  destruct ((0 <=? conIR) && (conIR <? 32) && (conIR <=? num_rejected_bits)) eqn:HcR;
    [|discriminate].
  apply andb_prop in HcR as [HcR HR3]. apply andb_prop in HcR as [HR1 HR2].
  apply Z.leb_le in HR1, HR3. apply Z.ltb_lt in HR2.
  destruct (in_ g shr 1) as [shl|] eqn:Hshl; [|discriminate].
  destruct (is_LShiftI shl) eqn:Hlsh; [|discriminate].
  destruct (in_ g shl 2 ≫= λ n, int_con (phase_type n)) as [conIL|] eqn:HL;
    [|discriminate].
  destruct ((0 <=? conIL) && (conIL <? 32)) eqn:HcL; [|discriminate].
  apply andb_prop in HcL as [HL1 HL2].
  apply Z.leb_le in HL1. apply Z.ltb_lt in HL2.
  assert (MemNode_ValueIn < req g this)%nat as Hlt
    by (apply in_lt_req with (x := shr); exact Hshr).
  intros Hres.
  assert (conIR ≤ conIL
          ∧ g' = set_req g this MemNode_ValueIn
                   (if conIL =? conIR then in_ g shl 1 else Some new_shl)) as [Hle Hg'].
  { destruct (Z.eqb_spec conIL conIR) as [->|Hne].
    - injection Hres as <-. split; [lia|reflexivity].
    - destruct (Z.ltb_spec conIR conIL); [|discriminate].
      injection Hres as <-. split; [lia|reflexivity]. }
  exists shr, shl, conIL, conIR.
  split; [reflexivity|]. split; [exact Hop|]. split; [exact Hshl|].
  split; [exact Hlsh|]. split; [exact HR|]. split; [exact HL|].
  split; [lia|]. split; [lia|]. split; [lia|].
  split; [rewrite Hg'; apply in_set_req_eq; exact Hlt|].
  split; [intros j Hj; rewrite Hg'; apply in_set_req_other; auto|].
  split; [intros m Hm; rewrite Hg'; apply set_req_lookup_ne; assumption|].
  split; [|apply jint_shl_0].
  intros x k Hk. apply useless_sign_extension; lia.
Qed.

Section OnNarrowStores.
#[local] Existing Instance Examples.flags.
#[local] Existing Instance MoreExamples.phase_narrow.
#[local] Existing Instance MoreExamples.opcodes_narrow.

(** The byte store 73 of [x & 255] becomes a store of [x]. *)
Lemma masked_input_keeps_stored_bits_witness :
  ∃ g', Ideal_masked_input MoreExamples.g_narrow 73 255 = Some g'
    ∧ in_ g' 73 MemNode_ValueIn = Some 70%nat
    ∧ ∃ (val : nat) (c : Z),
        in_ MoreExamples.g_narrow 73 MemNode_ValueIn = Some val
        ∧ has_opcode MoreExamples.g_narrow Op_AndI val = true
        ∧ (in_ MoreExamples.g_narrow val 2 ≫= λ n, int_con (phase_type n)) = Some c
        ∧ in_ g' 73 MemNode_ValueIn = in_ MoreExamples.g_narrow val 1
        ∧ (∀ j, j ≠ MemNode_ValueIn → in_ g' 73 j = in_ MoreExamples.g_narrow 73 j)
        ∧ (∀ m, m ≠ 73%nat → g' !! m = MoreExamples.g_narrow !! m)
        ∧ ∀ x : Z, Z.land (Z.land x c) 255 = Z.land x 255.
Proof.
  eexists. split; [vm_compute; reflexivity|]. split; [vm_compute; reflexivity|].
  apply (masked_input_keeps_stored_bits MoreExamples.g_narrow _ 73 255).
  - lia.
  - vm_compute. reflexivity.
Defined.

(** The byte store 77 of [(x << 24) >> 24] becomes a store of [x]. *)
Lemma sign_extended_input_keeps_stored_bits_witness :
  ∃ g', Ideal_sign_extended_input MoreExamples.g_narrow 77 24 0 = Some g'
    ∧ in_ g' 77 MemNode_ValueIn = Some 70%nat
    ∧ ∃ (shr shl : nat) (conIL conIR : Z),
        in_ MoreExamples.g_narrow 77 MemNode_ValueIn = Some shr
        ∧ has_opcode MoreExamples.g_narrow Op_RShiftI shr = true
        ∧ in_ MoreExamples.g_narrow shr 1 = Some shl
        ∧ is_LShiftI shl = true
        ∧ (in_ MoreExamples.g_narrow shr 2 ≫= λ n, int_con (phase_type n)) = Some conIR
        ∧ (in_ MoreExamples.g_narrow shl 2 ≫= λ n, int_con (phase_type n)) = Some conIL
        ∧ 0 ≤ conIR ≤ conIL ∧ conIL < 32 ∧ conIR ≤ 24
        ∧ in_ g' 77 MemNode_ValueIn
          = (if conIL =? conIR then in_ MoreExamples.g_narrow shl 1 else Some 0%nat)
        ∧ (∀ j, j ≠ MemNode_ValueIn → in_ g' 77 j = in_ MoreExamples.g_narrow 77 j)
        ∧ (∀ m, m ≠ 77%nat → g' !! m = MoreExamples.g_narrow !! m)
        ∧ (∀ x k : Z, 0 ≤ k < 32 - 24 →
             Z.testbit (jint_sar (jint_shl x conIL) conIR) k
             = Z.testbit (jint_shl x (conIL - conIR)) k)
        ∧ (∀ x : Z, is_jint x → jint_shl x 0 = x).
Proof.
  eexists. split; [vm_compute; reflexivity|]. split; [vm_compute; reflexivity|].
  apply (sign_extended_input_keeps_stored_bits MoreExamples.g_narrow _ 77 24 0).
  vm_compute. reflexivity.
Defined.

End OnNarrowStores.

End NarrowStoreFacts.

(** ** Loads of shorts and chars *)

Module ShortLoadFacts.
Import Mem ShortLoads.

Lemma sign_extend_short (c : Z) :
  jint_sar (jint_shl c 16) 16 = (c + 32768) mod 65536 - 32768.
Proof.
  unfold jint_sar, jint_shl, jint_wrap.
  rewrite Z.shiftl_mul_pow2, Z.shiftr_div_pow2 by lia.
  replace (c * 2 ^ 16 + 2 ^ 31) with (2 ^ 16 * (c + 32768)) by lia.
  replace (2 ^ 32) with (2 ^ 16 * 65536) by lia.
  rewrite Z.mul_mod_distr_l by lia.
  replace (2 ^ 16 * ((c + 32768) mod 65536) - 2 ^ 31)
    with (((c + 32768) mod 65536 - 32768) * 2 ^ 16) by lia.
  apply Z.div_mul. lia.
Qed.

Lemma zero_extend_short (c : Z) : Z.land c 65535 = c mod 65536.
Proof. change 65535 with (Z.ones 16). rewrite Z.land_ones by lia. reflexivity. Qed.

(** When the store that defines a short or char load wrote an int
    constant [c] that does not fit the load's type, [LoadSNode::Value] is
    the constant type of the sign-extended low 16 bits of [c] and
    [LoadUSNode::Value] the constant type of [c & 0xFFFF]; the two constants
    lie in the ranges of [TypeInt::SHORT] and [TypeInt::CHAR]. *)
Theorem short_load_truncates `{!VMFlags, !PhaseValues}
    (g : gmap nat Node) (this mem value : nat) (fuel : nat) :
  in_ g this MemNode_Memory = Some mem →
  can_see_stored_value g fuel this mem = Some (Some value) →
  is_Con g value = true →
  higher_equal (bottom_type_of g value) (bottom_type_of g this) = false →
  let c := get_int g value in
  LoadSNode_Value g fuel this = Some (TypeInt_make ((c + 32768) mod 65536 - 32768))
  ∧ jint_sar (jint_shl c 16) 16 = (c + 32768) mod 65536 - 32768
  ∧ LoadUSNode_Value g fuel this = Some (TypeInt_make (c mod 65536))
  ∧ Z.land c 65535 = c mod 65536
  ∧ higher_equal (TypeInt_make ((c + 32768) mod 65536 - 32768)) TypeInt_SHORT = true
  ∧ higher_equal (TypeInt_make (c mod 65536)) TypeInt_CHAR = true.
Proof.
  intros Hmem Hsee Hcon Hfit c.
  unfold LoadSNode_Value, LoadUSNode_Value.
  rewrite Hmem, Hsee. cbn. rewrite Hcon, Hfit. cbn. fold c.
  rewrite sign_extend_short, zero_extend_short.
  split; [reflexivity|]. split; [reflexivity|]. split; [reflexivity|].
  split; [reflexivity|].
  pose proof (Z.mod_pos_bound (c + 32768) 65536 ltac:(lia)).
  pose proof (Z.mod_pos_bound c 65536 ltac:(lia)).
  split; apply andb_true_intro; split; apply Z.leb_le; lia.
Qed.

Section OnShortGraph.
#[local] Existing Instance Examples.flags.
#[local] Existing Instance MoreExamples.phase_short.

(** Storing the int constant 0x12345 and loading the char back gives
    0x2345, signed (load 16) and unsigned (load 17). *)
Lemma short_load_truncates_witness :
  (let c := get_int MoreExamples.g_short 14 in
   LoadSNode_Value MoreExamples.g_short 1 16
   = Some (TypeInt_make ((c + 32768) mod 65536 - 32768))
   ∧ jint_sar (jint_shl c 16) 16 = (c + 32768) mod 65536 - 32768
   ∧ LoadUSNode_Value MoreExamples.g_short 1 16 = Some (TypeInt_make (c mod 65536))
   ∧ Z.land c 65535 = c mod 65536
   ∧ higher_equal (TypeInt_make ((c + 32768) mod 65536 - 32768)) TypeInt_SHORT = true
   ∧ higher_equal (TypeInt_make (c mod 65536)) TypeInt_CHAR = true)
  ∧ LoadSNode_Value MoreExamples.g_short 1 16 = Some (TypeInt_make 0x2345)
  ∧ LoadUSNode_Value MoreExamples.g_short 1 17 = Some (TypeInt_make 0x2345).
Proof.
  split.
  - apply (short_load_truncates MoreExamples.g_short 16 15 14 1); vm_compute; reflexivity.
  - split; vm_compute; reflexivity.
Defined.

End OnShortGraph.

End ShortLoadFacts.

(** ** MergeMemNode: flattening chained merges *)

Module MergeMemFlattenFacts.
Import Edit EditFacts MergeMem MergeMemFacts MergeMemViewFacts MergeMemSpec.

Section WithPhase.
Context `{!VMFlags, !PhaseValues}.

Lemma memory_at_ext (g1 g2 : gmap nat Node) m i :
  g1 !! m = g2 !! m → Mem.memory_at g1 m i = Mem.memory_at g2 m i.
Proof.
  intros Heq. unfold Mem.memory_at, Mem.base_memory, in_, req. rewrite Heq. reflexivity.
Qed.

Lemma is_MergeMem_ext (g1 g2 : gmap nat Node) m :
  g1 !! m = g2 !! m → is_MergeMem g1 m = is_MergeMem g2 m.
Proof.
  intros Heq. unfold is_MergeMem, node_is, opcode_of. rewrite Heq. reflexivity.
Qed.

(** The slot [e] of a merge read relative to the base [nb]. *)
#[local] Abbreviation slot_view nb e :=
  (if bool_decide (e = empty_memory) then nb else e).

Lemma memory_at_slot_view (g : gmap nat Node) this i :
  (i < req g this)%nat →
  Mem.memory_at g this i = slot_view (Mem.base_memory g this) (in_ g this i).
Proof.
  intros Hlt. unfold Mem.memory_at, Mem.is_empty_memory, empty_memory.
  rewrite (bool_decide_eq_true_2 (i < req g this)%nat) by assumption. reflexivity.
Qed.

(** One trip of the loop over the slices: the slot, read relative to the
    new base, is what the slice read through the chained merge. *)
Lemma Ideal_slice_view this ob nb (g : gmap nat Node) p i :
  (i < req g this)%nat →
  ob = Mem.base_memory g this →
  Mem.memory_at g this i ≠ Some this →
  memory_through g this i ≠ empty_memory →
  slot_view nb (in_ (Ideal_slice this ob nb (g, p) i).1 this i)
  = memory_through g this i.
Proof.
  intros Hlt -> Hself Hne. unfold memory_through in *.
  rewrite memory_at_slot_view in * by assumption.
  unfold Ideal_slice.
  set (old_mem := slot_view (Mem.base_memory g this) (in_ g this i)) in *.
  set (new_mem := match match old_mem with
                        | Some m => if is_MergeMem g m then Some m else None
                        | None => None
                        end with
                  | Some m => _
                  | None => old_mem
                  end).
  assert (new_mem = match old_mem with
                    | Some m => if is_MergeMem g m then Mem.memory_at g m i else Some m
                    | None => None
                    end) as Hnew.
  { unfold new_mem. destruct old_mem as [m|]; [|reflexivity].
    destruct (is_MergeMem g m); [|reflexivity].
    rewrite bool_decide_eq_false_2 by congruence. reflexivity. }
  rewrite <- Hnew in *. clearbody new_mem.
  set (new_in := if bool_decide (new_mem = nb) then empty_memory else new_mem).
  assert (in_ (if bool_decide (new_in ≠ in_ g this i)
               then (set_req g this i new_in, true) else (g, p)).1 this i = new_in) as ->.
  { destruct (bool_decide_reflect (new_in ≠ in_ g this i)) as [Hch|Hsame]; cbn [fst].
    - apply in_set_req_eq. assumption.
    - apply dec_stable in Hsame. symmetry. exact Hsame. }
  unfold new_in. destruct (bool_decide_reflect (new_mem = nb)) as [He|Hn].
  - rewrite bool_decide_eq_true_2 by reflexivity. symmetry. exact He.
  - rewrite bool_decide_eq_false_2 by assumption. reflexivity.
Qed.

Lemma memory_through_ext (g1 g2 : gmap nat Node) this i :
  (∀ m, m ≠ this → g1 !! m = g2 !! m) →
  (∀ m, is_MergeMem g1 m = is_MergeMem g2 m) →
  Mem.memory_at g1 this i = Mem.memory_at g2 this i →
  Mem.memory_at g2 this i ≠ Some this →
  memory_through g1 this i = memory_through g2 this i.
Proof.
  intros Hfr Hmm Hat Hself. unfold memory_through. rewrite Hat.
  destruct (Mem.memory_at g2 this i) as [m|]; [|reflexivity].
  rewrite Hmm. destruct (is_MergeMem g2 m); [|reflexivity].
  apply memory_at_ext, Hfr. congruence.
Qed.

(** The loop over the slices. *)
Lemma Ideal_slices_view this ob nb (l : list nat) :
  ∀ (g : gmap nat Node) p g' p',
    foldl (Ideal_slice this ob nb) (g, p) l = (g', p') →
    List.NoDup l →
    (∀ i, In i l → (AliasIdxBot < i < req g this)%nat) →
    ob = Mem.base_memory g this →
    ∀ i, In i l →
      Mem.memory_at g this i ≠ Some this →
      memory_through g this i ≠ empty_memory →
      slot_view nb (in_ g' this i) = memory_through g this i.
Proof.
  induction l as [|j l IH]; intros g p g' p' Hfold Hnd Hrange Hob i Hi Hself Hne.
  - destruct Hi.
  - cbn [foldl] in Hfold.
    destruct (Ideal_slice this ob nb (g, p) j) as [g1 p1] eqn:Hstep.
    pose proof Hstep as Hspec.
    apply Ideal_slice_spec in Hspec as (F1 & F2 & F3 & F4 & _ & _).
    apply List.NoDup_cons_iff in Hnd as [Hnj Hnd].
    destruct (decide (i = j)) as [->|Hij].
    + pose proof (Ideal_slices_spec this ob nb l g1 p1 g' p' Hfold Hnd)
        as (_ & _ & _ & G4 & _ & _).
      rewrite G4 by assumption.
      replace g1 with (Ideal_slice this ob nb (g, p) j).1 by (rewrite Hstep; reflexivity).
      apply Ideal_slice_view; try assumption.
      apply Hrange. left. reflexivity.
    + destruct Hi as [Hi|Hi]; [congruence|].
      assert (j ≠ AliasIdxBot) as Hjb.
      { specialize (Hrange j (or_introl eq_refl)). lia. }
      assert (Mem.memory_at g1 this i = Mem.memory_at g this i) as Hat.
      { unfold Mem.memory_at, Mem.base_memory.
        rewrite F3, !F4 by congruence. reflexivity. }
      assert (memory_through g1 this i = memory_through g this i) as Hthr.
      { apply memory_through_ext; try assumption.
        intros m. apply F2. }
      rewrite <- Hthr. apply (IH g1 p1 g' p'); try assumption.
      * intros k Hk. rewrite F3. apply Hrange. right. assumption.
      * unfold Mem.base_memory. rewrite F4 by congruence. exact Hob.
      * rewrite Hat. assumption.
      * rewrite Hthr. assumption.
Qed.

Lemma memory_at_not_self (g : gmap nat Node) this i :
  Forall (λ e, e ≠ Some this) (ins_of g this) →
  Mem.memory_at g this i ≠ Some this.
Proof.
  intros Hall.
  assert (∀ k, in_ g this k ≠ Some this) as Hin.
  { intros k Hk. rewrite in_ins_of in Hk.
    destruct (ins_of g this !! k) as [e|] eqn:He; [|discriminate].
    cbn in Hk. subst e.
    rewrite Forall_forall in Hall. apply (Hall (Some this)); [|reflexivity].
    apply list_elem_of_lookup. exists k. exact He. }
  unfold Mem.memory_at, Mem.base_memory, Mem.is_empty_memory.
  destruct (bool_decide_reflect (i < req g this)%nat).
  - destruct (bool_decide_reflect (in_ g this i = Some C_top)); apply Hin.
  - rewrite bool_decide_eq_true_2 by reflexivity. apply Hin.
Qed.

Lemma memory_at_beyond (g : gmap nat Node) m i :
  (i < req g m → in_ g m i = empty_memory)%nat →
  Mem.memory_at g m i = Mem.base_memory g m.
Proof.
  intros Hin. unfold Mem.memory_at, Mem.is_empty_memory.
  destruct (bool_decide_reflect (i < req g m)%nat) as [Hlt|Hge].
  - rewrite (Hin Hlt). unfold empty_memory.
    rewrite bool_decide_eq_true_2 by reflexivity. reflexivity.
  - rewrite bool_decide_eq_true_2 by reflexivity. reflexivity.
Qed.

(** The base that [Ideal] gives the merge: the base of its base when that
    is a MergeMem. *)
#[local] Abbreviation flattened_base g this :=
  (match Mem.base_memory g this with
   | Some b => if is_MergeMem g b then Mem.base_memory g b else Some b
   | None => None
   end).

(** The first part of [Ideal]. *)
Lemma Ideal_flatten_views (g : gmap nat Node) this g1 p1 :
  (AliasIdxBot < req g this)%nat →
  Forall (λ e, e ≠ Some this) (ins_of g this) →
  Ideal_flatten g this = (g1, p1) →
  (∀ m, m ≠ this → g1 !! m = g !! m)
  ∧ (∀ q m, node_is g1 q m = node_is g q m)
  ∧ Mem.base_memory g1 this = flattened_base g this
  ∧ (∀ i, (AliasIdxRaw ≤ i)%nat → memory_through g this i ≠ empty_memory →
          Mem.memory_at g1 this i = memory_through g this i)
  ∧ (p1 = false →
     (∀ b, Mem.base_memory g this = Some b → is_MergeMem g b = true →
           Mem.base_memory g b ≠ Some b) →
     g1 = g).
Proof.
  intros Hbot Hself. unfold Ideal_flatten.
  set (ob := Mem.base_memory g this).
  set (omb := match ob with
              | Some b => if is_MergeMem g b then Some b else None
              | None => None
              end).
  set (nb := match omb with Some b => Mem.base_memory g b | None => ob end).
  set (g0 := match omb with Some b => grow_to_match g this b | None => g end).
  assert (nb = flattened_base g this) as Hnb.
  { unfold nb, omb. fold ob. destruct ob as [b|]; [|reflexivity].
    destruct (is_MergeMem g b); reflexivity. }
  assert ((∀ m, m ≠ this → g0 !! m = g !! m)
          ∧ (∀ q m, node_is g0 q m = node_is g q m)
          ∧ (req g this ≤ req g0 this)%nat
          ∧ (∀ j, (j < req g this)%nat → in_ g0 this j = in_ g this j)
          ∧ (∀ j, Mem.memory_at g0 this j = Mem.memory_at g this j)
          ∧ (∀ i, (req g0 this ≤ i)%nat → memory_through g this i = nb)
          ∧ ((∀ b, ob = Some b → is_MergeMem g b = true →
                   Mem.base_memory g b ≠ Some b) → nb = ob → g0 = g))
    as (Z1 & Z2 & Z3 & Z4 & Z5 & Z6 & Z7).
  { assert (∀ i, (req g this ≤ i)%nat → Mem.memory_at g this i = ob) as Hout.
    { intros i Hi. apply memory_at_beyond. lia. }
    unfold g0, nb, omb. destruct ob as [b|] eqn:Hob.
    - destruct (is_MergeMem g b) eqn:Hmm.
      + destruct (grow_to_match_spec g this b) as (F1 & F2 & F3 & F4).
        destruct (grow_to_match_views g this b Hbot) as (Hcov & _ & Hview).
        repeat (split; [assumption|]). split.
        * intros i Hi. unfold memory_through. rewrite Hout by lia.
          rewrite Hmm. apply memory_at_beyond. intros Hlt. apply Hcov. lia.
        * intros Hcyc Heq. exfalso. apply (Hcyc b eq_refl Hmm). exact Heq.
      + repeat (split; [reflexivity || (intros; reflexivity) || lia|]). split.
        * intros i Hi. unfold memory_through. rewrite Hout by lia.
          rewrite Hmm. reflexivity.
        * reflexivity.
    - repeat (split; [reflexivity || (intros; reflexivity) || lia|]). split.
      + intros i Hi. unfold memory_through. rewrite Hout by lia. reflexivity.
      + reflexivity. }
  clearbody g0 nb. clear omb.
  destruct (foldl (Ideal_slice this ob nb) (g0, false) (slices g0 this))
    as [g2 p2] eqn:Hfold.
  pose proof (Ideal_slices_spec this ob nb _ _ _ _ _ Hfold (slices_NoDup g0 this))
    as (S1 & S2 & S3 & S4 & _ & S6).
  pose proof (Ideal_slices_view this ob nb _ _ _ _ _ Hfold (slices_NoDup g0 this))
    as Hview.
  assert (in_ g2 this AliasIdxBot = ob) as Hb2.
  { rewrite S4; [apply Z4; assumption|].
    rewrite slices_spec. unfold AliasIdxRaw, AliasIdxBot. lia. }
  set (r := if bool_decide (nb ≠ ob)
            then (set_req g2 this AliasIdxBot nb, true) else (g2, p2)).
  assert ((∀ m, m ≠ this → r.1 !! m = g2 !! m)
          ∧ (∀ q m, node_is r.1 q m = node_is g2 q m)
          ∧ req r.1 this = req g2 this
          ∧ (∀ j, j ≠ AliasIdxBot → in_ r.1 this j = in_ g2 this j)
          ∧ Mem.base_memory r.1 this = nb
          ∧ (r.2 = false → nb = ob ∧ r.1 = g2 ∧ p2 = false))
    as (R1 & R2 & R3 & R4 & R5 & R6).
  { unfold r. destruct (bool_decide_reflect (nb ≠ ob)) as [Hch|Hsame]; cbn [fst snd].
    - split; [intros; apply set_req_lookup_ne; assumption|].
      split; [intros; apply node_is_set_req|].
      split; [apply req_set_req|].
      split; [intros; apply in_set_req_other; congruence|].
      split; [|discriminate].
      apply in_set_req_eq. rewrite S3. lia.
    - apply dec_stable in Hsame.
      repeat (split; [reflexivity || (intros; reflexivity)|]).
      split; [unfold Mem.base_memory; congruence|].
      intros ->. repeat split; auto. }
  clearbody r. intros ->. cbn [fst snd] in *.
  split; [intros m Hm; rewrite R1, S1, Z1 by assumption; reflexivity|].
  split; [intros q m; rewrite R2, S2, Z2; reflexivity|].
  split; [rewrite R5; exact Hnb|].
  split.
  - intros i Hi Hne.
    destruct (decide (i < req g0 this)%nat) as [Hlt|Hge].
    + rewrite memory_at_slot_view by (rewrite R3, S3; assumption).
      rewrite R5, R4 by (unfold AliasIdxRaw, AliasIdxBot in *; lia).
      assert (memory_through g0 this i = memory_through g this i) as Hthr.
      { apply memory_through_ext; try assumption.
        - intros m. apply Z2.
        - apply Z5.
        - apply memory_at_not_self. assumption. }
      rewrite <- Hthr. apply Hview.
      * intros k Hk. apply slices_spec in Hk.
        unfold AliasIdxRaw, AliasIdxBot in *. lia.
      * unfold Mem.base_memory. symmetry. apply Z4. assumption.
      * apply slices_spec. lia.
      * rewrite Z5. apply memory_at_not_self. assumption.
      * rewrite Hthr. assumption.
    + rewrite Z6 by lia. rewrite <- R5. apply memory_at_beyond.
      rewrite R3, S3. lia.
  - intros Hp Hcyc. destruct (R6 Hp) as (Heq & -> & ->).
    destruct S6 as [?|[_ ->]]; [discriminate|].
    apply Z7; assumption.
Qed.

End WithPhase.

(** [MergeMemNode::Ideal] on a merge that is not its own input and whose
    base, when that is a MergeMem, has a live base that is not a MergeMem:
    the base becomes the base of the chained base, every slice reads what
    it read through the chained merges before (unless that was the empty
    sentinel, the state of a dead merge), no other node changes, and when
    no progress is reported the graph is as it was. *)
Theorem Ideal_keeps_chained_views `{!VMFlags, !PhaseValues, !GVN}
    (g : gmap nat Node) (this : nat) (can_reshape : bool) :
  is_MergeMem g this = true →
  (AliasIdxBot < req g this)%nat →
  Mem.base_memory g this ≠ empty_memory →
  Forall (λ e, e ≠ Some this) (ins_of g this) →
  (∀ b, Mem.base_memory g this = Some b → is_MergeMem g b = true →
        Mem.base_memory g b ≠ empty_memory
        ∧ opt_is (is_MergeMem g) (Mem.base_memory g b) = false) →
  let r := Ideal g this can_reshape in
  (∀ m, m ≠ this → r.1 !! m = g !! m)
  ∧ Mem.base_memory r.1 this
    = match Mem.base_memory g this with
      | Some b => if is_MergeMem g b then Mem.base_memory g b else Some b
      | None => None
      end
  ∧ (∀ i, (AliasIdxRaw ≤ i)%nat → memory_through g this i ≠ empty_memory →
          Mem.memory_at r.1 this i = memory_through g this i)
  ∧ (r.2 = false → r.1 = g).
Proof.
  intros Hmmt Hbot Hlive Hself Hchain r. unfold r, Ideal.
  rewrite bool_decide_eq_false_2 by assumption.
  destruct (Ideal_flatten g this) as [g1 p1] eqn:Hfl.
  destruct (Ideal_flatten_views g this g1 p1 Hbot Hself Hfl) as (F1 & F2 & F3 & F4 & F5).
  assert (Mem.base_memory g1 this ≠ empty_memory
          ∧ Mem.base_memory g1 this ≠ Some this
          ∧ opt_is (is_MergeMem g1) (Mem.base_memory g1 this) = false)
    as (Hb1 & Hb2 & Hb3).
  { rewrite F3.
    assert (∀ o, opt_is (is_MergeMem g1) o = opt_is (is_MergeMem g) o) as Hopt.
    { intros [m|]; [apply F2|reflexivity]. }
    rewrite Hopt.
    pose proof (memory_at_not_self g this (req g this) Hself) as Hns.
    rewrite memory_at_beyond in Hns by lia.
    destruct (Mem.base_memory g this) as [b|] eqn:Hob.
    - destruct (is_MergeMem g b) eqn:Hmm.
      + destruct (Hchain b eq_refl Hmm) as [Hl Hn].
        split; [assumption|]. split; [|assumption].
        intros Heq. rewrite Heq in Hn. cbn in Hn. congruence.
      + split; [assumption|]. split; [assumption|]. cbn. exact Hmm.
    - split; [assumption|]. split; [assumption|]. reflexivity. }
  assert (Ideal_cycles g1 this = g1) as ->.
  { unfold Ideal_cycles. rewrite bool_decide_eq_false_2 by assumption.
    destruct (Mem.base_memory g1 this) as [m|]; [|reflexivity].
    cbn in Hb3. rewrite Hb3. reflexivity. }
  unfold Ideal_dead_path. rewrite bool_decide_eq_false_2 by assumption.
  cbn [fst snd].
  split; [exact F1|]. split; [exact F3|]. split; [exact F4|].
  intros Hp. apply F5; [assumption|].
  intros b Hb Hmm Heq. destruct (Hchain b Hb Hmm) as [_ Hn].
  rewrite Heq in Hn. cbn in Hn. congruence.
Qed.

Section OnChainedMerges.
#[local] Existing Instance Examples.flags.
#[local] Existing Instance Examples.phase_merge.
#[local] Existing Instance Examples.gvn_idle.

(** The merge 21 has the merge 12 over [X] as its base and the merge 11,
    which has [A] at slice 3, as its slice 3: afterwards its base is [X]
    and it reads [A] at slice 3. *)
Lemma Ideal_keeps_chained_views_witness :
  (let r := Ideal ChainExamples.g_chain 21 true in
   (∀ m, m ≠ 21%nat → r.1 !! m = ChainExamples.g_chain !! m)
   ∧ Mem.base_memory r.1 21
     = match Mem.base_memory ChainExamples.g_chain 21 with
       | Some b => if is_MergeMem ChainExamples.g_chain b
                   then Mem.base_memory ChainExamples.g_chain b else Some b
       | None => None
       end
   ∧ (∀ i, (AliasIdxRaw ≤ i)%nat →
           memory_through ChainExamples.g_chain 21 i ≠ empty_memory →
           Mem.memory_at r.1 21 i = memory_through ChainExamples.g_chain 21 i)
   ∧ (r.2 = false → r.1 = ChainExamples.g_chain))
  ∧ Mem.base_memory (Ideal ChainExamples.g_chain 21 true).1 21 = Some 13%nat
  ∧ Mem.memory_at (Ideal ChainExamples.g_chain 21 true).1 21 3 = Some 14%nat.
Proof.
  split.
  - apply (Ideal_keeps_chained_views ChainExamples.g_chain 21 true).
    + vm_compute. reflexivity.
    + vm_compute. lia.
    + vm_compute. discriminate.
    + assert (ins_of ChainExamples.g_chain 21 = [None; Some 0; Some 12; Some 11]%nat)
        as -> by (vm_compute; reflexivity).
      repeat constructor; discriminate.
    + intros b Hb _. vm_compute in Hb. injection Hb as <-.
      split; [vm_compute; discriminate|vm_compute; reflexivity].
  - split; vm_compute; reflexivity.
Defined.

End OnChainedMerges.

End MergeMemFlattenFacts.

(** ** MergeMemNode: applying [Ideal] twice *)

Module MergeMemIdempotenceFacts.
Import Edit EditFacts MergeMem MergeMemFacts MergeMemViewFacts MergeMemSpec
  MergeMemFlattenFacts.

Section WithPhase.
Context `{!VMFlags, !PhaseValues}.

#[local] Abbreviation slot_view nb e :=
  (if bool_decide (e = empty_memory) then nb else e).

(** One trip: the slot afterwards is empty or no MergeMem. *)
Lemma Ideal_slice_shallow this ob nb (g : gmap nat Node) p i x :
  (i < req g this)%nat →
  (∀ m, slot_view ob (in_ g this i) = Some m → m ≠ this → is_MergeMem g m = true →
        opt_is (is_MergeMem g) (Mem.memory_at g m i) = false) →
  in_ (Ideal_slice this ob nb (g, p) i).1 this i = Some x →
  x ≠ C_top →
  is_MergeMem g x = false.
Proof.
  intros Hlt Hsh. unfold Ideal_slice.
  set (old_mem := slot_view ob (in_ g this i)) in *.
  set (new_mem := match match old_mem with
                        | Some m => if is_MergeMem g m then Some m else None
                        | None => None
                        end with
                  | Some m => _
                  | None => old_mem
                  end).
  set (new_in := if bool_decide (new_mem = nb) then empty_memory else new_mem).
  assert (in_ (if bool_decide (new_in ≠ in_ g this i)
               then (set_req g this i new_in, true) else (g, p)).1 this i = new_in) as ->.
  { destruct (bool_decide_reflect (new_in ≠ in_ g this i)) as [Hch|Hsame]; cbn [fst].
    - apply in_set_req_eq. assumption.
    - apply dec_stable in Hsame. symmetry. exact Hsame. }
  assert (new_mem = empty_memory ∨ new_mem = nb
          ∨ opt_is (is_MergeMem g) new_mem = false) as Hnew.
  { unfold new_mem. destruct old_mem as [m|] eqn:Hom; [|right; right; reflexivity].
    destruct (is_MergeMem g m) eqn:Hmm; [|right; right; exact Hmm].
    destruct (bool_decide_reflect (m = this)) as [->|Hne].
    - destruct (_ || _); auto.
    - right. right. apply Hsh; auto. }
  unfold new_in. intros Hx Htop.
  destruct (bool_decide_reflect (new_mem = nb)) as [_|Hnb].
  { unfold empty_memory in Hx. congruence. }
  destruct Hnew as [He|[?|Hn]]; [|contradiction|].
  - unfold empty_memory in He. congruence.
  - rewrite Hx in Hn. exact Hn.
Qed.

(** The loop over the slices. *)
Lemma Ideal_slices_shallow this ob nb (l : list nat) :
  ∀ (g : gmap nat Node) p g' p',
    foldl (Ideal_slice this ob nb) (g, p) l = (g', p') →
    List.NoDup l →
    (∀ i, In i l → (AliasIdxBot < i < req g this)%nat) →
    (∀ i m, In i l → slot_view ob (in_ g this i) = Some m → m ≠ this →
            is_MergeMem g m = true →
            opt_is (is_MergeMem g) (Mem.memory_at g m i) = false) →
    ∀ i x, In i l → in_ g' this i = Some x → x ≠ C_top → is_MergeMem g x = false.
Proof.
  induction l as [|j l IH]; intros g p g' p' Hfold Hnd Hrange Hsh i x Hi Hin Htop.
  - destruct Hi.
  - cbn [foldl] in Hfold.
    destruct (Ideal_slice this ob nb (g, p) j) as [g1 p1] eqn:Hstep.
    pose proof Hstep as Hspec.
    apply Ideal_slice_spec in Hspec as (F1 & F2 & F3 & F4 & _ & _).
    apply List.NoDup_cons_iff in Hnd as [Hnj Hnd].
    destruct (decide (i = j)) as [->|Hij].
    + pose proof (Ideal_slices_spec this ob nb l g1 p1 g' p' Hfold Hnd)
        as (_ & _ & _ & G4 & _ & _).
      rewrite G4 in Hin by assumption.
      apply (Ideal_slice_shallow this ob nb g p j x); try assumption.
      * apply Hrange. left. reflexivity.
      * intros m. apply (Hsh j m). left. reflexivity.
      * rewrite Hstep. exact Hin.
    + destruct Hi as [Hi|Hi]; [congruence|].
      assert (is_MergeMem g x = is_MergeMem g1 x) as -> by (symmetry; apply F2).
      apply (IH g1 p1 g' p' Hfold Hnd) with (i := i); try assumption.
      * intros k Hk. rewrite F3. apply Hrange. right. assumption.
      * intros k m Hk Hm Hne Hmm.
        assert (k ≠ j) as Hkj by (intros ->; contradiction).
        rewrite F4 in Hm by assumption.
        assert (is_MergeMem g m = true) as Hmm' by (rewrite <- Hmm; symmetry; apply F2).
        assert (Mem.memory_at g1 m k = Mem.memory_at g m k) as ->
          by (apply memory_at_ext, F1; assumption).
        assert (∀ o, opt_is (is_MergeMem g1) o = opt_is (is_MergeMem g) o) as ->
          by (intros [y|]; [apply F2|reflexivity]).
        apply (Hsh k m); [right| | |]; assumption.
Qed.

(** The base that [Ideal] gives the merge: the base of its base when that
    is a MergeMem. *)
#[local] Abbreviation flattened_base g this :=
  (match Mem.base_memory g this with
   | Some b => if is_MergeMem g b then Mem.base_memory g b else Some b
   | None => None
   end).

(** The first part of [Ideal] on shallow chains: afterwards no slice is a
    MergeMem. *)
Lemma Ideal_flatten_shallow (g : gmap nat Node) this g1 p1 :
  (AliasIdxBot < req g this)%nat →
  shallow g this →
  Ideal_flatten g this = (g1, p1) →
  (∀ q m, node_is g1 q m = node_is g q m)
  ∧ Mem.base_memory g1 this = flattened_base g this
  ∧ (req g this ≤ req g1 this)%nat
  ∧ (∀ i x, (AliasIdxRaw ≤ i)%nat → in_ g1 this i = Some x → x ≠ C_top →
            is_MergeMem g1 x = false).
Proof.
  intros Hbot [_ Hsh]. unfold Ideal_flatten.
  set (ob := Mem.base_memory g this).
  set (omb := match ob with
              | Some b => if is_MergeMem g b then Some b else None
              | None => None
              end).
  set (nb := match omb with Some b => Mem.base_memory g b | None => ob end).
  set (g0 := match omb with Some b => grow_to_match g this b | None => g end).
  assert (nb = flattened_base g this) as Hnb.
  { unfold nb, omb. fold ob. destruct ob as [b|]; [|reflexivity].
    destruct (is_MergeMem g b); reflexivity. }
  assert ((∀ m, m ≠ this → g0 !! m = g !! m)
          ∧ (∀ q m, node_is g0 q m = node_is g q m)
          ∧ (req g this ≤ req g0 this)%nat
          ∧ (∀ j, (j < req g this)%nat → in_ g0 this j = in_ g this j)
          ∧ (∀ j, Mem.memory_at g0 this j = Mem.memory_at g this j))
    as (Z1 & Z2 & Z3 & Z4 & Z5).
  { unfold g0, omb. destruct ob as [b|] eqn:Hob.
    - destruct (is_MergeMem g b) eqn:Hmm.
      + destruct (grow_to_match_spec g this b) as (F1 & F2 & F3 & F4).
        destruct (grow_to_match_views g this b Hbot) as (_ & _ & Hview).
        repeat (split; [assumption|]). assumption.
      + repeat (split; [reflexivity || (intros; reflexivity) || lia|]).
        intros; reflexivity.
    - repeat (split; [reflexivity || (intros; reflexivity) || lia|]).
      intros; reflexivity. }
  clearbody g0 nb. clear omb.
  destruct (foldl (Ideal_slice this ob nb) (g0, false) (slices g0 this))
    as [g2 p2] eqn:Hfold.
  pose proof (Ideal_slices_spec this ob nb _ _ _ _ _ Hfold (slices_NoDup g0 this))
    as (S1 & S2 & S3 & S4 & _ & S6).
  pose proof (Ideal_slices_shallow this ob nb _ _ _ _ _ Hfold (slices_NoDup g0 this))
    as Hslots.
  set (r := if bool_decide (nb ≠ ob)
            then (set_req g2 this AliasIdxBot nb, true) else (g2, p2)).
  assert (in_ g2 this AliasIdxBot = ob) as Hb2.
  { rewrite S4; [apply Z4; assumption|].
    rewrite slices_spec. unfold AliasIdxRaw, AliasIdxBot. lia. }
  assert ((∀ q m, node_is r.1 q m = node_is g2 q m)
          ∧ req r.1 this = req g2 this
          ∧ (∀ j, j ≠ AliasIdxBot → in_ r.1 this j = in_ g2 this j)
          ∧ Mem.base_memory r.1 this = nb)
    as (R2 & R3 & R4 & R5).
  { unfold r. destruct (bool_decide_reflect (nb ≠ ob)) as [Hch|Hsame]; cbn [fst snd].
    - split; [intros; apply node_is_set_req|].
      split; [apply req_set_req|].
      split; [intros; apply in_set_req_other; congruence|].
      apply in_set_req_eq. rewrite S3. lia.
    - apply dec_stable in Hsame.
      repeat (split; [reflexivity || (intros; reflexivity)|]).
      unfold Mem.base_memory; congruence. }
  clearbody r. intros ->. cbn [fst snd] in *.
  split; [intros q m; rewrite R2, S2, Z2; reflexivity|].
  split; [rewrite R5; exact Hnb|].
  split; [rewrite R3, S3; exact Z3|].
  intros i x Hi Hin Htop.
  rewrite R4 in Hin by (unfold AliasIdxRaw, AliasIdxBot in *; lia).
  assert (is_MergeMem g1 x = is_MergeMem g0 x) as ->
    by (unfold is_MergeMem; rewrite R2, S2; reflexivity).
  destruct (decide (i < req g0 this)%nat) as [Hlt|Hge].
  2:{ rewrite in_ins_of in Hin. rewrite lookup_ge_None_2 in Hin; [discriminate|].
      rewrite <- req_ins_of, S3. lia. }
  apply (Hslots) with (i := i); try assumption.
  - intros k Hk. apply slices_spec in Hk. unfold AliasIdxRaw, AliasIdxBot in *. lia.
  - intros k m Hk Hm Hne Hmm. apply slices_spec in Hk.
    assert (Mem.memory_at g0 this k = Some m) as Hat.
    { rewrite memory_at_slot_view by lia.
      replace (Mem.base_memory g0 this) with ob; [exact Hm|].
      symmetry. apply Z4. assumption. }
    rewrite Z5 in Hat.
    assert (is_MergeMem g m = true) as Hmm' by (rewrite <- Hmm; symmetry; apply Z2).
    assert (Mem.memory_at g0 m k = Mem.memory_at g m k) as ->
      by (apply memory_at_ext, Z1; assumption).
    assert (∀ o, opt_is (is_MergeMem g0) o = opt_is (is_MergeMem g) o) as ->
      by (intros [y|]; [apply Z2|reflexivity]).
    apply (Hsh k m); [lia| | |]; assumption.
  - apply slices_spec. lia.
Qed.

End WithPhase.

Section WithDriver.
Context `{!VMFlags, !PhaseValues, !GVN}.

(** [Ideal] on shallow chains: when the result has a live base, it is a
    sparse merge with no chained merge left, and the progress flag is that
    of the first part. *)
Lemma Ideal_shallow (g : gmap nat Node) this can_reshape :
  is_MergeMem g this = true →
  is_MergeMem g C_top = false →
  (AliasIdxBot < req g this)%nat →
  shallow g this →
  let r := Ideal g this can_reshape in
  (Mem.base_memory r.1 this = empty_memory
   ∨ (is_MergeMem r.1 this = true ∧ flat r.1 this ∧ verify_sparse r.1 this = true))
  ∧ (r.2 = false → r.1 = g).
Proof.
  intros Hmm Htop Hbot Hsh r. unfold r, Ideal.
  destruct (bool_decide_reflect (Mem.base_memory g this = empty_memory)) as [Hb|Hb].
  { cbn [fst snd]. split; [left; assumption|reflexivity]. }
  destruct (Ideal_flatten g this) as [g1 p1] eqn:Hfl.
  pose proof (Ideal_flatten_sparse _ _ _ _ Hfl) as Hsp.
  destruct (Ideal_flatten_shallow g this g1 p1 Hbot Hsh Hfl) as (F2 & F3 & F4 & F5).
  assert (∀ m, is_MergeMem g1 m = is_MergeMem g m) as Hk by (intros m; apply F2).
  destruct (decide (Mem.base_memory g this = Some this)) as [Hself|Hnself].
  - (* the merge is its own base: the path is dead *)
    assert (Mem.base_memory g1 this = Some this) as Hb1.
    { rewrite F3, Hself, Hmm. exact Hself. }
    set (g2 := set_req g1 this AliasIdxBot empty_memory).
    assert (Mem.base_memory g2 this = empty_memory) as Hb2
      by (apply in_set_req_eq; lia).
    assert (is_MergeMem g2 C_top = false) as Htop2.
    { unfold is_MergeMem, g2. rewrite node_is_set_req. rewrite <- Htop. apply F2. }
    assert (Ideal_cycles g1 this = g2) as ->.
    { unfold Ideal_cycles. rewrite bool_decide_eq_true_2 by assumption.
      fold g2. rewrite Hb2. unfold empty_memory. rewrite Htop2. reflexivity. }
    unfold Ideal_dead_path. rewrite bool_decide_eq_true_2 by assumption.
    cbn [fst snd]. split; [left|intros; discriminate].
    destruct can_reshape; [assumption|].
    rewrite cut_slices_base; [assumption|].
    rewrite slices_spec. unfold AliasIdxRaw, AliasIdxBot. lia.
  - (* the new base is no MergeMem *)
    assert (opt_is (is_MergeMem g1) (Mem.base_memory g1 this) = false) as Hnb.
    { rewrite F3. destruct Hsh as [Hshb _].
      destruct (Mem.base_memory g this) as [b|] eqn:Hob; [|reflexivity].
      destruct (is_MergeMem g b) eqn:Hmb.
      - assert (∀ o, opt_is (is_MergeMem g1) o = opt_is (is_MergeMem g) o) as ->
          by (intros [y|]; [apply Hk|reflexivity]).
        apply (Hshb b); [reflexivity|congruence|assumption].
      - cbn. rewrite Hk. exact Hmb. }
    assert (Mem.base_memory g1 this ≠ Some this) as Hns.
    { intros Heq. rewrite Heq in Hnb. cbn in Hnb. rewrite Hk in Hnb. congruence. }
    assert (Ideal_cycles g1 this = g1) as ->.
    { unfold Ideal_cycles. rewrite bool_decide_eq_false_2 by assumption.
      destruct (Mem.base_memory g1 this) as [m|]; [|reflexivity].
      cbn in Hnb. rewrite Hnb. reflexivity. }
    unfold Ideal_dead_path.
    destruct (bool_decide_reflect (Mem.base_memory g1 this = empty_memory)) as [He|Hne];
      cbn [fst snd].
    + split; [left|intros; discriminate].
      destruct can_reshape; [assumption|].
      rewrite cut_slices_base; [assumption|].
      rewrite slices_spec. unfold AliasIdxRaw, AliasIdxBot. lia.
    + split.
      * right. split; [rewrite Hk; assumption|]. split.
        -- split.
           ++ intros b Hb1. rewrite Hb1 in Hnb. exact Hnb.
           ++ intros i b Hi Hin Hnt. apply (F5 i); assumption.
        -- apply verify_sparse_spec. right. intros i Hi Hin.
           apply Hne. apply (Hsp i); assumption.
      * intros ->.
        destruct (Ideal_flatten_no_progress _ _ _ Hfl) as [[-> _]|(b & Hbase & Hm & Hs & _)];
          [reflexivity|].
        exfalso. destruct Hsh as [Hshb _].
        assert (b ≠ this) as Hbt by congruence.
        specialize (Hshb b Hbase Hbt Hm). rewrite Hs in Hshb. cbn in Hshb. congruence.
Qed.

End WithDriver.

(** C8, as the code has it: on a merge whose chains of MergeMems are at
    most one deep, a second application of [MergeMemNode::Ideal] right
    after the first reports no change and changes nothing; [Ideal] reports
    no change exactly when it has left the graph as it was, and that is
    exactly when the base is the empty memory or the merge has no MergeMem
    as its base or as a slice and no slice repeats the base.  (Top is no
    MergeMem, and the merge has its base edge.) *)
Theorem Ideal_idempotent_on_shallow_chains `{!VMFlags, !PhaseValues, !GVN}
    (g : gmap nat Node) (this : nat) (can_reshape : bool) :
  is_MergeMem g this = true →
  is_MergeMem g C_top = false →
  (AliasIdxBot < req g this)%nat →
  shallow g this →
  let r := Ideal g this can_reshape in
  Ideal r.1 this can_reshape = (r.1, false)
  ∧ (r.2 = false ↔ r.1 = g)
  ∧ (r.2 = false
     ↔ Mem.base_memory g this = empty_memory
       ∨ (flat g this ∧ verify_sparse g this = true)).
Proof.
  intros Hmm Htop Hbot Hsh r.
  destruct (Ideal_shallow g this can_reshape Hmm Htop Hbot Hsh) as [Hres Hnp].
  fold r in Hres, Hnp.
  assert (Ideal r.1 this can_reshape = (r.1, false)) as Hidem.
  { destruct Hres as [He|(Hm1 & Hf1 & Hs1)].
    - unfold Ideal at 1. rewrite bool_decide_eq_true_2 by assumption. reflexivity.
    - destruct (Ideal_flat r.1 this can_reshape Hm1 Hf1) as (g2 & Hr2 & Hid2 & _).
      rewrite Hr2, Hs1. cbn. rewrite (Hid2 Hs1). reflexivity. }
  split; [exact Hidem|].
  assert (r.2 = false ↔ r.1 = g) as Hfix.
  { split; [exact Hnp|].
    intros Heq. rewrite Heq in Hidem. unfold r. rewrite Hidem. reflexivity. }
  split; [exact Hfix|].
  split.
  - intros Hp. pose proof (proj1 Hfix Hp) as Heq.
    destruct Hres as [He|(_ & Hf1 & Hs1)].
    + left. rewrite <- Heq. exact He.
    + right. rewrite <- Heq. split; assumption.
  - intros [He|[Hf Hs]].
    + unfold r, Ideal. rewrite bool_decide_eq_true_2 by assumption. reflexivity.
    + destruct (Ideal_flat g this can_reshape Hmm Hf) as (g2 & Hr2 & _).
      unfold r. rewrite Hr2, Hs. reflexivity.
Qed.

Section OnMergeGraph.
#[local] Existing Instance Examples.flags.
#[local] Existing Instance Examples.phase_merge.
#[local] Existing Instance Examples.gvn_idle.

(** The base of the merge 11 of [g_merge] is the merge 12 over [X]: the
    first application moves the base of 11 to [X] and reports progress,
    the second changes nothing. *)
Lemma Ideal_idempotent_on_shallow_chains_witness :
  let r := Ideal Examples.g_merge 11 true in
  (Ideal r.1 11 true = (r.1, false)
   ∧ (r.2 = false ↔ r.1 = Examples.g_merge)
   ∧ (r.2 = false
      ↔ Mem.base_memory Examples.g_merge 11 = empty_memory
        ∨ (flat Examples.g_merge 11 ∧ verify_sparse Examples.g_merge 11 = true)))
  ∧ r.2 = true
  ∧ Mem.base_memory Examples.g_merge 11 = Some 12%nat
  ∧ Mem.base_memory r.1 11 = Some 13%nat.
Proof.
  split; [|repeat split; vm_compute; reflexivity].
  apply (Ideal_idempotent_on_shallow_chains Examples.g_merge 11 true).
  - vm_compute. reflexivity.
  - vm_compute. reflexivity.
  - vm_compute. lia.
  - split.
    + intros b Hb _ _. vm_compute in Hb. injection Hb as <-. vm_compute. reflexivity.
    + intros i m Hi Hat Hne Hmm.
      destruct (decide (i = 3%nat)) as [->|Hi3].
      { vm_compute in Hat. injection Hat as <-. vm_compute in Hmm. discriminate. }
      assert (Mem.memory_at Examples.g_merge 11 i = Some 12%nat) as Hat11.
      { apply (memory_at_beyond Examples.g_merge 11 i). intros Hlt.
        change (req Examples.g_merge 11) with 4%nat in Hlt.
        unfold AliasIdxRaw in Hi. lia. }
      rewrite Hat11 in Hat. injection Hat as <-.
      rewrite (memory_at_beyond Examples.g_merge 12 i); [vm_compute; reflexivity|].
      intros Hlt. change (req Examples.g_merge 12) with 4%nat in Hlt.
      unfold AliasIdxRaw in Hi. lia.
Defined.

End OnMergeGraph.
End MergeMemIdempotenceFacts.


(** ** StoreNode: folding back-to-back stores *)

Module StoreFoldFacts.
Import Edit EditFacts StoreFold.

Section WithPhase.
Context `{!VMFlags, !PhaseValues}.

(** The test of the loop on the store [s]: it is fully overwritten by
    [this]. *)
#[local] Abbreviation overwritten g this s :=
  (edges_eqv_uncast (in_ g s MemNode_Address) (in_ g this MemNode_Address)
   && (Mem.memory_size g s <=? Mem.memory_size g this)).

Lemma fold_scan_spec (g g' : gmap nat Node) (this : nat) :
  ∀ (fuel : nat) (prev : nat) (st0 : option nat),
    in_ g prev MemNode_Memory = st0 →
    fold_scan fuel g this st0 = Some (Some g') →
    ∃ (walked : list nat) (st use : nat),
      (length walked < fuel)%nat
      ∧ (∀ (i : nat) u d, (prev :: walked ++ [st]) !! i = Some u →
           (prev :: walked ++ [st]) !! S i = Some d →
           in_ g u MemNode_Memory = Some d)
      ∧ Forall (λ s, is_Store g s = true ∧ outcnt g s = 1%nat
                     ∧ overwritten g this s = false) walked
      ∧ is_Store g st = true ∧ outcnt g st = 1%nat
      ∧ overwritten g this st = true
      ∧ raw_out g st 0 = Some use
      ∧ g' = set_req g use MemNode_Memory (in_ g st MemNode_Memory).
Proof.
  induction fuel as [|fuel IH]; intros prev st0 Hprev Hscan; [discriminate|].
  cbn [fold_scan] in Hscan. destruct st0 as [s|]; [|discriminate].
  destruct (is_Store g s && bool_decide (outcnt g s = 1%nat)) eqn:Hs; [|discriminate].
  apply andb_true_iff in Hs as [Hst Hout]. apply bool_decide_eq_true in Hout.
  destruct (overwritten g this s) eqn:Hov.
  - destruct (raw_out g s 0) as [use|] eqn:Huse; [|discriminate].
    injection Hscan as <-. exists [], s, use.
    split; [cbn; lia|]. split.
    { intros [|[|i]] u d Hu Hd; cbn in Hu, Hd; try discriminate.
      injection Hu as <-. injection Hd as <-. exact Hprev. }
    repeat (split; [constructor || assumption|]). reflexivity.
  - destruct (IH s _ eq_refl Hscan)
      as (walked & st & use & Hlen & Hlink & Hall & Hrest).
    exists (s :: walked), st, use.
    split; [cbn; lia|]. split.
    { intros [|i] u d Hu Hd; cbn in Hu, Hd.
      - injection Hu as <-. injection Hd as <-. exact Hprev.
      - apply (Hlink i); assumption. }
    split; [|exact Hrest].
    constructor; [|exact Hall]. repeat split; assumption.
Qed.

Lemma fold_scan_more_fuel (g : gmap nat Node) (this : nat) r :
  ∀ (fuel fuel' : nat) (st0 : option nat),
    fold_scan fuel g this st0 = Some r →
    (fuel ≤ fuel')%nat →
    fold_scan fuel' g this st0 = Some r.
Proof.
  induction fuel as [|fuel IH]; intros fuel' st0 Hscan Hle; [discriminate|].
  destruct fuel' as [|fuel']; [lia|].
  cbn [fold_scan] in *. destruct st0 as [s|]; [|exact Hscan].
  destruct (is_Store g s && bool_decide (outcnt g s = 1%nat)); [|exact Hscan].
  destruct (overwritten g this s); [exact Hscan|].
  apply (IH fuel'); [exact Hscan|lia].
Qed.

End WithPhase.

(** When the folding loop of [StoreNode::Ideal] folds, it has walked from
    the store up its memory inputs over stores with one use each to the
    first one that the store overwrites in full (same address up to casts,
    not larger); it gives the memory input of that store to its use, and
    changes nothing else.  When that use is the node the walk came from, as
    it is with accurate def-use edges, the memory chain of the store
    afterwards skips the overwritten store.  More fuel gives the same
    graph. *)
Theorem fold_removes_an_overwritten_store `{!VMFlags, !PhaseValues}
    (g g' : gmap nat Node) (this : nat) (fuel : nat) :
  Ideal_fold_stores fuel g this = Some (Some g') →
  ∃ (walked : list nat) (st use : nat),
    (length walked < fuel)%nat
    ∧ (∀ (i : nat) u d, (this :: walked ++ [st]) !! i = Some u →
         (this :: walked ++ [st]) !! S i = Some d →
         in_ g u MemNode_Memory = Some d)
    ∧ Forall (λ s, is_Store g s = true ∧ outcnt g s = 1%nat
                   ∧ (edges_eqv_uncast (in_ g s MemNode_Address)
                                       (in_ g this MemNode_Address)
                      && (Mem.memory_size g s <=? Mem.memory_size g this)) = false)
             walked
    ∧ is_Store g st = true ∧ outcnt g st = 1%nat
    ∧ edges_eqv_uncast (in_ g st MemNode_Address) (in_ g this MemNode_Address) = true
    ∧ Mem.memory_size g st ≤ Mem.memory_size g this
    ∧ raw_out g st 0 = Some use
    ∧ g' = set_req g use MemNode_Memory (in_ g st MemNode_Memory)
    ∧ (∀ m, m ≠ use → g' !! m = g !! m)
    ∧ (∀ j, j ≠ MemNode_Memory → in_ g' use j = in_ g use j)
    ∧ (last (this :: walked) = Some use →
       in_ g' use MemNode_Memory = in_ g st MemNode_Memory)
    ∧ (∀ fuel', (fuel ≤ fuel')%nat → Ideal_fold_stores fuel' g this = Some (Some g')).
Proof.
  intros Hfold. unfold Ideal_fold_stores in *.
  destruct (fold_scan_spec g g' this fuel this _ eq_refl Hfold)
    as (walked & st & use & Hlen & Hlink & Hall & Hst & Hout & Hov & Huse & ->).
  apply andb_true_iff in Hov as [Heqv Hsz]. apply Z.leb_le in Hsz.
  exists walked, st, use.
  repeat (split; [assumption|]).
  split; [reflexivity|].
  split; [intros m Hm; apply set_req_lookup_ne; assumption|].
  split; [intros j Hj; apply in_set_req_other; congruence|].
  split.
  - intros Hlast. apply in_set_req_eq.
    apply (in_lt_req g use MemNode_Memory st).
    assert ((this :: walked ++ [st]) !! length walked = Some use) as Hu.
    { rewrite app_comm_cons, lookup_app_l by (cbn; lia).
      rewrite last_lookup in Hlast. exact Hlast. }
    apply (Hlink (length walked)); [exact Hu|].
    change ((walked ++ [st]) !! length walked = Some st).
    apply list_lookup_middle. reflexivity.
  - intros fuel' Hle. apply (fold_scan_more_fuel g this _ fuel); assumption.
Qed.

Section OnOverwrite.
#[local] Existing Instance Examples.flags.
#[local] Existing Instance FoldExamples.phase_overwrite.

(** The byte store 62 overwrites the byte store 60, two stores up its
    memory chain: the int store 61 in between, the use of 60, gets the
    memory input 9 of 60. *)
Lemma fold_removes_an_overwritten_store_witness :
  let g := FoldExamples.g_overwrite in
  let g' := set_req g 61 MemNode_Memory (Some 9%nat) in
  Ideal_fold_stores 3 g 62 = Some (Some g')
  ∧ in_ g' 62 MemNode_Memory = Some 61%nat
  ∧ in_ g' 61 MemNode_Memory = Some 9%nat
  ∧ ∃ (walked : list nat) (st use : nat),
      (length walked < 3)%nat
      ∧ (∀ (i : nat) u d, (62%nat :: walked ++ [st]) !! i = Some u →
           (62%nat :: walked ++ [st]) !! S i = Some d →
           in_ g u MemNode_Memory = Some d)
      ∧ Forall (λ s, is_Store g s = true ∧ outcnt g s = 1%nat
                     ∧ (edges_eqv_uncast (in_ g s MemNode_Address)
                                         (in_ g 62 MemNode_Address)
                        && (Mem.memory_size g s <=? Mem.memory_size g 62)) = false)
               walked
      ∧ is_Store g st = true ∧ outcnt g st = 1%nat
      ∧ edges_eqv_uncast (in_ g st MemNode_Address) (in_ g 62 MemNode_Address) = true
      ∧ Mem.memory_size g st ≤ Mem.memory_size g 62
      ∧ raw_out g st 0 = Some use
      ∧ g' = set_req g use MemNode_Memory (in_ g st MemNode_Memory)
      ∧ (∀ m, m ≠ use → g' !! m = g !! m)
      ∧ (∀ j, j ≠ MemNode_Memory → in_ g' use j = in_ g use j)
      ∧ (last (62%nat :: walked) = Some use →
         in_ g' use MemNode_Memory = in_ g st MemNode_Memory)
      ∧ (∀ fuel', (3 ≤ fuel')%nat → Ideal_fold_stores fuel' g 62 = Some (Some g')).
Proof.
  intros g g'.
  split; [vm_compute; reflexivity|].
  split; [vm_compute; reflexivity|].
  split; [vm_compute; reflexivity|].
  apply (fold_removes_an_overwritten_store g g' 62 3).
  vm_compute. reflexivity.
Defined.

End OnOverwrite.

End StoreFoldFacts.

(** ** Where a forwarded value comes from *)

Module ForwardedValueFacts.
Import Mem ForwardedValueSpec.

Section WithGraph.
Context `{!VMFlags, !PhaseValues} (g : gmap nat Node).

(** A store whose opcode matches an access writes as many bytes as the
    access reads, vectors apart. *)
Lemma store_Opcode_memory_size (this s : nat) :
  store_Opcode <$> opcode_of g this = opcode_of g s →
  is_Store g s = true →
  is_StoreVector g s = false →
  memory_size g s = memory_size g this.
Proof.
  unfold memory_size, is_Store, is_StoreVector, node_is, opcode_of.
  destruct (g !! this) as [nt|]; destruct (g !! s) as [ns|];
    cbn [fmap option_fmap option_map]; try discriminate.
  intros [= <-]. intros Hst Hv.
  destruct (Opcode nt); cbn in *; try discriminate; reflexivity.
Qed.

Lemma skip_membars_more_fuel alias_idx is_final_mem r :
  ∀ (fuel fuel' : nat) (current : nat),
    skip_membars g fuel alias_idx is_final_mem current = Some r →
    (fuel ≤ fuel')%nat →
    skip_membars g fuel' alias_idx is_final_mem current = Some r.
Proof.
  induction fuel as [|fuel IH]; intros fuel' current Hs Hle; [discriminate|].
  destruct fuel' as [|fuel']; [lia|].
  cbn [skip_membars] in *.
  destruct (is_Proj g current); [|exact Hs].
  destruct (in_ g current 0 ≫= opcode_of g) as [opc|]; [|exact Hs].
  destruct (skippable_membar is_final_mem opc); [|exact Hs].
  destruct (in_ g current 0 ≫= λ mb, in_ g mb TypeFunc_Memory) as [mem|]; [|exact Hs].
  destruct (is_MergeMem g mem); [|exact Hs].
  case_bool_decide; [|exact Hs].
  destruct (memory_at g mem alias_idx) as [c|]; [|exact Hs].
  apply (IH fuel'); [exact Hs|lia].
Qed.

Lemma can_see_stored_value_more_fuel (this st : nat) r (fuel fuel' : nat) :
  can_see_stored_value g fuel this st = Some r →
  (fuel ≤ fuel')%nat →
  can_see_stored_value g fuel' this st = Some r.
Proof.
  unfold can_see_stored_value. intros Hs Hle.
  destruct (in_ g this MemNode_Address) as [ld_adr|]; [|exact Hs].
  destruct (Ideal_base_and_offset (Some ld_adr)) as [ld_base ld_off].
  destruct (skip_through_membars _ _); [|exact Hs].
  destruct (alias_type <$> isa_instptr (phase_type ld_adr)) as [a|]; [|exact Hs].
  destruct (skip_membars g fuel (at_index a) (negb (at_is_rewritable a)) st)
    as [r0|] eqn:Hr0; [|discriminate].
  rewrite (skip_membars_more_fuel _ _ _ _ _ _ Hr0 Hle). exact Hs.
Qed.

(** One trip of the loop of [can_see_stored_value] that returns a
    value. *)
Lemma can_see_trip_value (this ld_adr : nat) ld_base ld_off ld_alloc tp (s v : nat) :
  can_see_trip g this ld_adr ld_base ld_off ld_alloc tp s = Return (Some v) →
  from_store g this ld_adr ld_base ld_off v
  ∨ from_fresh_object g this ld_alloc ld_off v
  ∨ boxed_value_of_call g this ld_adr tp = Some v.
Proof.
  unfold can_see_trip. destruct (is_Store g s) eqn:Hst.
  - destruct (Ideal_base_and_offset (in_ g s MemNode_Address)) as [st_base st_off] eqn:Hbo.
    destruct (negb (bool_decide (in_ g s MemNode_Address = Some ld_adr)) && _) eqn:Hadr;
      [discriminate|].
    destruct (bool_decide_reflect (store_Opcode <$> opcode_of g this = opcode_of g s))
      as [Hop|Hop]; cbn [negb]; [|discriminate].
    destruct (is_StoreVector g s && _) eqn:Hvec; [discriminate|].
    intros [= Hv]. left. exists s.
    split; [exact Hst|]. split; [exact Hv|]. split; [exact Hop|].
    split; [intros Hnv; apply store_Opcode_memory_size; assumption|].
    split.
    { intros Hisv. rewrite Hisv in Hvec. cbn in Hvec.
      apply negb_false_iff, bool_decide_eq_true in Hvec. exact Hvec. }
    apply andb_false_iff in Hadr as [Hsame|Hbases].
    + left. apply negb_false_iff, bool_decide_eq_true in Hsame. exact Hsame.
    + right. destruct ld_base as [lb|]; [|discriminate].
      destruct st_base as [sb|]; [|discriminate].
      apply orb_false_iff in Hbases as [Hbases Hbot].
      apply orb_false_iff in Hbases as [Heqv Hoff].
      apply negb_false_iff in Heqv. apply negb_false_iff, Z.eqb_eq in Hoff.
      apply Z.eqb_neq in Hbot.
      exists lb, sb. subst st_off. repeat split; assumption.
  - set (zero := match in_ g s 0 with Some a => _ | None => None end).
    set (captured := match in_ g s 0 with Some init => _ | None => None end).
    destruct zero as [z|] eqn:Hz.
    + intros [= <-]. right. left. unfold zero in Hz.
      destruct (in_ g s 0) as [a|]; [|discriminate].
      destruct (is_Proj g s && is_Allocate g a && bool_decide (Some a = ld_alloc)
                && (minimum_header_size a <=? ld_off)) eqn:Hc; [|discriminate].
      apply andb_true_iff in Hc as [Hc Hhdr]. apply andb_true_iff in Hc as [Hc Hal].
      apply andb_true_iff in Hc as [_ Hisa].
      apply bool_decide_eq_true in Hal. apply Z.leb_le in Hhdr.
      destruct (opcode_of g this) as [o|] eqn:Ho; [|discriminate].
      destruct (negb (bool_decide (value_basic_type o = T_VOID)) && _) eqn:Hbt;
        [|discriminate].
      apply andb_true_iff in Hbt as [Hbt _].
      apply negb_true_iff, bool_decide_eq_false in Hbt.
      injection Hz as <-. exists o, a.
      split; [exact Ho|]. split; [exact Hbt|]. split; [reflexivity|].
      split; [symmetry; exact Hal|]. split; [exact Hisa|exact Hhdr].
    + destruct captured as [[st'|]|]; try discriminate;
        intros [= Hv]; right; right; exact Hv.
Qed.

End WithGraph.

(** A value that [can_see_stored_value] returns is the value input of a
    store of the opcode that matches the access, of its width (or its
    vector type), to its address node or to the same base and offset; or
    the zero constant of its type, when it reads a fresh allocation past
    the header; or the argument of a boxing call.  More fuel for the
    barrier loop gives the same value. *)
Theorem forwarded_value_provenance `{!VMFlags, !PhaseValues}
    (g : gmap nat Node) (fuel : nat) (this st v : nat) :
  can_see_stored_value g fuel this st = Some (Some v) →
  ∃ ld_adr : nat,
    in_ g this MemNode_Address = Some ld_adr
    ∧ (let ld_base := (Ideal_base_and_offset (Some ld_adr)).1 in
       let ld_off := (Ideal_base_and_offset (Some ld_adr)).2 in
       from_store g this ld_adr ld_base ld_off v
       ∨ from_fresh_object g this (Ideal_allocation ld_base) ld_off v
       ∨ boxed_value_of_call g this ld_adr (isa_instptr (phase_type ld_adr)) = Some v)
    ∧ ∀ fuel', (fuel ≤ fuel')%nat →
        can_see_stored_value g fuel' this st = Some (Some v).
Proof.
  intros Hsee.
  assert (∀ fuel', (fuel ≤ fuel')%nat →
            can_see_stored_value g fuel' this st = Some (Some v)) as Hmore.
  { intros fuel' Hle. apply (can_see_stored_value_more_fuel g this st _ fuel); assumption. }
  unfold can_see_stored_value in Hsee.
  destruct (in_ g this MemNode_Address) as [ld_adr|]; [|discriminate].
  exists ld_adr. split; [reflexivity|]. split; [|exact Hmore].
  destruct (Ideal_base_and_offset (Some ld_adr)) as [ld_base ld_off]. cbn [fst snd].
  match type of Hsee with
  | (?m ≫= _) = _ => destruct m as [st0|]; [|discriminate]
  end.
  cbn [mbind option_bind] in Hsee.
  destruct (can_see_trip g this ld_adr ld_base ld_off (Ideal_allocation ld_base)
              (isa_instptr (phase_type ld_adr)) st0) as [v0|st1] eqn:Ht0.
  - injection Hsee as ->. apply (can_see_trip_value g _ _ _ _ _ _ _ _ Ht0).
  - destruct (can_see_trip g this ld_adr ld_base ld_off (Ideal_allocation ld_base)
                (isa_instptr (phase_type ld_adr)) st1) as [v1|st2] eqn:Ht1;
      [|discriminate].
    injection Hsee as ->. apply (can_see_trip_value g _ _ _ _ _ _ _ _ Ht1).
Qed.

Section OnLoadGraph.
#[local] Existing Instance Examples.flags.
#[local] Existing Instance Examples.phase_load.

(** The byte load 16 of [g_load] sees the constant 14 that the byte store
    15 writes to the address the load reads. *)
Lemma forwarded_value_provenance_witness :
  can_see_stored_value Examples.g_load 1 16 15 = Some (Some 14%nat)
  ∧ ∃ ld_adr : nat,
      in_ Examples.g_load 16 MemNode_Address = Some ld_adr
      ∧ (let ld_base := (Ideal_base_and_offset (Some ld_adr)).1 in
         let ld_off := (Ideal_base_and_offset (Some ld_adr)).2 in
         from_store Examples.g_load 16 ld_adr ld_base ld_off 14
         ∨ from_fresh_object Examples.g_load 16 (Ideal_allocation ld_base) ld_off 14
         ∨ boxed_value_of_call Examples.g_load 16 ld_adr (isa_instptr (phase_type ld_adr))
           = Some 14%nat)
      ∧ ∀ fuel', (1 ≤ fuel')%nat →
          can_see_stored_value Examples.g_load fuel' 16 15 = Some (Some 14%nat).
Proof.
  split; [vm_compute; reflexivity|].
  apply (forwarded_value_provenance Examples.g_load 1 16 15 14).
  vm_compute. reflexivity.
Defined.

End OnLoadGraph.

End ForwardedValueFacts.

(** ** MergePrimitiveStores: merging the pieces of one value *)

Module MergePieceFacts.
Import Mem MergeStores MergeStoresFacts.

Section WithGraph.
Context `{!VMFlags, !PhaseValues, !Pointers} (g : gmap nat Node).

(** Each pair of the collected stores has passed [is_adjacent_pair] for
    the order of the merger. *)
Lemma collect_defs_pairs (_store : nat) (vo : ValueOrder) (room : nat) :
  ∀ current,
    let l := current :: collect_defs g _store vo room current in
    ∀ (i : nat) u d, l !! i = Some u → l !! S i = Some d →
      is_adjacent_pair g vo u d = true
      ∧ is_compatible_store g _store (Some d) = true.
Proof.
  induction room as [|room IH]; intros current l.
  - unfold l. cbn. intros [|i] u d Hu Hd; discriminate.
  - unfold l. cbn [collect_defs].
    destruct (found_store (find_adjacent_def_store g _store vo current)) as [d|] eqn:Hf.
    2:{ intros [|i] u d' Hu Hd; discriminate. }
    apply find_adjacent_def_store_found in Hf as [Hd Ha].
    pose proof (find_def_store_found g _ _ _ Hd) as Hc.
    destruct (found_range_check _).
    + intros [|[|i]] u d' Hu Hd'; try discriminate.
      cbn in Hu, Hd'. injection Hu as <-. injection Hd' as <-. auto.
    + intros [|i] u d' Hu Hd'.
      * cbn in Hu, Hd'. injection Hu as <-. injection Hd' as <-. auto.
      * cbn in Hu, Hd'. apply (IH d i); assumption.
Qed.

(** The shift from the piece of a store to the piece of the store before
    it in memory. *)
#[local] Abbreviation piece_step _store vo :=
  (if xorb VM_LITTLE_ENDIAN (bool_decide (vo = Reverse))
   then - (memory_size g _store * 8) else memory_size g _store * 8).

Lemma adjacent_pair_shifts (_store : nat) (vo : ValueOrder) (u d : nat) :
  has_opcode g Op_StoreB _store || has_opcode g Op_StoreC _store
  || has_opcode g Op_StoreI _store = true →
  is_compatible_store g _store (Some d) = true →
  vo = Platform ∨ vo = Reverse →
  is_adjacent_pair g vo u d = true →
  ∃ (uv dv : nat) (b : option nat) (su : Z),
    in_ g u MemNode_ValueIn = Some uv
    ∧ in_ g d MemNode_ValueIn = Some dv
    ∧ is_con_RShift g uv = Some (b, su)
    ∧ is_con_RShift g dv = Some (b, su + piece_step _store vo).
Proof.
  intros Hop Hc Hvo. unfold is_adjacent_pair.
  rewrite (compatible_store_memory_size g _ _ Hop Hc).
  assert (0 < memory_size g _store * 8) as Hbits.
  { destruct (narrow_store_memory_size g _ Hop) as [[_ ->]|[[_ ->]|[_ ->]]]; lia. }
  destruct (in_ g d MemNode_ValueIn) as [dv|]; [|discriminate].
  destruct (in_ g u MemNode_ValueIn) as [uv|]; [|discriminate].
  destruct (is_adjacent_input_pair g vo dv uv (memory_size g _store)) eqn:Hp;
    [|discriminate].
  intros _. exists uv, dv.
  assert (find_adjacent_input_value_order g dv uv (memory_size g _store) = vo) as Hord.
  { revert Hp. unfold is_adjacent_input_pair.
    destruct (find_adjacent_input_value_order g dv uv (memory_size g _store));
      try discriminate.
    - destruct (decide (vo = Unknown)) as [->|_]; [destruct Hvo; discriminate|].
      intros Hb. apply bool_decide_eq_true in Hb. congruence.
    - destruct (decide (vo = Unknown)) as [->|_]; [destruct Hvo; discriminate|].
      intros Hb. apply bool_decide_eq_true in Hb. congruence.
    - destruct (negb _ || negb _); [discriminate|].
      destruct (decide (vo = Unknown)) as [->|_]; [destruct Hvo; discriminate|].
      intros Hb. apply bool_decide_eq_true in Hb. congruence. }
  revert Hord. unfold find_adjacent_input_value_order.
  destruct (is_ConI g dv && is_ConI g uv);
    [intros <-; destruct Hvo; discriminate|].
  destruct (is_con_RShift g uv) as [[b2 s2]|];
    [|intros <-; destruct Hvo; discriminate].
  destruct (is_con_RShift g dv) as [[b1 s1]|];
    [|intros <-; destruct Hvo; discriminate].
  destruct (negb (bool_decide (b1 = b2)) || _ || _) eqn:Hchk;
    [intros <-; destruct Hvo; discriminate|].
  apply orb_false_iff in Hchk as [Hchk _].
  apply orb_false_iff in Hchk as [Hb Habs].
  apply negb_false_iff, bool_decide_eq_true in Hb.
  apply negb_false_iff, Z.eqb_eq in Habs. subst b2.
  exists b1, s2. split; [reflexivity|]. split; [reflexivity|]. split; [reflexivity|].
  assert (s1 = s2 + piece_step _store vo) as Hs; [|rewrite <- Hs; reflexivity].
  revert Hord. destruct VM_LITTLE_ENDIAN; cbn [xorb].
  - destruct (Z.ltb_spec s1 s2); intros <-.
    + rewrite bool_decide_eq_false_2 by discriminate. cbn [negb]. lia.
    + rewrite bool_decide_eq_true_2 by reflexivity. cbn [negb]. lia.
  - destruct (Z.ltb_spec s2 s1); intros <-.
    + rewrite bool_decide_eq_false_2 by discriminate. lia.
    + rewrite bool_decide_eq_true_2 by reflexivity. lia.
Qed.

(** Along a list whose pairs step by [step], the pieces are those of one
    base, [step] apart. *)
Lemma chain_shifts (l : list nat) (step : Z) :
  (2 ≤ length l)%nat →
  (∀ (i : nat) u d, l !! i = Some u → l !! S i = Some d →
     ∃ (uv dv : nat) (b : option nat) (su : Z),
       in_ g u MemNode_ValueIn = Some uv
       ∧ in_ g d MemNode_ValueIn = Some dv
       ∧ is_con_RShift g uv = Some (b, su)
       ∧ is_con_RShift g dv = Some (b, su + step)) →
  ∃ (b : option nat) (s_first : Z),
    ∀ (i : nat) s, l !! i = Some s →
      ∃ v : nat, in_ g s MemNode_ValueIn = Some v
                 ∧ is_con_RShift g v = Some (b, s_first + Z.of_nat i * step).
Proof.
  intros Hlen Hpairs.
  destruct l as [|a [|a' l']]; cbn in Hlen; try lia.
  destruct (Hpairs 0%nat a a' eq_refl eq_refl) as (uv0 & dv0 & b & su0 & Hu0 & Hd0 & Hr0 & Hr1).
  exists b, su0. induction i as [|i IH]; intros s Hs.
  - cbn in Hs. injection Hs as <-. exists uv0. split; [exact Hu0|].
    rewrite Hr0. f_equal. f_equal. lia.
  - assert (is_Some ((a :: a' :: l') !! i)) as [u Hu].
    { apply lookup_lt_is_Some. apply lookup_lt_Some in Hs. lia. }
    destruct (IH u Hu) as (v & Hv & Hrv).
    destruct (Hpairs i u s Hu Hs) as (uv & dv & b' & su & Huv & Hdv & Hru & Hrd).
    rewrite Huv in Hv. injection Hv as <-. rewrite Hru in Hrv.
    injection Hrv as -> ->.
    exists dv. split; [exact Hdv|]. rewrite Hrd. f_equal. f_equal. lia.
Qed.

(** A value that is its own base, or the [ConvL2I] of its base, is the
    piece at shift 0, unless the graph has a cycle through it. *)
Lemma base_piece_shift (m v : nat) (s0 : Z) :
  is_con_RShift g v = Some (Some m, s0) →
  v = m ∨ (has_opcode g Op_ConvL2I v = true ∧ in_ g v 1 = Some m) →
  in_ g m 1 ≠ Some m →
  (∀ x, in_ g m 1 = Some x → in_ g x 1 ≠ Some m) →
  s0 = 0.
Proof.
  intros Hr Hv Hs1 Hs2. revert Hr. unfold is_con_RShift.
  assert (∀ n : nat,
            (n = m ∨ in_ g m 1 = Some n) →
            (if (has_opcode g Op_RShiftI n || has_opcode g Op_RShiftL n
                 || has_opcode g Op_URShiftI n || has_opcode g Op_URShiftL n)
                && opt_is (is_ConI g) (in_ g n 2)
             then
               let shift_out := from_option (get_int g) 0 (in_ g n 2) in
               if 0 <=? shift_out then Some (in_ g n 1, shift_out) else None
             else
               match phase_type n with
               | TypeInt _ _ | TypeLong _ _ => Some (Some n, 0)
               | _ => None
               end) = Some (Some m, s0) → s0 = 0) as Hcase.
  { intros n Hn. destruct (_ && _).
    - cbv zeta. destruct (0 <=? _); [|discriminate].
      intros [= Hb _]. exfalso.
      destruct Hn as [->|Hn]; [exact (Hs1 Hb)|exact (Hs2 n Hn Hb)].
    - destruct (phase_type n); try discriminate; intros [= _ <-]; reflexivity. }
  destruct Hv as [->|[Hconv Hin]].
  - destruct (has_opcode g Op_ConvL2I m).
    + destruct (in_ g m 1) as [x|] eqn:Hx; [|discriminate].
      apply Hcase. right. reflexivity.
    + apply Hcase. left. reflexivity.
  - rewrite Hconv, Hin. apply Hcase. left. reflexivity.
Qed.

(** What [make_merged_input_value] asks of the two ends of the pieces. *)
Lemma merged_input_base (hi lo : option nat) (r : merged_value * bool) :
  match hi ≫= is_con_RShift g, lo with
  | Some (hi_base, _), Some lo =>
      let merged :=
        if negb (bool_decide (Some lo = hi_base)) && has_opcode g Op_ConvL2I lo
        then in_ g lo 1 else Some lo in
      if bool_decide (merged ≠ hi_base) then None
      else
        match merged with
        | Some m => Some (base_value m,
                         match phase_type m with TypeLong _ _ => true | _ => false end)
        | None => None
        end
  | _, _ => None
  end = Some r →
  ∃ (hv lv m : nat) (sh : Z),
    hi = Some hv ∧ lo = Some lv
    ∧ is_con_RShift g hv = Some (Some m, sh)
    ∧ r = (base_value m, match phase_type m with TypeLong _ _ => true | _ => false end)
    ∧ (lv = m ∨ (has_opcode g Op_ConvL2I lv = true ∧ in_ g lv 1 = Some m)).
Proof.
  destruct hi as [hv|]; [|discriminate]. cbn [mbind option_bind].
  destruct (is_con_RShift g hv) as [[hi_base sh]|] eqn:Hhv; [|discriminate].
  destruct lo as [lv|]; [|discriminate]. cbv zeta.
  destruct (negb (bool_decide (Some lv = hi_base)) && has_opcode g Op_ConvL2I lv) eqn:Hc.
  - destruct (bool_decide_reflect (in_ g lv 1 ≠ hi_base)) as [|Heq]; [discriminate|].
    apply dec_stable in Heq.
    destruct (in_ g lv 1) as [m|] eqn:Hin; [|discriminate].
    intros [= <-]. subst hi_base. exists hv, lv, m, sh.
    apply andb_true_iff in Hc as [_ Hconv].
    split; [reflexivity|]. split; [reflexivity|]. split; [exact Hhv|].
    split; [reflexivity|]. right. split; assumption.
  - destruct (bool_decide_reflect (Some lv ≠ hi_base)) as [|Heq]; [discriminate|].
    apply dec_stable in Heq. intros [= <-]. subst hi_base.
    exists hv, lv, lv, sh.
    split; [reflexivity|]. split; [reflexivity|]. split; [exact Hhv|].
    split; [reflexivity|]. left. reflexivity.
Qed.

End WithGraph.

(** The value and the flag that [make_merged_input_value] has found
    before it adds conversions. *)
Ltac inner_value Hrun iv Hm :=
  match type of Hrun with
  | match match ?e with Some _ => _ | None => _ end with Some _ => _ | None => _ end = _ =>
      destruct e as [iv|] eqn:Hm; [|discriminate]
  end.

(** When the stores that [MergePrimitiveStores::run] merges do not store
    constants, they store the pieces of one value [m]: the piece [k],
    counted from the lowest bits, is [m] shifted right by [s0 + k * bits],
    the lowest piece is [m] itself or its [ConvL2I], and [s0] is 0 unless
    [m] lies on a cycle.  In the byte order of the platform the pieces
    ascend with the addresses (on a little-endian machine the last of the
    merged stores, at the lowest address, has piece 0) and the merged store
    stores [m]; in the reverse order, which is taken for byte stores only,
    it stores the byte-reversed [m]. *)
Theorem merged_pieces_form_the_base `{!VMFlags, !PhaseValues, !Pointers}
    (g : gmap nat Node) (_store : nat) (ms : merged_store) :
  run g _store = Some ms →
  opt_is (is_ConI g) (in_ g _store MemNode_ValueIn) = false →
  let bits := memory_size g _store * 8 in
  let n := length (ms_merged ms) in
  ∃ (m : nat) (s0 : Z) (rev : bool),
    ms_value ms
    = (let v := if match phase_type m with TypeLong _ _ => true | _ => false end
                   && (ms_memory_size ms <=? 4)
                then ConvL2I (base_value m) else base_value m in
       if rev then
         if ms_memory_size ms =? 8 then ReverseBytesL v
         else if ms_memory_size ms =? 4 then ReverseBytesI v
         else ReverseBytesS v
       else v)
    ∧ (rev = true → memory_size g _store = 1 ∧ ReverseBytes_supported = true)
    ∧ (∀ (k : nat) s v, (k < n)%nat →
         ms_merged ms !! (if xorb VM_LITTLE_ENDIAN rev then n - 1 - k else k)%nat = Some s →
         in_ g s MemNode_ValueIn = Some v →
         is_con_RShift g v = Some (Some m, s0 + Z.of_nat k * bits))
    ∧ (∃ s v, ms_merged ms !! (if xorb VM_LITTLE_ENDIAN rev then n - 1 else 0)%nat = Some s
              ∧ in_ g s MemNode_ValueIn = Some v
              ∧ (v = m ∨ (has_opcode g Op_ConvL2I v = true ∧ in_ g v 1 = Some m)))
    ∧ (in_ g m 1 ≠ Some m → (∀ x, in_ g m 1 = Some x → in_ g x 1 ≠ Some m) → s0 = 0).
Proof.
  intros Hrun Hnc bits n. revert Hrun. unfold run.
  destruct (has_opcode g Op_StoreB _store || has_opcode g Op_StoreC _store
            || has_opcode g Op_StoreI _store) eqn:Hop; simpl; [|discriminate].
  destruct (bool_decide _); [discriminate|].
  destruct (found_store (find_adjacent_def_store g _store Unknown _store))
    as [d|] eqn:Hf; [|discriminate].
  cbn [mbind option_bind].
  destruct (in_ g d MemNode_ValueIn) as [dv|] eqn:Hdv; [|discriminate].
  destruct (in_ g _store MemNode_ValueIn) as [sv|] eqn:Hsv; [|discriminate].
  cbn [opt_is] in Hnc.
  set (vo := find_adjacent_input_value_order g dv sv (memory_size g _store)).
  pose proof (find_adjacent_def_store_order g _ _ _ _ Hop Hf Hdv Hsv) as Hagain.
  fold vo in Hagain.
  assert ((vo = Platform ∨ vo = Reverse)
          ∧ (vo = Reverse → memory_size g _store = 1 ∧ ReverseBytes_supported = true))
    as [Hvo Hrev].
  { pose proof Hf as Hf'. apply find_adjacent_def_store_found in Hf' as [Hd Ha].
    pose proof (compatible_store_memory_size g _ _ Hop (find_def_store_found g _ _ _ Hd))
      as Hm.
    revert Ha. unfold is_adjacent_pair. rewrite Hdv, Hsv, Hm.
    destruct (is_adjacent_input_pair g Unknown dv sv (memory_size g _store)) eqn:Hp;
      [|discriminate].
    intros _. revert Hp. unfold is_adjacent_input_pair. fold vo.
    assert (vo ≠ Const) as Hnconst.
    { unfold vo, find_adjacent_input_value_order. rewrite Hnc, andb_false_r.
      destruct (is_con_RShift g sv) as [[? ?]|]; [|discriminate].
      destruct (is_con_RShift g dv) as [[? ?]|]; [|discriminate].
      destruct (negb (bool_decide _) || _ || _); [discriminate|].
      destruct VM_LITTLE_ENDIAN; destruct (_ <? _); discriminate. }
    clearbody vo. destruct vo; try discriminate; try contradiction.
    - intros _. split; [left; reflexivity|discriminate].
    - destruct (negb (memory_size g _store =? 1) || negb ReverseBytes_supported) eqn:Hr;
        [discriminate|].
      intros _. split; [right; reflexivity|]. intros _.
      apply orb_false_iff in Hr as [Hr1 Hr2].
      apply negb_false_iff in Hr1, Hr2. apply Z.eqb_eq in Hr1. auto. }
  clearbody vo.
  set (merge_list := collect_merge_list g _store vo).
  assert (2 ≤ length (collected_group g _store vo))%nat as Hlo.
  { unfold collected_group. cbn [length].
    assert (2 ≤ Z.to_nat (8 `quot` memory_size g _store))%nat as Hmax.
    { destruct (narrow_store_memory_size g _ Hop) as [[_ ->]|[[_ ->]|[_ ->]]];
        vm_compute; lia. }
    destruct (Z.to_nat (8 `quot` memory_size g _store) - 1)%nat as [|room] eqn:Hroom;
      [lia|].
    cbn [collect_defs]. rewrite Hagain. cbn [length]. lia. }
  destruct (round_down_power_of_2_spec _ Hlo) as [[Hp2 Hple] Hplt].
  assert (length merge_list = round_down_power_of_2 (length (collected_group g _store vo)))
    as Hlen.
  { unfold merge_list, collect_merge_list. rewrite length_take. lia. }
  assert (merge_list !! 0%nat = Some _store) as Hfirst.
  { unfold merge_list, collect_merge_list. rewrite lookup_take_lt by lia. reflexivity. }
  intros Hrun.
  assert (ms_merged ms = merge_list) as Hmerged.
  { destruct (make_merged_input_value g _store vo merge_list); [|discriminate].
    injection Hrun as <-. reflexivity. }
  unfold n. rewrite Hmerged. clear n.
  set (n := length merge_list) in *.
  assert (0 < bits) as Hbits.
  { unfold bits.
    destruct (narrow_store_memory_size g _ Hop) as [[_ ->]|[[_ ->]|[_ ->]]]; lia. }
  set (step := if xorb VM_LITTLE_ENDIAN (bool_decide (vo = Reverse)) then - bits else bits).
  assert (∃ (b : option nat) (s_first : Z),
            ∀ (i : nat) s, merge_list !! i = Some s →
              ∃ v : nat, in_ g s MemNode_ValueIn = Some v
                         ∧ is_con_RShift g v = Some (b, s_first + Z.of_nat i * step))
    as (b & s_first & Hsh).
  { apply chain_shifts; [lia|].
    intros i u d' Hu Hd'. unfold merge_list, collect_merge_list in Hu, Hd'.
    apply lookup_take_Some in Hu as [Hu _]. apply lookup_take_Some in Hd' as [Hd' _].
    destruct (collect_defs_pairs g _store vo _ _store i u d' Hu Hd') as [Ha Hc].
    apply (adjacent_pair_shifts g _store vo u d' Hop Hc Hvo Ha). }
  assert (∃ f, merge_list !! (n - 1)%nat = Some f ∧ last merge_list = Some f)
    as (f & Hf_last & Hlast).
  { rewrite last_lookup. replace (pred (length merge_list)) with (n - 1)%nat by (unfold n; lia).
    destruct (lookup_lt_is_Some_2 merge_list (n - 1)) as [f Hf']; [unfold n; lia|].
    exists f. split; assumption. }
  destruct (Hsh 0%nat _store Hfirst) as (sv' & Hsv' & Hrs).
  rewrite Hsv in Hsv'. injection Hsv' as <-.
  destruct (Hsh (n - 1)%nat f Hf_last) as (fv & Hfv & Hrf).
  revert Hrun. unfold make_merged_input_value. fold merge_list.
  rewrite Hsv. cbn [opt_is].
  change (has_opcode g Op_ConI sv) with (is_ConI g sv). rewrite Hnc.
  rewrite Hlast. cbn [mbind option_bind]. rewrite Hfv.
  assert (∀ (rev : bool) (m lv lo_s : nat),
            b = Some m →
            bool_decide (vo = Reverse) = rev →
            merge_list !! (if xorb VM_LITTLE_ENDIAN rev then n - 1 else 0)%nat = Some lo_s →
            in_ g lo_s MemNode_ValueIn = Some lv →
            lv = m ∨ (has_opcode g Op_ConvL2I lv = true ∧ in_ g lv 1 = Some m) →
            let s0 := if xorb VM_LITTLE_ENDIAN rev
                      then s_first - Z.of_nat (n - 1) * bits else s_first in
            (rev = true → memory_size g _store = 1 ∧ ReverseBytes_supported = true)
            ∧ (∀ (k : nat) s v, (k < n)%nat →
                 merge_list !! (if xorb VM_LITTLE_ENDIAN rev then n - 1 - k else k)%nat
                 = Some s →
                 in_ g s MemNode_ValueIn = Some v →
                 is_con_RShift g v = Some (Some m, s0 + Z.of_nat k * bits))
            ∧ (∃ s v, merge_list !! (if xorb VM_LITTLE_ENDIAN rev then n - 1 else 0)%nat
                      = Some s
                      ∧ in_ g s MemNode_ValueIn = Some v
                      ∧ (v = m ∨ (has_opcode g Op_ConvL2I v = true ∧ in_ g v 1 = Some m)))
            ∧ (in_ g m 1 ≠ Some m → (∀ x, in_ g m 1 = Some x → in_ g x 1 ≠ Some m) →
               s0 = 0)) as Hfin.
  { intros rev m lv lo_s -> Hrevb Hlo_s Hlv Hlvm s0.
    split.
    { intros ->. apply Hrev. apply bool_decide_eq_true in Hrevb. exact Hrevb. }
    split.
    { intros k s v Hk Hs Hv. destruct (Hsh _ s Hs) as (v' & Hv' & Hr').
      rewrite Hv in Hv'. injection Hv' as <-. rewrite Hr'. f_equal. f_equal.
      unfold step, s0. rewrite Hrevb.
      destruct (xorb VM_LITTLE_ENDIAN rev); cbv beta iota;
        [rewrite !Nat2Z.inj_sub by lia|]; lia. }
    split; [exists lo_s, lv; auto|].
    intros Hc1 Hc2. apply (base_piece_shift g m lv s0); try assumption.
    destruct (Hsh _ lo_s Hlo_s) as (v' & Hv' & Hr').
    rewrite Hlv in Hv'. injection Hv' as <-. rewrite Hr'. f_equal. f_equal.
    unfold step, s0. rewrite Hrevb.
    destruct (xorb VM_LITTLE_ENDIAN rev); cbv beta iota; lia. }
  set (size := memory_size g _store * Z.of_nat (length merge_list)).
  assert (∀ (hv lv lo_s : nat) (rev : bool) sh_h iv,
            is_con_RShift g hv = Some (b, sh_h) →
            bool_decide (vo = Reverse) = rev →
            merge_list !! (if xorb VM_LITTLE_ENDIAN rev then n - 1 else 0)%nat = Some lo_s →
            in_ g lo_s MemNode_ValueIn = Some lv →
            match Some hv ≫= is_con_RShift g, Some lv with
            | Some (hi_base, _), Some lo =>
                let merged :=
                  if negb (bool_decide (Some lo = hi_base)) && has_opcode g Op_ConvL2I lo
                  then in_ g lo 1 else Some lo in
                if bool_decide (merged ≠ hi_base) then None
                else
                  match merged with
                  | Some m =>
                      Some (base_value m,
                            match phase_type m with TypeLong _ _ => true | _ => false end)
                  | None => None
                  end
            | _, _ => None
            end = Some iv →
            ∃ (m : nat) (s0 : Z),
              iv = (base_value m, match phase_type m with TypeLong _ _ => true | _ => false end)
              ∧ (rev = true → memory_size g _store = 1 ∧ ReverseBytes_supported = true)
              ∧ (∀ (k : nat) s v, (k < n)%nat →
                   merge_list !! (if xorb VM_LITTLE_ENDIAN rev then n - 1 - k else k)%nat
                   = Some s →
                   in_ g s MemNode_ValueIn = Some v →
                   is_con_RShift g v = Some (Some m, s0 + Z.of_nat k * bits))
              ∧ (∃ s v, merge_list !! (if xorb VM_LITTLE_ENDIAN rev then n - 1 else 0)%nat
                        = Some s
                        ∧ in_ g s MemNode_ValueIn = Some v
                        ∧ (v = m ∨ (has_opcode g Op_ConvL2I v = true ∧ in_ g v 1 = Some m)))
              ∧ (in_ g m 1 ≠ Some m → (∀ x, in_ g m 1 = Some x → in_ g x 1 ≠ Some m) →
                 s0 = 0)) as Hcase.
  { intros hv lv lo_s rev sh_h iv Hhv Hrevb Hlo_s Hlv Hm.
    destruct (merged_input_base g (Some hv) (Some lv) iv Hm)
      as (hv' & lv' & m & sh & [= <-] & [= <-] & Hbase & -> & Hlvm).
    rewrite Hhv in Hbase. injection Hbase as Hb _.
    exists m, (if xorb VM_LITTLE_ENDIAN rev
               then s_first - Z.of_nat (n - 1) * bits else s_first).
    split; [reflexivity|].
    apply (Hfin rev m lv lo_s Hb Hrevb Hlo_s Hlv Hlvm). }
  clear Hfin. clearbody step.
  destruct VM_LITTLE_ENDIAN eqn:Hle; destruct (decide (vo = Reverse)) as [Hr|Hr];
    cbv beta iota zeta; fold size; intros Hrun.
  - inner_value Hrun iv Hm.
    destruct (Hcase fv sv _store true _ iv Hrf (bool_decide_eq_true_2 _ Hr) Hfirst Hsv Hm)
      as (m & s0 & -> & Hrest).
    exists m, s0, true. split; [|exact Hrest].
    destruct (size =? 8) eqn:E8; [|destruct (size =? 4) eqn:E4];
      injection Hrun as <-; cbn [ms_value ms_memory_size make_merged_store];
      fold size; rewrite ?E8, ?E4; reflexivity.
  - inner_value Hrun iv Hm.
    destruct (Hcase sv fv f false _ iv Hrs (bool_decide_eq_false_2 _ Hr) Hf_last Hfv Hm)
      as (m & s0 & -> & Hrest).
    exists m, s0, false. split; [|exact Hrest].
    injection Hrun as <-. reflexivity.
  - inner_value Hrun iv Hm.
    destruct (Hcase sv fv f true _ iv Hrs (bool_decide_eq_true_2 _ Hr) Hf_last Hfv Hm)
      as (m & s0 & -> & Hrest).
    exists m, s0, true. split; [|exact Hrest].
    destruct (size =? 8) eqn:E8; [|destruct (size =? 4) eqn:E4];
      injection Hrun as <-; cbn [ms_value ms_memory_size make_merged_store];
      fold size; rewrite ?E8, ?E4; reflexivity.
  - inner_value Hrun iv Hm.
    destruct (Hcase fv sv _store false _ iv Hrf (bool_decide_eq_false_2 _ Hr) Hfirst Hsv Hm)
      as (m & s0 & -> & Hrest).
    exists m, s0, false. split; [|exact Hrest].
    injection Hrun as <-. reflexivity.
Qed.

Section OnPieces.
#[local] Existing Instance Examples.flags.
#[local] Existing Instance PieceExamples.phase_pieces.
#[local] Existing Instance Examples.pointers_stores.

(** On [g_pieces] the merger of the store 81 merges 81 and 80 into a
    store of the int 70. *)
Lemma merged_pieces_form_the_base_witness :
  ∃ ms, run PieceExamples.g_pieces 81 = Some ms
    ∧ ms_merged ms = [81; 80]%nat
    ∧ ms_value ms = base_value 70
    ∧ ∃ (m : nat) (s0 : Z) (rev : bool),
        ms_value ms
        = (let v := if match phase_type m with TypeLong _ _ => true | _ => false end
                       && (ms_memory_size ms <=? 4)
                    then ConvL2I (base_value m) else base_value m in
           if rev then
             if ms_memory_size ms =? 8 then ReverseBytesL v
             else if ms_memory_size ms =? 4 then ReverseBytesI v
             else ReverseBytesS v
           else v)
        ∧ (rev = true → memory_size PieceExamples.g_pieces 81 = 1
                        ∧ ReverseBytes_supported = true)
        ∧ (∀ (k : nat) s v, (k < length (ms_merged ms))%nat →
             ms_merged ms !! (if xorb VM_LITTLE_ENDIAN rev
                              then length (ms_merged ms) - 1 - k else k)%nat = Some s →
             in_ PieceExamples.g_pieces s MemNode_ValueIn = Some v →
             is_con_RShift PieceExamples.g_pieces v
             = Some (Some m, s0 + Z.of_nat k * (memory_size PieceExamples.g_pieces 81 * 8)))
        ∧ (∃ s v, ms_merged ms !! (if xorb VM_LITTLE_ENDIAN rev
                                   then length (ms_merged ms) - 1 else 0)%nat = Some s
                  ∧ in_ PieceExamples.g_pieces s MemNode_ValueIn = Some v
                  ∧ (v = m ∨ (has_opcode PieceExamples.g_pieces Op_ConvL2I v = true
                              ∧ in_ PieceExamples.g_pieces v 1 = Some m)))
        ∧ (in_ PieceExamples.g_pieces m 1 ≠ Some m →
           (∀ x, in_ PieceExamples.g_pieces m 1 = Some x →
                 in_ PieceExamples.g_pieces x 1 ≠ Some m) →
           s0 = 0).
Proof.
  eexists. split; [vm_compute; reflexivity|]. split; [reflexivity|].
  split; [reflexivity|].
  apply (merged_pieces_form_the_base PieceExamples.g_pieces 81).
  - vm_compute. reflexivity.
  - vm_compute. reflexivity.
Defined.

End OnPieces.

End MergePieceFacts.
